(** * QTPFS path search (rts/Sim/Path/QTPFS/PathSearch.cpp)

    A shallow embedding of the A*/Dijkstra driver of the quadtree path
    finder: [Initialize], [Execute], [UpdateNode], [Iterate], [Finalize],
    [TracePath], [SmoothPath], [SharedFinalize] and [GetHash]. Two
    further parts of the engine follow it, each with its own data: the
    reading side of the file handler
    (rts/System/FileSystem/FileHandler.cpp) and the piece trees of
    models (rts/Rendering/Models/3DModel.cpp).

    Layout: Part I holds the model (numbers, data, operations, the
    predicates used in statements and a few concrete examples);
    Part II holds the lemmas and theorems. *)

From Stdlib Require Import ZArith Lia Bool List.
From Stdlib Require Import Floats.SpecFloat.
From stdpp Require Import base option list gmap.

Local Open Scope Z_scope.

(* ===================================================================== *)
(** * Part I -- the model                                                  *)
(* ===================================================================== *)

(** ** [unsigned int]: 32 bits, arithmetic modulo [2^32] *)

Definition UINT_MOD : Z := 2 ^ 32.

Definition uint_wrap (a : Z) : Z := a mod UINT_MOD.
Definition uint_add (a b : Z) : Z := uint_wrap (a + b).
Definition uint_sub (a b : Z) : Z := uint_wrap (a - b).
Definition uint_mul (a b : Z) : Z := uint_wrap (a * b).
Definition uint_max (a b : Z) : Z := if a <? b then b else a.
Definition uint_min (a b : Z) : Z := if b <? a then b else a.

Definition is_uint (a : Z) : Prop := 0 <= a < UINT_MOD.

(** ** [float]: IEEE 754 binary32, as [SpecFloat] with 24 bits of
    precision and infinities at exponent 128 *)

Abbreviation float := spec_float.

Definition prec : Z := 24.
Definition emax : Z := 128.

Definition fadd : float -> float -> float := SFadd prec emax.
Definition fsub : float -> float -> float := SFsub prec emax.
Definition fmul : float -> float -> float := SFmul prec emax.
Definition fdiv : float -> float -> float := SFdiv prec emax.
Definition fsqrt : float -> float := SFsqrt prec emax.
Definition fabs : float -> float := SFabs.

(** The C++ comparison operators; each is [false] as soon as an operand
    is NaN, so [a >= b] is not the negation of [a < b]. *)
Definition flt (a b : float) : bool := SFltb a b.   (* a <  b *)
Definition fle (a b : float) : bool := SFleb a b.   (* a <= b *)
Definition fgt (a b : float) : bool := SFltb b a.   (* a >  b *)
Definition fge (a b : float) : bool := SFleb b a.   (* a >= b *)
Definition feq (a b : float) : bool := SFeqb a b.   (* a == b *)

(** [std::max] and [std::min] on floats: [(a < b) ? b : a] and
    [(b < a) ? b : a]. *)
Definition fmax (a b : float) : float := if flt a b then b else a.
Definition fmin (a b : float) : float := if flt b a then b else a.

(** Conversion of an integer to [float] (round to nearest, ties to even). *)
Definition float_of_Z (n : Z) : float := binary_normalize prec emax n 0 false.

(** [int(b)] used as a factor of a float product: [1.0f] or [0.0f]. *)
Definition float_of_bool (b : bool) : float := float_of_Z (if b then 1 else 0).

Definition f0_0 : float := S754_zero false.                              (* 0.0f   *)
Definition f1_0 : float := float_of_Z 1.                                 (* 1.0f   *)
Definition f2_0 : float := float_of_Z 2.                                 (* 2.0f   *)
Definition f0_995 : float := fdiv (float_of_Z 995) (float_of_Z 1000).    (* 0.995f *)
Definition f0_001 : float := fdiv (float_of_Z 1) (float_of_Z 1000).      (* 0.001f *)

(** Conversion of a float to [unsigned int]: truncation towards zero,
    wrapped (the conversion is undefined in C++ outside the range). *)
Definition uint_of_float (f : float) : Z :=
  match f with
  | S754_finite false m e =>
      uint_wrap (if 0 <=? e then Z.pos m * 2 ^ e else Z.pos m / 2 ^ (- e))
  | _ => 0
  end.

(** A value of the binary32 format: every C++ [float] is one. *)
Definition is_binary32 (f : float) : Prop := valid_binary prec emax f = true.

Definition is_nan (f : float) : bool :=
  match f with S754_nan => true | _ => false end.

(** Zero of either sign, or NaN: the possible values of [h * 0.0f]. *)
Definition zero_or_nan (f : float) : Prop :=
  match f with
  | S754_zero _ | S754_nan => True
  | _ => False
  end.

(** [x] is a number: a zero or a finite value, no infinity and no NaN. *)
Definition is_finite (x : float) : bool :=
  match x with
  | S754_zero _ | S754_finite _ _ _ => true
  | _ => false
  end.

(** [x] is a number of the format and [|x| < 2^k]. *)
Definition small (k : Z) (x : float) : bool :=
  valid_binary prec emax x
  && match x with
     | S754_zero _ => true
     | S754_finite _ m e => Zdigits2 (Z.pos m) + e <=? k
     | _ => false
     end.

(** Modelled from the spec: PathDefines.hpp is not among the sources;
    [QTPFS_POSITIVE_INFINITY] is "a float value conventionally
    std::numeric_limits<float>::infinity()". *)
Definition QTPFS_POSITIVE_INFINITY : float := S754_infinity false.

(** ** [float3] *)

Module float3.

Record t : Type := mk { x : float; y : float; z : float }.

Definition ZeroVector : t := mk f0_0 f0_0 f0_0.

(** Modelled from the spec: float3.h is not among the sources. The
    operators are component-wise; [SqDistance] is the squared Euclidean
    distance, [distance] its square root ("Euclidean, not squared"),
    [SafeNormalize] "returns the zero vector for zero inputs", and two
    points are equal when their coordinates are. *)
Definition sub (a b : t) : t :=
  mk (fsub (x a) (x b)) (fsub (y a) (y b)) (fsub (z a) (z b)).

Definition dot (a b : t) : float :=
  fadd (fadd (fmul (x a) (x b)) (fmul (y a) (y b))) (fmul (z a) (z b)).

Definition SqLength (a : t) : float := dot a a.

Definition SqDistance (a b : t) : float := SqLength (sub a b).

Definition distance (a b : t) : float := fsqrt (SqDistance a b).

Definition SafeNormalize (a : t) : t :=
  let l := fsqrt (SqLength a) in
  if flt f0_0 l then mk (fdiv (x a) l) (fdiv (y a) l) (fdiv (z a) l)
  else ZeroVector.

Definition eqb (a b : t) : bool :=
  feq (x a) (x b) && feq (y a) (y b) && feq (z a) (z b).

Definition neb (a b : t) : bool := negb (eqb a b).

Definition set_x (a : t) (v : float) : t := mk v (y a) (z a).
Definition set_z (a : t) (v : float) : t := mk (x a) (y a) v.

End float3.

Abbreviation point := float3.t.

(** ** Nodes *)

(** A node is referred to by its address; the node layer is the memory
    holding the node objects. [NULL] back-links are [None]. *)
Definition NodeId : Type := nat.

(** Modelled from the spec: Node.hpp is not among the sources. The
    fields are those of section 3 of the specification: identity, extent
    in terrain squares, move cost, neighbours, and the per-search scratch
    (search state, magic number, back-link, path costs, numPrevNodes). *)
Record INode : Type := mkINode {
  nodeNumber : Z;
  xmin : Z;
  zmin : Z;
  xmax : Z;
  zmax : Z;
  moveCost : float;
  neighbors : list NodeId;
  nodeSearchState : Z;
  magicNumber : Z;
  prevNode : option NodeId;
  fCost : float;
  gCost : float;
  hCost : float;
  mCost : float;
  numPrevNodes : Z
}.

(** Modelled from the spec: the "derived midpoint" of the extent. *)
Definition xmid (n : INode) : Z := Z.shiftr (uint_add (xmin n) (xmax n)) 1.
Definition zmid (n : INode) : Z := Z.shiftr (uint_add (zmin n) (zmax n)) 1.

Definition SetMoveCost (v : float) (n : INode) : INode :=
  mkINode (nodeNumber n) (xmin n) (zmin n) (xmax n) (zmax n) v (neighbors n)
    (nodeSearchState n) (magicNumber n) (prevNode n)
    (fCost n) (gCost n) (hCost n) (mCost n) (numPrevNodes n).

Definition SetSearchState (v : Z) (n : INode) : INode :=
  mkINode (nodeNumber n) (xmin n) (zmin n) (xmax n) (zmax n) (moveCost n) (neighbors n)
    v (magicNumber n) (prevNode n)
    (fCost n) (gCost n) (hCost n) (mCost n) (numPrevNodes n).

Definition SetMagicNumber (v : Z) (n : INode) : INode :=
  mkINode (nodeNumber n) (xmin n) (zmin n) (xmax n) (zmax n) (moveCost n) (neighbors n)
    (nodeSearchState n) v (prevNode n)
    (fCost n) (gCost n) (hCost n) (mCost n) (numPrevNodes n).

Definition SetPrevNode (v : option NodeId) (n : INode) : INode :=
  mkINode (nodeNumber n) (xmin n) (zmin n) (xmax n) (zmax n) (moveCost n) (neighbors n)
    (nodeSearchState n) (magicNumber n) v
    (fCost n) (gCost n) (hCost n) (mCost n) (numPrevNodes n).

Definition SetNumPrevNodes (v : Z) (n : INode) : INode :=
  mkINode (nodeNumber n) (xmin n) (zmin n) (xmax n) (zmax n) (moveCost n) (neighbors n)
    (nodeSearchState n) (magicNumber n) (prevNode n)
    (fCost n) (gCost n) (hCost n) (mCost n) v.

Inductive PathCostType : Type :=
| NODE_PATH_COST_F | NODE_PATH_COST_G | NODE_PATH_COST_H | NODE_PATH_COST_M.

Definition GetPathCost (c : PathCostType) (n : INode) : float :=
  match c with
  | NODE_PATH_COST_F => fCost n
  | NODE_PATH_COST_G => gCost n
  | NODE_PATH_COST_H => hCost n
  | NODE_PATH_COST_M => mCost n
  end.

Definition SetPathCost (c : PathCostType) (v : float) (n : INode) : INode :=
  mkINode (nodeNumber n) (xmin n) (zmin n) (xmax n) (zmax n) (moveCost n) (neighbors n)
    (nodeSearchState n) (magicNumber n) (prevNode n)
    (match c with NODE_PATH_COST_F => v | _ => fCost n end)
    (match c with NODE_PATH_COST_G => v | _ => gCost n end)
    (match c with NODE_PATH_COST_H => v | _ => hCost n end)
    (match c with NODE_PATH_COST_M => v | _ => mCost n end)
    (numPrevNodes n).

(** Modelled from the spec: the low bit of a search state is [OPEN = 0]
    or [CLOSED = 1]. *)
Definition NODE_STATE_OPEN : Z := 0.
Definition NODE_STATE_CLOSED : Z := 1.

Definition NodeStore : Type := NodeId -> INode.

(** [p->f(...)] for a setter [f]: the object at [p] is replaced. *)
Definition update (p : NodeId) (f : INode -> INode) (m : NodeStore) : NodeStore :=
  fun q => if Nat.eqb q p then f (m q) else m q.

(** ** What the sources leave to other files

    The compile-time flags of PathDefines.hpp, [SQUARE_SIZE] of
    GlobalConstants.h, the edge bits of PathEnums.hpp, and the geometry
    of Node.cpp, NodeLayer and float3 are not among the sources; the
    model takes them as parameters. *)
Record Externals : Type := mkExternals {
  SQUARE_SIZE : Z;
  QTPFS_SUPPORT_PARTIAL_SEARCHES : bool;
  QTPFS_SMOOTH_PATHS : bool;
  QTPFS_WEIGHTED_HEURISTIC_COST : bool;
  QTPFS_CACHED_EDGE_TRANSITION_POINTS : bool;
  QTPFS_CONSERVATIVE_NEIGHBOR_CACHE_UPDATES : bool;
  (* this->GetNeighborEdgeTransitionPoint(ngb, pos) *)
  GetNeighborEdgeTransitionPoint : INode -> INode -> point -> point;
  (* this->GetNeighborEdgeTransitionPoint(ngbIdx) *)
  GetNeighborEdgeTransitionPointIdx : INode -> nat -> point;
  (* this->GetNeighborRelation(ngb) *)
  GetNeighborRelation : INode -> INode -> Z;
  REL_NGB_EDGE_T : Z;
  REL_NGB_EDGE_R : Z;
  REL_NGB_EDGE_B : Z;
  REL_NGB_EDGE_L : Z;
  (* float3::ClampInBounds *)
  ClampInBounds : point -> point;
  (* NodeLayer::GetNode(x, z) *)
  GetNode : Z -> Z -> NodeId
}.

(** ** The search object *)

Inductive SearchType : Type := PATH_SEARCH_ASTAR | PATH_SEARCH_DIJKSTRA.

Record PathRectangle : Type := mkPathRectangle {
  x1 : Z; z1 : Z; x2 : Z; z2 : Z
}.

Record PathSearch : Type := mkPathSearch {
  srcPoint : point;
  tgtPoint : point;
  curPoint : point;
  nxtPoint : point;
  srcNode : NodeId;
  tgtNode : NodeId;
  curNode : option NodeId;
  nxtNode : option NodeId;
  minNode : NodeId;
  searchRect : PathRectangle;
  searchState : Z;
  searchMagic : Z;
  hCostMult : float;
  haveFullPath : bool;
  havePartPath : bool;
  searchType : SearchType
}.

(** The node layer, the static open heap and the search object. *)
Record World : Type := mkWorld {
  nodes : NodeStore;
  openNodes : list NodeId;
  PS : PathSearch
}.

Definition with_nodes (m : NodeStore) (w : World) : World :=
  mkWorld m (openNodes w) (PS w).
Definition with_openNodes (h : list NodeId) (w : World) : World :=
  mkWorld (nodes w) h (PS w).
Definition with_PS (s : PathSearch) (w : World) : World :=
  mkWorld (nodes w) (openNodes w) s.

Definition set_curPoint (v : point) (s : PathSearch) : PathSearch :=
  mkPathSearch (srcPoint s) (tgtPoint s) v (nxtPoint s) (srcNode s) (tgtNode s)
    (curNode s) (nxtNode s) (minNode s) (searchRect s) (searchState s) (searchMagic s)
    (hCostMult s) (haveFullPath s) (havePartPath s) (searchType s).

Definition set_nxt (n : NodeId) (v : point) (s : PathSearch) : PathSearch :=
  mkPathSearch (srcPoint s) (tgtPoint s) (curPoint s) v (srcNode s) (tgtNode s)
    (curNode s) (Some n) (minNode s) (searchRect s) (searchState s) (searchMagic s)
    (hCostMult s) (haveFullPath s) (havePartPath s) (searchType s).

Definition set_curNode (n : NodeId) (s : PathSearch) : PathSearch :=
  mkPathSearch (srcPoint s) (tgtPoint s) (curPoint s) (nxtPoint s) (srcNode s) (tgtNode s)
    (Some n) (nxtNode s) (minNode s) (searchRect s) (searchState s) (searchMagic s)
    (hCostMult s) (haveFullPath s) (havePartPath s) (searchType s).

Definition set_minNode (n : NodeId) (s : PathSearch) : PathSearch :=
  mkPathSearch (srcPoint s) (tgtPoint s) (curPoint s) (nxtPoint s) (srcNode s) (tgtNode s)
    (curNode s) (nxtNode s) n (searchRect s) (searchState s) (searchMagic s)
    (hCostMult s) (haveFullPath s) (havePartPath s) (searchType s).

Definition set_target (n : NodeId) (v : point) (s : PathSearch) : PathSearch :=
  mkPathSearch (srcPoint s) v (curPoint s) (nxtPoint s) (srcNode s) n
    (curNode s) (nxtNode s) (minNode s) (searchRect s) (searchState s) (searchMagic s)
    (hCostMult s) (haveFullPath s) (havePartPath s) (searchType s).

Definition set_stamps (st mg : Z) (s : PathSearch) : PathSearch :=
  mkPathSearch (srcPoint s) (tgtPoint s) (curPoint s) (nxtPoint s) (srcNode s) (tgtNode s)
    (curNode s) (nxtNode s) (minNode s) (searchRect s) st mg
    (hCostMult s) (haveFullPath s) (havePartPath s) (searchType s).

Definition set_hCostMult (v : float) (s : PathSearch) : PathSearch :=
  mkPathSearch (srcPoint s) (tgtPoint s) (curPoint s) (nxtPoint s) (srcNode s) (tgtNode s)
    (curNode s) (nxtNode s) (minNode s) (searchRect s) (searchState s) (searchMagic s)
    v (haveFullPath s) (havePartPath s) (searchType s).

Definition set_have (full part : bool) (s : PathSearch) : PathSearch :=
  mkPathSearch (srcPoint s) (tgtPoint s) (curPoint s) (nxtPoint s) (srcNode s) (tgtNode s)
    (curNode s) (nxtNode s) (minNode s) (searchRect s) (searchState s) (searchMagic s)
    (hCostMult s) full part (searchType s).

(** ** The open heap *)

(** Modelled from the spec: the binary heap of open nodes is not among
    the sources. Section 4.3: a min-heap keyed by each node's current F
    cost; [top]/[pop] give the minimum F, ties go to the node inserted
    first, and [resort] restores the order after a key decreased. The
    model keeps the open nodes in insertion order and selects the
    minimum on demand, so [resort] has nothing left to do. *)
Definition heap_reset : list NodeId := [].

Definition heap_push (n : NodeId) (h : list NodeId) : list NodeId := h ++ [n].

Definition heap_empty (h : list NodeId) : bool :=
  match h with [] => true | _ :: _ => false end.

Definition heap_better (ns : NodeStore) (best c : NodeId) : NodeId :=
  if flt (fCost (ns c)) (fCost (ns best)) then c else best.

Definition heap_top (ns : NodeStore) (h : list NodeId) : option NodeId :=
  match h with
  | [] => None
  | n :: t => Some (fold_left (heap_better ns) t n)
  end.

Fixpoint remove_first (n : NodeId) (h : list NodeId) : list NodeId :=
  match h with
  | [] => []
  | m :: t => if Nat.eqb m n then t else m :: remove_first n t
  end.

Definition heap_pop (ns : NodeStore) (h : list NodeId) : list NodeId :=
  match heap_top ns h with
  | None => h
  | Some n => remove_first n h
  end.

Definition heap_resort (n : NodeId) (h : list NodeId) : list NodeId := h.

(** ** PathSearch::Initialize (lines 21-44) *)

Definition Initialize (E : Externals) (sourcePoint targetPoint : point)
    (searchArea : PathRectangle) (s : PathSearch) : PathSearch :=
  let sp := ClampInBounds E sourcePoint in
  let tp := ClampInBounds E targetPoint in
  let sq := float_of_Z (SQUARE_SIZE E) in
  let sn := GetNode E (uint_of_float (fdiv (float3.x sp) sq))
                      (uint_of_float (fdiv (float3.z sp) sq)) in
  let tn := GetNode E (uint_of_float (fdiv (float3.x tp) sq))
                      (uint_of_float (fdiv (float3.z tp) sq)) in
  mkPathSearch sp tp sp tp sn tn None None sn searchArea
    (searchState s) (searchMagic s) (hCostMult s)
    (haveFullPath s) (havePartPath s) (searchType s).

(** ** PathSearch::UpdateNode (lines 129-151) *)

Definition UpdateNode (E : Externals) (s : PathSearch)
    (nxt : NodeId) (cur : option NodeId) (g h m : float)
    (ns : NodeStore) : NodeStore :=
  let ns := update nxt (SetSearchState (Z.lor (searchState s) NODE_STATE_OPEN)) ns in
  let ns := update nxt (SetPrevNode cur) ns in
  let ns := update nxt (SetPathCost NODE_PATH_COST_G g) ns in
  let ns := update nxt (SetPathCost NODE_PATH_COST_H (fmul h (hCostMult s))) ns in
  let ns := update nxt (SetPathCost NODE_PATH_COST_F (fadd g (fmul h (hCostMult s)))) ns in
  let ns := update nxt (SetPathCost NODE_PATH_COST_M m) ns in
  if QTPFS_WEIGHTED_HEURISTIC_COST E then
    update nxt (SetNumPrevNodes
                  match cur with
                  | Some c => uint_add (numPrevNodes (ns c)) 1
                  | None => 0
                  end) ns
  else ns.

(** ** PathSearch::Iterate (lines 153-295) *)

(** The edge-transition point towards neighbour [nxt], the [i]-th
    neighbour of [cur] (lines 239-243). *)
Definition Iterate_nxtPoint (E : Externals) (w : World)
    (cur : NodeId) (i : nat) (nxt : NodeId) : point :=
  if QTPFS_CACHED_EDGE_TRANSITION_POINTS E
  then GetNeighborEdgeTransitionPointIdx E (nodes w cur) i
  else GetNeighborEdgeTransitionPoint E (nodes w cur) (nodes w nxt) (curPoint (PS w)).

(** The three costs computed for a neighbour (lines 254-265). *)
Definition Iterate_mCost (w : World) (cur nxt : NodeId) : float :=
  let isTarget := Nat.eqb nxt (tgtNode (PS w)) in
  fadd (fadd (GetPathCost NODE_PATH_COST_M (nodes w cur)) (moveCost (nodes w cur)))
       (fmul (moveCost (nodes w nxt)) (float_of_bool isTarget)).

Definition Iterate_gCost (w : World) (cur nxt : NodeId) (p : point) : float :=
  let isTarget := Nat.eqb nxt (tgtNode (PS w)) in
  let gDist := float3.distance (curPoint (PS w)) p in
  let hDist := float3.distance p (tgtPoint (PS w)) in
  fadd (fadd (GetPathCost NODE_PATH_COST_G (nodes w cur))
             (fmul (moveCost (nodes w cur)) gDist))
       (fmul (fmul (moveCost (nodes w nxt)) hDist) (float_of_bool isTarget)).

Definition Iterate_hCost (w : World) (hWeight : float) (nxt : NodeId) (p : point) : float :=
  let isTarget := Nat.eqb nxt (tgtNode (PS w)) in
  let hDist := float3.distance p (tgtPoint (PS w)) in
  fmul (fmul hWeight hDist) (float_of_bool (negb isTarget)).

(** One turn of the loop over the neighbours (lines 211-294). *)
Definition Iterate_body (E : Externals) (hWeight : float) (cur : NodeId)
    (i : nat) (nxt : NodeId) (w : World) : World :=
  let p := Iterate_nxtPoint E w cur i nxt in
  let w := with_PS (set_nxt nxt p (PS w)) w in
  let s := PS w in
  let ns := nodes w in
  if feq (moveCost (ns nxt)) QTPFS_POSITIVE_INFINITY then w
  else
    let isCurrent := searchState s <=? nodeSearchState (ns nxt) in
    let isClosed := Z.land (nodeSearchState (ns nxt)) 1 =? NODE_STATE_CLOSED in
    let m := Iterate_mCost w cur nxt in
    let g := Iterate_gCost w cur nxt p in
    let h := Iterate_hCost w hWeight nxt p in
    if negb isCurrent then
      let w := with_nodes (UpdateNode E s nxt (Some cur) g h m ns) w in
      with_openNodes (heap_push nxt (openNodes w)) w
    else if fge g (GetPathCost NODE_PATH_COST_G (ns nxt)) then w
    else
      let w := if isClosed then with_openNodes (heap_push nxt (openNodes w)) w else w in
      let w := with_nodes (UpdateNode E s nxt (Some cur) g h m ns) w in
      with_openNodes (heap_resort nxt (openNodes w)) w.

Fixpoint Iterate_loop (E : Externals) (hWeight : float) (cur : NodeId)
    (i : nat) (ngbs : list NodeId) (w : World) : World :=
  match ngbs with
  | [] => w
  | nxt :: rest => Iterate_loop E hWeight cur (S i) rest (Iterate_body E hWeight cur i nxt w)
  end.

(** The heuristic weight (lines 191-201). *)
Definition Iterate_hWeight (E : Externals) (n : INode) : float :=
  if QTPFS_WEIGHTED_HEURISTIC_COST E
  then fsqrt (fdiv (GetPathCost NODE_PATH_COST_M n)
                   (float_of_Z (uint_add (numPrevNodes n) 1)))
  else f2_0.

(** Lines 157-166: the top of the heap becomes [curNode], is stamped
    CLOSED (and with the magic number, in the conservative mode) and is
    popped. *)
Definition Iterate_stamp (E : Externals) (s : PathSearch) (n : INode) : INode :=
  let n := SetSearchState (Z.lor (searchState s) NODE_STATE_CLOSED) n in
  if QTPFS_CONSERVATIVE_NEIGHBOR_CACHE_UPDATES E
  then SetMagicNumber (searchMagic s) n else n.

Definition Iterate_pop (E : Externals) (cur : NodeId) (w : World) : World :=
  let s := set_curNode cur (PS w) in
  let ns := update cur (Iterate_stamp E s) (nodes w) in
  mkWorld ns (heap_pop ns (openNodes w)) s.

(** Line 175: the point at which [cur] is entered; a NULL back-link
    handed to the edge-transition computation has no value. *)
Definition Iterate_curPoint (E : Externals) (cur : NodeId) (w : World) : option point :=
  if negb (Nat.eqb cur (srcNode (PS w)))
  then option_map
         (fun pv => GetNeighborEdgeTransitionPoint E (nodes w cur) (nodes w pv) (curPoint (PS w)))
         (prevNode (nodes w cur))
  else Some (curPoint (PS w)).

(** Lines 179-182: the mid-point of [n] lies outside the search rectangle. *)
Definition outside_searchRect (r : PathRectangle) (n : INode) : bool :=
  (xmid n <? x1 r) || (zmid n <? z1 r) || (x2 r <? xmid n) || (z2 r <? zmid n).

(** Lines 184-294: the minimum-H book-keeping and the neighbours. *)
Definition Iterate_expand (E : Externals) (cur : NodeId) (w : World) : World :=
  let w :=
    if QTPFS_SUPPORT_PARTIAL_SEARCHES E
       && flt (GetPathCost NODE_PATH_COST_H (nodes w cur))
              (GetPathCost NODE_PATH_COST_H (nodes w (minNode (PS w))))
    then with_PS (set_minNode cur (PS w)) w else w in
  Iterate_loop E (Iterate_hWeight E (nodes w cur)) cur 0 (neighbors (nodes w cur)) w.

(** [Iterate] is called on a non-empty heap only; [None] stands for the
    two undefined cases, [top()] of an empty heap and a NULL back-link. *)
Definition Iterate (E : Externals) (w : World) : option World :=
  match heap_top (nodes w) (openNodes w) with
  | None => None
  | Some cur =>
    let w := Iterate_pop E cur w in
    if Nat.eqb cur (tgtNode (PS w)) then Some w
    else
      match Iterate_curPoint E cur w with
      | None => None
      | Some cp =>
        let w := with_PS (set_curPoint cp (PS w)) w in
        if feq (moveCost (nodes w cur)) QTPFS_POSITIVE_INFINITY then Some w
        else if outside_searchRect (searchRect (PS w)) (nodes w cur) then Some w
        else Some (Iterate_expand E cur w)
      end
  end.

(** ** PathSearch::Execute (lines 46-125) *)

Definition hCostMult_of (t : SearchType) : float :=
  match t with
  | PATH_SEARCH_ASTAR => f1_0
  | PATH_SEARCH_DIJKSTRA => f0_0
  end.

(** Lines 69-88: the heuristic multiplier, the blocked-source escape
    hatch, and the first open node. *)
Definition Execute_init (E : Externals) (srcBlocked : bool) (w : World) : World :=
  let s := set_hCostMult (hCostMult_of (searchType (PS w))) (PS w) in
  let src := srcNode s in
  let ns := if srcBlocked then update src (SetMoveCost f0_0) (nodes w) else nodes w in
  let h := heap_push src heap_reset in
  let ns := UpdateNode E s src None f0_0
              (float3.distance (srcPoint s) (tgtPoint s)) (moveCost (ns src)) ns in
  mkWorld ns h s.

Definition curNode_is (n : NodeId) (s : PathSearch) : bool :=
  match curNode s with
  | Some c => Nat.eqb c n
  | None => false
  end.

(** Lines 91-103: the body of the [while (!openNodes.empty())] loop. *)
Definition Execute_step (E : Externals) (w : World) : option World :=
  match Iterate E w with
  | None => None
  | Some w =>
    let s := PS w in
    let s := set_have (curNode_is (tgtNode s) s) (negb (Nat.eqb (minNode s) (srcNode s))) s in
    let w := with_PS s w in
    Some (if haveFullPath s then with_openNodes heap_reset w else w)
  end.

(** The loop itself; [fuel] bounds the number of iterations. *)
Fixpoint Execute_loop (E : Externals) (fuel : nat) (w : World) : option World :=
  match fuel with
  | O => None
  | S fuel =>
    if heap_empty (openNodes w) then Some w
    else match Execute_step E w with
         | None => None
         | Some w => Execute_loop E fuel w
         end
  end.

(** Lines 106-124: the move cost of a blocked source is restored, a
    partial result moves the target, and the result is returned. *)
Definition Execute_finish (E : Externals) (srcBlocked : bool) (w : World) : World * bool :=
  let s := PS w in
  let ns := if srcBlocked
            then update (srcNode s) (SetMoveCost QTPFS_POSITIVE_INFINITY) (nodes w)
            else nodes w in
  let s :=
    if QTPFS_SUPPORT_PARTIAL_SEARCHES E && (negb (haveFullPath s) && havePartPath s)
    then
      let mn := ns (minNode s) in
      let p := float3.set_x (tgtPoint s) (float_of_Z (uint_mul (xmid mn) (SQUARE_SIZE E))) in
      let p := float3.set_z p (float_of_Z (uint_mul (zmid mn) (SQUARE_SIZE E))) in
      set_target (minNode s) p s
    else s in
  (mkWorld ns (openNodes w) s, haveFullPath s || havePartPath s).

(** Lines 50-54: the stamps of this search and the two flags. *)
Definition Execute_enter (searchStateOffset searchMagicNumber : Z) (w : World) : World :=
  let s := set_stamps searchStateOffset searchMagicNumber (PS w) in
  with_PS (set_have (Nat.eqb (srcNode s) (tgtNode s)) false s) w.

(** Line 60. *)
Definition srcBlocked (w : World) : bool :=
  feq (moveCost (nodes w (srcNode (PS w)))) QTPFS_POSITIVE_INFINITY.

Definition Execute (E : Externals) (fuel : nat)
    (searchStateOffset searchMagicNumber : Z) (w : World) : option (World * bool) :=
  let w := Execute_enter searchStateOffset searchMagicNumber w in
  if haveFullPath (PS w) then Some (w, true)
  else
    match Execute_loop E fuel (Execute_init E (srcBlocked w) w) with
    | None => None
    | Some w' => Some (Execute_finish E (srcBlocked w) w')
    end.

(** The F costs of the nodes popped by the successive iterations of the
    loop of [Execute], in order. *)
Fixpoint popped_F (E : Externals) (fuel : nat) (w : World) : list float :=
  match fuel with
  | O => []
  | S fuel =>
    match heap_top (nodes w) (openNodes w), Execute_step E w with
    | Some cur, Some w' => fCost (nodes w cur) :: popped_F E fuel w'
    | Some cur, None => [fCost (nodes w cur)]
    | None, _ => []
    end
  end.

(** ** PathSearch::GetHash (lines 534-536) *)

(** The sum is formed in [unsigned int] ([N] and [k] are, and so are
    the node numbers) and widened to 64 bits on return. *)
Definition GetHash (w : World) (N k : Z) : Z :=
  uint_add
    (uint_add (nodeNumber (nodes w (srcNode (PS w))))
              (uint_mul (nodeNumber (nodes w (tgtNode (PS w)))) N))
    (uint_mul (uint_mul k N) N).

Definition srcNumber (w : World) : Z := nodeNumber (nodes w (srcNode (PS w))).
Definition tgtNumber (w : World) : Z := nodeNumber (nodes w (tgtNode (PS w))).

(** ** Paths and the path cache *)

(** Modelled from the spec: Path.hpp and PathCache.hpp are not among
    the sources. Section 4.5: a path is a sequence of waypoints with an
    ID, a hash and a bounding box; [allocPoints], [setPoint],
    [getPoint], [numPoints], [setSourcePoint] (the first point),
    [setTargetPoint] and [getTargetPoint] (the last point),
    [copyPoints] ("overwrite point list only") and [setBoundingBox]
    ("min/max over all waypoints"). Indexing outside the point list is
    undefined in C++; here a write outside leaves the list as it is and
    a read outside has no value. *)
Record IPath : Type := mkIPath {
  pathID : Z;
  pathHash : Z;
  points : list point;
  boundingBoxMins : point;
  boundingBoxMaxs : point
}.

Definition with_points (l : list point) (p : IPath) : IPath :=
  mkIPath (pathID p) (pathHash p) l (boundingBoxMins p) (boundingBoxMaxs p).

Definition NumPoints (p : IPath) : Z := uint_wrap (Z.of_nat (length (points p))).

Definition AllocPoints (n : Z) (p : IPath) : IPath :=
  with_points (replicate (Z.to_nat n) float3.ZeroVector) p.

Definition SetPoint (i : Z) (v : point) (p : IPath) : IPath :=
  with_points (<[Z.to_nat i := v]> (points p)) p.

Definition GetPoint (i : Z) (p : IPath) : option point := points p !! Z.to_nat i.

Definition SetSourcePoint (v : point) (p : IPath) : IPath :=
  with_points (<[0%nat := v]> (points p)) p.

Definition SetTargetPoint (v : point) (p : IPath) : IPath :=
  with_points (<[(length (points p) - 1)%nat := v]> (points p)) p.

Definition GetTargetPoint (p : IPath) : point :=
  List.last (points p) float3.ZeroVector.

Definition CopyPoints (src dst : IPath) : IPath := with_points (points src) dst.

Definition bbox_mins (l : list point) : point :=
  fold_left (fun b p => float3.mk (fmin (float3.x b) (float3.x p))
                                  (fmin (float3.y b) (float3.y p))
                                  (fmin (float3.z b) (float3.z p)))
            l (float3.mk (S754_infinity false) (S754_infinity false) (S754_infinity false)).

Definition bbox_maxs (l : list point) : point :=
  fold_left (fun b p => float3.mk (fmax (float3.x b) (float3.x p))
                                  (fmax (float3.y b) (float3.y p))
                                  (fmax (float3.z b) (float3.z p)))
            l (float3.mk (S754_infinity true) (S754_infinity true) (S754_infinity true)).

Definition SetBoundingBox (p : IPath) : IPath :=
  mkIPath (pathID p) (pathHash p) (points p) (bbox_mins (points p)) (bbox_maxs (points p)).

(** Modelled from the spec: section 4.6, "addLivePath(path) inserts path
    keyed by its ID; fails if an entry with that ID already exists". *)
Definition AddLivePath (p : IPath) (cache : gmap Z IPath) : gmap Z IPath :=
  match cache !! pathID p with
  | Some _ => cache
  | None => <[pathID p := p]> cache
  end.

(** ** PathSearch::TracePath (lines 310-365) *)

(** The walk from the target back to the source (lines 320-346); the
    list [pts] is the [std::list] filled by [push_front]. *)
Fixpoint TracePath_walk (E : Externals) (s : PathSearch) (fuel : nat)
    (ns : NodeStore) (tmpNode : NodeId) (prvNode : option NodeId)
    (prvPoint : point) (pts : list point) : option (NodeStore * list point) :=
  match fuel with
  | O => None
  | S fuel =>
    match prvNode with
    | None => Some (ns, pts)
    | Some prv =>
      if Nat.eqb tmpNode (srcNode s) then Some (ns, pts)
      else
        let tmpPoint := GetNeighborEdgeTransitionPoint E (ns tmpNode) (ns prv) prvPoint in
        let pts := if float3.neb tmpPoint prvPoint then tmpPoint :: pts else pts in
        let ns := if QTPFS_SMOOTH_PATHS E then ns
                  else update tmpNode (SetPrevNode None) ns in
        TracePath_walk E s fuel ns prv (prevNode (ns prv)) tmpPoint pts
    end
  end.

(** The loop that moves the list into the path (lines 357-360). *)
Fixpoint TracePath_fill (pts : list point) (path : IPath) : IPath :=
  match pts with
  | [] => path
  | p :: rest =>
    let i := uint_sub (uint_sub (NumPoints path) (uint_wrap (Z.of_nat (length pts)))) 1 in
    TracePath_fill rest (SetPoint i p path)
  end.

(** Lines 349-364, given the list of interior points. *)
Definition TracePath_emit (s : PathSearch) (pts : list point) (path : IPath) : IPath :=
  let path := match pts with
              | _ :: _ => AllocPoints (uint_add (uint_wrap (Z.of_nat (length pts))) 2) path
              | [] => path
              end in
  let path := TracePath_fill pts path in
  SetTargetPoint (tgtPoint s) (SetSourcePoint (srcPoint s) path).

Definition TracePath (E : Externals) (s : PathSearch) (fuel : nat)
    (ns : NodeStore) (path : IPath) : option (NodeStore * IPath) :=
  match (if negb (Nat.eqb (srcNode s) (tgtNode s))
         then TracePath_walk E s fuel ns (tgtNode s) (prevNode (ns (tgtNode s)))
                (tgtPoint s) []
         else Some (ns, [])) with
  | None => None
  | Some (ns, pts) => Some (ns, TracePath_emit s pts path)
  end.

(** ** PathSearch::SmoothPath (lines 367-508) *)

(** The alignment of the two segments of a triple (lines 403-406). *)
Definition SmoothPath_dot (p0 p1 p2 : point) : float :=
  float3.dot (float3.SafeNormalize (float3.sub p1 p0))
             (float3.SafeNormalize (float3.sub p2 p1)).

(** [c * SQUARE_SIZE] for an [unsigned int] square coordinate, as a float. *)
Definition world_coord (E : Externals) (c : Z) : float :=
  float_of_Z (uint_mul c (SQUARE_SIZE E)).

Definition has_edge (E : Externals) (ngbRel a b : Z) : bool :=
  negb (Z.land ngbRel a =? 0) || negb (Z.land ngbRel b =? 0).

(** The intersection of the ray from [p0] towards [p2] with the shared
    edge (lines 432-456). *)
Definition SmoothPath_pi (E : Externals) (n0 : INode) (p0 p1 p2 : point)
    (hEdge vEdge : bool) : point :=
  let p2p0 := float3.SafeNormalize (float3.sub p2 p0) in
  let dfx := if fgt (float3.x p2p0) f0_0
             then fsub (world_coord E (xmax n0)) (float3.x p0)
             else fsub (world_coord E (xmin n0)) (float3.x p0) in
  let dfz := if fgt (float3.z p2p0) f0_0
             then fsub (world_coord E (zmax n0)) (float3.z p0)
             else fsub (world_coord E (zmin n0)) (float3.z p0) in
  let dx := if fgt (fabs (float3.x p2p0)) f0_001 then float3.x p2p0 else f0_001 in
  let dz := if fgt (fabs (float3.z p2p0)) f0_001 then float3.z p2p0 else f0_001 in
  let tx := fdiv dfx dx in
  let tz := fdiv dfz dz in
  let pi := float3.ZeroVector in
  let pi := if hEdge
            then float3.mk (fadd (float3.x p0) (fmul (float3.x p2p0) tz))
                           (float3.y pi) (float3.z p1)
            else pi in
  if vEdge
  then float3.mk (float3.x p1) (float3.y pi)
                 (fadd (float3.z p0) (fmul (float3.z p2p0) tx))
  else pi.

(** The two ends of the shared edge (lines 471-481). *)
Definition SmoothPath_e0 (E : Externals) (xmin' zmin' : Z) (p1 : point)
    (hEdge vEdge : bool) : point :=
  let e := if hEdge then float3.set_x p1 (world_coord E xmin') else p1 in
  if vEdge then float3.set_z e (world_coord E zmin') else e.

Definition SmoothPath_e1 (E : Externals) (xmax' zmax' : Z) (p1 : point)
    (hEdge vEdge : bool) : point :=
  let e := if hEdge then float3.set_x p1 (world_coord E xmax') else p1 in
  if vEdge then float3.set_z e (world_coord E zmax') else e.

Inductive SmoothMove : Type :=
| KeepParallel                 (* line 409: continue *)
| MoveToIntersection (q : point) (* line 464 *)
| KeepNoImprovement            (* line 497: continue *)
| MoveToEdgeEnd (q : point)    (* line 505 *)
| KeepCorner.                  (* hEdge == vEdge: nothing is written *)

(** What one turn of the loop does with the middle point [p1] of the
    triple, [n0] being the node just left and [n1] its predecessor. *)
Definition SmoothPath_move (E : Externals) (n0 n1 : INode) (p0 p1 p2 : point) : SmoothMove :=
  let ngbRel := GetNeighborRelation E n0 n1 in
  let dot := SmoothPath_dot p0 p1 p2 in
  if fge dot f0_995 then KeepParallel
  else
    let hEdge := has_edge E ngbRel (REL_NGB_EDGE_T E) (REL_NGB_EDGE_B E) in
    let vEdge := has_edge E ngbRel (REL_NGB_EDGE_L E) (REL_NGB_EDGE_R E) in
    let xmin' := uint_max (xmin n1) (xmin n0) in
    let zmin' := uint_max (zmin n1) (zmin n0) in
    let xmax' := uint_min (xmax n1) (xmax n0) in
    let zmax' := uint_min (zmax n1) (zmax n0) in
    let pi := SmoothPath_pi E n0 p0 p1 p2 hEdge vEdge in
    let ok := (fge (float3.x pi) (world_coord E xmin') && fle (float3.x pi) (world_coord E xmax'))
              && (fge (float3.z pi) (world_coord E zmin') && fle (float3.z pi) (world_coord E zmax')) in
    if ok then MoveToIntersection pi
    else if negb (eqb hEdge vEdge) then
      let e0 := SmoothPath_e0 E xmin' zmin' p1 hEdge vEdge in
      let e1 := SmoothPath_e1 E xmax' zmax' p1 hEdge vEdge in
      let dot0 := SmoothPath_dot p0 e0 p2 in
      let dot1 := SmoothPath_dot p0 e1 p2 in
      if fgt dot (fmax dot0 dot1) then KeepNoImprovement
      else
        let q := if fgt dot0 (fmax dot1 dot) then e0 else p1 in
        let q := if fgt dot1 (fmax dot0 dot) then e1 else q in
        MoveToEdgeEnd q
    else KeepCorner.

Definition SmoothPath_step (E : Externals) (n0 n1 : INode) (ni : Z)
    (path : IPath) : option IPath :=
  match GetPoint ni path, GetPoint (uint_sub ni 1) path, GetPoint (uint_sub ni 2) path with
  | Some p0, Some p1, Some p2 =>
    Some match SmoothPath_move E n0 n1 p0 p1 p2 with
         | MoveToIntersection q | MoveToEdgeEnd q => SetPoint (uint_sub ni 1) q path
         | KeepParallel | KeepNoImprovement | KeepCorner => path
         end
  | _, _, _ => None
  end.

(** The loop from the target back to the source (lines 379-507); [None]
    also stands for a NULL back-link met before the source. *)
Fixpoint SmoothPath_loop (E : Externals) (s : PathSearch) (fuel : nat)
    (ns : NodeStore) (n1 : NodeId) (ni : Z) (path : IPath) : option (NodeStore * IPath) :=
  match fuel with
  | O => None
  | S fuel =>
    if Nat.eqb n1 (srcNode s) then Some (ns, path)
    else
      let n0 := n1 in
      match prevNode (ns n0) with
      | None => None
      | Some n1 =>
        let ns := update n0 (SetPrevNode None) ns in
        let ni := uint_sub ni 1 in
        match SmoothPath_step E (ns n0) (ns n1) ni path with
        | None => None
        | Some path => SmoothPath_loop E s fuel ns n1 ni path
        end
      end
  end.

Definition SmoothPath (E : Externals) (s : PathSearch) (fuel : nat)
    (ns : NodeStore) (path : IPath) : option (NodeStore * IPath) :=
  if NumPoints path =? 2 then Some (ns, path)
  else SmoothPath_loop E s fuel ns (tgtNode s) (NumPoints path) path.

(** ** PathSearch::Finalize (lines 297-308) *)

Definition Finalize (E : Externals) (s : PathSearch) (fuel : nat)
    (ns : NodeStore) (cache : gmap Z IPath) (path : IPath)
    : option (NodeStore * gmap Z IPath * IPath) :=
  match TracePath E s fuel ns path with
  | None => None
  | Some (ns, path) =>
    match (if QTPFS_SMOOTH_PATHS E then SmoothPath E s fuel ns path else Some (ns, path)) with
    | None => None
    | Some (ns, path) =>
      let path := SetBoundingBox path in
      Some (ns, AddLivePath path cache, path)
    end
  end.

(** ** PathSearch::SharedFinalize (lines 512-532) *)

Definition SharedFinalize (E : Externals) (s : PathSearch)
    (cache : gmap Z IPath) (srcPath dstPath : IPath) : bool * IPath * gmap Z IPath :=
  let p0 := GetTargetPoint srcPath in
  let p1 := GetTargetPoint dstPath in
  if flt (float3.SqDistance p0 p1) (float_of_Z (SQUARE_SIZE E * SQUARE_SIZE E)) then
    let dstPath := CopyPoints srcPath dstPath in
    let dstPath := SetSourcePoint (srcPoint s) dstPath in
    let dstPath := SetTargetPoint (tgtPoint s) dstPath in
    let dstPath := SetBoundingBox dstPath in
    (true, dstPath, AddLivePath dstPath cache)
  else (false, dstPath, cache).

(** ** Notions used in the statements *)

(** The world at the head of the loop of [Execute] after [n] complete
    iterations, if the loop runs that long. *)
Fixpoint Execute_steps (E : Externals) (n : nat) (w : World) : option World :=
  match n with
  | O => Some w
  | S n =>
    if heap_empty (openNodes w) then None
    else match Execute_step E w with
         | None => None
         | Some w => Execute_steps E n w
         end
  end.

(** The move cost a node has while the search runs: [0.0f] for a blocked
    source, its own otherwise. *)
Definition search_moveCost (srcBlocked : bool) (src : NodeId) (ns : NodeStore)
    (p : NodeId) : float :=
  if srcBlocked && Nat.eqb p src then f0_0 else moveCost (ns p).

(** [F = G + H * hCostMult] on the stored costs of a node. *)
Definition cost_consistent (mult : float) (n : INode) : Prop :=
  fCost n = fadd (gCost n) (fmul (hCost n) mult).

Definition same_costs (n n0 : INode) : Prop :=
  fCost n = fCost n0 /\ gCost n = gCost n0 /\ hCost n = hCost n0.

(** Every two neighbouring points of the list differ. *)
Fixpoint adjacent_differ (l : list point) : Prop :=
  match l with
  | a :: (b :: _) as t => float3.neb a b = true /\ adjacent_differ t
  | _ => True
  end.

(** Some two neighbouring points of the list are equal. *)
Fixpoint adjacent_equal (l : list point) : bool :=
  match l with
  | a :: (b :: _) as t => float3.eqb a b || adjacent_equal t
  | _ => false
  end.

(** The transition points kept by the walk of [TracePath], in the order
    the walk meets them (from the target towards the source). *)
Fixpoint TracePath_kept (E : Externals) (s : PathSearch) (fuel : nat)
    (ns : NodeStore) (tmpNode : NodeId) (prvNode : option NodeId)
    (prvPoint : point) : list point :=
  match fuel with
  | O => []
  | S fuel =>
    match prvNode with
    | None => []
    | Some prv =>
      if Nat.eqb tmpNode (srcNode s) then []
      else
        let tmpPoint := GetNeighborEdgeTransitionPoint E (ns tmpNode) (ns prv) prvPoint in
        let ns := if QTPFS_SMOOTH_PATHS E then ns
                  else update tmpNode (SetPrevNode None) ns in
        (if float3.neb tmpPoint prvPoint then [tmpPoint] else [])
          ++ TracePath_kept E s fuel ns prv (prevNode (ns prv)) tmpPoint
    end
  end.

(** The back-links lead from [n] to the source through the nodes of [l],
    none of them met twice. *)
Fixpoint back_chain (s : PathSearch) (ns : NodeStore) (n : NodeId) (l : list NodeId) : Prop :=
  match l with
  | [] => n = srcNode s \/ prevNode (ns n) = None
  | q :: l => n <> srcNode s /\ prevNode (ns n) = Some q /\ ~ In n (q :: l)
              /\ back_chain s ns q l
  end.

(** ** Invariants of the loops *)

(** The fields of the search object that no step of [Iterate] writes. *)
Definition same_search (s s' : PathSearch) : Prop :=
  srcNode s' = srcNode s /\ tgtNode s' = tgtNode s
  /\ srcPoint s' = srcPoint s /\ tgtPoint s' = tgtPoint s
  /\ searchState s' = searchState s /\ hCostMult s' = hCostMult s
  /\ searchType s' = searchType s.

(** What a step of the search leaves alone: the move costs of the nodes
    and the fixed fields of the search object. *)
Definition frame (w w' : World) : Prop :=
  (forall p, moveCost (nodes w' p) = moveCost (nodes w p))
  /\ same_search (PS w) (PS w').

(** The invariant of the search loop behind C8. *)
Definition F_inv (mult : float) (ns0 ns : NodeStore) : Prop :=
  forall p, same_costs (ns p) (ns0 p) \/ cost_consistent mult (ns p).

(** The invariant of the search loop behind C10. *)
Definition Dijkstra_inv (w : World) : Prop :=
  hCostMult (PS w) = f0_0
  /\ minNode (PS w) = srcNode (PS w)
  /\ havePartPath (PS w) = false
  /\ zero_or_nan (hCost (nodes w (srcNode (PS w))))
  /\ forall n, In n (openNodes w) -> zero_or_nan (hCost (nodes w n)).

(** The invariant of the H costs of the node store in Dijkstra mode. *)
Definition H_inv (ns0 ns : NodeStore) : Prop :=
  forall p, hCost (ns p) = hCost (ns0 p) \/ zero_or_nan (hCost (ns p)).

(** The points of a walk, in the order of the walk: each differs from
    its predecessor, the first from [q]. *)
Fixpoint adjacent_walk (q : point) (l : list point) : Prop :=
  match l with
  | [] => True
  | a :: l => float3.neb a q = true /\ adjacent_walk a l
  end.

(** The point a turn of the loop leaves at the place of [p1]. *)
Definition SmoothPath_moved (m : SmoothMove) (p1 : point) : point :=
  match m with
  | MoveToIntersection q | MoveToEdgeEnd q => q
  | KeepParallel | KeepNoImprovement | KeepCorner => p1
  end.

(** The data of a node that belong to the node layer, not to a search. *)
Definition same_layout (n n0 : INode) : Prop :=
  nodeNumber n = nodeNumber n0
  /\ xmin n = xmin n0 /\ zmin n = zmin n0 /\ xmax n = xmax n0 /\ zmax n = zmax n0
  /\ neighbors n = neighbors n0.

(** [kept E ns0 ns]: the node layer data of [ns] are those of [ns0], and
    so are the magic numbers and the back-link counts that the compile
    flags leave unused. *)
Definition layer_kept (E : Externals) (ns0 ns : NodeStore) : Prop :=
  forall p,
    same_layout (ns p) (ns0 p)
    /\ (QTPFS_CONSERVATIVE_NEIGHBOR_CACHE_UPDATES E = false ->
        magicNumber (ns p) = magicNumber (ns0 p))
    /\ (QTPFS_WEIGHTED_HEURISTIC_COST E = false ->
        numPrevNodes (ns p) = numPrevNodes (ns0 p)).

(** A node is as it was, or carries the stamp of the search [off]. *)
Definition stamped_or_same (off : Z) (ns0 ns : NodeStore) : Prop :=
  forall p, ns p = ns0 p
            \/ nodeSearchState (ns p) = Z.lor off NODE_STATE_OPEN
            \/ nodeSearchState (ns p) = Z.lor off NODE_STATE_CLOSED.

(** No open node is impassable. *)
Definition open_passable (w : World) : Prop :=
  forall p, In p (openNodes w) ->
            feq (moveCost (nodes w p)) QTPFS_POSITIVE_INFINITY = false.

(** Every open node but the source has a back-link. *)
Definition open_linked (src : NodeId) (w : World) : Prop :=
  srcNode (PS w) = src
  /\ forall p, In p (openNodes w) -> p = src \/ prevNode (nodes w p) <> None.

(** [ns'] is [ns] with the back-links of the nodes of [c] set to NULL. *)
Definition links_cleared (ns ns' : NodeStore) (c : list NodeId) : Prop :=
  (forall p, In p c -> ns' p = SetPrevNode None (ns p))
  /\ (forall p, ~ In p c -> ns' p = ns p).

(** The back-links lead from [n] to the source node through the nodes
    of [l], none of them met twice. *)
Fixpoint source_chain (s : PathSearch) (ns : NodeStore) (n : NodeId) (l : list NodeId) : Prop :=
  match l with
  | [] => n = srcNode s
  | q :: l => n <> srcNode s /\ prevNode (ns n) = Some q /\ ~ In n (q :: l)
              /\ source_chain s ns q l
  end.

(** No node is on the open heap twice, and every node on it carries the
    OPEN stamp of the search [off]. *)
Definition open_set (off : Z) (w : World) : Prop :=
  searchState (PS w) = off
  /\ List.NoDup (openNodes w)
  /\ forall p, In p (openNodes w) ->
               nodeSearchState (nodes w p) = Z.lor off NODE_STATE_OPEN.

(** A node object of the layer [ns0]: whatever a search has written into
    it, its number, extent and neighbours are those of a node of [ns0]. *)
Definition layer_node (ns0 : NodeStore) (n : INode) : Prop :=
  exists p, same_layout n (ns0 p).

(** [P] holds of every edge-transition point between nodes of the layer
    [ns0]. *)
Definition points_closed (E : Externals) (ns0 : NodeStore) (P : point -> Prop) : Prop :=
  (forall n1 n2 pos, layer_node ns0 n1 -> layer_node ns0 n2 -> P pos ->
                     P (GetNeighborEdgeTransitionPoint E n1 n2 pos))
  /\ (forall n i, layer_node ns0 n -> P (GetNeighborEdgeTransitionPointIdx E n i)).

(** Every move cost is +infinity or a number below [2^ka], every
    distance between two points of [P] is a number below [2^kb], and the
    product of two such numbers is below [2^127]. *)
Definition terms_bounded (ka kb : Z) (mc : NodeId -> float) (P : point -> Prop) : Prop :=
  ka + kb <= 127
  /\ (forall p, feq (mc p) QTPFS_POSITIVE_INFINITY = true \/ small ka (mc p) = true)
  /\ (forall a b, P a -> P b -> small kb (float3.distance a b) = true).

(** [G_terms mc P src tgt tgtP p pq ts]: [ts] are the terms, in the order
    in which lines 261-264 add them up, of a G cost that the search can
    store in node [p] together with the back-link [pq]. The source node
    starts with no term and no back-link; a neighbour [p] of an expanded
    node [q] gets the terms of [q] and two more, [mc(q) * |a - n|] and
    [mc(p) * |n - tgtP| * int(p == tgt)], for the point [a] at which [q]
    was entered and the edge-transition point [n] from [q] to [p]; neither
    move cost is +infinity. *)
Inductive G_terms (mc : NodeId -> float) (P : point -> Prop) (src tgt : NodeId)
    (tgtP : point) : NodeId -> option NodeId -> list float -> Prop :=
| G_terms_source : G_terms mc P src tgt tgtP src None []
| G_terms_step (q p : NodeId) (pq : option NodeId) (ts : list float) (a n : point) :
    G_terms mc P src tgt tgtP q pq ts ->
    feq (mc q) QTPFS_POSITIVE_INFINITY = false ->
    feq (mc p) QTPFS_POSITIVE_INFINITY = false ->
    P a -> P n ->
    G_terms mc P src tgt tgtP p (Some q)
      (ts ++ [fmul (mc q) (float3.distance a n);
              fmul (fmul (mc p) (float3.distance n tgtP)) (float_of_bool (Nat.eqb p tgt))]).

(** The G cost stored in node [p] is the sum, from [0.0f] on, of such
    terms, and the last of them were added over the back-link stored in
    [p]. *)
Definition G_sum (mc : NodeId -> float) (P : point -> Prop) (src tgt : NodeId)
    (tgtP : point) (ns : NodeStore) (p : NodeId) : Prop :=
  exists ts, G_terms mc P src tgt tgtP p (prevNode (ns p)) ts
             /\ gCost (ns p) = fold_left fadd ts f0_0.

(** The invariant of the search loop behind C3: the move costs are [mc],
    the layer is that of [ns0], the current point is in [P], and the G
    cost of every open node, and of [minNode] unless it is still the
    source, is a sum of terms. *)
Definition G_inv (E : Externals) (mc : NodeId -> float) (P : point -> Prop)
    (ns0 : NodeStore) (s0 : PathSearch) (w : World) : Prop :=
  same_search s0 (PS w)
  /\ (forall p, moveCost (nodes w p) = mc p)
  /\ (forall p, same_layout (nodes w p) (ns0 p))
  /\ P (curPoint (PS w))
  /\ (forall n, In n (openNodes w) ->
                G_sum mc P (srcNode s0) (tgtNode s0) (tgtPoint s0) (nodes w) n)
  /\ (minNode (PS w) = srcNode s0
      \/ (QTPFS_SUPPORT_PARTIAL_SEARCHES E = true
          /\ G_sum mc P (srcNode s0) (tgtNode s0) (tgtPoint s0) (nodes w) (minNode (PS w)))).

(** What holds, besides, at the head of every iteration of the loop of
    [Execute]: the G cost of the target is a sum of terms once the target
    has been reached, and [minNode] is not the source once there is a part
    path. *)
Definition G_path_inv (E : Externals) (mc : NodeId -> float) (P : point -> Prop)
    (ns0 : NodeStore) (s0 : PathSearch) (w : World) : Prop :=
  G_inv E mc P ns0 s0 w
  /\ (haveFullPath (PS w) = true ->
      G_sum mc P (srcNode s0) (tgtNode s0) (tgtPoint s0) (nodes w) (tgtNode s0))
  /\ (havePartPath (PS w) = true -> minNode (PS w) <> srcNode s0).

(** ** Small node layers used as examples *)

Module Demo.

Definition pt (a b c : Z) : point :=
  float3.mk (float_of_Z a) (float_of_Z b) (float_of_Z c).

(** An edge-transition point: the middle of the shared edge. *)
Definition mid_transition (sq : Z) (a b : INode) (pos : point) : point :=
  let minx := uint_max (xmin a) (xmin b) in
  let maxx := uint_min (xmax a) (xmax b) in
  let minz := uint_max (zmin a) (zmin b) in
  let maxz := uint_min (zmax a) (zmax b) in
  pt (Z.shiftr (minx + maxx) 1 * sq) 0 (Z.shiftr (minz + maxz) 1 * sq).

(** Edge bits: top 1, right 2, bottom 4, left 8. *)
Definition rel_of (a b : INode) : Z :=
  Z.lor (Z.lor (if zmin a =? zmax b then 1 else 0) (if xmax a =? xmin b then 2 else 0))
        (Z.lor (if zmax a =? zmin b then 4 else 0) (if xmin a =? xmax b then 8 else 0)).

Definition env (partial smooth : bool) : Externals :=
  mkExternals 8 partial smooth false false false
    (mid_transition 8) (fun _ _ => float3.ZeroVector) rel_of 1 2 4 8
    (fun p => p) (fun _ _ => 0%nat).

Definition fresh (num xa za xb zb : Z) (mc : float) (ngb : list NodeId) : INode :=
  mkINode num xa za xb zb mc ngb 0 0 None f0_0 f0_0 f0_0 f0_0 0.

Definition outside : INode := fresh 99 100 100 101 101 f1_0 [].

Definition search0 (ty : SearchType) (sp tp : point) (sn tn : NodeId) : PathSearch :=
  mkPathSearch sp tp sp tp sn tn None None sn (mkPathRectangle 0 0 1000 1000)
    0 0 f0_0 false false ty.

Definition path2 : IPath :=
  mkIPath 7 0 [float3.ZeroVector; float3.ZeroVector] float3.ZeroVector float3.ZeroVector.

(** Two nodes carrying the node numbers [a] (source) and [b] (target). *)
Definition numbered (a b : Z) : World :=
  mkWorld (fun p => match p with
                    | 0%nat => fresh a 0 0 2 2 f1_0 [1%nat]
                    | _ => fresh b 2 0 4 2 f1_0 [0%nat]
                    end)
          [] (search0 PATH_SEARCH_ASTAR (pt 4 0 8) (pt 20 0 8) 0%nat 1%nat).

(** Three nodes in a row, two squares wide each. *)
Definition row3 (mc0 : float) : NodeStore := fun p =>
  match p with
  | 0%nat => fresh 0 0 0 2 2 mc0 [1%nat]
  | 1%nat => fresh 1 2 0 4 2 f1_0 [0%nat; 2%nat]
  | 2%nat => fresh 2 4 0 6 2 f1_0 [1%nat]
  | _ => outside
  end.

Definition world3 (ty : SearchType) (mc0 : float) : World :=
  mkWorld (row3 mc0) [] (search0 ty (pt 4 0 8) (pt 44 0 8) 0%nat 2%nat).

(** Four nodes in a row; the third is impassable, so the fourth cannot
    be reached. *)
Definition row4 : NodeStore := fun p =>
  match p with
  | 0%nat => fresh 0 0 0 10 2 f1_0 [1%nat]
  | 1%nat => fresh 1 10 0 12 2 f1_0 [0%nat; 2%nat]
  | 2%nat => fresh 2 12 0 14 2 QTPFS_POSITIVE_INFINITY [1%nat; 3%nat]
  | 3%nat => fresh 3 14 0 16 2 f1_0 [2%nat]
  | _ => outside
  end.

Definition world4 (ty : SearchType) : World :=
  mkWorld row4 [] (search0 ty (pt 4 0 8) (pt 116 0 8) 0%nat 3%nat).

(** Three tall nodes in a row. *)
Definition tall3 : NodeStore := fun p =>
  match p with
  | 0%nat => fresh 0 0 0 2 8 f1_0 [1%nat]
  | 1%nat => fresh 1 2 0 4 8 f1_0 [0%nat; 2%nat]
  | 2%nat => fresh 2 4 0 6 8 f1_0 [1%nat]
  | _ => outside
  end.

Definition world_tall : World :=
  mkWorld tall3 [] (search0 PATH_SEARCH_ASTAR (pt 8 0 8) (pt 40 0 32) 0%nat 2%nat).

(** Two nodes, one above the other; the target lies on the shared edge. *)
Definition col2 : NodeStore := fun p =>
  match p with
  | 0%nat => fresh 0 0 0 4 2 f1_0 [1%nat]
  | 1%nat => fresh 1 0 2 4 4 f1_0 [0%nat]
  | _ => outside
  end.

Definition world_col : World :=
  mkWorld col2 [] (search0 PATH_SEARCH_ASTAR (pt 32 0 4) (pt 0 0 16) 0%nat 1%nat).

(** Two nodes whose shared edge is short: the straight line from the
    target to the source misses it. *)
Definition step2 : NodeStore := fun p =>
  match p with
  | 0%nat => fresh 0 0 0 2 4 f1_0 [1%nat]
  | 1%nat => fresh 1 2 2 4 10 f1_0 [0%nat]
  | _ => outside
  end.

Definition world_step : World :=
  mkWorld step2 [] (search0 PATH_SEARCH_ASTAR (pt 4 0 4) (pt 20 0 76) 0%nat 1%nat).

(** The row of three nodes searched towards a point on the edge between
    the last two: the first transition point is the target point. *)
Definition world_on_edge : World :=
  mkWorld (Demo.row3 f1_0) []
    (Demo.search0 PATH_SEARCH_ASTAR (Demo.pt 4 0 8) (Demo.pt 32 0 8) 0%nat 2%nat).

(** The first search world at line 90: stamped, with the source open. *)
Definition started (E : Externals) (w : World) : World :=
  Execute_init E (srcBlocked w) (Execute_enter 2 0 w).

(** A search of offset 2 that meets node 1 already closed (state 3) with
    a G cost of 100. *)
Definition world_reopen : World :=
  mkWorld (update 1%nat (fun n => SetPathCost NODE_PATH_COST_G (float_of_Z 100)
                                    (SetSearchState 3 n)) (row3 f1_0))
          [] (set_stamps 2 0 (search0 PATH_SEARCH_ASTAR (pt 4 0 8) (pt 44 0 8) 0%nat 2%nat)).

(** A search whose source and target are one node and one point. *)
Definition world_same : World :=
  mkWorld (row3 f1_0) [] (search0 PATH_SEARCH_ASTAR (pt 100 0 100) (pt 100 0 100) 0%nat 0%nat).

(** The same row searched from the left edge of the middle node towards
    the first node: the source point is the transition point. *)
Definition world_edge : World :=
  mkWorld (row3 f1_0) [] (search0 PATH_SEARCH_ASTAR (pt 16 0 8) (pt 4 0 8) 1%nat 0%nat).

(** A finished path, and a fresh one whose target is two units away. *)
Definition path_done : IPath :=
  mkIPath 5 0 [pt 4 0 8; pt 16 0 8; pt 32 0 8; pt 44 0 8] float3.ZeroVector float3.ZeroVector.

Definition path_new : IPath :=
  mkIPath 7 0 [pt 6 0 8; pt 46 0 8] float3.ZeroVector float3.ZeroVector.

Definition search_new : PathSearch :=
  search0 PATH_SEARCH_ASTAR (pt 6 0 8) (pt 46 0 8) 0%nat 2%nat.

(** Search, trace and smooth in one go. *)
Definition traced (E : Externals) (w : World) : option (World * IPath) :=
  match Execute E 16 2 0 w with
  | Some (w, _) =>
    match TracePath E (PS w) 16 (nodes w) path2 with
    | Some (ns, p) => Some (with_nodes ns w, p)
    | None => None
    end
  | None => None
  end.

Definition smoothed (E : Externals) (w : World) : option (list point * list point) :=
  match traced E w with
  | Some (w, p) =>
    match SmoothPath E (PS w) 16 (nodes w) p with
    | Some (_, p') => Some (points p, points p')
    | None => None
    end
  | None => None
  end.

(** The source point, the target point and the edge-transition points
    of the row of three nodes. *)
Definition row3_points : list point :=
  [pt 4 0 8; pt 44 0 8; pt 8 0 8; pt 16 0 8; pt 24 0 8;
   pt 32 0 8; pt 40 0 8; pt 408 0 408; pt 416 0 408;
   pt 424 0 408; pt 800 0 800; float3.ZeroVector].

End Demo.

(** * CFileHandler (rts/System/FileSystem/FileHandler.cpp)

    The reading side of the file handler: [Read], [Seek], [Eof],
    [FileSize], [GetPos], [FileExists()], [LoadStringData], and the two
    filters of mode strings, [AllowModes] and [ForbidModes]. *)

Module FileHandler.

(** [int]: 32 bits, signed. Overflow of a signed sum is undefined in
    C++; [int_add] has no value there. *)
Definition INT_MIN : Z := - 2 ^ 31.
Definition INT_MAX : Z := 2 ^ 31 - 1.
Definition is_int (a : Z) : Prop := INT_MIN <= a <= INT_MAX.

Definition int_add (a b : Z) : option Z :=
  if (INT_MIN <=? a + b) && (a + b <=? INT_MAX) then Some (a + b) else None.

Definition int_sub (a b : Z) : option Z :=
  if (INT_MIN <=? a - b) && (a - b <=? INT_MAX) then Some (a - b) else None.

(** [std::ios_base::seekdir] *)
Inductive seekdir : Type := ios_beg | ios_cur | ios_end.

(** What the sources leave to the standard library: the input stream
    behind [ifs]. [ifs_read st n] is [st.read(buf, n)]: the stream
    afterwards and the characters delivered ([gcount()] is their number);
    [ifs_seekg st n dir] is [st.clear(); st.seekg(n, dir)]. *)
Record Stream : Type := mkStream {
  ifstream : Type;
  ifs_read : ifstream -> Z -> ifstream * list Byte.byte;
  ifs_seekg : ifstream -> Z -> seekdir -> ifstream;
  ifs_eof : ifstream -> bool;
  ifs_tellg : ifstream -> Z
}.

(** The members of the handler that the functions below use. *)
Record CFileHandler (S : Stream) : Type := mkCFileHandler {
  fileName : list Byte.byte;
  ifs : option (ifstream S);
  fileBuffer : list Byte.byte;
  filePos : Z;
  fileSize : Z
}.

Arguments mkCFileHandler {S} _ _ _ _ _.
Arguments fileName {S} _.
Arguments ifs {S} _.
Arguments fileBuffer {S} _.
Arguments filePos {S} _.
Arguments fileSize {S} _.

Definition with_ifs {S : Stream} (st : ifstream S) (h : CFileHandler S) : CFileHandler S :=
  mkCFileHandler (fileName h) (Some st) (fileBuffer h) (filePos h) (fileSize h).

Definition with_filePos {S : Stream} (p : Z) (h : CFileHandler S) : CFileHandler S :=
  mkCFileHandler (fileName h) (ifs h) (fileBuffer h) p (fileSize h).

(** [std::vector::empty] *)
Definition vector_empty (b : list Byte.byte) : bool :=
  match b with [] => true | _ :: _ => false end.

(** [memcpy(dst, &src[off], n)]: the first [n] bytes of [dst] are
    replaced by [src[off .. off + n)]; it has no value when either range
    leaves its array. *)
Definition memcpy (dst src : list Byte.byte) (off n : Z) : option (list Byte.byte) :=
  if (0 <=? off) && (0 <=? n) && (off + n <=? Z.of_nat (length src))
     && (n <=? Z.of_nat (length dst))
  then Some (take (Z.to_nat n) (drop (Z.to_nat off) src) ++ drop (Z.to_nat n) dst)
  else None.

(** ** CFileHandler::FileExists() (lines 180-183) *)
Definition FileExists {S : Stream} (h : CFileHandler S) : bool := 0 <=? fileSize h.

(** ** CFileHandler::Read (lines 186-207)

    [buf] is the array behind the caller's pointer; the result is the
    handler, the array and the returned count. *)
Definition Read {S : Stream} (h : CFileHandler S) (buf : list Byte.byte) (length : Z)
    : option (CFileHandler S * list Byte.byte * Z) :=
  match ifs h with
  | Some st =>
    let '(st', data) := ifs_read S st length in
    Some (with_ifs st' h, data ++ drop (List.length data) buf, Z.of_nat (List.length data))
  | None =>
    if negb (vector_empty (fileBuffer h)) then
      match int_add length (filePos h) with
      | None => None
      | Some sum =>
        match (if fileSize h <? sum then int_sub (fileSize h) (filePos h) else Some length) with
        | None => None
        | Some length =>
          if 0 <? length then
            match memcpy buf (fileBuffer h) (filePos h) length, int_add (filePos h) length with
            | Some buf', Some pos' => Some (with_filePos pos' h, buf', length)
            | _, _ => None
            end
          else Some (h, buf, length)
        end
      end
    else Some (h, buf, 0)
  end.

(** ** CFileHandler::Seek (lines 210-236) *)
Definition Seek {S : Stream} (h : CFileHandler S) (length : Z) (where_ : seekdir)
    : option (CFileHandler S) :=
  match ifs h with
  | Some st => Some (with_ifs (ifs_seekg S st length where_) h)
  | None =>
    if negb (vector_empty (fileBuffer h)) then
      match where_ with
      | ios_beg => Some (with_filePos length h)
      | ios_cur => option_map (fun p => with_filePos p h) (int_add (filePos h) length)
      | ios_end => option_map (fun p => with_filePos p h) (int_add (fileSize h) length)
      end
    else Some h
  end.

(** ** CFileHandler::Eof (lines 238-249) *)
Definition Eof {S : Stream} (h : CFileHandler S) : bool :=
  match ifs h with
  | Some st => ifs_eof S st
  | None => if negb (vector_empty (fileBuffer h)) then fileSize h <=? filePos h else true
  end.

(** ** CFileHandler::FileSize (lines 252-255) and GetPos (lines 258-267) *)
Definition FileSize {S : Stream} (h : CFileHandler S) : Z := fileSize h.

Definition GetPos {S : Stream} (h : CFileHandler S) : Z :=
  match ifs h with
  | Some st => ifs_tellg S st
  | None => filePos h
  end.

(** ** CFileHandler::LoadStringData (lines 270-282)

    [fresh] is the array that [new char[fileSize]] returns: [fileSize]
    characters of indeterminate value. *)
Definition LoadStringData {S : Stream} (h : CFileHandler S) (data fresh : list Byte.byte)
    : option (CFileHandler S * list Byte.byte * bool) :=
  if negb (FileExists h) then Some (h, data, false)
  else
    match Read h fresh (fileSize h) with
    | None => None
    | Some (h', buf, _) => Some (h', data ++ take (Z.to_nat (fileSize h)) buf, true)
    end.

(** ** CFileHandler::AllowModes and ForbidModes (lines 498-519) *)

(** [std::string::find(char)]: the first position of [c], or [npos]. *)
Fixpoint string_find (c : Byte.byte) (s : list Byte.byte) (i : nat) : option nat :=
  match s with
  | [] => None
  | d :: t => if Byte.eqb d c then Some i else string_find c t (S i)
  end.

Definition AllowModes (modes allowed : list Byte.byte) : list Byte.byte :=
  fold_left (fun newModes c =>
               match string_find c allowed 0 with
               | Some _ => newModes ++ [c]
               | None => newModes
               end) modes [].

Definition ForbidModes (modes forbidden : list Byte.byte) : list Byte.byte :=
  fold_left (fun newModes c =>
               match string_find c forbidden 0 with
               | None => newModes ++ [c]
               | Some _ => newModes
               end) modes [].

(** The handler reads from a buffer that holds the whole file, as
    [TryReadFromModFS] leaves it: [fileSize] is the size of the buffer. *)
Definition buffered {S : Stream} (h : CFileHandler S) : Prop :=
  ifs h = None /\ fileSize h = Z.of_nat (length (fileBuffer h)) /\ fileSize h <= INT_MAX.

(** A stream that is never used, and a buffered handler of the three
    bytes [abc] at position [pos]. *)
Definition no_stream : Stream :=
  mkStream unit (fun st _ => (st, [])) (fun st _ _ => st) (fun _ => true) (fun _ => 0).

Definition abc_at (pos : Z) : CFileHandler no_stream :=
  mkCFileHandler [] None [Byte.x61; Byte.x62; Byte.x63] pos 3.

(** The handler of a file that was not found. *)
Definition not_found : CFileHandler no_stream :=
  mkCFileHandler [] None [] 0 (-1).

End FileHandler.

(** ** Model pieces (rts/Rendering/Models/3DModel.cpp)

    The piece tree of a model, [S3DModelPiece], and the pieces of a unit's
    copy of it, [LocalModelPiece], which [LocalModel] keeps in a vector.

    What the file takes from elsewhere is a parameter: the 4x4 matrix
    class with the operations used here, the collision volume, and the
    values that the default constructors of [CMatrix44f] and [float3]
    give. *)
Record Externals3D : Type := mkExternals3D {
  CMatrix44f : Type;
  CollisionVolume : Type;
  CMatrix44f_new : CMatrix44f;
  float3_new : float3.t;
  LoadIdentity : CMatrix44f -> CMatrix44f;
  Translate : float3.t -> CMatrix44f -> CMatrix44f;
  RotateX : float -> CMatrix44f -> CMatrix44f;
  RotateY : float -> CMatrix44f -> CMatrix44f;
  RotateZ : float -> CMatrix44f -> CMatrix44f;
  Mul : CMatrix44f -> CMatrix44f -> CMatrix44f
}.

Definition fneg : float -> float := SFopp.            (* -a     *)
Definition fne (a b : float) : bool := negb (feq a b). (* a != b *)

(** [size_t]: 64 bits. *)
Definition size_t_wrap (a : Z) : Z := a mod 2 ^ 64.

(** The calls into OpenGL, in the order in which they are made. *)
Inductive GLcall (E : Externals3D) : Type :=
| glPushMatrix
| glPopMatrix
| glTranslatef (x y z : float)
| glMultMatrixf (m : CMatrix44f E)
| glCallList (list : Z).

Arguments glPushMatrix {E}.
Arguments glPopMatrix {E}.
Arguments glTranslatef {E} _ _ _.
Arguments glMultMatrixf {E} _.
Arguments glCallList {E} _.

Module S3DModelPiece.

(** The members that this file reads. [GetVertexCount] and
    [GetVertexPos] are virtual; each piece carries its own. *)
#[warnings="-register-all"] Inductive t (E : Externals3D) : Type := mk {
  isEmpty : bool;
  dispListID : Z;
  offset : float3.t;
  colvol : CollisionVolume E;
  GetVertexCount : Z;
  GetVertexPos : Z -> float3.t;
  children : list (t E)
}.

Arguments mk {E} _ _ _ _ _ _ _.
Arguments isEmpty {E} _.
Arguments dispListID {E} _.
Arguments offset {E} _.
Arguments colvol {E} _.
Arguments GetVertexCount {E} _.
Arguments GetVertexPos {E} _ _.
Arguments children {E} _.

(** Lines 34-52. *)
Fixpoint DrawStatic {E : Externals3D} (p : t E) : list (GLcall E) :=
  let needTrafo := fne (float3.SqLength (offset p)) f0_0 in
  (if needTrafo
   then [glPushMatrix;
         glTranslatef (float3.x (offset p)) (float3.y (offset p)) (float3.z (offset p))]
   else [])
  ++ (if negb (isEmpty p) then [glCallList (dispListID p)] else [])
  ++ flat_map DrawStatic (children p)
  ++ (if needTrafo then [glPopMatrix] else []).

End S3DModelPiece.

Module LocalModelPiece.

(** A [LocalModelPiece*] is an address in the heap of local pieces;
    [NULL] is [None]. [original] is never [NULL] (line 130) and points
    to a piece that is not written, so it is kept by value. *)
Record t (E : Externals3D) : Type := mk {
  colvol : CollisionVolume E;
  numUpdatesSynced : Z;
  lastMatrixUpdate : Z;
  scriptSetVisible : bool;
  identityTransform : bool;
  original : S3DModelPiece.t E;
  parent : option nat;
  children : list nat;
  dispListID : Z;
  lodDispLists : list Z;
  pos : float3.t;
  rot : float3.t;
  dir : float3.t;
  pieceSpaceMat : CMatrix44f E;
  modelSpaceMat : CMatrix44f E
}.

Arguments mk {E} _ _ _ _ _ _ _ _ _ _ _ _ _ _ _.
Arguments colvol {E} _.
Arguments numUpdatesSynced {E} _.
Arguments lastMatrixUpdate {E} _.
Arguments scriptSetVisible {E} _.
Arguments identityTransform {E} _.
Arguments original {E} _.
Arguments parent {E} _.
Arguments children {E} _.
Arguments dispListID {E} _.
Arguments lodDispLists {E} _.
Arguments pos {E} _.
Arguments rot {E} _.
Arguments dir {E} _.
Arguments pieceSpaceMat {E} _.
Arguments modelSpaceMat {E} _.

Definition with_lastMatrixUpdate {E} (v : Z) (p : t E) : t E :=
  mk (colvol p) (numUpdatesSynced p) v (scriptSetVisible p) (identityTransform p)
     (original p) (parent p) (children p) (dispListID p) (lodDispLists p)
     (pos p) (rot p) (dir p) (pieceSpaceMat p) (modelSpaceMat p).

Definition with_identityTransform {E} (v : bool) (p : t E) : t E :=
  mk (colvol p) (numUpdatesSynced p) (lastMatrixUpdate p) (scriptSetVisible p) v
     (original p) (parent p) (children p) (dispListID p) (lodDispLists p)
     (pos p) (rot p) (dir p) (pieceSpaceMat p) (modelSpaceMat p).

Definition with_parent {E} (v : option nat) (p : t E) : t E :=
  mk (colvol p) (numUpdatesSynced p) (lastMatrixUpdate p) (scriptSetVisible p)
     (identityTransform p) (original p) v (children p) (dispListID p) (lodDispLists p)
     (pos p) (rot p) (dir p) (pieceSpaceMat p) (modelSpaceMat p).

Definition with_children {E} (v : list nat) (p : t E) : t E :=
  mk (colvol p) (numUpdatesSynced p) (lastMatrixUpdate p) (scriptSetVisible p)
     (identityTransform p) (original p) (parent p) v (dispListID p) (lodDispLists p)
     (pos p) (rot p) (dir p) (pieceSpaceMat p) (modelSpaceMat p).

Definition with_dispListID {E} (v : Z) (p : t E) : t E :=
  mk (colvol p) (numUpdatesSynced p) (lastMatrixUpdate p) (scriptSetVisible p)
     (identityTransform p) (original p) (parent p) (children p) v (lodDispLists p)
     (pos p) (rot p) (dir p) (pieceSpaceMat p) (modelSpaceMat p).

Definition with_lodDispLists {E} (v : list Z) (p : t E) : t E :=
  mk (colvol p) (numUpdatesSynced p) (lastMatrixUpdate p) (scriptSetVisible p)
     (identityTransform p) (original p) (parent p) (children p) (dispListID p) v
     (pos p) (rot p) (dir p) (pieceSpaceMat p) (modelSpaceMat p).

Definition with_pieceSpaceMat {E} (v : CMatrix44f E) (p : t E) : t E :=
  mk (colvol p) (numUpdatesSynced p) (lastMatrixUpdate p) (scriptSetVisible p)
     (identityTransform p) (original p) (parent p) (children p) (dispListID p)
     (lodDispLists p) (pos p) (rot p) (dir p) v (modelSpaceMat p).

Definition with_modelSpaceMat {E} (v : CMatrix44f E) (p : t E) : t E :=
  mk (colvol p) (numUpdatesSynced p) (lastMatrixUpdate p) (scriptSetVisible p)
     (identityTransform p) (original p) (parent p) (children p) (dispListID p)
     (lodDispLists p) (pos p) (rot p) (dir p) (pieceSpaceMat p) v.

(** The heap of local pieces: [new] appends, an address is an index. *)
Abbreviation Heap E := (list (t E)).

(** Lines 150-165: the piece with its new [pieceSpaceMat], and the
    value returned. *)
Definition UpdateMatrix {E} (p : t E) : t E * bool :=
  let m := LoadIdentity E (pieceSpaceMat p) in
  let r := true in
  let '(m, r) := if fne (float3.SqLength (pos p)) f0_0
                 then (Translate E (pos p) m, false) else (m, r) in
  let '(m, r) := if fne (float3.y (rot p)) f0_0
                 then (RotateY E (fneg (float3.y (rot p))) m, false) else (m, r) in
  let '(m, r) := if fne (float3.x (rot p)) f0_0
                 then (RotateX E (fneg (float3.x (rot p))) m, false) else (m, r) in
  let '(m, r) := if fne (float3.z (rot p)) f0_0
                 then (RotateZ E (fneg (float3.z (rot p))) m, false) else (m, r) in
  (with_pieceSpaceMat m p, r).

(** Lines 118-144: the constructor. The members it does not mention,
    [rot], the two matrices and the vectors, are default-constructed. *)
Definition new_ {E} (piece : S3DModelPiece.t E) : t E :=
  let dir :=
    if S3DModelPiece.GetVertexCount piece <? 2
    then float3.mk f1_0 f1_0 f1_0
    else float3.sub (S3DModelPiece.GetVertexPos piece 0)
                    (S3DModelPiece.GetVertexPos piece 1) in
  let p := mk (S3DModelPiece.colvol piece) 1 0
              (negb (S3DModelPiece.isEmpty piece)) true
              piece None []
              (S3DModelPiece.dispListID piece) []
              (S3DModelPiece.offset piece) (float3_new E) dir
              (CMatrix44f_new E) (CMatrix44f_new E) in
  let '(p, r) := UpdateMatrix p in
  with_identityTransform r p.

(** [SetParent] and [AddChild] are defined in 3DModel.h, which is not
    among the sources; they are modelled by their names: the one stores
    the parent, the other appends to [children]. *)
Definition SetParent {E} (lmp : option nat) (p : t E) : t E := with_parent lmp p.
Definition AddChild {E} (lmp : nat) (p : t E) : t E :=
  with_children (children p ++ [lmp]) p.

(** Lines 190-199. *)
Definition Draw {E} (p : t E) : list (GLcall E) :=
  if negb (scriptSetVisible p) then []
  else [glPushMatrix; glMultMatrixf (modelSpaceMat p);
        glCallList (dispListID p); glPopMatrix].

(** Lines 201-210; reading [lodDispLists] past its end has no value. *)
Definition DrawLOD {E} (lod : Z) (p : t E) : option (list (GLcall E)) :=
  if negb (scriptSetVisible p) then Some []
  else
    match lodDispLists p !! Z.to_nat lod with
    | Some l => Some [glPushMatrix; glMultMatrixf (modelSpaceMat p);
                      glCallList l; glPopMatrix]
    | None => None
    end.

(** Lines 216-221: [resize] and the loop that clears the new entries. *)
Definition SetLODCount_lists (count : Z) (l : list Z) : list Z :=
  let oldCount := uint_wrap (Z.of_nat (length l)) in
  let l := resize (Z.to_nat count) 0 l in
  fold_left (fun l i => <[i := 0]> l)
            (seq (Z.to_nat oldCount) (Z.to_nat (count - oldCount))) l.

(** Lines 214-226. A call through a pointer that is not in the heap has
    no value; [fuel] bounds the depth of the recursion. *)
Fixpoint SetLODCount {E} (fuel : nat) (this : nat) (count : Z) (h : Heap E)
    : option (Heap E) :=
  match fuel with
  | O => None
  | S fuel =>
    match h !! this with
    | None => None
    | Some p =>
      let h := <[this := with_lodDispLists (SetLODCount_lists count (lodDispLists p)) p]> h in
      (fix loop (cs : list nat) (h : Heap E) : option (Heap E) :=
         match cs with
         | [] => Some h
         | c :: cs =>
           match SetLODCount fuel c count h with
           | Some h => loop cs h
           | None => None
           end
         end) (children p) h
    end
  end.

(** The loop of lines 223-225 by itself. *)
Fixpoint SetLODCount_loop {E} (fuel : nat) (count : Z) (cs : list nat) (h : Heap E)
    : option (Heap E) :=
  match cs with
  | [] => Some h
  | c :: cs =>
    match SetLODCount fuel c count h with
    | Some h => SetLODCount_loop fuel count cs h
    | None => None
    end
  end.

(** Lines 169-173: the piece and the flag after the test of the update
    counter. *)
Definition UpdateMatricesRec_own {E} (p : t E) (updateChildMatrices : bool)
    : t E * bool :=
  if negb (lastMatrixUpdate p =? numUpdatesSynced p) then
    let p := with_lastMatrixUpdate (numUpdatesSynced p) p in
    let '(p, r) := UpdateMatrix p in
    (with_identityTransform r p, true)
  else (p, updateChildMatrices).

(** Lines 175-181; a parent that is not in the heap has no value. *)
Definition UpdateMatricesRec_model {E} (h : Heap E) (p : t E)
    (updateChildMatrices : bool) : option (t E) :=
  if updateChildMatrices then
    match parent p with
    | None => Some (with_modelSpaceMat (pieceSpaceMat p) p)
    | Some q =>
      match h !! q with
      | Some pq => Some (with_modelSpaceMat (Mul E (pieceSpaceMat p) (modelSpaceMat pq)) p)
      | None => None
      end
    end
  else Some p.

(** Lines 167-186. Neither this function nor [SetLODCount] writes
    [children], so the loop runs over the vector as it is on entry. *)
Fixpoint UpdateMatricesRec {E} (fuel : nat) (this : nat) (updateChildMatrices : bool)
    (h : Heap E) : option (Heap E) :=
  match fuel with
  | O => None
  | S fuel =>
    match h !! this with
    | None => None
    | Some p =>
      let '(p, updateChildMatrices) := UpdateMatricesRec_own p updateChildMatrices in
      let h := <[this := p]> h in
      match UpdateMatricesRec_model h p updateChildMatrices with
      | None => None
      | Some p =>
        let h := <[this := p]> h in
        (fix loop (cs : list nat) (h : Heap E) : option (Heap E) :=
           match cs with
           | [] => Some h
           | c :: cs =>
             match UpdateMatricesRec fuel c updateChildMatrices h with
             | Some h => loop cs h
             | None => None
             end
           end) (children p) h
      end
    end
  end.

(** The loop of lines 183-185 by itself. *)
Fixpoint UpdateMatricesRec_loop {E} (fuel : nat) (updateChildMatrices : bool)
    (cs : list nat) (h : Heap E) : option (Heap E) :=
  match cs with
  | [] => Some h
  | c :: cs =>
    match UpdateMatricesRec fuel c updateChildMatrices h with
    | Some h => UpdateMatricesRec_loop fuel updateChildMatrices cs h
    | None => None
    end
  end.

End LocalModelPiece.

Module LocalModel.

Record t : Type := mk {
  pieces : list nat;
  lodCount : Z
}.

Definition with_pieces (v : list nat) (m : t) : t := mk v (lodCount m).
Definition with_lodCount (v : Z) (m : t) : t := mk (pieces m) v.

(** Lines 68-73; a pointer in [pieces] that is not in the heap has no
    value. *)
Fixpoint DrawPieces_loop {E} (h : LocalModelPiece.Heap E) (ps : list nat)
    : option (list (GLcall E)) :=
  match ps with
  | [] => Some []
  | a :: ps =>
    match h !! a, DrawPieces_loop h ps with
    | Some p, Some tr => Some (LocalModelPiece.Draw p ++ tr)
    | _, _ => None
    end
  end.

Definition DrawPieces {E} (h : LocalModelPiece.Heap E) (m : t) : option (list (GLcall E)) :=
  DrawPieces_loop h (pieces m).

(** Lines 82-85. *)
Definition SetLODCount {E} (fuel : nat) (count : Z) (h : LocalModelPiece.Heap E) (m : t)
    : option (LocalModelPiece.Heap E * t) :=
  let m := with_lodCount count m in
  match pieces m !! 0%nat with
  | None => None
  | Some a =>
    match LocalModelPiece.SetLODCount fuel a count h with
    | Some h => Some (h, m)
    | None => None
    end
  end.

(** Lines 89-94. *)
Fixpoint ReloadDisplayLists_loop {E} (ps : list nat) (h : LocalModelPiece.Heap E)
    : option (LocalModelPiece.Heap E) :=
  match ps with
  | [] => Some h
  | a :: ps =>
    match h !! a with
    | Some p =>
      ReloadDisplayLists_loop ps
        (<[a := LocalModelPiece.with_dispListID
                  (S3DModelPiece.dispListID (LocalModelPiece.original p)) p]> h)
    | None => None
    end
  end.

Definition ReloadDisplayLists {E} (h : LocalModelPiece.Heap E) (m : t)
    : option (LocalModelPiece.Heap E) :=
  ReloadDisplayLists_loop (pieces m) h.

(** Lines 96-110. The pointers written through are those that [new]
    has just returned. *)
Fixpoint CreateLocalModelPieces {E} (mpParent : S3DModelPiece.t E) (pieceNum : Z)
    (h : LocalModelPiece.Heap E) (m : t) : nat * LocalModelPiece.Heap E * t :=
  let lmpParent := length h in
  let h := h ++ [LocalModelPiece.new_ mpParent] in
  let m := with_pieces (pieces m ++ [lmpParent]) m in
  let '(h, m) :=
    (fix loop (cs : list (S3DModelPiece.t E)) (pieceNum : Z)
         (h : LocalModelPiece.Heap E) (m : t) : LocalModelPiece.Heap E * t :=
       match cs with
       | [] => (h, m)
       | c :: cs =>
         let pieceNum := size_t_wrap (pieceNum + 1) in
         let '(lmpChild, h, m) := CreateLocalModelPieces c pieceNum h m in
         let h := alter (LocalModelPiece.SetParent (Some lmpParent)) lmpChild h in
         let h := alter (LocalModelPiece.AddChild lmpChild) lmpParent h in
         loop cs pieceNum h m
       end) (S3DModelPiece.children mpParent) pieceNum h m in
  (lmpParent, h, m).

(** The loop of lines 103-107 by itself. *)
Fixpoint CreateLocalModelPieces_loop {E} (lmpParent : nat)
    (cs : list (S3DModelPiece.t E)) (pieceNum : Z)
    (h : LocalModelPiece.Heap E) (m : t) : LocalModelPiece.Heap E * t :=
  match cs with
  | [] => (h, m)
  | c :: cs =>
    let pieceNum := size_t_wrap (pieceNum + 1) in
    let '(lmpChild, h, m) := CreateLocalModelPieces c pieceNum h m in
    let h := alter (LocalModelPiece.SetParent (Some lmpParent)) lmpChild h in
    let h := alter (LocalModelPiece.AddChild lmpChild) lmpParent h in
    CreateLocalModelPieces_loop lmpParent cs pieceNum h m
  end.

End LocalModel.

(** *** Notions used in the statements *)

(** The number of pieces of a piece tree, its height, and its pieces
    parent first. *)
Fixpoint piece_count {E} (p : S3DModelPiece.t E) : nat :=
  S (list_sum (map piece_count (S3DModelPiece.children p))).

Fixpoint piece_height {E} (p : S3DModelPiece.t E) : nat :=
  S (list_max (map piece_height (S3DModelPiece.children p))).

Fixpoint piece_preorder {E} (p : S3DModelPiece.t E) : list (S3DModelPiece.t E) :=
  p :: flat_map piece_preorder (S3DModelPiece.children p).

(** The depth of the matrix stack after a list of calls, starting at
    depth [d]; popping an empty stack has no value. *)
Fixpoint gl_depth {E} (tr : list (GLcall E)) (d : nat) : option nat :=
  match tr with
  | [] => Some d
  | glPushMatrix :: tr => gl_depth tr (S d)
  | glPopMatrix :: tr => match d with O => None | S d => gl_depth tr d end
  | _ :: tr => gl_depth tr d
  end.

(** The greatest depth that the matrix stack reaches. *)
Fixpoint gl_peak {E} (tr : list (GLcall E)) (d : nat) : nat :=
  match tr with
  | [] => d
  | glPushMatrix :: tr => Nat.max d (gl_peak tr (S d))
  | glPopMatrix :: tr => Nat.max d (gl_peak tr (Nat.pred d))
  | _ :: tr => gl_peak tr d
  end.

(** The display lists called, in order. *)
Fixpoint gl_lists {E} (tr : list (GLcall E)) : list Z :=
  match tr with
  | [] => []
  | glCallList l :: tr => l :: gl_lists tr
  | _ :: tr => gl_lists tr
  end.

(** The addresses of the local pieces made for the children [cs], when
    the first is made at address [q]: each child's pieces follow it. *)
Fixpoint child_addrs {E} (q : nat) (cs : list (S3DModelPiece.t E)) : list nat :=
  match cs with
  | [] => []
  | c :: cs => q :: child_addrs (q + piece_count c)%nat cs
  end.

(** [f q c] for every child [c] and its address [q], appended. *)
Fixpoint concat_children {E A} (f : nat -> S3DModelPiece.t E -> list A)
    (q : nat) (cs : list (S3DModelPiece.t E)) : list A :=
  match cs with
  | [] => []
  | c :: cs => f q c ++ concat_children f (q + piece_count c)%nat cs
  end.

(** [P q c] for every child [c] and its address [q]. *)
Fixpoint each_child {E} (P : nat -> S3DModelPiece.t E -> Prop)
    (q : nat) (cs : list (S3DModelPiece.t E)) : Prop :=
  match cs with
  | [] => True
  | c :: cs => P q c /\ each_child P (q + piece_count c)%nat cs
  end.

(** The local pieces of the tree [mp], parent first, as they are when
    the first is at address [a] and has the parent [par]. *)
Fixpoint local_pieces {E} (a : nat) (par : option nat) (mp : S3DModelPiece.t E)
    : list (LocalModelPiece.t E) :=
  LocalModelPiece.with_children (child_addrs (S a) (S3DModelPiece.children mp))
    (LocalModelPiece.with_parent par (LocalModelPiece.new_ mp))
  :: concat_children (fun q c => local_pieces q (Some a) c) (S a)
       (S3DModelPiece.children mp).

(** The heap holds, from address [a] on, a copy of the tree [mp] whose
    root has the parent [par]: every piece points to its original, to
    its parent and to its children, which lie behind it in order. *)
Fixpoint laid_out {E} (h : LocalModelPiece.Heap E) (a : nat) (par : option nat)
    (mp : S3DModelPiece.t E) : Prop :=
  (exists p, h !! a = Some p
             /\ LocalModelPiece.original p = mp
             /\ LocalModelPiece.parent p = par
             /\ LocalModelPiece.children p = child_addrs (S a) (S3DModelPiece.children mp))
  /\ each_child (fun q c => laid_out h q (Some a) c) (S a) (S3DModelPiece.children mp).

(** [g] applied to the [k] pieces from address [a] on. *)
Fixpoint alter_range {E} (g : LocalModelPiece.t E -> LocalModelPiece.t E)
    (a : nat) (k : nat) (h : LocalModelPiece.Heap E) : LocalModelPiece.Heap E :=
  match k with
  | O => h
  | S k => alter_range g (S a) k (alter g a h)
  end.

(** A piece as lines 216-221 leave it. *)
Definition SetLODCount_piece {E} (count : Z) (p : LocalModelPiece.t E)
    : LocalModelPiece.t E :=
  LocalModelPiece.with_lodDispLists
    (LocalModelPiece.SetLODCount_lists count (LocalModelPiece.lodDispLists p)) p.

(** The two matrices of a piece are up to date: its update counter has
    been seen, and its model-space matrix is the product of its
    piece-space matrix and the model-space matrix of its parent. *)
Definition matrices_clean {E} (p : LocalModelPiece.t E) : Prop :=
  LocalModelPiece.lastMatrixUpdate p = LocalModelPiece.numUpdatesSynced p.

Definition model_matrix_ok {E} (h : LocalModelPiece.Heap E) (p : LocalModelPiece.t E)
    : Prop :=
  match LocalModelPiece.parent p with
  | None => LocalModelPiece.modelSpaceMat p = LocalModelPiece.pieceSpaceMat p
  | Some q =>
    exists pq, h !! q = Some pq
               /\ LocalModelPiece.modelSpaceMat p
                  = Mul E (LocalModelPiece.pieceSpaceMat p) (LocalModelPiece.modelSpaceMat pq)
  end.

(** From [h] to [h'] the [k] pieces from address [a] on have been
    brought up to date, and nothing else was written: each is as lines
    169-173 leave it, but for its model-space matrix. *)
Definition matrices_updated {E} (h h' : LocalModelPiece.Heap E) (a k : nat) : Prop :=
  length h' = length h
  /\ (forall i, (i < a \/ a + k <= i)%nat -> h' !! i = h !! i)
  /\ (forall i, (a <= i < a + k)%nat ->
        exists p p',
          h !! i = Some p /\ h' !! i = Some p'
          /\ p' = LocalModelPiece.with_modelSpaceMat (LocalModelPiece.modelSpaceMat p')
                    (fst (LocalModelPiece.UpdateMatricesRec_own p false))
          /\ matrices_clean p' /\ model_matrix_ok h' p').

(** *** A small model used as an example *)

Module Demo3D.

(** Matrices stand for numbers here: the identity is 1, a translation
    adds 1, a rotation doubles, and the product is the product. *)
Definition env : Externals3D :=
  mkExternals3D Z unit 1 float3.ZeroVector
    (fun _ => 1) (fun _ m => m + 1)
    (fun _ m => 2 * m) (fun _ m => 2 * m) (fun _ m => 2 * m) Z.mul.

Definition piece (isEmpty : bool) (dispListID : Z) (offset : float3.t)
    (children : list (S3DModelPiece.t env)) : S3DModelPiece.t env :=
  @S3DModelPiece.mk env isEmpty dispListID offset tt 0 (fun _ => float3.ZeroVector) children.

(** A base with a turret, which carries a barrel, and an empty flare
    point. *)
Definition barrel : S3DModelPiece.t env := piece false 9 (float3.mk f0_0 f0_0 f2_0) [].
Definition turret : S3DModelPiece.t env := piece false 8 (float3.mk f0_0 f1_0 f0_0) [barrel].
Definition flare : S3DModelPiece.t env := piece true 0 (float3.mk f1_0 f0_0 f0_0) [].
Definition base : S3DModelPiece.t env := piece false 7 float3.ZeroVector [turret; flare].

Definition no_pieces : LocalModel.t := LocalModel.mk [] 0.

(** The heap after the local model of [base] has been made. *)
Definition heap : LocalModelPiece.Heap env :=
  snd (fst (LocalModel.CreateLocalModelPieces base 0 [] no_pieces)).

End Demo3D.

(* ===================================================================== *)
(** * Part II -- properties                                                *)
(* ===================================================================== *)

(** ** Facts about binary32 arithmetic *)

Lemma feq_inf (a : float) :
  feq a QTPFS_POSITIVE_INFINITY = true -> a = QTPFS_POSITIVE_INFINITY.
Proof.
  unfold feq, SFeqb, QTPFS_POSITIVE_INFINITY.
  destruct a as [s|s| |s m e]; simpl; try destruct s; simpl; congruence.
Qed.

Lemma zero_or_nan_fmul_0 (h : float) : zero_or_nan (fmul h f0_0).
Proof. destruct h as [s|s| |s m e]; simpl; exact I. Qed.

Lemma fmul_0_idem (h : float) : fmul (fmul h f0_0) f0_0 = fmul h f0_0.
Proof. destruct h as [s|s| |s m e]; simpl; try reflexivity; destruct s; reflexivity. Qed.

Lemma flt_zero_or_nan (a b : float) :
  zero_or_nan a -> zero_or_nan b -> flt a b = false.
Proof.
  destruct a as [s|s| |s m e]; destruct b as [s'|s'| |s' m' e']; simpl;
    intros; tauto || reflexivity.
Qed.

Ltac cmp_cases :=
  repeat match goal with
  | |- context [Z.compare ?a ?b] => destruct (Z.compare_spec a b)
  | H : context [Z.compare ?a ?b] |- _ => destruct (Z.compare_spec a b)
  | |- context [Pos.compare_cont Eq ?a ?b] =>
      change (Pos.compare_cont Eq a b) with (Pos.compare a b);
      destruct (Pos.compare_spec a b)
  | H : context [Pos.compare_cont Eq ?a ?b] |- _ =>
      change (Pos.compare_cont Eq a b) with (Pos.compare a b) in H;
      destruct (Pos.compare_spec a b)
  end.

Ltac float_cases a := destruct a as [[]|[]| |[] ? ?].

Lemma SFcompare_antisym (a b : float) :
  SFcompare b a = option_map CompOpp (SFcompare a b).
Proof.
  float_cases a; float_cases b; simpl; try reflexivity;
    cmp_cases; simpl; try reflexivity; try lia; subst; try lia.
Qed.

(** For ordered operands, [!(a >= b)] is [a < b]. *)
Lemma flt_of_not_fge (a b : float) :
  fge a b = false -> is_nan a = false -> is_nan b = false -> flt a b = true.
Proof.
  unfold fge, flt, SFleb, SFltb. rewrite (SFcompare_antisym a b).
  float_cases a; float_cases b; simpl; try congruence;
    cmp_cases; simpl; congruence.
Qed.

Lemma flt_trans (a b c : float) : flt a b = true -> flt b c = true -> flt a c = true.
Proof.
  unfold flt, SFltb.
  float_cases a; float_cases b; float_cases c; simpl; try congruence;
    cmp_cases; simpl; try congruence; subst; try lia.
Qed.

Lemma flt_irrefl (a : float) : flt a a = false.
Proof.
  unfold flt, SFltb. float_cases a; simpl; try reflexivity;
    rewrite Z.compare_refl; change (Pos.compare_cont Eq ?p ?p) with (Pos.compare p p);
    rewrite Pos.compare_refl; reflexivity.
Qed.

Lemma flt_fle (a b : float) : flt a b = true -> fle a b = true.
Proof.
  unfold flt, fle, SFltb, SFleb. destruct (SFcompare a b) as [[]|]; congruence.
Qed.

Lemma fle_refl (a : float) : is_nan a = false -> fle a a = true.
Proof.
  unfold fle, SFleb. float_cases a; simpl; try congruence;
    rewrite Z.compare_refl; change (Pos.compare_cont Eq ?p ?p) with (Pos.compare p p);
    rewrite Pos.compare_refl; reflexivity.
Qed.

(** [c < a] follows from [a > max(b, c)] when [c] is a number. *)
Lemma fgt_fmax_r (a b c : float) :
  is_nan c = false ->
  fgt a (fmax b c) = true -> flt c a = true.
Proof.
  unfold fgt, fmax. destruct (flt b c) eqn:Hbc; [tauto|].
  revert Hbc. unfold flt, SFltb.
  float_cases a; float_cases b; float_cases c; simpl; try congruence;
    cmp_cases; simpl; try congruence; subst; try lia.
Qed.

Lemma feq_sym (a b : float) : feq a b = feq b a.
Proof.
  unfold feq, SFeqb. rewrite (SFcompare_antisym b a).
  destruct (SFcompare b a) as [[]|]; reflexivity.
Qed.

Lemma feq_trans (a b c : float) : feq a b = true -> feq b c = true -> feq a c = true.
Proof.
  unfold feq, SFeqb.
  float_cases a; float_cases b; float_cases c; simpl; try congruence;
    cmp_cases; simpl; try congruence; subst; try lia.
Qed.

(** ** Rounding *)

Lemma Zdigits2_log2 (m : Z) : 0 < m -> Zdigits2 m = Z.log2 m + 1.
Proof.
  destruct m as [|p|p]; try lia. intros _. simpl.
  induction p as [p IH|p IH|]; simpl; try reflexivity.
  - rewrite Pos2Z.inj_succ, IH. destruct p; simpl; lia.
  - rewrite Pos2Z.inj_succ, IH. destruct p; simpl; lia.
Qed.

Lemma Zdigits2_nonneg (m : Z) : 0 <= Zdigits2 m.
Proof. destruct m; simpl; lia. Qed.

Lemma Zdigits2_mono (a b : Z) : 0 <= a <= b -> Zdigits2 a <= Zdigits2 b.
Proof.
  intros [Ha Hab]. destruct (Z.eq_dec a 0) as [->|Hne].
  - apply Zdigits2_nonneg.
  - rewrite !Zdigits2_log2 by lia. pose proof (Z.log2_le_mono a b Hab). lia.
Qed.

Lemma shr_1_m (r : shr_record) : 0 <= shr_m r -> shr_m (shr_1 r) = Z.div2 (shr_m r).
Proof.
  destruct r as [m r s]. simpl. intros Hm.
  destruct m as [|[p|p|]|p]; simpl; try reflexivity; lia.
Qed.

Lemma iter_pos_nat {A} (f : A -> A) (p : positive) (a : A) :
  SpecFloat.iter_pos f p a = Nat.iter (Pos.to_nat p) f a.
Proof.
  revert a. induction p as [p IH|p IH|]; intros a; cbn [SpecFloat.iter_pos].
  - rewrite !IH, Pos2Nat.inj_xI.
    replace (S (2 * Pos.to_nat p)) with (Pos.to_nat p + Pos.to_nat p + 1)%nat by lia.
    rewrite !Nat.iter_add. reflexivity.
  - rewrite !IH, Pos2Nat.inj_xO.
    replace (2 * Pos.to_nat p)%nat with (Pos.to_nat p + Pos.to_nat p)%nat by lia.
    rewrite Nat.iter_add. reflexivity.
  - reflexivity.
Qed.

Lemma shr_iter_m (n : nat) (r : shr_record) :
  0 <= shr_m r -> shr_m (Nat.iter n shr_1 r) = Z.shiftr (shr_m r) (Z.of_nat n).
Proof.
  intros Hm. induction n as [|n IH].
  - simpl. rewrite Z.shiftr_0_r. reflexivity.
  - rewrite Nat2Z.inj_succ. simpl Nat.iter. rewrite shr_1_m.
    + rewrite IH. rewrite Z.div2_spec, Z.shiftr_shiftr by lia. f_equal; lia.
    + rewrite IH. apply Z.shiftr_nonneg. exact Hm.
Qed.

(** The mantissa and exponent that [shr_fexp] leaves, when no left shift
    would have been needed. *)
Lemma shr_fexp_spec (m e : Z) (l : location) :
  0 <= m ->
  e <= fexp prec emax (Zdigits2 m + e) ->
  let '(r, e') := shr_fexp prec emax m e l in
  shr_m r = Z.shiftr m (fexp prec emax (Zdigits2 m + e) - e)
  /\ e' = fexp prec emax (Zdigits2 m + e).
Proof.
  intros Hm He. unfold shr_fexp, shr.
  assert (Hrec : shr_m (shr_record_of_loc m l) = m) by (destruct l as [|[]]; reflexivity).
  destruct (fexp prec emax (Zdigits2 m + e) - e) as [|p|p] eqn:Hn.
  - rewrite Z.shiftr_0_r. split; [exact Hrec | lia].
  - rewrite iter_pos_nat, shr_iter_m by (rewrite Hrec; exact Hm).
    rewrite Hrec, positive_nat_Z. split; [reflexivity | lia].
  - lia.
Qed.

Lemma Zdigits2_shiftr (m n : Z) :
  0 < m -> 0 <= n -> 0 < Z.shiftr m n -> Zdigits2 (Z.shiftr m n) = Zdigits2 m - n.
Proof.
  intros Hm Hn Hs. rewrite !Zdigits2_log2 by lia.
  rewrite Z.log2_shiftr by lia.
  assert (n <= Z.log2 m).
  { destruct (Z_le_gt_dec n (Z.log2 m)) as [H|H]; [exact H|].
    exfalso. assert (Z.shiftr m n = 0) by (apply Z.shiftr_eq_0; lia). lia. }
  lia.
Qed.

Lemma shiftr_zero_digits (m n : Z) :
  0 < m -> 0 <= n -> Z.shiftr m n = 0 -> Zdigits2 m <= n.
Proof.
  intros Hm Hn Hs. rewrite Zdigits2_log2 by lia.
  apply Z.shiftr_eq_0_iff in Hs. destruct Hs as [Hs|[_ Hs]]; lia.
Qed.

Lemma fexp_mono (a b : Z) : a <= b -> fexp prec emax a <= fexp prec emax b.
Proof. unfold fexp, emin, prec, emax. lia. Qed.

Lemma round_nearest_even_range (m : Z) (l : location) :
  m <= round_nearest_even m l <= m + 1.
Proof. destruct l as [|[]]; simpl; try lia. destruct (Z.even m); lia. Qed.

(** Rounding a mantissa that needs no left shift gives a value of the
    format. *)
Lemma binary_round_aux_valid (s : bool) (m : positive) (e : Z) (l : location) :
  e <= fexp prec emax (Zdigits2 (Z.pos m) + e) ->
  valid_binary prec emax (binary_round_aux prec emax s (Z.pos m) e l) = true.
Proof.
  intros He. unfold binary_round_aux.
  pose proof (shr_fexp_spec (Z.pos m) e l ltac:(lia) He) as H1.
  destruct (shr_fexp prec emax (Z.pos m) e l) as [r1 e1]. destruct H1 as [Hm1 He1].
  set (m2 := round_nearest_even (shr_m r1) (loc_of_shr_record r1)).
  pose proof (round_nearest_even_range (shr_m r1) (loc_of_shr_record r1)) as Hm2. fold m2 in Hm2.
  assert (Hm1nn : 0 <= shr_m r1) by (rewrite Hm1; apply Z.shiftr_nonneg; lia).
  assert (He2 : m2 = 0 \/ (0 < m2 /\ e1 <= fexp prec emax (Zdigits2 m2 + e1))).
  { destruct (Z.eq_dec m2 0) as [?|Hne]; [left; assumption | right]. split; [lia|].
    destruct (Z.eq_dec (shr_m r1) 0) as [Hz|Hnz].
    - (* everything was shifted out: the exponent is emin *)
      assert (H : m2 = 1) by lia.
      rewrite Hm1 in Hz. apply shiftr_zero_digits in Hz; try lia.
      subst m2. rewrite H. simpl Zdigits2.
      revert Hz He1 He. unfold fexp, emin, prec, emax. lia.
    - assert (Hd : Zdigits2 (shr_m r1) = Zdigits2 (Z.pos m) - (e1 - e)).
      { rewrite Hm1, <- He1. apply Zdigits2_shiftr; try lia. rewrite He1, <- Hm1. lia. }
      pose proof (Zdigits2_mono (shr_m r1) m2 ltac:(lia)) as Hmono.
      transitivity (fexp prec emax (Zdigits2 (shr_m r1) + e1)).
      + rewrite Hd. replace (Zdigits2 (Z.pos m) - (e1 - e) + e1) with (Zdigits2 (Z.pos m) + e) by lia. lia.
      + apply fexp_mono. lia. }
  destruct He2 as [Hz|[Hpos He2]].
  - rewrite Hz. unfold shr_fexp. simpl Zdigits2. unfold shr.
    destruct (fexp prec emax (0 + e1) - e1) as [|p|p]; try reflexivity.
    rewrite iter_pos_nat.
    assert (Hs : shr_m (Nat.iter (Pos.to_nat p) shr_1 (shr_record_of_loc 0 loc_Exact)) = 0).
    { rewrite shr_iter_m by (simpl; lia). simpl. apply Z.shiftr_0_l. }
    rewrite Hs. reflexivity.
  - pose proof (shr_fexp_spec m2 e1 loc_Exact ltac:(lia) He2) as H2.
    destruct (shr_fexp prec emax m2 e1 loc_Exact) as [r2 e2]. destruct H2 as [Hm3 He3].
    destruct (shr_m r2) as [|m3|m3] eqn:Hr2; try reflexivity.
    destruct (e2 <=? emax - prec) eqn:Hle; [|reflexivity].
    simpl. unfold bounded, canonical_mantissa. rewrite Hle, andb_true_r.
    apply Z.eqb_eq.
    change (Z.pos (digits2_pos m3)) with (Zdigits2 (Z.pos m3)).
    rewrite Hm3. rewrite Zdigits2_shiftr by (try lia; rewrite <- Hm3; lia).
    rewrite <- He3 at 1.
    replace (Zdigits2 m2 - (e2 - e1) + e2) with (Zdigits2 m2 + e1) by lia. lia.
Qed.

Lemma Zdigits2_mul_pow2 (m : positive) (k : Z) :
  0 <= k -> Zdigits2 (Z.pos m * 2 ^ k) = Zdigits2 (Z.pos m) + k.
Proof.
  intros Hk. rewrite !Zdigits2_log2 by (try apply Z.mul_pos_pos; try apply Z.pow_pos_nonneg; lia).
  rewrite Z.log2_mul_pow2 by lia. lia.
Qed.

Lemma Zdigits2_pos (m : positive) : 1 <= Zdigits2 (Z.pos m).
Proof. simpl. lia. Qed.

(** Any float times [1.0f] is a value of the format. *)
Lemma fmul_1_binary32 (h : float) : is_binary32 (fmul h f1_0).
Proof.
  unfold is_binary32. change f1_0 with (S754_finite false 8388608 (-23)).
  destruct h as [s|s| |s m e]; try reflexivity.
  unfold fmul. cbn [SFmul].
  apply binary_round_aux_valid.
  change (Z.pos (m * 8388608)) with (Z.pos m * 2 ^ 23).
  rewrite Zdigits2_mul_pow2 by lia.
  pose proof (Zdigits2_pos m). unfold fexp, emin, prec, emax. lia.
Qed.

Lemma shr_1_even (p : positive) :
  shr_1 (Build_shr_record (Z.pos p~0) false false) = Build_shr_record (Z.pos p) false false.
Proof. reflexivity. Qed.

(** A value of the format times [1.0f] is that value. *)
Lemma fmul_1_id (r : float) : is_binary32 r -> fmul r f1_0 = r.
Proof.
  unfold is_binary32. change f1_0 with (S754_finite false 8388608 (-23)).
  destruct r as [s|s| |s m e]; intros Hv;
    try reflexivity; try (destruct s; reflexivity).
  unfold valid_binary, bounded, canonical_mantissa in Hv.
  apply andb_true_iff in Hv. destruct Hv as [Hc Hb]. apply Z.eqb_eq in Hc.
  unfold fmul. cbn [SFmul]. rewrite xorb_false_r.
  unfold binary_round_aux, shr_fexp.
  assert (Hd : Zdigits2 (Z.pos (m * 8388608)) = Z.pos (digits2_pos m) + 23).
  { change (Z.pos (m * 8388608)) with (Z.pos m * 2 ^ 23).
    rewrite Zdigits2_mul_pow2 by lia. reflexivity. }
  rewrite Hd.
  replace (Z.pos (digits2_pos m) + 23 + (e + -23)) with (Z.pos (digits2_pos m) + e) by lia.
  rewrite Hc. replace (e - (e + -23)) with 23 by lia.
  rewrite (Pos.mul_comm m 8388608).
  change (8388608 * m)%positive with (m~0~0~0~0~0~0~0~0~0~0~0~0~0~0~0~0~0~0~0~0~0~0~0)%positive.
  cbn [shr SpecFloat.iter_pos shr_record_of_loc].
  rewrite !shr_1_even.
  cbn [shr_m loc_of_shr_record round_nearest_even Zdigits2].
  replace (e + -23 + 23) with e by lia.
  rewrite Hc, Z.sub_diag. cbn [shr shr_m shr_record_of_loc].
  rewrite Hb. reflexivity.
Qed.

Lemma fmul_1_idem (h : float) : fmul (fmul h f1_0) f1_0 = fmul h f1_0.
Proof. apply fmul_1_id, fmul_1_binary32. Qed.

Lemma float_of_bool_cases (b : bool) :
  float_of_bool b = (if b then f1_0 else f0_0).
Proof. destruct b; reflexivity. Qed.

(** A product with [int(b)] as its last factor is a value of the format. *)
Lemma fmul_bool_binary32 (a : float) (b : bool) : is_binary32 (fmul a (float_of_bool b)).
Proof.
  rewrite float_of_bool_cases. destruct b.
  - apply fmul_1_binary32.
  - pose proof (zero_or_nan_fmul_0 a) as H. unfold is_binary32.
    destruct (fmul a f0_0); simpl in *; tauto.
Qed.

Lemma Zdigits2_mul (a b : positive) :
  Zdigits2 (Z.pos a) + Zdigits2 (Z.pos b) - 1 <= Zdigits2 (Z.pos (a * b))
  <= Zdigits2 (Z.pos a) + Zdigits2 (Z.pos b).
Proof.
  rewrite Pos2Z.inj_mul. rewrite !Zdigits2_log2 by lia.
  pose proof (Z.log2_mul_below (Z.pos a) (Z.pos b) ltac:(lia) ltac:(lia)).
  pose proof (Z.log2_mul_above (Z.pos a) (Z.pos b) ltac:(lia) ltac:(lia)).
  lia.
Qed.

Lemma Zdigits2_succ (m : Z) : 0 < m -> Zdigits2 (m + 1) <= Zdigits2 m + 1.
Proof.
  intros Hm. destruct m as [|p|p]; try lia.
  transitivity (Zdigits2 (Z.pos p * 2 ^ 1)).
  - apply Zdigits2_mono. lia.
  - rewrite Zdigits2_mul_pow2 by lia. lia.
Qed.

(** Rounding a mantissa that needs no left shift and stands for a value
    below [2^127] gives a number. *)
Lemma binary_round_aux_finite (s : bool) (m : positive) (e : Z) (l : location) :
  e <= fexp prec emax (Zdigits2 (Z.pos m) + e) ->
  Zdigits2 (Z.pos m) + e <= 127 ->
  is_finite (binary_round_aux prec emax s (Z.pos m) e l) = true.
Proof.
  intros He Hk. unfold binary_round_aux.
  pose proof (shr_fexp_spec (Z.pos m) e l ltac:(lia) He) as H1.
  destruct (shr_fexp prec emax (Z.pos m) e l) as [r1 e1]. destruct H1 as [Hm1 He1].
  set (m2 := round_nearest_even (shr_m r1) (loc_of_shr_record r1)).
  pose proof (round_nearest_even_range (shr_m r1) (loc_of_shr_record r1)) as Hm2. fold m2 in Hm2.
  assert (Hm1nn : 0 <= shr_m r1) by (rewrite Hm1; apply Z.shiftr_nonneg; lia).
  assert (He2 : m2 = 0 \/ (0 < m2 /\ e1 <= fexp prec emax (Zdigits2 m2 + e1)
                           /\ Zdigits2 m2 + e1 <= 128)).
  { destruct (Z.eq_dec m2 0) as [?|Hne]; [left; assumption | right]. split; [lia|].
    destruct (Z.eq_dec (shr_m r1) 0) as [Hz|Hnz].
    - assert (H : m2 = 1) by lia.
      rewrite Hm1 in Hz. apply shiftr_zero_digits in Hz; try lia.
      subst m2. rewrite H. simpl Zdigits2.
      revert Hz He1 He Hk. unfold fexp, emin, prec, emax. lia.
    - assert (Hd : Zdigits2 (shr_m r1) = Zdigits2 (Z.pos m) - (e1 - e)).
      { rewrite Hm1, <- He1. apply Zdigits2_shiftr; try lia. rewrite He1, <- Hm1. lia. }
      pose proof (Zdigits2_mono (shr_m r1) m2 ltac:(lia)) as Hmono.
      pose proof (Zdigits2_mono m2 (shr_m r1 + 1) ltac:(lia)) as Hup.
      pose proof (Zdigits2_succ (shr_m r1) ltac:(lia)) as Hsucc.
      split; [|lia].
      transitivity (fexp prec emax (Zdigits2 (shr_m r1) + e1)).
      + rewrite Hd. replace (Zdigits2 (Z.pos m) - (e1 - e) + e1) with (Zdigits2 (Z.pos m) + e) by lia. lia.
      + apply fexp_mono. lia. }
  destruct He2 as [Hz|(Hpos & He2 & Hk2)].
  - rewrite Hz. unfold shr_fexp. simpl Zdigits2. unfold shr.
    destruct (fexp prec emax (0 + e1) - e1) as [|p|p]; try reflexivity.
    rewrite iter_pos_nat.
    assert (Hs : shr_m (Nat.iter (Pos.to_nat p) shr_1 (shr_record_of_loc 0 loc_Exact)) = 0).
    { rewrite shr_iter_m by (simpl; lia). simpl. apply Z.shiftr_0_l. }
    rewrite Hs. reflexivity.
  - pose proof (shr_fexp_spec m2 e1 loc_Exact ltac:(lia) He2) as H2.
    destruct (shr_fexp prec emax m2 e1 loc_Exact) as [r2 e2]. destruct H2 as [Hm3 He3].
    assert (Hle : (e2 <=? emax - prec) = true).
    { apply Z.leb_le. rewrite He3. revert Hk2. unfold fexp, emin, prec, emax. lia. }
    rewrite Hle.
    assert (Hnn : 0 <= shr_m r2) by (rewrite Hm3; apply Z.shiftr_nonneg; lia).
    destruct (shr_m r2) as [|m3|m3]; try reflexivity. lia.
Qed.

(** What [valid_binary] says of a finite value. *)
Lemma valid_finite (s : bool) (m : positive) (e : Z) :
  valid_binary prec emax (S754_finite s m e) = true ->
  fexp prec emax (Zdigits2 (Z.pos m) + e) = e /\ e <= emax - prec.
Proof.
  unfold valid_binary, bounded, canonical_mantissa. intros H.
  apply andb_true_iff in H. destruct H as [Hc Hb].
  apply Z.eqb_eq in Hc. apply Z.leb_le in Hb. split; assumption.
Qed.

(** The exact product of two values of the format needs no left shift. *)
Lemma product_no_shift (sx sy : bool) (mx my : positive) (ex ey : Z) :
  valid_binary prec emax (S754_finite sx mx ex) = true ->
  valid_binary prec emax (S754_finite sy my ey) = true ->
  ex + ey <= fexp prec emax (Zdigits2 (Z.pos (mx * my)) + (ex + ey)).
Proof.
  intros Hx Hy. apply valid_finite in Hx, Hy.
  destruct Hx as [Hx _]. destruct Hy as [Hy _].
  pose proof (Zdigits2_mul mx my) as [Hlo _].
  pose proof (Zdigits2_pos mx). pose proof (Zdigits2_pos my).
  revert Hx Hy Hlo. unfold fexp, emin, prec, emax. lia.
Qed.

(** The product of two values of the format is a value of the format. *)
Lemma fmul_binary32 (x y : float) :
  is_binary32 x -> is_binary32 y -> is_binary32 (fmul x y).
Proof.
  unfold is_binary32.
  destruct x as [sx|sx| |sx mx ex]; destruct y as [sy|sy| |sy my ey];
    intros Hx Hy; try reflexivity.
  unfold fmul. cbn [SFmul]. apply binary_round_aux_valid.
  apply (product_no_shift sx sy); assumption.
Qed.

(** The product of a number below [2^ka] and a number below [2^kb] is a
    number when [ka + kb <= 127]: it does not overflow. *)
Lemma fmul_small (ka kb : Z) (x y : float) :
  small ka x = true -> small kb y = true -> ka + kb <= 127 ->
  is_finite (fmul x y) = true.
Proof.
  unfold small. intros Hx Hy Hk.
  apply andb_true_iff in Hx, Hy. destruct Hx as [Vx Bx]. destruct Hy as [Vy By].
  destruct x as [sx|sx| |sx mx ex]; try discriminate;
    destruct y as [sy|sy| |sy my ey]; try discriminate; try reflexivity.
  apply Z.leb_le in Bx, By.
  unfold fmul. cbn [SFmul]. apply binary_round_aux_finite.
  - apply (product_no_shift sx sy); assumption.
  - pose proof (Zdigits2_mul mx my) as [_ Hhi]. lia.
Qed.

Lemma small_binary32 (k : Z) (x : float) : small k x = true -> is_binary32 x.
Proof. unfold small, is_binary32. intros H. apply andb_true_iff in H. tauto. Qed.

Lemma small_finite (k : Z) (x : float) : small k x = true -> is_finite x = true.
Proof.
  unfold small. intros H. apply andb_true_iff in H. destruct H as [_ H].
  destruct x; simpl in *; congruence.
Qed.

(** A number times [int(b)] is a number. *)
Lemma fmul_bool_finite (x : float) (b : bool) :
  is_binary32 x -> is_finite x = true -> is_finite (fmul x (float_of_bool b)) = true.
Proof.
  intros Hv Hf. rewrite float_of_bool_cases. destruct b.
  - rewrite fmul_1_id by exact Hv. exact Hf.
  - destruct x; simpl in *; congruence.
Qed.

(** Multiplying by the heuristic multiplier of either search type twice
    is multiplying once. *)
Lemma fmul_hCostMult_idem (t : SearchType) (h : float) :
  fmul (fmul h (hCostMult_of t)) (hCostMult_of t) = fmul h (hCostMult_of t).
Proof. destruct t; [apply fmul_1_idem | apply fmul_0_idem]. Qed.

(** ** [unsigned int] arithmetic *)

Lemma uint_wrap_small (a : Z) : 0 <= a < UINT_MOD -> uint_wrap a = a.
Proof. intros H. unfold uint_wrap. apply Z.mod_small. exact H. Qed.

(** ** GetHash *)

(** Without wrap-around the hash is the base-[N] numeral of the triple. *)
Lemma GetHash_no_wrap (w : World) (N k : Z) :
  0 <= srcNumber w < N -> 0 <= tgtNumber w < N -> 0 <= k ->
  (k + 1) * N * N <= UINT_MOD ->
  GetHash w N k = srcNumber w + tgtNumber w * N + k * N * N.
Proof.
  intros Ha Hb Hk Hbound. unfold GetHash, uint_add, uint_mul.
  fold (srcNumber w) (tgtNumber w).
  set (a := srcNumber w) in *. set (b := tgtNumber w) in *.
  assert (HN : 1 <= N) by lia.
  assert (HkN : 0 <= k * N <= k * N * N) by nia.
  assert (HbN : 0 <= b * N <= N * N - N) by nia.
  assert (HNN : k * N * N + N * N <= UINT_MOD) by lia.
  rewrite (uint_wrap_small (b * N)) by lia.
  rewrite (uint_wrap_small (a + b * N)) by lia.
  rewrite (uint_wrap_small (k * N)) by lia.
  rewrite (uint_wrap_small (k * N * N)) by lia.
  apply uint_wrap_small. lia.
Qed.

Lemma base_N_unique (N a1 b1 k1 a2 b2 k2 : Z) :
  0 <= a1 < N -> 0 <= b1 < N -> 0 <= a2 < N -> 0 <= b2 < N ->
  a1 + b1 * N + k1 * N * N = a2 + b2 * N + k2 * N * N ->
  a1 = a2 /\ b1 = b2 /\ k1 = k2.
Proof.
  intros Ha1 Hb1 Ha2 Hb2 H.
  assert (Ha : a1 = a2).
  { assert (H1 : a1 = (a1 + (b1 + k1 * N) * N) mod N)
      by (rewrite Z.mod_add by lia; symmetry; apply Z.mod_small; lia).
    assert (H2 : a2 = (a2 + (b2 + k2 * N) * N) mod N)
      by (rewrite Z.mod_add by lia; symmetry; apply Z.mod_small; lia).
    rewrite H1, H2. f_equal. lia. }
  subst a2.
  assert (Hq : b1 + k1 * N = b2 + k2 * N) by nia.
  assert (Hb : b1 = b2).
  { assert (H1 : b1 = (b1 + k1 * N) mod N)
      by (rewrite Z.mod_add by lia; symmetry; apply Z.mod_small; lia).
    assert (H2 : b2 = (b2 + k2 * N) mod N)
      by (rewrite Z.mod_add by lia; symmetry; apply Z.mod_small; lia).
    rewrite H1, H2. f_equal. exact Hq. }
  subst b2. split; [reflexivity | split; [reflexivity | nia]].
Qed.

(** Where the [unsigned int] computation does not wrap, that is where
    [(k + 1) * N * N] does not exceed [2^32] and both node numbers are
    below [N], the value returned is the sum
    [srcNode.nodeNumber + tgtNode.nodeNumber * N + k * N * N], and equal
    values come from equal triples. *)
Theorem GetHash_exact_and_injective (w1 w2 : World) (N k1 k2 : Z) :
  0 <= srcNumber w1 < N -> 0 <= tgtNumber w1 < N ->
  0 <= srcNumber w2 < N -> 0 <= tgtNumber w2 < N ->
  0 <= k1 -> 0 <= k2 ->
  (k1 + 1) * N * N <= UINT_MOD -> (k2 + 1) * N * N <= UINT_MOD ->
  GetHash w1 N k1 = srcNumber w1 + tgtNumber w1 * N + k1 * N * N
  /\ GetHash w2 N k2 = srcNumber w2 + tgtNumber w2 * N + k2 * N * N
  /\ (GetHash w1 N k1 = GetHash w2 N k2 ->
      srcNumber w1 = srcNumber w2 /\ tgtNumber w1 = tgtNumber w2 /\ k1 = k2).
Proof.
  intros Ha1 Hb1 Ha2 Hb2 Hk1 Hk2 HB1 HB2.
  pose proof (GetHash_no_wrap w1 N k1 Ha1 Hb1 Hk1 HB1) as E1.
  pose proof (GetHash_no_wrap w2 N k2 Ha2 Hb2 Hk2 HB2) as E2.
  split; [exact E1 | split; [exact E2 |]].
  rewrite E1, E2. apply base_N_unique; assumption.
Qed.

Lemma GetHash_exact_and_injective_witness :
  (0 <= srcNumber (Demo.numbered 3 5) < 100 /\ 0 <= tgtNumber (Demo.numbered 3 5) < 100
   /\ (7 + 1) * 100 * 100 <= UINT_MOD)
  /\ GetHash (Demo.numbered 3 5) 100 7 = 3 + 5 * 100 + 7 * 100 * 100.
Proof.
  assert (Ha : 0 <= srcNumber (Demo.numbered 3 5) < 100) by (vm_compute; intuition congruence).
  assert (Hb : 0 <= tgtNumber (Demo.numbered 3 5) < 100) by (vm_compute; intuition congruence).
  assert (Hk : 0 <= 7) by lia.
  assert (HB : (7 + 1) * 100 * 100 <= UINT_MOD) by (vm_compute; congruence).
  split; [auto|].
  exact (proj1 (GetHash_exact_and_injective (Demo.numbered 3 5) (Demo.numbered 3 5)
                  100 7 7 Ha Hb Ha Hb Hk Hk HB HB)).
Defined.

(** C1. [GetHash] returns a [boost::uint64_t] but forms the sum in
    [unsigned int] (lines 534-536), so the value is the sum modulo [2^32]
    and not the 64-bit value of
    [srcNode.nodeNumber + tgtNode.nodeNumber * N + k * N * N]. With
    [N = 65536] and both node numbers [0] the term [k * N * N] of [k = 1]
    wraps to zero: [GetHash(65536, 1) = 0 = GetHash(65536, 0)], where the
    sum is [4294967296]. With [N = 65537] and [k = 0] the product
    [tgtNode.nodeNumber * N] wraps: the node pairs [(65536, 0)] and
    [(0, 65536)] get one hash. *)
Lemma GetHash_collision :
  (0 <= srcNumber (Demo.numbered 0 0) < 65536
   /\ 0 <= tgtNumber (Demo.numbered 0 0) < 65536
   /\ GetHash (Demo.numbered 0 0) 65536 0 = GetHash (Demo.numbered 0 0) 65536 1
   /\ GetHash (Demo.numbered 0 0) 65536 1 = 0
   /\ srcNumber (Demo.numbered 0 0) + tgtNumber (Demo.numbered 0 0) * 65536
        + 1 * 65536 * 65536 = 4294967296)
  /\ (0 <= srcNumber (Demo.numbered 65536 0) < 65537
      /\ 0 <= tgtNumber (Demo.numbered 0 65536) < 65537
      /\ GetHash (Demo.numbered 65536 0) 65537 0 = GetHash (Demo.numbered 0 65536) 65537 0
      /\ srcNumber (Demo.numbered 65536 0) <> srcNumber (Demo.numbered 0 65536)).
Proof. vm_compute. intuition congruence. Qed.

(** ** The node store *)

Lemma update_eq (p : NodeId) (f : INode -> INode) (m : NodeStore) :
  update p f m p = f (m p).
Proof. unfold update. rewrite Nat.eqb_refl. reflexivity. Qed.

Lemma update_ne (p q : NodeId) (f : INode -> INode) (m : NodeStore) :
  q <> p -> update p f m q = m q.
Proof.
  intros H. unfold update. destruct (Nat.eqb_spec q p); [contradiction | reflexivity].
Qed.

(** A field that the setter [f] leaves alone is left alone by [update]. *)
Lemma update_field {A} (proj : INode -> A) (p : NodeId) (f : INode -> INode) (m : NodeStore) :
  (forall n, proj (f n) = proj n) -> forall q, proj (update p f m q) = proj (m q).
Proof.
  intros H q. unfold update. destruct (Nat.eqb q p); [apply H | reflexivity].
Qed.

(** ** UpdateNode *)

Lemma UpdateNode_other (E : Externals) (s : PathSearch) (nxt : NodeId)
    (cur : option NodeId) (g h m : float) (ns : NodeStore) (p : NodeId) :
  p <> nxt -> UpdateNode E s nxt cur g h m ns p = ns p.
Proof.
  intros H. unfold UpdateNode.
  destruct (QTPFS_WEIGHTED_HEURISTIC_COST E); repeat rewrite (update_ne _ _ _ _ H); reflexivity.
Qed.

(** What [UpdateNode] leaves in the node it stamps. *)
Lemma UpdateNode_at (E : Externals) (s : PathSearch) (nxt : NodeId)
    (cur : option NodeId) (g h m : float) (ns : NodeStore) :
  gCost (UpdateNode E s nxt cur g h m ns nxt) = g
  /\ hCost (UpdateNode E s nxt cur g h m ns nxt) = fmul h (hCostMult s)
  /\ fCost (UpdateNode E s nxt cur g h m ns nxt) = fadd g (fmul h (hCostMult s))
  /\ mCost (UpdateNode E s nxt cur g h m ns nxt) = m
  /\ prevNode (UpdateNode E s nxt cur g h m ns nxt) = cur
  /\ nodeSearchState (UpdateNode E s nxt cur g h m ns nxt)
     = Z.lor (searchState s) NODE_STATE_OPEN.
Proof.
  unfold UpdateNode.
  destruct (QTPFS_WEIGHTED_HEURISTIC_COST E); repeat rewrite update_eq; simpl; auto 10.
Qed.

(** [UpdateNode] writes scratch fields only. *)
Lemma UpdateNode_moveCost (E : Externals) (s : PathSearch) (nxt : NodeId)
    (cur : option NodeId) (g h m : float) (ns : NodeStore) (p : NodeId) :
  moveCost (UpdateNode E s nxt cur g h m ns p) = moveCost (ns p).
Proof.
  unfold UpdateNode.
  destruct (QTPFS_WEIGHTED_HEURISTIC_COST E);
    repeat (rewrite (update_field moveCost); [|intros; reflexivity]); reflexivity.
Qed.

Lemma UpdateNode_extent (E : Externals) (s : PathSearch) (nxt : NodeId)
    (cur : option NodeId) (g h m : float) (ns : NodeStore) (p : NodeId) :
  xmid (UpdateNode E s nxt cur g h m ns p) = xmid (ns p)
  /\ zmid (UpdateNode E s nxt cur g h m ns p) = zmid (ns p).
Proof.
  unfold UpdateNode.
  destruct (QTPFS_WEIGHTED_HEURISTIC_COST E);
    split;
    repeat (first [rewrite (update_field xmid) | rewrite (update_field zmid)];
            [|intros; reflexivity]); reflexivity.
Qed.

(** ** Execute: the result of a partial search *)

Lemma Execute_finish_flags (E : Externals) (b : bool) (w : World) :
  haveFullPath (PS (fst (Execute_finish E b w))) = haveFullPath (PS w)
  /\ havePartPath (PS (fst (Execute_finish E b w))) = havePartPath (PS w)
  /\ minNode (PS (fst (Execute_finish E b w))) = minNode (PS w)
  /\ srcNode (PS (fst (Execute_finish E b w))) = srcNode (PS w)
  /\ snd (Execute_finish E b w) = haveFullPath (PS w) || havePartPath (PS w).
Proof.
  unfold Execute_finish. simpl.
  destruct (QTPFS_SUPPORT_PARTIAL_SEARCHES E && (negb (haveFullPath (PS w)) && havePartPath (PS w)));
    simpl; auto.
Qed.

(** Lines 111-124 on any world that reaches them with a part path only:
    the target is moved to [minNode] and its mid-point, and the result is
    [true]. *)
Lemma Execute_finish_partial (E : Externals) (b : bool) (w : World) :
  QTPFS_SUPPORT_PARTIAL_SEARCHES E = true ->
  haveFullPath (PS w) = false -> havePartPath (PS w) = true ->
  tgtNode (PS (fst (Execute_finish E b w))) = minNode (PS w)
  /\ float3.x (tgtPoint (PS (fst (Execute_finish E b w))))
     = float_of_Z (uint_mul (xmid (nodes (fst (Execute_finish E b w)) (minNode (PS w))))
                            (SQUARE_SIZE E))
  /\ float3.z (tgtPoint (PS (fst (Execute_finish E b w))))
     = float_of_Z (uint_mul (zmid (nodes (fst (Execute_finish E b w)) (minNode (PS w))))
                            (SQUARE_SIZE E))
  /\ float3.y (tgtPoint (PS (fst (Execute_finish E b w)))) = float3.y (tgtPoint (PS w))
  /\ snd (Execute_finish E b w) = true.
Proof.
  intros HP Hfull Hpart. unfold Execute_finish. rewrite HP, Hfull, Hpart. simpl.
  rewrite Hfull, Hpart. repeat split.
Qed.

(** C2. When [Execute] ends with [haveFullPath] false and [havePartPath]
    true, partial searches being enabled, it has set [tgtNode] to
    [minNode], [tgtPoint.x] to [minNode.xmid * SQUARE_SIZE] and
    [tgtPoint.z] to [minNode.zmid * SQUARE_SIZE], and it returns true. *)
Theorem Execute_partial_result (E : Externals) (fuel : nat) (off mg : Z)
    (w w' : World) (r : bool) :
  QTPFS_SUPPORT_PARTIAL_SEARCHES E = true ->
  Execute E fuel off mg w = Some (w', r) ->
  haveFullPath (PS w') = false -> havePartPath (PS w') = true ->
  tgtNode (PS w') = minNode (PS w')
  /\ float3.x (tgtPoint (PS w'))
     = float_of_Z (uint_mul (xmid (nodes w' (minNode (PS w')))) (SQUARE_SIZE E))
  /\ float3.z (tgtPoint (PS w'))
     = float_of_Z (uint_mul (zmid (nodes w' (minNode (PS w')))) (SQUARE_SIZE E))
  /\ r = true.
Proof.
  intros HP He Hfull Hpart. unfold Execute in He.
  destruct (haveFullPath (PS (Execute_enter off mg w))) eqn:Hsame.
  - inversion He; subst. congruence.
  - destruct (Execute_loop E fuel (Execute_init E (srcBlocked (Execute_enter off mg w))
                                     (Execute_enter off mg w))) as [wl|] eqn:Hl;
      [|discriminate].
    set (blocked := srcBlocked (Execute_enter off mg w)) in *.
    pose proof (Execute_finish_flags E blocked wl) as (Ff & Fp & Fm & _ & _).
    assert (Hw : fst (Execute_finish E blocked wl) = w') by (inversion He; reflexivity).
    assert (Hr : snd (Execute_finish E blocked wl) = r) by (inversion He; reflexivity).
    rewrite Hw in Ff, Fp, Fm.
    destruct (Execute_finish_partial E blocked wl HP) as (T1 & T2 & T3 & _ & T5);
      try congruence.
    rewrite Hw in T1, T2, T3. rewrite Fm. rewrite <- Hr. auto.
Qed.

Lemma Some_eq_inv {A : Type} (a b : A) : Some a = Some b -> a = b.
Proof. intros H. injection H as ->. reflexivity. Qed.

(** [observe He f v H]: from a run [He : run = Some x], the fact
    [H : f x = v], by evaluating the run. *)
Ltac observe He f v H :=
  match type of He with
  | ?run = Some ?x =>
    assert (H : f x = v);
    [ let K := fresh in
      assert (K : option_map f run = Some v) by (vm_compute; reflexivity);
      rewrite He in K; exact (Some_eq_inv (f x) v K)
    | ]
  end.

(** [returns He] closes a goal in which [He : run = None] although the
    run returns. *)
Ltac returns He :=
  match type of He with
  | ?run = None =>
    let K := fresh in
    assert (K : match run with Some _ => true | None => false end = true)
      by (vm_compute; reflexivity);
    rewrite He in K; discriminate K
  end.

Lemma Execute_partial_result_witness :
  exists (w' : World) (r : bool),
    Execute (Demo.env true true) 16 2 0 (Demo.world4 PATH_SEARCH_ASTAR) = Some (w', r)
    /\ haveFullPath (PS w') = false /\ havePartPath (PS w') = true
    /\ tgtNode (PS w') = 1%nat /\ minNode (PS w') = 1%nat
    /\ tgtPoint (PS w') = Demo.pt 88 0 8
    /\ float3.x (tgtPoint (PS w'))
       = float_of_Z (uint_mul (xmid (nodes w' (minNode (PS w')))) 8)
    /\ r = true.
Proof.
  destruct (Execute (Demo.env true true) 16 2 0 (Demo.world4 PATH_SEARCH_ASTAR))
    as [[w' r]|] eqn:He.
  - observe He (fun wr : World * bool => haveFullPath (PS (fst wr))) false Hf.
    observe He (fun wr : World * bool => havePartPath (PS (fst wr))) true Hp.
    observe He (fun wr : World * bool => tgtNode (PS (fst wr))) 1%nat Ht.
    observe He (fun wr : World * bool => minNode (PS (fst wr))) 1%nat Hm.
    observe He (fun wr : World * bool => tgtPoint (PS (fst wr))) (Demo.pt 88 0 8) Hq.
    simpl in Hf, Hp, Ht, Hm, Hq.
    exists w', r.
    destruct (Execute_partial_result (Demo.env true true) 16 2 0
                (Demo.world4 PATH_SEARCH_ASTAR) w' r eq_refl He Hf Hp) as (T1 & T2 & T3 & T4).
    exact (conj eq_refl (conj Hf (conj Hp (conj Ht (conj Hm (conj Hq (conj T2 T4))))))).
  - exfalso. returns He.
Defined.

(** ** Iterate: what one step does *)

Lemma same_search_refl (s : PathSearch) : same_search s s.
Proof. unfold same_search. auto 10. Qed.

Lemma same_search_trans (s1 s2 s3 : PathSearch) :
  same_search s1 s2 -> same_search s2 s3 -> same_search s1 s3.
Proof. unfold same_search. intuition congruence. Qed.

(** One turn of the neighbour loop either leaves nodes and heap alone,
    or stamps the neighbour by [UpdateNode] with the three computed costs
    and leaves the heap alone or pushes the neighbour. *)
Lemma Iterate_body_effect (E : Externals) (hWeight : float) (cur : NodeId)
    (i : nat) (nxt : NodeId) (w : World) :
  PS (Iterate_body E hWeight cur i nxt w)
  = set_nxt nxt (Iterate_nxtPoint E w cur i nxt) (PS w)
  /\ ((nodes (Iterate_body E hWeight cur i nxt w) = nodes w
       /\ openNodes (Iterate_body E hWeight cur i nxt w) = openNodes w)
      \/ (feq (moveCost (nodes w nxt)) QTPFS_POSITIVE_INFINITY = false
          /\ nodes (Iterate_body E hWeight cur i nxt w)
             = UpdateNode E (set_nxt nxt (Iterate_nxtPoint E w cur i nxt) (PS w)) nxt (Some cur)
                 (Iterate_gCost w cur nxt (Iterate_nxtPoint E w cur i nxt))
                 (Iterate_hCost w hWeight nxt (Iterate_nxtPoint E w cur i nxt))
                 (Iterate_mCost w cur nxt) (nodes w)
          /\ (openNodes (Iterate_body E hWeight cur i nxt w) = openNodes w
              \/ openNodes (Iterate_body E hWeight cur i nxt w) = heap_push nxt (openNodes w)))).
Proof.
  unfold Iterate_body. cbn [PS nodes openNodes with_PS with_nodes with_openNodes].
  destruct (feq (moveCost (nodes w nxt)) QTPFS_POSITIVE_INFINITY) eqn:Hinf.
  - split; [reflexivity | left; split; reflexivity].
  - destruct (negb (searchState (set_nxt nxt (Iterate_nxtPoint E w cur i nxt) (PS w))
                    <=? nodeSearchState (nodes w nxt))).
    + split; [reflexivity | right]. split; [reflexivity|]. split; [reflexivity | right; reflexivity].
    + match goal with |- context [if fge ?a ?b then _ else _] => destruct (fge a b) end.
      * split; [reflexivity | left; split; reflexivity].
      * destruct (Z.land (nodeSearchState (nodes w nxt)) 1 =? NODE_STATE_CLOSED);
          (split; [reflexivity | right]; split; [reflexivity|]; split; [reflexivity|]);
          [right | left]; reflexivity.
Qed.

Lemma set_nxt_same_search (n : NodeId) (p : point) (s : PathSearch) :
  same_search s (set_nxt n p s).
Proof. unfold same_search. simpl. auto 10. Qed.

(** An invariant of every turn of the neighbour loop is one of the loop. *)
Lemma Iterate_loop_inv (P : World -> Prop) (E : Externals) (hWeight : float) (cur : NodeId) :
  (forall i nxt w, P w -> P (Iterate_body E hWeight cur i nxt w)) ->
  forall ngbs i w, P w -> P (Iterate_loop E hWeight cur i ngbs w).
Proof.
  intros Hbody ngbs. induction ngbs as [|nxt rest IH]; intros i w Hw; simpl.
  - exact Hw.
  - apply IH. apply Hbody. exact Hw.
Qed.

(** The ways in which [Iterate] returns: at the target, at a blocked or
    pruned node, or after expanding the neighbours. *)
Lemma Iterate_cases (E : Externals) (w w' : World) :
  Iterate E w = Some w' ->
  exists cur, heap_top (nodes w) (openNodes w) = Some cur
    /\ (w' = Iterate_pop E cur w
        \/ exists cp,
             (w' = with_PS (set_curPoint cp (PS (Iterate_pop E cur w))) (Iterate_pop E cur w)
              \/ (feq (moveCost (nodes (Iterate_pop E cur w) cur)) QTPFS_POSITIVE_INFINITY = false
                  /\ w' = Iterate_expand E cur
                            (with_PS (set_curPoint cp (PS (Iterate_pop E cur w)))
                                     (Iterate_pop E cur w))))).
Proof.
  unfold Iterate. destruct (heap_top (nodes w) (openNodes w)) as [cur|]; [|discriminate].
  intros H. exists cur. split; [reflexivity|].
  destruct (Nat.eqb cur (tgtNode (PS (Iterate_pop E cur w)))).
  - left. congruence.
  - right. destruct (Iterate_curPoint E cur (Iterate_pop E cur w)) as [cp|]; [|discriminate].
    exists cp. cbn [nodes with_PS] in H.
    destruct (feq (moveCost (nodes (Iterate_pop E cur w) cur)) QTPFS_POSITIVE_INFINITY).
    + left. congruence.
    + match type of H with (if ?c then _ else _) = _ => destruct c end.
      * left. congruence.
      * right. split; [reflexivity | congruence].
Qed.

(** ** Iterate: the move costs and the search object *)

Lemma Iterate_body_frame (E : Externals) (hWeight : float) (cur : NodeId)
    (i : nat) (nxt : NodeId) (w : World) :
  (forall p, moveCost (nodes (Iterate_body E hWeight cur i nxt w) p) = moveCost (nodes w p))
  /\ same_search (PS w) (PS (Iterate_body E hWeight cur i nxt w))
  /\ minNode (PS (Iterate_body E hWeight cur i nxt w)) = minNode (PS w)
  /\ curNode (PS (Iterate_body E hWeight cur i nxt w)) = curNode (PS w)
  /\ curPoint (PS (Iterate_body E hWeight cur i nxt w)) = curPoint (PS w).
Proof.
  destruct (Iterate_body_effect E hWeight cur i nxt w) as [HPS Hn]. rewrite HPS.
  split; [|split; [apply set_nxt_same_search | simpl; auto]].
  intros p. destruct Hn as [[Hn _]|(_ & Hn & _)]; rewrite Hn; [reflexivity|].
  apply UpdateNode_moveCost.
Qed.

Lemma frame_refl (w : World) : frame w w.
Proof. split; [reflexivity | apply same_search_refl]. Qed.

Lemma frame_trans (w1 w2 w3 : World) : frame w1 w2 -> frame w2 w3 -> frame w1 w3.
Proof.
  intros [A1 B1] [A2 B2]. split.
  - intros p. rewrite A2. apply A1.
  - eapply same_search_trans; eassumption.
Qed.

Lemma Iterate_loop_frame (E : Externals) (hWeight : float) (cur : NodeId)
    (ngbs : list NodeId) (i : nat) (w : World) :
  frame w (Iterate_loop E hWeight cur i ngbs w).
Proof.
  apply (Iterate_loop_inv (fun w' => frame w w')); [|apply frame_refl].
  intros j nxt w' Hw'. eapply frame_trans; [exact Hw'|].
  destruct (Iterate_body_frame E hWeight cur j nxt w') as (A & B & _). split; assumption.
Qed.

Lemma Iterate_stamp_moveCost (E : Externals) (s : PathSearch) (n : INode) :
  moveCost (Iterate_stamp E s n) = moveCost n.
Proof. unfold Iterate_stamp. destruct (QTPFS_CONSERVATIVE_NEIGHBOR_CACHE_UPDATES E); reflexivity. Qed.

Lemma Iterate_pop_frame (E : Externals) (cur : NodeId) (w : World) :
  frame w (Iterate_pop E cur w).
Proof.
  split.
  - intros p. unfold Iterate_pop. cbn [nodes].
    apply (update_field moveCost). apply Iterate_stamp_moveCost.
  - unfold same_search. simpl. auto 10.
Qed.

Lemma set_curPoint_frame (cp : point) (w : World) :
  frame w (with_PS (set_curPoint cp (PS w)) w).
Proof. split; [reflexivity | unfold same_search; simpl; auto 10]. Qed.

Lemma Iterate_expand_frame (E : Externals) (cur : NodeId) (w : World) :
  frame w (Iterate_expand E cur w).
Proof.
  unfold Iterate_expand.
  match goal with |- context [if ?c then _ else _] => destruct c end.
  - eapply frame_trans; [|apply Iterate_loop_frame].
    split; [reflexivity | unfold same_search; simpl; auto 10].
  - apply Iterate_loop_frame.
Qed.

Lemma Iterate_frame (E : Externals) (w w' : World) :
  Iterate E w = Some w' -> frame w w'.
Proof.
  intros H. destruct (Iterate_cases E w w' H) as (cur & _ & [->|(cp & [->|[_ ->]])]).
  - apply Iterate_pop_frame.
  - eapply frame_trans; [apply Iterate_pop_frame | apply set_curPoint_frame].
  - eapply frame_trans; [apply Iterate_pop_frame|].
    eapply frame_trans; [apply set_curPoint_frame | apply Iterate_expand_frame].
Qed.

Lemma Execute_step_frame (E : Externals) (w w' : World) :
  Execute_step E w = Some w' -> frame w w'.
Proof.
  unfold Execute_step. destruct (Iterate E w) as [w1|] eqn:HI; [|discriminate].
  intros H. apply Iterate_frame in HI. eapply frame_trans; [exact HI|].
  injection H as <-.
  match goal with |- context [if ?c then _ else _] => destruct c end;
    (split; [reflexivity | unfold same_search; simpl; auto 10]).
Qed.

Lemma Execute_loop_frame (E : Externals) (fuel : nat) (w w' : World) :
  Execute_loop E fuel w = Some w' -> frame w w'.
Proof.
  revert w. induction fuel as [|fuel IH]; intros w; simpl; [discriminate|].
  destruct (heap_empty (openNodes w)).
  - intros H. injection H as <-. apply frame_refl.
  - destruct (Execute_step E w) as [w1|] eqn:Hs; [|discriminate].
    intros H. eapply frame_trans; [eapply Execute_step_frame; exact Hs | apply IH; exact H].
Qed.

Lemma Execute_steps_frame (E : Externals) (n : nat) (w w' : World) :
  Execute_steps E n w = Some w' -> frame w w'.
Proof.
  revert w. induction n as [|n IH]; intros w; simpl.
  - intros H. injection H as <-. apply frame_refl.
  - destruct (heap_empty (openNodes w)); [discriminate|].
    destruct (Execute_step E w) as [w1|] eqn:Hs; [|discriminate].
    intros H. eapply frame_trans; [eapply Execute_step_frame; exact Hs | apply IH; exact H].
Qed.

(** ** Execute: the shape of a run *)

Lemma Execute_cases (E : Externals) (fuel : nat) (off mg : Z) (w w' : World) (r : bool) :
  Execute E fuel off mg w = Some (w', r) ->
  (haveFullPath (PS (Execute_enter off mg w)) = true
   /\ w' = Execute_enter off mg w /\ r = true)
  \/ (haveFullPath (PS (Execute_enter off mg w)) = false
      /\ exists wl,
           Execute_loop E fuel (Execute_init E (srcBlocked (Execute_enter off mg w))
                                  (Execute_enter off mg w)) = Some wl
           /\ Execute_finish E (srcBlocked (Execute_enter off mg w)) wl = (w', r)).
Proof.
  unfold Execute. destruct (haveFullPath (PS (Execute_enter off mg w))).
  - intros H. left. inversion H. auto.
  - destruct (Execute_loop E fuel _) as [wl|]; [|discriminate].
    intros H. right. split; [reflexivity|]. exists wl. split; [reflexivity | congruence].
Qed.

(** A loop that ends has made some number of iterations and found the
    heap empty. *)
Lemma Execute_loop_steps (E : Externals) (fuel : nat) (w w' : World) :
  Execute_loop E fuel w = Some w' ->
  exists n, Execute_steps E n w = Some w' /\ heap_empty (openNodes w') = true.
Proof.
  revert w. induction fuel as [|fuel IH]; intros w; simpl; [discriminate|].
  destruct (heap_empty (openNodes w)) eqn:Hh.
  - intros H. injection H as <-. exists 0%nat. split; [reflexivity | exact Hh].
  - destruct (Execute_step E w) as [w1|] eqn:Hs; [|discriminate].
    intros H. destruct (IH _ H) as (n & Hn & He). exists (S n). simpl.
    rewrite Hh, Hs. split; assumption.
Qed.

Lemma Execute_steps_inv (P : World -> Prop) (E : Externals) :
  (forall w w', P w -> Execute_step E w = Some w' -> P w') ->
  forall n w w', P w -> Execute_steps E n w = Some w' -> P w'.
Proof.
  intros Hstep n. induction n as [|n IH]; intros w w' Hw; simpl.
  - intros H. injection H as <-. exact Hw.
  - destruct (heap_empty (openNodes w)); [discriminate|].
    destruct (Execute_step E w) as [w1|] eqn:Hs; [|discriminate].
    apply IH. eapply Hstep; eassumption.
Qed.

(** ** Invariants of the node store *)

Section NodesInvariant.

Variable E : Externals.
Variable s0 : PathSearch.
Variable NP : NodeStore -> Prop.

Hypothesis NP_stamp :
  forall cur s ns, NP ns -> NP (update cur (Iterate_stamp E s) ns).

Hypothesis NP_body :
  forall hWeight cur i nxt w,
    same_search s0 (PS w) ->
    feq (moveCost (nodes w cur)) QTPFS_POSITIVE_INFINITY = false ->
    NP (nodes w) -> NP (nodes (Iterate_body E hWeight cur i nxt w)).

Lemma Iterate_expand_nodes_inv (cur : NodeId) (w : World) :
  same_search s0 (PS w) ->
  feq (moveCost (nodes w cur)) QTPFS_POSITIVE_INFINITY = false ->
  NP (nodes w) -> NP (nodes (Iterate_expand E cur w)).
Proof using NP_body.
  intros Hs Hc Hn. unfold Iterate_expand.
  set (w1 := if QTPFS_SUPPORT_PARTIAL_SEARCHES E
                && flt (GetPathCost NODE_PATH_COST_H (nodes w cur))
                       (GetPathCost NODE_PATH_COST_H (nodes w (minNode (PS w))))
             then with_PS (set_minNode cur (PS w)) w else w).
  set (Q := fun w' : World =>
              same_search s0 (PS w')
              /\ feq (moveCost (nodes w' cur)) QTPFS_POSITIVE_INFINITY = false
              /\ NP (nodes w')).
  assert (H1 : Q w1).
  { subst w1 Q. cbv beta.
    match goal with |- context [if ?c then _ else _] => destruct c end;
      (split; [|split]); assumption. }
  generalize (Iterate_hWeight E (nodes w1 cur)). intros hW.
  assert (Hb : forall i nxt w', Q w' -> Q (Iterate_body E hW cur i nxt w')).
  { intros i nxt w' (A & B & C).
    destruct (Iterate_body_frame E hW cur i nxt w') as (F1 & F2 & _).
    split; [eapply same_search_trans; eassumption|].
    split; [rewrite F1; exact B|].
    apply NP_body; assumption. }
  exact (proj2 (proj2 (Iterate_loop_inv Q E hW cur Hb (neighbors (nodes w1 cur)) 0%nat w1 H1))).
Qed.

Lemma Iterate_nodes_inv (w w' : World) :
  same_search s0 (PS w) -> Iterate E w = Some w' -> NP (nodes w) -> NP (nodes w').
Proof using NP_stamp NP_body.
  intros Hs H Hn.
  assert (Hpop : forall cur, NP (nodes (Iterate_pop E cur w))).
  { intros cur. unfold Iterate_pop. cbn [nodes]. apply NP_stamp. exact Hn. }
  destruct (Iterate_cases E w w' H) as (cur & _ & [->|(cp & [->|[Hc ->]])]).
  - apply Hpop.
  - apply Hpop.
  - apply Iterate_expand_nodes_inv.
    + eapply same_search_trans; [exact Hs|].
      destruct (Iterate_pop_frame E cur w) as [_ F]. revert F.
      unfold same_search. simpl. auto 10.
    + exact Hc.
    + apply Hpop.
Qed.

Lemma Execute_step_nodes_inv (w w' : World) :
  same_search s0 (PS w) -> Execute_step E w = Some w' -> NP (nodes w) -> NP (nodes w').
Proof using NP_stamp NP_body.
  unfold Execute_step. intros Hs H Hn.
  destruct (Iterate E w) as [w1|] eqn:HI; [|discriminate].
  pose proof (Iterate_nodes_inv w w1 Hs HI Hn) as H1.
  injection H as <-.
  match goal with |- context [if ?c then _ else _] => destruct c end; exact H1.
Qed.

Lemma Execute_steps_nodes_inv (n : nat) (w w' : World) :
  same_search s0 (PS w) -> Execute_steps E n w = Some w' -> NP (nodes w) -> NP (nodes w').
Proof using NP_stamp NP_body.
  intros Hs H Hn.
  apply (Execute_steps_inv (fun w => same_search s0 (PS w) /\ NP (nodes w)) E) in H.
  - tauto.
  - intros w1 w2 [A B] Hstep. split.
    + eapply same_search_trans; [exact A|]. apply Execute_step_frame in Hstep. apply Hstep.
    + eapply Execute_step_nodes_inv; eassumption.
  - split; assumption.
Qed.

End NodesInvariant.

(** ** Execute: before and after the loop *)

Lemma Iterate_stamp_scratch (E : Externals) (s : PathSearch) (n : INode) :
  gCost (Iterate_stamp E s n) = gCost n /\ hCost (Iterate_stamp E s n) = hCost n
  /\ fCost (Iterate_stamp E s n) = fCost n /\ prevNode (Iterate_stamp E s n) = prevNode n.
Proof.
  unfold Iterate_stamp. destruct (QTPFS_CONSERVATIVE_NEIGHBOR_CACHE_UPDATES E); simpl; auto.
Qed.

Lemma Execute_init_search (E : Externals) (b : bool) (w : World) :
  PS (Execute_init E b w) = set_hCostMult (hCostMult_of (searchType (PS w))) (PS w).
Proof. reflexivity. Qed.

Lemma Execute_init_moveCost (E : Externals) (b : bool) (w : World) (p : NodeId) :
  moveCost (nodes (Execute_init E b w) p) = search_moveCost b (srcNode (PS w)) (nodes w) p.
Proof.
  unfold Execute_init, search_moveCost. cbn [nodes srcNode set_hCostMult].
  rewrite UpdateNode_moveCost. destruct b; simpl; [|reflexivity].
  unfold update. destruct (Nat.eqb p (srcNode (PS w))); reflexivity.
Qed.

(** The nodes after lines 106-108. *)
Lemma Execute_finish_nodes (E : Externals) (b : bool) (w : World) (p : NodeId) :
  gCost (nodes (fst (Execute_finish E b w)) p) = gCost (nodes w p)
  /\ prevNode (nodes (fst (Execute_finish E b w)) p) = prevNode (nodes w p)
  /\ hCost (nodes (fst (Execute_finish E b w)) p) = hCost (nodes w p)
  /\ fCost (nodes (fst (Execute_finish E b w)) p) = fCost (nodes w p)
  /\ moveCost (nodes (fst (Execute_finish E b w)) p)
     = (if b && Nat.eqb p (srcNode (PS w)) then QTPFS_POSITIVE_INFINITY else moveCost (nodes w p)).
Proof.
  unfold Execute_finish. cbn [fst nodes].
  destruct b; simpl; [|auto]. unfold update.
  destruct (Nat.eqb p (srcNode (PS w))); simpl; auto.
Qed.

(** ** UpdateNode and Execute: F = G + H * hCostMult *)

Lemma UpdateNode_consistent (E : Externals) (s : PathSearch) (nxt : NodeId)
    (cur : option NodeId) (g h m : float) (ns : NodeStore) :
  hCostMult s = hCostMult_of (searchType s) ->
  cost_consistent (hCostMult s) (UpdateNode E s nxt cur g h m ns nxt).
Proof.
  intros Hm. unfold cost_consistent.
  destruct (UpdateNode_at E s nxt cur g h m ns) as (Ug & Uh & Uf & _).
  rewrite Uf, Ug, Uh, Hm, fmul_hCostMult_idem. reflexivity.
Qed.

Lemma F_inv_ext (mult : float) (ns0 ns ns' : NodeStore) :
  (forall p, fCost (ns' p) = fCost (ns p) /\ gCost (ns' p) = gCost (ns p)
             /\ hCost (ns' p) = hCost (ns p)) ->
  F_inv mult ns0 ns -> F_inv mult ns0 ns'.
Proof.
  intros H HF p. destruct (H p) as (Hf & Hg & Hh).
  unfold same_costs, cost_consistent. rewrite Hf, Hg, Hh. apply HF.
Qed.

Lemma F_inv_stamp (mult : float) (ns0 : NodeStore) (E : Externals)
    (cur : NodeId) (s : PathSearch) (ns : NodeStore) :
  F_inv mult ns0 ns -> F_inv mult ns0 (update cur (Iterate_stamp E s) ns).
Proof.
  apply F_inv_ext. intros p.
  repeat split;
    [apply (update_field fCost) | apply (update_field gCost) | apply (update_field hCost)];
    intros n; apply Iterate_stamp_scratch.
Qed.

Lemma F_inv_body (t : SearchType) (ns0 : NodeStore) (E : Externals)
    (hWeight : float) (cur : NodeId) (i : nat) (nxt : NodeId) (w : World) :
  hCostMult (PS w) = hCostMult_of t -> searchType (PS w) = t ->
  F_inv (hCostMult_of t) ns0 (nodes w) ->
  F_inv (hCostMult_of t) ns0 (nodes (Iterate_body E hWeight cur i nxt w)).
Proof.
  intros Hm Ht HF.
  destruct (Iterate_body_effect E hWeight cur i nxt w) as [_ [[Hn _]|(_ & Hn & _)]];
    rewrite Hn; [exact HF|].
  intros p. destruct (Nat.eq_dec p nxt) as [->|Hne].
  - right. rewrite <- Hm.
    change (hCostMult (PS w))
      with (hCostMult (set_nxt nxt (Iterate_nxtPoint E w cur i nxt) (PS w))).
    apply UpdateNode_consistent. simpl. congruence.
  - rewrite UpdateNode_other by exact Hne. apply HF.
Qed.

(** After [Execute] the multiplier is the one that lines 69-73 choose for
    the search type, and every node either has the F, G and H it had
    before or satisfies [F = G + H * hCostMult] for that multiplier. *)
Lemma Execute_cost_consistent (E : Externals) (fuel : nat) (off mg : Z)
    (w w' : World) (r : bool) :
  Execute E fuel off mg w = Some (w', r) ->
  (srcNode (PS w) <> tgtNode (PS w) ->
   hCostMult (PS w') = hCostMult_of (searchType (PS w)))
  /\ forall p, same_costs (nodes w' p) (nodes w p)
               \/ cost_consistent (hCostMult_of (searchType (PS w))) (nodes w' p).
Proof.
  intros He.
  destruct (Execute_cases E fuel off mg w w' r He) as [(Hsame & -> & ->)|(Hsame & wl & Hl & Hf)].
  - split.
    + intros Hne. exfalso. apply Hne. apply Nat.eqb_eq. exact Hsame.
    + intros p. left. unfold same_costs. auto.
  - set (w0 := Execute_enter off mg w) in *.
    set (t := searchType (PS w)).
    assert (Hw' : w' = fst (Execute_finish E (srcBlocked w0) wl)) by (rewrite Hf; reflexivity).
    destruct (Execute_loop_steps E fuel _ wl Hl) as (n & Hn & _).
    pose proof (Execute_steps_frame E n _ wl Hn) as [_ Hss].
    split.
    + intros _. rewrite Hw'. unfold Execute_finish. cbn [fst PS].
      destruct Hss as (_ & _ & _ & _ & _ & Hm & _).
      match goal with |- context [if ?c then _ else _] => destruct c end; simpl; exact Hm.
    + assert (HF : F_inv (hCostMult_of t) (nodes w) (nodes wl)).
      { apply (Execute_steps_nodes_inv E (PS (Execute_init E (srcBlocked w0) w0))
                 (F_inv (hCostMult_of t) (nodes w)))
          with (n := n) (w := Execute_init E (srcBlocked w0) w0).
        - intros. apply F_inv_stamp. assumption.
        - intros hW cur i nxt w1 Hs1 _ HF1. destruct Hs1 as (_ & _ & _ & _ & _ & Hm1 & Ht1).
          apply F_inv_body; [exact Hm1 | exact Ht1 | exact HF1].
        - apply same_search_refl.
        - exact Hn.
        - intros p. unfold Execute_init. cbn [nodes].
          destruct (Nat.eq_dec p (srcNode (PS w0))) as [->|Hne].
          + right.
            change (hCostMult_of t)
              with (hCostMult (set_hCostMult (hCostMult_of (searchType (PS w0))) (PS w0))).
            apply UpdateNode_consistent. reflexivity.
          + left. rewrite UpdateNode_other by exact Hne.
            destruct (srcBlocked w0); [|unfold same_costs; auto].
            rewrite update_ne by exact Hne. unfold same_costs. auto. }
      apply (F_inv_ext (hCostMult_of t) (nodes w) (nodes wl)); [|exact HF].
      intros p. rewrite Hw'.
      destruct (Execute_finish_nodes E (srcBlocked w0) wl p) as (Fg & _ & Fh & Ff & _).
      auto.
Qed.

(** C8. A node stamped by [UpdateNode] satisfies [F = G + H * hCostMult]
    when the multiplier is [1.0f] or [0.0f]. [Execute] sets the multiplier
    to [1.0f] for A* and to [0.0f] for Dijkstra (lines 69-73), and after
    [Execute] every node either has the F, G and H it had before or
    satisfies [F = G + H * 1.0f] under A* and [F = G + H * 0.0f] under
    Dijkstra: no F is stored that does not fit the G and H stored with
    it. *)
Theorem F_cost_consistent (E : Externals) :
  (forall s nxt cur g h m ns,
      hCostMult s = f1_0 \/ hCostMult s = f0_0 ->
      cost_consistent (hCostMult s) (UpdateNode E s nxt cur g h m ns nxt))
  /\ (forall fuel off mg w w' r,
         Execute E fuel off mg w = Some (w', r) ->
         (srcNode (PS w) <> tgtNode (PS w) ->
          (searchType (PS w) = PATH_SEARCH_ASTAR -> hCostMult (PS w') = f1_0)
          /\ (searchType (PS w) = PATH_SEARCH_DIJKSTRA -> hCostMult (PS w') = f0_0))
         /\ (searchType (PS w) = PATH_SEARCH_ASTAR ->
             forall p, same_costs (nodes w' p) (nodes w p)
                       \/ cost_consistent f1_0 (nodes w' p))
         /\ (searchType (PS w) = PATH_SEARCH_DIJKSTRA ->
             forall p, same_costs (nodes w' p) (nodes w p)
                       \/ cost_consistent f0_0 (nodes w' p))).
Proof.
  split.
  - intros s nxt cur g h m ns Hm. unfold cost_consistent.
    destruct (UpdateNode_at E s nxt cur g h m ns) as (Ug & Uh & Uf & _).
    rewrite Uf, Ug, Uh.
    destruct Hm as [-> | ->]; [rewrite fmul_1_idem|rewrite fmul_0_idem]; reflexivity.
  - intros fuel off mg w w' r He.
    destruct (Execute_cost_consistent E fuel off mg w w' r He) as [Hm Hc].
    split; [|split].
    + intros Hne. specialize (Hm Hne).
      split; intros Ht; rewrite Ht in Hm; exact Hm.
    + intros Ht. rewrite Ht in Hc. exact Hc.
    + intros Ht. rewrite Ht in Hc. exact Hc.
Qed.

Lemma F_cost_consistent_witness :
  exists (w' : World) (r : bool),
    Execute (Demo.env true true) 16 2 0 (Demo.world3 PATH_SEARCH_ASTAR f1_0) = Some (w', r)
    /\ hCostMult (PS w') = f1_0
    /\ fCost (nodes w' 1%nat) = float_of_Z 68
    /\ cost_consistent f1_0 (nodes w' 1%nat).
Proof.
  destruct (Execute (Demo.env true true) 16 2 0 (Demo.world3 PATH_SEARCH_ASTAR f1_0))
    as [[w' r]|] eqn:He.
  - observe He (fun wr : World * bool => fCost (nodes (fst wr) 1%nat)) (float_of_Z 68) Hf.
    simpl in Hf.
    destruct (proj2 (F_cost_consistent (Demo.env true true)) 16%nat 2 0
                (Demo.world3 PATH_SEARCH_ASTAR f1_0) w' r He) as (Tm & T & _).
    destruct (Tm ltac:(simpl; congruence)) as [Tm1 _].
    exists w', r. split; [reflexivity|]. split; [exact (Tm1 eq_refl)|]. split; [exact Hf|].
    destruct (T eq_refl 1%nat) as [(Sf & _)|Hc]; [|exact Hc].
    exfalso. rewrite Hf in Sf. vm_compute in Sf. discriminate Sf.
  - exfalso. returns He.
Defined.

(** ** The open heap *)

Lemma heap_better_fold_In (ns : NodeStore) (t : list NodeId) (n : NodeId) :
  In (fold_left (heap_better ns) t n) (n :: t).
Proof.
  revert n. induction t as [|m t IH]; intros n; simpl.
  - left. reflexivity.
  - assert (Hb : heap_better ns n m = m \/ heap_better ns n m = n)
      by (unfold heap_better; destruct (flt (fCost (ns m)) (fCost (ns n))); auto).
    destruct (IH (heap_better ns n m)) as [H|H].
    + destruct Hb as [Hb|Hb]; rewrite Hb in H |- *; [right; left | left]; exact H.
    + right. right. exact H.
Qed.

Lemma heap_top_In (ns : NodeStore) (h : list NodeId) (c : NodeId) :
  heap_top ns h = Some c -> In c h.
Proof.
  destruct h as [|n t]; simpl; [discriminate|].
  intros H. injection H as <-. apply heap_better_fold_In.
Qed.

Lemma remove_first_In (n x : NodeId) (h : list NodeId) :
  In x (remove_first n h) -> In x h.
Proof.
  induction h as [|m t IH]; simpl; [tauto|].
  destruct (Nat.eqb m n); simpl; [auto | intros [H|H]; auto].
Qed.

Lemma heap_pop_In (ns : NodeStore) (h : list NodeId) (x : NodeId) :
  In x (heap_pop ns h) -> In x h.
Proof.
  unfold heap_pop. destruct (heap_top ns h); [apply remove_first_In | auto].
Qed.

Lemma heap_push_In (n x : NodeId) (h : list NodeId) :
  In x (heap_push n h) -> x = n \/ In x h.
Proof.
  unfold heap_push. intros H. apply in_app_or in H. simpl in H. intuition.
Qed.

(** ** Execute in Dijkstra mode *)

Lemma UpdateNode_hCost_zero (E : Externals) (s : PathSearch) (nxt : NodeId)
    (cur : option NodeId) (g h m : float) (ns : NodeStore) (p : NodeId) :
  hCostMult s = f0_0 ->
  p = nxt \/ zero_or_nan (hCost (ns p)) ->
  zero_or_nan (hCost (UpdateNode E s nxt cur g h m ns p)).
Proof.
  intros Hm Hp. destruct (Nat.eq_dec p nxt) as [->|Hne].
  - destruct (UpdateNode_at E s nxt cur g h m ns) as (_ & Uh & _).
    rewrite Uh, Hm. apply zero_or_nan_fmul_0.
  - rewrite UpdateNode_other by exact Hne. tauto.
Qed.

Lemma Dijkstra_body (E : Externals) (hWeight : float) (cur : NodeId)
    (i : nat) (nxt : NodeId) (w : World) :
  Dijkstra_inv w -> Dijkstra_inv (Iterate_body E hWeight cur i nxt w).
Proof.
  intros (Hm & Hmin & Hpart & Hsrc & Hheap).
  destruct (Iterate_body_effect E hWeight cur i nxt w) as [HPS Hn].
  unfold Dijkstra_inv. rewrite HPS. cbn [hCostMult minNode srcNode havePartPath set_nxt].
  destruct Hn as [[Hn Hh]|(_ & Hn & Hh)]; rewrite Hn.
  - rewrite Hh. auto.
  - repeat split; try assumption.
    + apply UpdateNode_hCost_zero; [exact Hm | right; exact Hsrc].
    + intros n Hin. apply UpdateNode_hCost_zero; [exact Hm|].
      destruct Hh as [Hh|Hh]; rewrite Hh in Hin.
      * right. apply Hheap. exact Hin.
      * apply heap_push_In in Hin. destruct Hin as [->|Hin]; [left; reflexivity|].
        right. apply Hheap. exact Hin.
Qed.

Lemma Iterate_pop_hCost (E : Externals) (cur : NodeId) (w : World) (p : NodeId) :
  hCost (nodes (Iterate_pop E cur w) p) = hCost (nodes w p).
Proof.
  unfold Iterate_pop. cbn [nodes]. apply (update_field hCost).
  intros n. apply Iterate_stamp_scratch.
Qed.

Lemma Dijkstra_pop (E : Externals) (cur : NodeId) (w : World) :
  Dijkstra_inv w -> Dijkstra_inv (Iterate_pop E cur w).
Proof.
  intros (Hm & Hmin & Hpart & Hsrc & Hheap). unfold Dijkstra_inv.
  repeat split; try assumption.
  - rewrite Iterate_pop_hCost. exact Hsrc.
  - intros n Hin. rewrite Iterate_pop_hCost. apply Hheap.
    unfold Iterate_pop in Hin. cbn [openNodes] in Hin. eapply heap_pop_In. exact Hin.
Qed.

Lemma Dijkstra_expand (E : Externals) (cur : NodeId) (w : World) :
  Dijkstra_inv w -> zero_or_nan (hCost (nodes w cur)) ->
  Dijkstra_inv (Iterate_expand E cur w).
Proof.
  intros HJ Hcur. unfold Iterate_expand.
  assert (Hflt : flt (GetPathCost NODE_PATH_COST_H (nodes w cur))
                     (GetPathCost NODE_PATH_COST_H (nodes w (minNode (PS w)))) = false).
  { destruct HJ as (_ & Hmin & _ & Hsrc & _). rewrite Hmin.
    apply flt_zero_or_nan; assumption. }
  rewrite Hflt, andb_false_r.
  apply (Iterate_loop_inv Dijkstra_inv); [|exact HJ].
  intros i nxt w'. apply Dijkstra_body.
Qed.

Lemma Dijkstra_Iterate (E : Externals) (w w' : World) :
  Dijkstra_inv w -> Iterate E w = Some w' -> Dijkstra_inv w'.
Proof.
  intros HJ H.
  destruct (Iterate_cases E w w' H) as (cur & Htop & [->|(cp & [->|[_ ->]])]).
  - apply Dijkstra_pop. exact HJ.
  - apply (Dijkstra_pop E cur) in HJ. exact HJ.
  - apply Dijkstra_expand.
    + apply (Dijkstra_pop E cur) in HJ. exact HJ.
    + cbn [nodes with_PS]. rewrite Iterate_pop_hCost.
      destruct HJ as (_ & _ & _ & _ & Hheap). apply Hheap.
      eapply heap_top_In. exact Htop.
Qed.

Lemma Dijkstra_set_have (full : bool) (w : World) :
  Dijkstra_inv w ->
  Dijkstra_inv (with_PS (set_have full (negb (Nat.eqb (minNode (PS w)) (srcNode (PS w))))
                                  (PS w)) w).
Proof.
  intros (Hm & Hmin & Hpart & Hsrc & Hheap). unfold Dijkstra_inv. cbn.
  rewrite Hmin, Nat.eqb_refl. repeat split; assumption.
Qed.

Lemma Dijkstra_heap_reset (w : World) :
  Dijkstra_inv w -> Dijkstra_inv (with_openNodes heap_reset w).
Proof.
  intros (Hm & Hmin & Hpart & Hsrc & Hheap). unfold Dijkstra_inv. cbn.
  repeat split; try assumption. intros n [].
Qed.

Lemma Dijkstra_step (E : Externals) (w w' : World) :
  Dijkstra_inv w -> Execute_step E w = Some w' ->
  Dijkstra_inv w'
  /\ haveFullPath (PS w') = curNode_is (tgtNode (PS w')) (PS w').
Proof.
  unfold Execute_step. intros HJ H.
  destruct (Iterate E w) as [w1|] eqn:HI; [|discriminate].
  pose proof (Dijkstra_Iterate E w w1 HJ HI) as HJ1.
  injection H as <-. split.
  - match goal with |- context [if ?c then _ else _] => destruct c end;
      [apply Dijkstra_heap_reset|]; apply Dijkstra_set_have; exact HJ1.
  - cbn [haveFullPath set_have PS with_PS].
    destruct (curNode_is (tgtNode (PS w1)) (PS w1)) eqn:Hc;
      cbn [haveFullPath set_have PS with_PS with_openNodes tgtNode];
      unfold curNode_is in *; cbn [curNode set_have]; rewrite Hc; reflexivity.
Qed.

Lemma H_inv_stamp (ns0 : NodeStore) (E : Externals) (cur : NodeId) (s : PathSearch)
    (ns : NodeStore) :
  H_inv ns0 ns -> H_inv ns0 (update cur (Iterate_stamp E s) ns).
Proof.
  intros H p. rewrite (update_field hCost); [apply H|].
  intros n. apply Iterate_stamp_scratch.
Qed.

Lemma H_inv_body (ns0 : NodeStore) (E : Externals)
    (hWeight : float) (cur : NodeId) (i : nat) (nxt : NodeId) (w : World) :
  hCostMult (PS w) = f0_0 ->
  H_inv ns0 (nodes w) -> H_inv ns0 (nodes (Iterate_body E hWeight cur i nxt w)).
Proof.
  intros Hm HH.
  destruct (Iterate_body_effect E hWeight cur i nxt w) as [_ [[Hn _]|(_ & Hn & _)]];
    rewrite Hn; [exact HH|].
  intros p. destruct (Nat.eq_dec p nxt) as [->|Hne].
  - right. apply UpdateNode_hCost_zero; [exact Hm | left; reflexivity].
  - rewrite UpdateNode_other by exact Hne. apply HH.
Qed.

Lemma curNode_is_true (n : NodeId) (s : PathSearch) :
  curNode_is n s = true -> curNode s = Some n.
Proof.
  unfold curNode_is. destruct (curNode s) as [c|]; [|discriminate].
  intros H. apply Nat.eqb_eq in H. congruence.
Qed.

(** What [Initialize] establishes and C10 assumes. *)
Lemma Initialize_minNode (E : Externals) (sp tp : point) (r : PathRectangle) (s : PathSearch) :
  minNode (Initialize E sp tp r s) = srcNode (Initialize E sp tp r s).
Proof. reflexivity. Qed.

(** C10. In a Dijkstra search between two different nodes, started with
    [minNode = srcNode] as [Initialize] leaves it: every H cost that the
    search stores is a zero (or NaN, the product of a non-finite heuristic
    with [0.0f]); at the head of every iteration the node about to be
    popped has an H cost that is not strictly less than that of [minNode],
    so the comparison that updates [minNode] never fires; [minNode] is
    still [srcNode] and [havePartPath] is false on return; and the result
    is [haveFullPath], which is true only if the last node popped is
    [tgtNode]. *)
Theorem Dijkstra_no_partial_path (E : Externals) (fuel : nat) (off mg : Z)
    (w w' : World) (r : bool) :
  searchType (PS w) = PATH_SEARCH_DIJKSTRA ->
  srcNode (PS w) <> tgtNode (PS w) ->
  minNode (PS w) = srcNode (PS w) ->
  Execute E fuel off mg w = Some (w', r) ->
  (forall p, hCost (nodes w' p) = hCost (nodes w p) \/ zero_or_nan (hCost (nodes w' p)))
  /\ (forall n wn cur,
         Execute_steps E n (Execute_init E (srcBlocked w) (Execute_enter off mg w)) = Some wn ->
         heap_top (nodes wn) (openNodes wn) = Some cur ->
         flt (GetPathCost NODE_PATH_COST_H (nodes wn cur))
             (GetPathCost NODE_PATH_COST_H (nodes wn (minNode (PS wn)))) = false)
  /\ minNode (PS w') = srcNode (PS w')
  /\ havePartPath (PS w') = false
  /\ r = haveFullPath (PS w')
  /\ (r = true -> curNode (PS w') = Some (tgtNode (PS w'))).
Proof.
  intros Hty Hne Hmin He.
  set (w0 := Execute_enter off mg w) in *.
  set (wi := Execute_init E (srcBlocked w) w0) in *.
  assert (HJi : Dijkstra_inv wi).
  { unfold Dijkstra_inv, wi, Execute_init. cbn. rewrite Hty.
    repeat split; try assumption; try reflexivity.
    - match goal with
      | |- context [UpdateNode E ?s ?n ?c ?g ?h ?m ?ns] =>
        apply (UpdateNode_hCost_zero E s n c g h m ns); [reflexivity | left; reflexivity]
      end.
    - intros n [<-|[]].
      match goal with
      | |- context [UpdateNode E ?s ?n ?c ?g ?h ?m ?ns] =>
        apply (UpdateNode_hCost_zero E s n c g h m ns); [reflexivity | left; reflexivity]
      end. }
  assert (HK : forall n wn, Execute_steps E n wi = Some wn ->
                 Dijkstra_inv wn
                 /\ (haveFullPath (PS wn) = true
                     -> curNode_is (tgtNode (PS wn)) (PS wn) = true)).
  { intros n wn Hn.
    apply (Execute_steps_inv
             (fun x => Dijkstra_inv x
                       /\ (haveFullPath (PS x) = true
                           -> curNode_is (tgtNode (PS x)) (PS x) = true)) E) in Hn.
    - exact Hn.
    - intros x y [HJx _] Hs. destruct (Dijkstra_step E x y HJx Hs) as [HJy Hfy].
      split; [exact HJy | intros Hf; rewrite <- Hfy; exact Hf].
    - split; [exact HJi|]. unfold wi, Execute_init, w0, Execute_enter. cbn.
      intros Hf. apply Nat.eqb_eq in Hf. contradiction. }
  split; [|split].
  - (* the H costs *)
    destruct (Execute_cases E fuel off mg w w' r He)
      as [(Hsame & -> & ->)|(Hsame & wl & Hl & Hf)]; [intros p; left; reflexivity|].
    fold w0 in Hl, Hf. change (srcBlocked w0) with (srcBlocked w) in Hl, Hf. fold wi in Hl.
    destruct (Execute_loop_steps E fuel wi wl Hl) as (n & Hn & _).
    assert (HH : H_inv (nodes w) (nodes wl)).
    { apply (Execute_steps_nodes_inv E (PS wi) (H_inv (nodes w))) with (n := n) (w := wi).
      - intros. apply H_inv_stamp. assumption.
      - intros hW cur i nxt w1 Hs1 _ HH1. destruct Hs1 as (_ & _ & _ & _ & _ & Hm1 & _).
        apply H_inv_body; [|exact HH1]. rewrite Hm1. destruct HJi as (Hm & _). exact Hm.
      - apply same_search_refl.
      - exact Hn.
      - intros p. unfold wi, Execute_init. cbn [nodes].
        destruct (Nat.eq_dec p (srcNode (PS w0))) as [->|Hnp].
        + right. destruct HJi as (_ & _ & _ & Hs & _). exact Hs.
        + left. rewrite UpdateNode_other by exact Hnp.
          destruct (srcBlocked w); [|reflexivity].
          rewrite update_ne by exact Hnp. reflexivity. }
    intros p.
    assert (Hw' : w' = fst (Execute_finish E (srcBlocked w) wl)) by (rewrite Hf; reflexivity).
    destruct (Execute_finish_nodes E (srcBlocked w) wl p) as (_ & _ & Fh & _).
    rewrite Hw', Fh. apply HH.
  - (* the comparison *)
    intros n wn cur Hn Htop.
    destruct (HK n wn Hn) as [(_ & Hmn & _ & Hsrc & Hheap) _].
    rewrite Hmn. apply flt_zero_or_nan; [|exact Hsrc].
    apply Hheap. eapply heap_top_In. exact Htop.
  - (* the result *)
    destruct (Execute_cases E fuel off mg w w' r He)
      as [(Hsame & -> & ->)|(Hsame & wl & Hl & Hf)].
    + exfalso. apply Hne. apply Nat.eqb_eq. exact Hsame.
    + fold w0 in Hl, Hf. change (srcBlocked w0) with (srcBlocked w) in Hl, Hf. fold wi in Hl.
      destruct (Execute_loop_steps E fuel wi wl Hl) as (n & Hn & _).
      destruct (HK n wl Hn) as [(_ & Hmn & Hpart & _) Hfull].
      assert (HPS : PS w' = PS wl /\ r = haveFullPath (PS wl)).
      { revert Hf. unfold Execute_finish. rewrite Hpart, andb_false_r, andb_false_r.
        cbv iota zeta. rewrite Hpart, orb_false_r.
        intros Hf. inversion Hf. split; reflexivity. }
      destruct HPS as [HPS ->]. rewrite HPS.
      repeat split; try assumption.
      intros Hf'. apply curNode_is_true. apply Hfull. exact Hf'.
Qed.

Lemma Dijkstra_no_partial_path_witness :
  exists (w' : World) (r : bool),
    Execute (Demo.env true true) 16 2 0 (Demo.world3 PATH_SEARCH_DIJKSTRA f1_0) = Some (w', r)
    /\ r = true
    /\ minNode (PS w') = srcNode (PS w')
    /\ havePartPath (PS w') = false
    /\ curNode (PS w') = Some (tgtNode (PS w'))
    /\ hCost (nodes w' 1%nat) = f0_0.
Proof.
  destruct (Execute (Demo.env true true) 16 2 0 (Demo.world3 PATH_SEARCH_DIJKSTRA f1_0))
    as [[w' r]|] eqn:He.
  - observe He (fun wr : World * bool => snd wr) true Hr.
    observe He (fun wr : World * bool => hCost (nodes (fst wr) 1%nat)) f0_0 Hh.
    simpl in Hr, Hh.
    destruct (Dijkstra_no_partial_path (Demo.env true true) 16 2 0
                (Demo.world3 PATH_SEARCH_DIJKSTRA f1_0) w' r
                eq_refl ltac:(simpl; congruence) eq_refl He) as (_ & _ & T3 & T4 & _ & T6).
    exists w', r.
    exact (conj eq_refl (conj Hr (conj T3 (conj T4 (conj (T6 Hr) Hh))))).
  - exfalso. returns He.
Defined.

(** ** Iterate: the order of the heap and re-opening *)

Lemma heap_better_fold_min (ns : NodeStore) (t seen : list NodeId) (n : NodeId) :
  (forall x, In x seen -> flt (fCost (ns x)) (fCost (ns n)) = false) ->
  forall x, In x (seen ++ t) ->
            flt (fCost (ns x)) (fCost (ns (fold_left (heap_better ns) t n))) = false.
Proof.
  revert seen n. induction t as [|c t IH]; intros seen n Hseen x Hx; simpl.
  - rewrite app_nil_r in Hx. apply Hseen. exact Hx.
  - apply (IH (seen ++ [c])).
    + intros y Hy. apply in_app_or in Hy. unfold heap_better.
      destruct (flt (fCost (ns c)) (fCost (ns n))) eqn:Hc.
      * destruct Hy as [Hy|[<-|[]]]; [|apply flt_irrefl].
        destruct (flt (fCost (ns y)) (fCost (ns c))) eqn:Hyc; [|reflexivity].
        rewrite <- (Hseen y Hy). symmetry. eapply flt_trans; eassumption.
      * destruct Hy as [Hy|[<-|[]]]; [apply Hseen; exact Hy | exact Hc].
    + rewrite <- app_assoc. exact Hx.
Qed.

(** The top of the heap has the least F cost among the open nodes: no
    open node has a strictly smaller one. *)
Lemma heap_top_min (ns : NodeStore) (h : list NodeId) (c : NodeId) :
  heap_top ns h = Some c ->
  forall n, In n h -> flt (fCost (ns n)) (fCost (ns c)) = false.
Proof.
  destruct h as [|m t]; simpl; [discriminate|].
  intros H n Hn. injection H as <-.
  apply (heap_better_fold_min ns t [m] m).
  - intros x [<-|[]]. apply flt_irrefl.
  - exact Hn.
Qed.

Lemma Iterate_expand_curNode (E : Externals) (cur : NodeId) (w : World) :
  curNode (PS (Iterate_expand E cur w)) = curNode (PS w).
Proof.
  unfold Iterate_expand.
  match goal with
  | |- curNode (PS (Iterate_loop E ?hW cur 0 ?ngbs ?w1)) = _ =>
    transitivity (curNode (PS w1));
    [ apply (Iterate_loop_inv (fun w' => curNode (PS w') = curNode (PS w1)));
      [ intros i nxt w' Hw';
        destruct (Iterate_body_frame E hW cur i nxt w') as (_ & _ & _ & Hc & _);
        congruence
      | reflexivity ]
    | ]
  end.
  match goal with |- context [if ?c then _ else _] => destruct c end; reflexivity.
Qed.

Lemma Iterate_curNode (E : Externals) (w w' : World) :
  Iterate E w = Some w' -> curNode (PS w') = heap_top (nodes w) (openNodes w).
Proof.
  intros H. destruct (Iterate_cases E w w' H) as (cur & Htop & [->|(cp & [->|[_ ->]])]);
    rewrite Htop; try reflexivity.
  rewrite Iterate_expand_curNode. reflexivity.
Qed.

(** C4, as amended. The node popped by [Iterate] is the top of the open
    heap, and no open node has a strictly smaller F cost than it has at
    that moment. A neighbour marked CLOSED in the current search is
    pushed back only when the test [gCost >= G] on its newly computed and
    stored G costs fails, that is, for ordered costs, when the new G is
    strictly less than the stored one. *)
Theorem pop_minimum_and_reopen (E : Externals) :
  (forall w w',
      Iterate E w = Some w' ->
      exists cur, curNode (PS w') = Some cur
        /\ heap_top (nodes w) (openNodes w) = Some cur
        /\ forall n, In n (openNodes w) ->
                     flt (fCost (nodes w n)) (fCost (nodes w cur)) = false)
  /\ (forall hWeight cur i nxt w,
         searchState (PS w) <= nodeSearchState (nodes w nxt) ->
         Z.land (nodeSearchState (nodes w nxt)) 1 = NODE_STATE_CLOSED ->
         openNodes (Iterate_body E hWeight cur i nxt w) = openNodes w
         \/ (openNodes (Iterate_body E hWeight cur i nxt w) = heap_push nxt (openNodes w)
             /\ fge (Iterate_gCost w cur nxt (Iterate_nxtPoint E w cur i nxt))
                    (gCost (nodes w nxt)) = false
             /\ (is_nan (Iterate_gCost w cur nxt (Iterate_nxtPoint E w cur i nxt)) = false ->
                 is_nan (gCost (nodes w nxt)) = false ->
                 flt (Iterate_gCost w cur nxt (Iterate_nxtPoint E w cur i nxt))
                     (gCost (nodes w nxt)) = true))).
Proof.
  split.
  - intros w w' H. pose proof (Iterate_curNode E w w' H) as Hc.
    destruct (heap_top (nodes w) (openNodes w)) as [cur|] eqn:Htop.
    + exists cur. split; [exact Hc|]. split; [reflexivity|].
      apply heap_top_min. exact Htop.
    + unfold Iterate in H. rewrite Htop in H. discriminate.
  - intros hWeight cur i nxt w Hcur Hclosed.
    unfold Iterate_body. cbn [PS nodes openNodes with_PS with_nodes with_openNodes].
    destruct (feq (moveCost (nodes w nxt)) QTPFS_POSITIVE_INFINITY); [left; reflexivity|].
    cbn [searchState set_nxt].
    destruct (Z.leb_spec (searchState (PS w)) (nodeSearchState (nodes w nxt))) as [_|Hlt];
      [|lia].
    cbn [negb].
    match goal with |- context [if fge ?a ?b then _ else _] => destruct (fge a b) eqn:Hge end;
      [left; reflexivity|].
    rewrite Hclosed, Z.eqb_refl. right.
    split; [reflexivity|]. split; [exact Hge|].
    intros Ha Hb. apply flt_of_not_fge; assumption.
Qed.

Lemma pop_minimum_and_reopen_witness :
  (searchState (PS Demo.world_reopen) <= nodeSearchState (nodes Demo.world_reopen 1%nat)
   /\ Z.land (nodeSearchState (nodes Demo.world_reopen 1%nat)) 1 = NODE_STATE_CLOSED)
  /\ openNodes (Iterate_body (Demo.env true true) f2_0 0%nat 0%nat 1%nat Demo.world_reopen)
     = [1%nat]
  /\ flt (Iterate_gCost Demo.world_reopen 0%nat 1%nat
            (Iterate_nxtPoint (Demo.env true true) Demo.world_reopen 0%nat 0%nat 1%nat))
         (gCost (nodes Demo.world_reopen 1%nat)) = true.
Proof.
  assert (H1 : searchState (PS Demo.world_reopen)
               <= nodeSearchState (nodes Demo.world_reopen 1%nat))
    by (vm_compute; congruence).
  assert (H2 : Z.land (nodeSearchState (nodes Demo.world_reopen 1%nat)) 1 = NODE_STATE_CLOSED)
    by reflexivity.
  split; [split; assumption|].
  destruct (proj2 (pop_minimum_and_reopen (Demo.env true true))
              f2_0 0%nat 0%nat 1%nat Demo.world_reopen H1 H2) as [H|(H & _ & Hlt)].
  - exfalso. vm_compute in H. discriminate H.
  - split; [exact H|]. apply Hlt; reflexivity.
Defined.

(** C4, as stated, fails. An A* search over three nodes in a row pops
    the source with F = 40, the middle node with F = 68 and the target
    with F = 40: the third pop has a strictly smaller F than the second. *)
Lemma popped_F_not_monotone :
  popped_F (Demo.env true true) 16
    (Demo.started (Demo.env true true) (Demo.world3 PATH_SEARCH_ASTAR f1_0))
  = [float_of_Z 40; float_of_Z 68; float_of_Z 40]
  /\ flt (float_of_Z 40) (float_of_Z 68) = true
  /\ option_map snd
       (Execute (Demo.env true true) 16 2 0 (Demo.world3 PATH_SEARCH_ASTAR f1_0))
     = Some true.
Proof. vm_compute. repeat split. Qed.

(** ** Iterate: the costs stored for a neighbour *)

(** The H cost handed to [UpdateNode] is a value of the format, so the
    multiplier [1.0f] of A* stores it unchanged. *)
Lemma Iterate_hCost_binary32 (w : World) (hWeight : float) (nxt : NodeId) (p : point) :
  is_binary32 (Iterate_hCost w hWeight nxt p).
Proof. unfold Iterate_hCost. apply fmul_bool_binary32. Qed.

(** C5, as amended. For a neighbour [n] that [Iterate] stamps (it is not
    blocked, and it is new to this search or reached with a G cost that
    fails the test [gCost >= G]), the costs stored are
    [M = curNode.M + curNode.moveCost + n.moveCost * [n == tgtNode]],
    [G = curNode.G + curNode.moveCost * gDist + n.moveCost * hDist * [n == tgtNode]],
    [H = hWeight * hDist * [n != tgtNode] * hCostMult] and [F = G + H], where
    [gDist] and [hDist] are the Euclidean distances from [curPoint] to
    [nxtPoint] and from [nxtPoint] to [tgtPoint] (square roots of the
    squared distances). With the multiplier [1.0f] of A* the stored H is
    [hWeight * hDist * [n != tgtNode]]; with the [0.0f] of Dijkstra it is
    a zero (or NaN). *)
Theorem Iterate_stored_costs (E : Externals) (hWeight : float) (cur : NodeId)
    (i : nat) (nxt : NodeId) (w : World) :
  feq (moveCost (nodes w nxt)) QTPFS_POSITIVE_INFINITY = false ->
  nodeSearchState (nodes w nxt) < searchState (PS w)
  \/ fge (Iterate_gCost w cur nxt (Iterate_nxtPoint E w cur i nxt)) (gCost (nodes w nxt)) = false ->
  let p := Iterate_nxtPoint E w cur i nxt in
  let n' := nodes (Iterate_body E hWeight cur i nxt w) nxt in
  let isTarget := Nat.eqb nxt (tgtNode (PS w)) in
  let gDist := fsqrt (float3.SqDistance (curPoint (PS w)) p) in
  let hDist := fsqrt (float3.SqDistance p (tgtPoint (PS w))) in
  mCost n' = fadd (fadd (mCost (nodes w cur)) (moveCost (nodes w cur)))
                  (fmul (moveCost (nodes w nxt)) (float_of_bool isTarget))
  /\ gCost n' = fadd (fadd (gCost (nodes w cur)) (fmul (moveCost (nodes w cur)) gDist))
                     (fmul (fmul (moveCost (nodes w nxt)) hDist) (float_of_bool isTarget))
  /\ hCost n' = fmul (fmul (fmul hWeight hDist) (float_of_bool (negb isTarget)))
                     (hCostMult (PS w))
  /\ fCost n' = fadd (gCost n') (hCost n')
  /\ (hCostMult (PS w) = f1_0 ->
      hCost n' = fmul (fmul hWeight hDist) (float_of_bool (negb isTarget)))
  /\ (hCostMult (PS w) = f0_0 -> zero_or_nan (hCost n')).
Proof.
  intros Hinf Hupd p n' isTarget gDist hDist.
  assert (Hn : nodes (Iterate_body E hWeight cur i nxt w)
               = UpdateNode E (set_nxt nxt p (PS w)) nxt (Some cur)
                   (Iterate_gCost w cur nxt p) (Iterate_hCost w hWeight nxt p)
                   (Iterate_mCost w cur nxt) (nodes w)).
  { unfold Iterate_body. cbn [PS nodes openNodes with_PS with_nodes with_openNodes].
    fold p. rewrite Hinf. cbn [searchState set_nxt].
    destruct (Z.leb_spec (searchState (PS w)) (nodeSearchState (nodes w nxt))) as [Hle|Hlt];
      cbn [negb]; [|reflexivity].
    destruct Hupd as [Hupd|Hupd]; [lia|].
    fold p in Hupd.
    match goal with
    | |- context [if fge ?a ?b then _ else _] =>
      change (fge a b) with (fge (Iterate_gCost w cur nxt p) (gCost (nodes w nxt)))
    end.
    rewrite Hupd.
    destruct (Z.land (nodeSearchState (nodes w nxt)) 1 =? NODE_STATE_CLOSED); reflexivity. }
  destruct (UpdateNode_at E (set_nxt nxt p (PS w)) nxt (Some cur)
              (Iterate_gCost w cur nxt p) (Iterate_hCost w hWeight nxt p)
              (Iterate_mCost w cur nxt) (nodes w)) as (Ug & Uh & Uf & Um & _).
  subst n'. rewrite Hn, Ug, Uh, Uf, Um. cbn [hCostMult set_nxt].
  repeat split.
  - intros H1. rewrite H1. apply fmul_1_id. apply Iterate_hCost_binary32.
  - intros H0. rewrite H0. apply zero_or_nan_fmul_0.
Qed.

Lemma Iterate_stored_costs_witness :
  feq (moveCost (nodes (Demo.started (Demo.env true true)
                          (Demo.world3 PATH_SEARCH_ASTAR f1_0)) 1%nat))
      QTPFS_POSITIVE_INFINITY = false
  /\ gCost (nodes (Iterate_body (Demo.env true true) f2_0 0%nat 0%nat 1%nat
                     (Demo.started (Demo.env true true) (Demo.world3 PATH_SEARCH_ASTAR f1_0)))
                  1%nat) = float_of_Z 12
  /\ hCost (nodes (Iterate_body (Demo.env true true) f2_0 0%nat 0%nat 1%nat
                     (Demo.started (Demo.env true true) (Demo.world3 PATH_SEARCH_ASTAR f1_0)))
                  1%nat) = float_of_Z 56.
Proof.
  assert (H1 : feq (moveCost (nodes (Demo.started (Demo.env true true)
                                       (Demo.world3 PATH_SEARCH_ASTAR f1_0)) 1%nat))
                   QTPFS_POSITIVE_INFINITY = false) by reflexivity.
  assert (H2 : nodeSearchState (nodes (Demo.started (Demo.env true true)
                                         (Demo.world3 PATH_SEARCH_ASTAR f1_0)) 1%nat)
               < searchState (PS (Demo.started (Demo.env true true)
                                    (Demo.world3 PATH_SEARCH_ASTAR f1_0))))
    by (vm_compute; reflexivity).
  destruct (Iterate_stored_costs (Demo.env true true) f2_0 0%nat 0%nat 1%nat
              (Demo.started (Demo.env true true) (Demo.world3 PATH_SEARCH_ASTAR f1_0))
              H1 (or_introl H2)) as (_ & Tg & _ & _ & Th & _).
  split; [exact H1|]. split.
  - rewrite Tg. vm_compute. reflexivity.
  - rewrite (Th eq_refl). vm_compute. reflexivity.
Defined.

(** C5, as stated, fails. In a Dijkstra search the first iteration
    stamps the neighbour of the source, which is not the target, with
    H = 0, whereas [hWeight * dist(nxtPoint, tgtPoint)] is 56. *)
Lemma Dijkstra_stores_zero_H :
  option_map (fun w => hCost (nodes w 1%nat))
    (Execute_step (Demo.env true true)
       (Demo.started (Demo.env true true) (Demo.world3 PATH_SEARCH_DIJKSTRA f1_0)))
  = Some f0_0
  /\ Iterate_hCost (Demo.started (Demo.env true true) (Demo.world3 PATH_SEARCH_DIJKSTRA f1_0))
       f2_0 1%nat
       (Iterate_nxtPoint (Demo.env true true)
          (Demo.started (Demo.env true true) (Demo.world3 PATH_SEARCH_DIJKSTRA f1_0))
          0%nat 0%nat 1%nat)
     = float_of_Z 56
  /\ feq f0_0 (float_of_Z 56) = false.
Proof. vm_compute. repeat split. Qed.

(** ** SharedFinalize *)

Lemma AddLivePath_fresh (p : IPath) (cache : gmap Z IPath) :
  cache !! pathID p = None -> AddLivePath p cache !! pathID p = Some p.
Proof.
  intros H. unfold AddLivePath. rewrite H. apply lookup_insert_eq.
Qed.

(** The points of a copied path after its two ends were overwritten. *)
Lemma overwrite_ends (l : list point) (a b : point) :
  (2 <= length l)%nat ->
  length (<[(length (<[0%nat := a]> l) - 1)%nat := b]> (<[0%nat := a]> l)) = length l
  /\ (<[(length (<[0%nat := a]> l) - 1)%nat := b]> (<[0%nat := a]> l)) !! 0%nat = Some a
  /\ (<[(length (<[0%nat := a]> l) - 1)%nat := b]> (<[0%nat := a]> l))
       !! (length l - 1)%nat = Some b
  /\ forall i, (0 < i < length l - 1)%nat ->
       (<[(length (<[0%nat := a]> l) - 1)%nat := b]> (<[0%nat := a]> l)) !! i = l !! i.
Proof.
  intros Hl. rewrite !length_insert. repeat split.
  - rewrite list_lookup_insert_ne by lia. apply list_lookup_insert_eq. lia.
  - apply list_lookup_insert_eq. rewrite length_insert. lia.
  - intros i Hi. rewrite !list_lookup_insert_ne by lia. reflexivity.
Qed.

(** C6. [SharedFinalize(srcPath, dstPath)] returns true exactly when the
    squared distance between the two target points is strictly less than
    [SQUARE_SIZE * SQUARE_SIZE]. When it does ([srcPath] having at least
    its two end points), [dstPath] gets as many points as [srcPath], the
    same interior points, the search's own [srcPoint] and [tgtPoint] as
    first and last point, a bounding box computed from these points, and
    it is handed to [AddLivePath], which enters it under its ID when that
    ID is free. When it returns false, nothing is changed. *)
Theorem SharedFinalize_spec (E : Externals) (s : PathSearch)
    (cache : gmap Z IPath) (srcPath dstPath : IPath) :
  (fst (fst (SharedFinalize E s cache srcPath dstPath)) = true
   <-> flt (float3.SqDistance (GetTargetPoint srcPath) (GetTargetPoint dstPath))
           (float_of_Z (SQUARE_SIZE E * SQUARE_SIZE E)) = true)
  /\ (fst (fst (SharedFinalize E s cache srcPath dstPath)) = true ->
      (2 <= length (points srcPath))%nat ->
      NumPoints (snd (fst (SharedFinalize E s cache srcPath dstPath))) = NumPoints srcPath
      /\ (forall i, (0 < i < length (points srcPath) - 1)%nat ->
            points (snd (fst (SharedFinalize E s cache srcPath dstPath))) !! i
            = points srcPath !! i)
      /\ points (snd (fst (SharedFinalize E s cache srcPath dstPath))) !! 0%nat
         = Some (srcPoint s)
      /\ points (snd (fst (SharedFinalize E s cache srcPath dstPath)))
           !! (length (points srcPath) - 1)%nat = Some (tgtPoint s)
      /\ boundingBoxMins (snd (fst (SharedFinalize E s cache srcPath dstPath)))
         = bbox_mins (points (snd (fst (SharedFinalize E s cache srcPath dstPath))))
      /\ boundingBoxMaxs (snd (fst (SharedFinalize E s cache srcPath dstPath)))
         = bbox_maxs (points (snd (fst (SharedFinalize E s cache srcPath dstPath))))
      /\ pathID (snd (fst (SharedFinalize E s cache srcPath dstPath))) = pathID dstPath
      /\ snd (SharedFinalize E s cache srcPath dstPath)
         = AddLivePath (snd (fst (SharedFinalize E s cache srcPath dstPath))) cache
      /\ (cache !! pathID dstPath = None ->
          snd (SharedFinalize E s cache srcPath dstPath) !! pathID dstPath
          = Some (snd (fst (SharedFinalize E s cache srcPath dstPath)))))
  /\ (fst (fst (SharedFinalize E s cache srcPath dstPath)) = false ->
      snd (fst (SharedFinalize E s cache srcPath dstPath)) = dstPath
      /\ snd (SharedFinalize E s cache srcPath dstPath) = cache).
Proof.
  unfold SharedFinalize.
  destruct (flt (float3.SqDistance (GetTargetPoint srcPath) (GetTargetPoint dstPath))
                (float_of_Z (SQUARE_SIZE E * SQUARE_SIZE E))) eqn:Hd;
    cbn [fst snd].
  - split; [tauto|]. split; [|discriminate].
    intros _ Hl.
    cbn [points pathID boundingBoxMins boundingBoxMaxs SetBoundingBox SetTargetPoint
         SetSourcePoint CopyPoints with_points].
    destruct (overwrite_ends (points srcPath) (srcPoint s) (tgtPoint s) Hl)
      as (H1 & H2 & H3 & H4).
    unfold NumPoints.
    cbn [points pathID boundingBoxMins boundingBoxMaxs SetBoundingBox SetTargetPoint
         SetSourcePoint CopyPoints with_points].
    rewrite H1. repeat split; try assumption.
    intros Hfree.
    exact (AddLivePath_fresh
             (SetBoundingBox
                (SetTargetPoint (tgtPoint s)
                   (SetSourcePoint (srcPoint s) (CopyPoints srcPath dstPath))))
             cache Hfree).
  - split; [split; discriminate|]. split; [discriminate|]. auto.
Qed.

Lemma SharedFinalize_spec_witness :
  fst (fst (SharedFinalize (Demo.env true true) Demo.search_new ∅
              Demo.path_done Demo.path_new)) = true
  /\ (2 <= length (points Demo.path_done))%nat
  /\ points (snd (fst (SharedFinalize (Demo.env true true) Demo.search_new ∅
                        Demo.path_done Demo.path_new)))
     = [Demo.pt 6 0 8; Demo.pt 16 0 8; Demo.pt 32 0 8; Demo.pt 46 0 8]
  /\ snd (SharedFinalize (Demo.env true true) Demo.search_new ∅
            Demo.path_done Demo.path_new) !! 7
     = Some (snd (fst (SharedFinalize (Demo.env true true) Demo.search_new ∅
                         Demo.path_done Demo.path_new))).
Proof.
  assert (H1 : fst (fst (SharedFinalize (Demo.env true true) Demo.search_new ∅
                           Demo.path_done Demo.path_new)) = true) by reflexivity.
  assert (H2 : (2 <= length (points Demo.path_done))%nat) by (simpl; lia).
  destruct (proj1 (proj2 (SharedFinalize_spec (Demo.env true true) Demo.search_new ∅
                            Demo.path_done Demo.path_new)) H1 H2)
    as (_ & _ & _ & _ & _ & _ & _ & _ & T).
  split; [exact H1|]. split; [exact H2|]. split; [reflexivity|].
  apply T. reflexivity.
Defined.

(** ** TracePath *)

Lemma float3_eqb_sym (a b : point) : float3.eqb a b = float3.eqb b a.
Proof.
  unfold float3.eqb.
  rewrite (feq_sym (float3.x a)), (feq_sym (float3.y a)), (feq_sym (float3.z a)).
  reflexivity.
Qed.

Lemma float3_eqb_trans (a b c : point) :
  float3.eqb a b = true -> float3.eqb b c = true -> float3.eqb a c = true.
Proof.
  unfold float3.eqb. rewrite !andb_true_iff.
  intros [[X1 Y1] Z1] [[X2 Y2] Z2].
  repeat split; eapply feq_trans; eassumption.
Qed.

Lemma float3_neb_sym (a b : point) : float3.neb a b = float3.neb b a.
Proof. unfold float3.neb. rewrite float3_eqb_sym. reflexivity. Qed.

(** The list built by [push_front] is the list of kept points, reversed. *)
Lemma TracePath_walk_kept (E : Externals) (s : PathSearch) (fuel : nat) :
  forall ns tmpNode prvNode prvPoint pts ns' pts',
    TracePath_walk E s fuel ns tmpNode prvNode prvPoint pts = Some (ns', pts') ->
    pts' = rev (TracePath_kept E s fuel ns tmpNode prvNode prvPoint) ++ pts.
Proof.
  induction fuel as [|fuel IH]; intros ns tmpNode prvNode prvPoint pts ns' pts';
    simpl; [discriminate|].
  destruct prvNode as [prv|]; [|intros H; inversion H; reflexivity].
  destruct (Nat.eqb tmpNode (srcNode s)); [intros H; inversion H; reflexivity|].
  intros H. apply IH in H. rewrite H.
  destruct (float3.neb _ prvPoint); simpl; [|reflexivity].
  rewrite <- app_assoc. reflexivity.
Qed.

Lemma TracePath_kept_length (E : Externals) (s : PathSearch) (fuel : nat) :
  forall ns tmpNode prvNode prvPoint,
    (length (TracePath_kept E s fuel ns tmpNode prvNode prvPoint) <= fuel)%nat.
Proof.
  induction fuel as [|fuel IH]; intros ns tmpNode prvNode prvPoint; simpl; [lia|].
  destruct prvNode as [prv|]; simpl; [|lia].
  destruct (Nat.eqb tmpNode (srcNode s)); simpl; [lia|].
  rewrite length_app.
  match goal with |- context [TracePath_kept E s fuel ?a ?b ?c ?d] =>
    pose proof (IH a b c d) end.
  destruct (float3.neb _ prvPoint); simpl; lia.
Qed.

(** A kept point differs from the point kept before it, and the first
    one from [q], whenever every point equal to [q] is equal to the last
    transition point. *)
Lemma TracePath_kept_adjacent (E : Externals) (s : PathSearch) (fuel : nat) :
  forall ns tmpNode prvNode prvPoint q,
    (forall t, float3.eqb t q = true -> float3.eqb t prvPoint = true) ->
    adjacent_walk q (TracePath_kept E s fuel ns tmpNode prvNode prvPoint).
Proof.
  induction fuel as [|fuel IH]; intros ns tmpNode prvNode prvPoint q Hq; simpl; [exact I|].
  destruct prvNode as [prv|]; [|exact I].
  destruct (Nat.eqb tmpNode (srcNode s)); [exact I|].
  set (tmpPoint := GetNeighborEdgeTransitionPoint E (ns tmpNode) (ns prv) prvPoint).
  destruct (float3.neb tmpPoint prvPoint) eqn:Hne; simpl.
  - split.
    + unfold float3.neb in *. destruct (float3.eqb tmpPoint q) eqn:Heq; [|reflexivity].
      apply Hq in Heq. rewrite Heq in Hne. discriminate.
    + apply IH. auto.
  - apply IH. intros t Ht. apply Hq in Ht.
    unfold float3.neb in Hne. apply negb_false_iff in Hne.
    eapply float3_eqb_trans; [exact Ht|]. rewrite float3_eqb_sym. exact Hne.
Qed.

Lemma adjacent_differ_snoc (l : list point) (a b : point) :
  adjacent_differ (l ++ [a]) -> float3.neb a b = true -> adjacent_differ ((l ++ [a]) ++ [b]).
Proof.
  induction l as [|x l IH]; simpl; [tauto|].
  destruct (l ++ [a]) as [|y t] eqn:Hl; [destruct l; discriminate|].
  simpl. intros [H1 H2] Hab. split; [exact H1|]. apply IH; assumption.
Qed.

(** In the order of the path the same points have the same property. *)
Lemma adjacent_walk_rev (l : list point) (q : point) :
  adjacent_walk q l -> adjacent_differ (rev l ++ [q]).
Proof.
  revert q. induction l as [|a l IH]; intros q; simpl; [tauto|].
  intros [Haq Hl]. apply IH in Hl. apply adjacent_differ_snoc; assumption.
Qed.

Lemma replicate_S_snoc {A} (n : nat) (x : A) : replicate (S n) x = replicate n x ++ [x].
Proof. induction n as [|n IH]; simpl; [reflexivity|]. simpl in IH. rewrite <- IH. reflexivity. Qed.

(** The loop that fills the allocated points writes the list after the
    first point. *)
Lemma TracePath_fill_points (pts : list point) :
  forall (path : IPath) (z0 z1 : point) (filled : list point),
    points path = z0 :: filled ++ replicate (length pts) float3.ZeroVector ++ [z1] ->
    Z.of_nat (length filled) + Z.of_nat (length pts) + 2 < UINT_MOD ->
    points (TracePath_fill pts path) = z0 :: filled ++ pts ++ [z1].
Proof.
  induction pts as [|p rest IH]; intros path z0 z1 filled Hp Hlen.
  - simpl in *. exact Hp.
  - cbn [TracePath_fill]. cbn [length] in Hp, Hlen |- *.
    assert (HN : NumPoints path = Z.of_nat (length filled) + Z.of_nat (S (length rest)) + 2).
    { unfold NumPoints. rewrite Hp. cbn [length]. rewrite !length_app, length_replicate.
      cbn [length]. rewrite uint_wrap_small; lia. }
    assert (Hi : uint_sub (uint_sub (NumPoints path) (uint_wrap (Z.of_nat (S (length rest))))) 1
                 = Z.of_nat (S (length filled))).
    { rewrite HN. unfold uint_sub.
      rewrite (uint_wrap_small (Z.of_nat (S (length rest)))) by lia.
      rewrite (uint_wrap_small (Z.of_nat (length filled) + Z.of_nat (S (length rest)) + 2
                                - Z.of_nat (S (length rest)))) by lia.
      rewrite uint_wrap_small; lia. }
    rewrite Hi.
    replace (z0 :: filled ++ (p :: rest) ++ [z1]) with (z0 :: (filled ++ [p]) ++ rest ++ [z1])
      by (rewrite <- app_assoc; reflexivity).
    apply IH.
    + unfold SetPoint. cbn [points with_points]. rewrite Hp, Nat2Z.id.
      cbn [replicate]. change (<[S (length filled) := p]> (z0 :: ?l)) with (z0 :: <[length filled := p]> l).
      f_equal. rewrite insert_app_r_alt by lia. rewrite Nat.sub_diag. simpl.
      rewrite <- app_assoc. reflexivity.
    + rewrite length_app. cbn [length] in *. lia.
Qed.

Lemma set_ends (z0 z1 a b : point) (l : list point) :
  <[(length (<[0%nat := a]> (z0 :: l ++ [z1])) - 1)%nat := b]> (<[0%nat := a]> (z0 :: l ++ [z1]))
  = a :: l ++ [b].
Proof.
  change (<[0%nat := a]> (z0 :: l ++ [z1])) with (a :: l ++ [z1]).
  cbn [length]. rewrite length_app. cbn [length].
  replace (S (length l + 1) - 1)%nat with (S (length l)) by lia.
  change (<[S (length l) := b]> (a :: l ++ [z1])) with (a :: <[length l := b]> (l ++ [z1])).
  f_equal. rewrite insert_app_r_alt by lia. rewrite Nat.sub_diag. reflexivity.
Qed.

(** Lines 349-364 leave the source point, the list, and the target point. *)
Lemma TracePath_emit_points (s : PathSearch) (pts : list point) (path : IPath) :
  length (points path) = 2%nat ->
  Z.of_nat (length pts) + 2 < UINT_MOD ->
  points (TracePath_emit s pts path) = srcPoint s :: pts ++ [tgtPoint s].
Proof.
  intros H2 Hlen. unfold TracePath_emit.
  assert (Hfill : exists z0 z1,
             points (TracePath_fill pts
                       match pts with
                       | [] => path
                       | _ :: _ => AllocPoints (uint_add (uint_wrap (Z.of_nat (length pts))) 2) path
                       end) = z0 :: pts ++ [z1]).
  { destruct pts as [|p rest].
    - destruct (points path) as [|a [|b [|c l]]] eqn:Hp; try discriminate.
      exists a, b. simpl. exact Hp.
    - exists float3.ZeroVector, float3.ZeroVector. cbn [length] in Hlen |- *.
      apply (TracePath_fill_points (p :: rest) _ _ _ []); [|cbn [length]; lia].
      unfold AllocPoints, uint_add. cbn [points with_points].
      rewrite (uint_wrap_small (Z.of_nat (S (length rest)))) by lia.
      rewrite uint_wrap_small by lia.
      replace (Z.to_nat (Z.of_nat (S (length rest)) + 2)) with (S (S (S (length rest)))) by lia.
      cbn [length app]. rewrite (replicate_S_snoc (S (S (length rest)))). reflexivity. }
  destruct Hfill as (z0 & z1 & Hfill).
  unfold SetTargetPoint, SetSourcePoint. cbn [points with_points]. rewrite Hfill.
  apply set_ends.
Qed.

(** [back_chain] reads the back-links of the nodes of the chain only. *)
Lemma back_chain_ext (s : PathSearch) (ns ns' : NodeStore) (l : list NodeId) :
  forall n,
    (forall p, In p (n :: l) -> prevNode (ns' p) = prevNode (ns p)) ->
    back_chain s ns n l -> back_chain s ns' n l.
Proof.
  induction l as [|q l IH]; intros n Hext; cbn [back_chain].
  - rewrite (Hext n) by (left; reflexivity). tauto.
  - intros (Hn & Hq & Hnot & Hl). split; [exact Hn|].
    split; [rewrite (Hext n) by (left; reflexivity); exact Hq|].
    split; [exact Hnot|].
    apply IH; [|exact Hl]. intros p Hp. apply Hext. right. exact Hp.
Qed.

(** Along a chain of back-links the walk of lines 320-346 ends after one
    round per link. *)
Lemma TracePath_walk_returns (E : Externals) (s : PathSearch) (l : list NodeId) :
  forall ns tmpNode prvPoint pts,
    back_chain s ns tmpNode l ->
    exists ns' pts',
      TracePath_walk E s (S (length l)) ns tmpNode (prevNode (ns tmpNode)) prvPoint pts
      = Some (ns', pts').
Proof.
  induction l as [|q l IH]; intros ns tmpNode prvPoint pts Hc.
  - cbn [back_chain] in Hc. cbn [length TracePath_walk].
    destruct (prevNode (ns tmpNode)) as [prv|]; [|eauto].
    destruct Hc as [Hc|Hc]; [|discriminate].
    rewrite Hc, Nat.eqb_refl. eauto.
  - cbn [back_chain] in Hc. destruct Hc as (Hn & Hq & Hnot & Hl).
    cbn [length]. cbn [TracePath_walk]. rewrite Hq.
    apply Nat.eqb_neq in Hn. rewrite Hn.
    apply IH. eapply back_chain_ext; [|exact Hl].
    intros p Hp. destruct (QTPFS_SMOOTH_PATHS E); [reflexivity|].
    rewrite update_ne; [reflexivity|]. intros ->. exact (Hnot Hp).
Qed.

Lemma adjacent_equal_differ (l : list point) :
  adjacent_equal l = true -> ~ adjacent_differ l.
Proof.
  induction l as [|a [|b t] IH]; cbn [adjacent_equal adjacent_differ]; try discriminate.
  intros H [Hab Ht]. apply orb_true_iff in H. destruct H as [H|H].
  - unfold float3.neb in Hab. rewrite H in Hab. discriminate.
  - exact (IH H Ht).
Qed.

(** When the back-links lead from the target node to the source node,
    [TracePath] returns a path whose points are the source point, then the
    transition points that differ from their predecessor on the walk, in
    source-to-target order, then the target point. The number of points is
    the number of those transition points plus 2, and from the first
    transition point to the target point every two adjacent points
    differ. *)
Theorem TracePath_emits (E : Externals) (s : PathSearch) (ns : NodeStore)
    (path : IPath) (l : list NodeId) :
  back_chain s ns (tgtNode s) l ->
  length (points path) = 2%nat ->
  Z.of_nat (length l) + 3 < UINT_MOD ->
  exists (ns' : NodeStore) (path' : IPath),
    TracePath E s (S (length l)) ns path = Some (ns', path')
    /\ let kept := if Nat.eqb (srcNode s) (tgtNode s) then []
                   else TracePath_kept E s (S (length l)) ns (tgtNode s)
                          (prevNode (ns (tgtNode s))) (tgtPoint s) in
       points path' = srcPoint s :: rev kept ++ [tgtPoint s]
       /\ NumPoints path' = Z.of_nat (length kept) + 2
       /\ adjacent_differ (rev kept ++ [tgtPoint s]).
Proof.
  intros Hc H2 Hlen. unfold TracePath.
  assert (Hpts : exists ns' pts,
             (if negb (Nat.eqb (srcNode s) (tgtNode s))
              then TracePath_walk E s (S (length l)) ns (tgtNode s)
                     (prevNode (ns (tgtNode s))) (tgtPoint s) []
              else Some (ns, [])) = Some (ns', pts)
             /\ pts = rev (if Nat.eqb (srcNode s) (tgtNode s) then []
                           else TracePath_kept E s (S (length l)) ns (tgtNode s)
                                  (prevNode (ns (tgtNode s))) (tgtPoint s))).
  { destruct (Nat.eqb (srcNode s) (tgtNode s)); cbn [negb]; [eauto|].
    destruct (TracePath_walk_returns E s l ns (tgtNode s) (tgtPoint s) [] Hc)
      as (ns' & pts & Hw).
    exists ns', pts. split; [exact Hw|].
    apply TracePath_walk_kept in Hw. rewrite app_nil_r in Hw. exact Hw. }
  destruct Hpts as (ns' & pts & Hrun & Hpts). rewrite Hrun.
  exists ns', (TracePath_emit s pts path). split; [reflexivity|].
  cbv zeta. rewrite <- Hpts.
  assert (Hk : (length pts <= S (length l))%nat).
  { rewrite Hpts, length_rev. destruct (Nat.eqb (srcNode s) (tgtNode s)); [simpl; lia|].
    apply TracePath_kept_length. }
  assert (Hemit : points (TracePath_emit s pts path) = srcPoint s :: pts ++ [tgtPoint s])
    by (apply TracePath_emit_points; [exact H2|lia]).
  split; [exact Hemit|]. split.
  - unfold NumPoints. rewrite Hemit. cbn [length]. rewrite length_app. cbn [length].
    rewrite uint_wrap_small by lia.
    replace (length pts) with (length (rev pts)) by apply length_rev.
    rewrite Hpts, rev_involutive. lia.
  - rewrite Hpts. apply adjacent_walk_rev.
    destruct (Nat.eqb (srcNode s) (tgtNode s)); [exact I|].
    apply TracePath_kept_adjacent. auto.
Qed.

Lemma TracePath_emits_witness :
  exists (w : World) (r : bool) (ns' : NodeStore) (path' : IPath),
    Execute (Demo.env true false) 16 2 0 (Demo.world3 PATH_SEARCH_ASTAR f1_0) = Some (w, r)
    /\ back_chain (PS w) (nodes w) (tgtNode (PS w)) [1%nat; 0%nat]
    /\ TracePath (Demo.env true false) (PS w) 3 (nodes w) Demo.path2 = Some (ns', path')
    /\ points path' = [Demo.pt 4 0 8; Demo.pt 16 0 8; Demo.pt 32 0 8; Demo.pt 44 0 8]
    /\ NumPoints path' = 4.
Proof.
  destruct (Execute (Demo.env true false) 16 2 0 (Demo.world3 PATH_SEARCH_ASTAR f1_0))
    as [[w r]|] eqn:He; [|returns He].
  observe He (fun x : World * bool => srcNode (PS (fst x))) 0%nat Hs.
  observe He (fun x : World * bool => tgtNode (PS (fst x))) 2%nat Ht.
  observe He (fun x : World * bool => prevNode (nodes (fst x) 2%nat)) (Some 1%nat) H2.
  observe He (fun x : World * bool => prevNode (nodes (fst x) 1%nat)) (Some 0%nat) H1.
  observe He (fun x : World * bool => srcPoint (PS (fst x))) (Demo.pt 4 0 8) Hsp.
  observe He (fun x : World * bool => tgtPoint (PS (fst x))) (Demo.pt 44 0 8) Htp.
  observe He (fun x : World * bool =>
                TracePath_kept (Demo.env true false) (PS (fst x)) 3 (nodes (fst x))
                  (tgtNode (PS (fst x))) (prevNode (nodes (fst x) (tgtNode (PS (fst x)))))
                  (tgtPoint (PS (fst x))))
          [Demo.pt 32 0 8; Demo.pt 16 0 8] Hk.
  cbn [fst] in *.
  assert (Hc : back_chain (PS w) (nodes w) (tgtNode (PS w)) [1%nat; 0%nat]).
  { rewrite Ht. cbn [back_chain]. rewrite Hs, H2, H1.
    repeat split; try lia; try reflexivity.
    - intros [H|[H|[]]]; lia.
    - intros [H|[]]; lia. }
  destruct (TracePath_emits (Demo.env true false) (PS w) (nodes w) Demo.path2
              [1%nat; 0%nat] Hc eq_refl ltac:(reflexivity))
    as (ns' & path' & Hrun & Hpts & Hn & _).
  exists w, r, ns', path'.
  split; [reflexivity|]. split; [exact Hc|]. split; [exact Hrun|].
  cbn [length] in Hpts, Hn. rewrite Hs, Ht in Hpts, Hn. cbn [Nat.eqb] in Hpts, Hn.
  rewrite Ht in Hk. rewrite Hk in Hpts, Hn. rewrite Hsp, Htp in Hpts.
  split; [exact Hpts|exact Hn].
Defined.

(** A search whose source and target are one point of one node walks no
    back-link (line 314) and is given the two-point path made of that
    point twice. *)
Lemma TracePath_same_point :
  option_map (fun wp : World * IPath => points (snd wp))
    (Demo.traced (Demo.env true false) Demo.world_same)
  = Some [Demo.pt 100 0 100; Demo.pt 100 0 100].
Proof. vm_compute. reflexivity. Qed.

(** C7. The walk of [TracePath] compares every transition point with the
    point emitted before it, starting from the target point (lines
    325-332: waypoints should never have identical coordinates), but the
    source point is written at index 0 with no comparison (line 363). A
    search that starts on the edge between its source node and the next
    node, at the transition point of that edge, is given its source point
    twice: the path is [(16,0,8); (16,0,8); (4,0,8)], whose first two
    waypoints are equal, and its three points are 1 interior point plus
    2. *)
Lemma TracePath_source_repeated :
  srcNode (PS Demo.world_edge) <> tgtNode (PS Demo.world_edge)
  /\ option_map (fun wp : World * IPath => points (snd wp))
       (Demo.traced (Demo.env true false) Demo.world_edge)
     = Some [Demo.pt 16 0 8; Demo.pt 16 0 8; Demo.pt 4 0 8]
  /\ ~ adjacent_differ [Demo.pt 16 0 8; Demo.pt 16 0 8; Demo.pt 4 0 8].
Proof.
  split; [vm_compute; congruence|].
  split; [vm_compute; reflexivity|].
  apply adjacent_equal_differ; vm_compute; reflexivity.
Qed.

(** ** SmoothPath *)

Lemma uint_wrap_range (a : Z) : is_uint (uint_wrap a).
Proof. unfold is_uint, uint_wrap. apply Z.mod_pos_bound. reflexivity. Qed.

Lemma uint_wrap_below (a : Z) : - UINT_MOD <= a < 0 -> uint_wrap a = a + UINT_MOD.
Proof.
  intros H. unfold uint_wrap.
  rewrite <- (Z_mod_plus_full a 1 UINT_MOD), Z.mul_1_l.
  apply Z.mod_small. lia.
Qed.

(** An index read with success is no wrapped difference. *)
Lemma uint_sub_in_range (ni k len : Z) :
  is_uint ni -> 0 <= k -> 0 <= len -> len + k <= UINT_MOD ->
  uint_sub ni k < len -> k <= ni /\ uint_sub ni k = ni - k.
Proof.
  unfold is_uint, uint_sub. intros Hu Hk Hl Hlen Hlt.
  destruct (Z_lt_le_dec ni k) as [Hs|Hs].
  - rewrite uint_wrap_below in Hlt by lia. lia.
  - split; [exact Hs|]. apply uint_wrap_small. lia.
Qed.

Lemma GetPoint_lt (i : Z) (path : IPath) (p : point) :
  0 <= i -> GetPoint i path = Some p -> i < Z.of_nat (length (points path)).
Proof.
  unfold GetPoint. intros Hi H. apply lookup_lt_Some in H. lia.
Qed.

(** Line 408: a triple that is nearly straight is left as it is. *)
Lemma SmoothPath_move_parallel (E : Externals) (n0 n1 : INode) (p0 p1 p2 : point) :
  fge (SmoothPath_dot p0 p1 p2) f0_995 = true ->
  SmoothPath_move E n0 n1 p0 p1 p2 = KeepParallel.
Proof. unfold SmoothPath_move. intros H. cbv zeta. rewrite H. reflexivity. Qed.

(** Lines 496-505: an end of the edge is taken only where it aligns the
    two segments at least as well as [p1] did. *)
Lemma SmoothPath_move_edge_end (E : Externals) (n0 n1 : INode) (p0 p1 p2 q : point) :
  SmoothPath_move E n0 n1 p0 p1 p2 = MoveToEdgeEnd q ->
  is_nan (SmoothPath_dot p0 p1 p2) = false ->
  fle (SmoothPath_dot p0 p1 p2) (SmoothPath_dot p0 q p2) = true.
Proof.
  unfold SmoothPath_move. cbv zeta. intros H Hn.
  repeat match type of H with
         | (if ?c then _ else _) = _ => destruct c eqn:?; try discriminate H
         end.
  injection H as <-.
  match goal with |- context [if ?c then _ else _] => destruct c eqn:H1 end.
  - apply flt_fle. eapply fgt_fmax_r; [exact Hn|exact H1].
  - match goal with |- context [if ?c then _ else _] => destruct c eqn:H0 end.
    + apply flt_fle. eapply fgt_fmax_r; [exact Hn|exact H0].
    + apply fle_refl. exact Hn.
Qed.

(** One turn reads three points inside the path and writes the middle one. *)
Lemma SmoothPath_step_spec (E : Externals) (n0 n1 : INode) (ni : Z) (path path' : IPath) :
  SmoothPath_step E n0 n1 ni path = Some path' ->
  is_uint ni ->
  Z.of_nat (length (points path)) + 2 <= UINT_MOD ->
  exists p0 p1 p2 : point,
    2 <= ni < Z.of_nat (length (points path))
    /\ GetPoint ni path = Some p0
    /\ GetPoint (ni - 1) path = Some p1
    /\ GetPoint (ni - 2) path = Some p2
    /\ points path'
       = <[Z.to_nat (ni - 1) := SmoothPath_moved (SmoothPath_move E n0 n1 p0 p1 p2) p1]>
           (points path).
Proof.
  unfold SmoothPath_step. intros H Hu Hlen.
  destruct (GetPoint ni path) as [p0|] eqn:G0; [|discriminate].
  destruct (GetPoint (uint_sub ni 1) path) as [p1|] eqn:G1; [|discriminate].
  destruct (GetPoint (uint_sub ni 2) path) as [p2|] eqn:G2; [|discriminate].
  injection H as <-.
  pose proof (GetPoint_lt _ _ _ (proj1 Hu) G0) as L0.
  pose proof (GetPoint_lt _ _ _ (proj1 (uint_wrap_range _)) G2) as L2.
  destruct (uint_sub_in_range ni 2 (Z.of_nat (length (points path))) Hu ltac:(lia) ltac:(lia) Hlen L2) as [H2 E2].
  assert (E1 : uint_sub ni 1 = ni - 1) by (apply uint_wrap_small; unfold is_uint in Hu; lia).
  rewrite E1 in *. rewrite E2 in *.
  exists p0, p1, p2. repeat split; try assumption; try lia.
  destruct (SmoothPath_move E n0 n1 p0 p1 p2); cbn [SmoothPath_moved];
    try reflexivity; symmetry; apply list_insert_id; exact G1.
Qed.

(** The turns that follow write below the place of the middle point. *)
Lemma SmoothPath_loop_frame (E : Externals) (s : PathSearch) (fuel : nat) :
  forall ns n1 ni path ns' path',
    SmoothPath_loop E s fuel ns n1 ni path = Some (ns', path') ->
    is_uint ni ->
    Z.of_nat (length (points path)) + 2 <= UINT_MOD ->
    length (points path') = length (points path)
    /\ forall i : nat, ni - 1 <= Z.of_nat i -> points path' !! i = points path !! i.
Proof.
  induction fuel as [|fuel IH]; intros ns n1 ni path ns' path' H Hu Hlen;
    cbn [SmoothPath_loop] in H; [discriminate|].
  destruct (Nat.eqb n1 (srcNode s)); [injection H as <- <-; split; reflexivity|].
  destruct (prevNode (ns n1)) as [n1'|]; [|discriminate].
  match type of H with
  | match ?st with _ => _ end = _ => destruct st as [path1|] eqn:Hs; [|discriminate]
  end.
  apply SmoothPath_step_spec in Hs; [|apply uint_wrap_range|exact Hlen].
  destruct Hs as (p0 & p1 & p2 & Hr & _ & _ & _ & Hpts).
  assert (Hl1 : length (points path1) = length (points path))
    by (rewrite Hpts; apply length_insert).
  apply IH in H; [|apply uint_wrap_range|rewrite Hl1; exact Hlen].
  destruct H as [Hl Hi]. split; [congruence|].
  destruct (uint_sub_in_range ni 1 (Z.of_nat (length (points path))) Hu ltac:(lia) ltac:(lia) ltac:(lia) (proj2 Hr)) as [H1 E1].
  rewrite E1 in *.
  intros i Hge. rewrite Hi by lia. rewrite Hpts.
  apply list_lookup_insert_ne. lia.
Qed.

(** C9 (amended). A turn of the loop of [SmoothPath] that starts away
    from the source node reads the triple [p0], [p1], [p2] at the places
    [ni - 1], [ni - 2], [ni - 3]. In the path returned at the end [p0] is
    still at its place, and the place of [p1] holds what that turn left
    there. If the dot product of the triple is at least 0.995 that is
    [p1] itself. If the turn moved [p1] to an end [q] of the shared edge
    and the dot product of the triple is a number, the dot product of
    [p0], [q], [p2] is at least that of [p0], [p1], [p2]. Nothing is said
    of a point moved to the intersection, nor of the triples a moved
    point belongs to as an outer point. *)
Theorem SmoothPath_keeps_and_improves (E : Externals) (s : PathSearch) (fuel : nat)
    (ns ns' : NodeStore) (n0 : NodeId) (ni : Z) (path path' : IPath) :
  SmoothPath_loop E s fuel ns n0 ni path = Some (ns', path') ->
  n0 <> srcNode s ->
  is_uint ni ->
  Z.of_nat (length (points path)) + 2 <= UINT_MOD ->
  exists (n1 : NodeId) (p0 p1 p2 : point),
    prevNode (ns n0) = Some n1
    /\ 3 <= ni
    /\ GetPoint (ni - 1) path = Some p0
    /\ GetPoint (ni - 2) path = Some p1
    /\ GetPoint (ni - 3) path = Some p2
    /\ let ns1 := update n0 (SetPrevNode None) ns in
       let move := SmoothPath_move E (ns1 n0) (ns1 n1) p0 p1 p2 in
       GetPoint (ni - 1) path' = Some p0
       /\ GetPoint (ni - 2) path' = Some (SmoothPath_moved move p1)
       /\ (fge (SmoothPath_dot p0 p1 p2) f0_995 = true -> SmoothPath_moved move p1 = p1)
       /\ (forall q : point,
             move = MoveToEdgeEnd q ->
             is_nan (SmoothPath_dot p0 p1 p2) = false ->
             fle (SmoothPath_dot p0 p1 p2) (SmoothPath_dot p0 q p2) = true).
Proof.
  intros H Hn Hu Hlen. destruct fuel as [|fuel]; [discriminate|].
  cbn [SmoothPath_loop] in H. apply Nat.eqb_neq in Hn. rewrite Hn in H.
  destruct (prevNode (ns n0)) as [n1|]; [|discriminate].
  match type of H with
  | match ?st with _ => _ end = _ => destruct st as [path1|] eqn:Hs; [|discriminate]
  end.
  apply SmoothPath_step_spec in Hs; [|apply uint_wrap_range|exact Hlen].
  destruct Hs as (p0 & p1 & p2 & Hr & G0 & G1 & G2 & Hpts).
  destruct (uint_sub_in_range ni 1 (Z.of_nat (length (points path))) Hu ltac:(lia) ltac:(lia) ltac:(lia) (proj2 Hr)) as [H1 E1].
  rewrite E1 in *.
  assert (Hl1 : length (points path1) = length (points path))
    by (rewrite Hpts; apply length_insert).
  apply SmoothPath_loop_frame in H; [|split; lia|rewrite Hl1; exact Hlen].
  destruct H as [_ Hi].
  exists n1, p0, p1, p2.
  replace (ni - 1 - 1) with (ni - 2) in * by lia.
  replace (ni - 1 - 2) with (ni - 3) in * by lia.
  split; [reflexivity|]. split; [lia|].
  split; [exact G0|]. split; [exact G1|]. split; [exact G2|].
  cbv zeta. split; [|split; [|split]].
  - unfold GetPoint. rewrite Hi by lia. rewrite Hpts.
    rewrite list_lookup_insert_ne by lia. exact G0.
  - unfold GetPoint. rewrite Hi by lia. rewrite Hpts.
    apply list_lookup_insert_eq. lia.
  - intros Hd. rewrite SmoothPath_move_parallel by exact Hd. reflexivity.
  - intros q Hq Hnan. eapply SmoothPath_move_edge_end; eassumption.
Qed.

Lemma SmoothPath_keeps_and_improves_witness :
  (exists (w : World) (p : IPath) (ns' : NodeStore) (path' : IPath),
     Demo.traced (Demo.env true true) Demo.world_tall = Some (w, p)
     /\ SmoothPath (Demo.env true true) (PS w) 16 (nodes w) p = Some (ns', path')
     /\ GetPoint 3 path' = Some (Demo.pt 40 0 32)
     /\ GetPoint 2 path' = Some (Demo.pt 32 0 32))
  /\ (exists (w : World) (p : IPath) (ns' : NodeStore) (path' : IPath),
        Demo.traced (Demo.env true true) Demo.world_step = Some (w, p)
        /\ SmoothPath (Demo.env true true) (PS w) 16 (nodes w) p = Some (ns', path')
        /\ GetPoint 1 path' = Some (Demo.pt 16 0 32)
        /\ fle (SmoothPath_dot (Demo.pt 20 0 76) (Demo.pt 16 0 24) (Demo.pt 4 0 4))
               (SmoothPath_dot (Demo.pt 20 0 76) (Demo.pt 16 0 32) (Demo.pt 4 0 4)) = true).
Proof.
  split.
  - destruct (Demo.traced (Demo.env true true) Demo.world_tall) as [[w p]|] eqn:He;
      [|returns He].
    observe He (fun x : World * IPath => srcNode (PS (fst x))) 0%nat Hs.
    observe He (fun x : World * IPath => tgtNode (PS (fst x))) 2%nat Ht.
    observe He (fun x : World * IPath => points (snd x))
            [Demo.pt 8 0 8; Demo.pt 16 0 32; Demo.pt 32 0 32; Demo.pt 40 0 32] Hp.
    observe He (fun x : World * IPath =>
                  match SmoothPath (Demo.env true true) (PS (fst x)) 16 (nodes (fst x)) (snd x)
                  with Some _ => true | None => false end) true Hr.
    cbn [fst snd] in *.
    destruct (SmoothPath (Demo.env true true) (PS w) 16 (nodes w) p)
      as [[ns' path']|] eqn:Hsm; [|discriminate Hr].
    exists w, p, ns', path'. split; [reflexivity|]. split; [exact Hsm|].
    unfold SmoothPath, NumPoints in Hsm. rewrite Hp, Ht in Hsm. cbn [length] in Hsm.
    change (uint_wrap (Z.of_nat 4) =? 2) with false in Hsm. cbv iota in Hsm.
    change (uint_wrap (Z.of_nat 4)) with 4 in Hsm.
    assert (Hn : 2%nat <> srcNode (PS w)) by (rewrite Hs; lia).
    assert (Hu : is_uint 4) by (vm_compute; split; congruence).
    assert (Hl : Z.of_nat (length (points p)) + 2 <= UINT_MOD)
      by (rewrite Hp; vm_compute; congruence).
    destruct (SmoothPath_keeps_and_improves (Demo.env true true) (PS w) 16 (nodes w) ns'
                2%nat 4 p path' Hsm Hn Hu Hl)
      as (n1 & p0 & p1 & p2 & _ & _ & G0 & G1 & G2 & K0 & K1 & Kpar & _).
    unfold GetPoint in G0, G1, G2. rewrite Hp in G0, G1, G2.
    assert (P0 : Some (Demo.pt 40 0 32) = Some p0) by exact G0.
    assert (P1 : Some (Demo.pt 32 0 32) = Some p1) by exact G1.
    assert (P2 : Some (Demo.pt 16 0 32) = Some p2) by exact G2.
    injection P0 as <-. injection P1 as <-. injection P2 as <-.
    rewrite Kpar in K1 by (vm_compute; reflexivity).
    split; [exact K0|exact K1].
  - destruct (Demo.traced (Demo.env true true) Demo.world_step) as [[w p]|] eqn:He;
      [|returns He].
    observe He (fun x : World * IPath => srcNode (PS (fst x))) 0%nat Hs.
    observe He (fun x : World * IPath => tgtNode (PS (fst x))) 1%nat Ht.
    observe He (fun x : World * IPath => prevNode (nodes (fst x) 1%nat)) (Some 0%nat) Hprev.
    observe He (fun x : World * IPath => points (snd x))
            [Demo.pt 4 0 4; Demo.pt 16 0 24; Demo.pt 20 0 76] Hp.
    observe He (fun x : World * IPath =>
                  SmoothPath_move (Demo.env true true)
                    (update 1%nat (SetPrevNode None) (nodes (fst x)) 1%nat)
                    (update 1%nat (SetPrevNode None) (nodes (fst x)) 0%nat)
                    (Demo.pt 20 0 76) (Demo.pt 16 0 24) (Demo.pt 4 0 4))
            (MoveToEdgeEnd (Demo.pt 16 0 32)) Hm.
    observe He (fun x : World * IPath =>
                  match SmoothPath (Demo.env true true) (PS (fst x)) 16 (nodes (fst x)) (snd x)
                  with Some _ => true | None => false end) true Hr.
    cbn [fst snd] in *.
    destruct (SmoothPath (Demo.env true true) (PS w) 16 (nodes w) p)
      as [[ns' path']|] eqn:Hsm; [|discriminate Hr].
    exists w, p, ns', path'. split; [reflexivity|]. split; [exact Hsm|].
    unfold SmoothPath, NumPoints in Hsm. rewrite Hp, Ht in Hsm. cbn [length] in Hsm.
    change (uint_wrap (Z.of_nat 3) =? 2) with false in Hsm. cbv iota in Hsm.
    change (uint_wrap (Z.of_nat 3)) with 3 in Hsm.
    assert (Hn : 1%nat <> srcNode (PS w)) by (rewrite Hs; lia).
    assert (Hu : is_uint 3) by (vm_compute; split; congruence).
    assert (Hl : Z.of_nat (length (points p)) + 2 <= UINT_MOD)
      by (rewrite Hp; vm_compute; congruence).
    destruct (SmoothPath_keeps_and_improves (Demo.env true true) (PS w) 16 (nodes w) ns'
                1%nat 3 p path' Hsm Hn Hu Hl)
      as (n1 & p0 & p1 & p2 & Hq & _ & G0 & G1 & G2 & _ & K1 & _ & Kend).
    rewrite Hprev in Hq. injection Hq as <-.
    unfold GetPoint in G0, G1, G2. rewrite Hp in G0, G1, G2.
    assert (P0 : Some (Demo.pt 20 0 76) = Some p0) by exact G0.
    assert (P1 : Some (Demo.pt 16 0 24) = Some p1) by exact G1.
    assert (P2 : Some (Demo.pt 4 0 4) = Some p2) by exact G2.
    injection P0 as <-. injection P1 as <-. injection P2 as <-.
    rewrite Hm in K1. split; [exact K1|].
    apply (Kend (Demo.pt 16 0 32)); [exact Hm|vm_compute; reflexivity].
Defined.

(** C9, as stated, fails. In a path over three tall nodes the triple
    at the target has dot product 1.0 and its middle point is kept, but
    its outer point is then moved as the middle point of the next
    triple, and the dot product of the first falls to about 0.707. In a
    path whose target lies on the shared edge the middle point is moved
    onto the target, and the dot product of its own triple falls from
    0.8 to 0. *)
Lemma SmoothPath_alignment_lost :
  Demo.smoothed (Demo.env true true) Demo.world_tall
  = Some ([Demo.pt 8 0 8; Demo.pt 16 0 32; Demo.pt 32 0 32; Demo.pt 40 0 32],
          [Demo.pt 8 0 8; Demo.pt 16 0 16; Demo.pt 32 0 32; Demo.pt 40 0 32])
  /\ fge (SmoothPath_dot (Demo.pt 40 0 32) (Demo.pt 32 0 32) (Demo.pt 16 0 32)) f0_995 = true
  /\ flt (SmoothPath_dot (Demo.pt 40 0 32) (Demo.pt 32 0 32) (Demo.pt 16 0 16))
         (SmoothPath_dot (Demo.pt 40 0 32) (Demo.pt 32 0 32) (Demo.pt 16 0 32)) = true
  /\ flt (SmoothPath_dot (Demo.pt 16 0 16) (Demo.pt 32 0 32) (Demo.pt 40 0 32))
         (SmoothPath_dot (Demo.pt 16 0 32) (Demo.pt 32 0 32) (Demo.pt 40 0 32)) = true
  /\ Demo.smoothed (Demo.env true true) Demo.world_col
     = Some ([Demo.pt 32 0 4; Demo.pt 16 0 16; Demo.pt 0 0 16],
             [Demo.pt 32 0 4; Demo.pt 0 0 16; Demo.pt 0 0 16])
  /\ SmoothPath_dot (Demo.pt 0 0 16) (Demo.pt 0 0 16) (Demo.pt 32 0 4) = f0_0
  /\ flt (SmoothPath_dot (Demo.pt 0 0 16) (Demo.pt 0 0 16) (Demo.pt 32 0 4))
         (SmoothPath_dot (Demo.pt 0 0 16) (Demo.pt 16 0 16) (Demo.pt 32 0 4)) = true.
Proof. vm_compute. repeat split. Qed.

(** ** Further properties *)

(** X1. In general [GetHash(N, k)] is the numeral
    [srcNode.nodeNumber + tgtNode.nodeNumber * N + k * N * N] reduced
    modulo [2^32]: every step is taken in [unsigned int]. *)
Theorem GetHash_modulo (w : World) (N k : Z) :
  GetHash w N k = (srcNumber w + tgtNumber w * N + k * N * N) mod UINT_MOD.
Proof.
  unfold GetHash, uint_add, uint_mul, uint_wrap.
  fold (srcNumber w) (tgtNumber w).
  rewrite (Zplus_mod_idemp_r (tgtNumber w * N) (srcNumber w) UINT_MOD).
  rewrite (Zmult_mod_idemp_l (k * N) N UINT_MOD).
  rewrite <- Z.add_mod by discriminate.
  reflexivity.
Qed.

Lemma last_lookup_default {A : Type} (l : list A) (d : A) :
  List.last l d = default d (l !! (length l - 1)%nat).
Proof.
  induction l as [|a l IH]; [reflexivity|].
  destruct l as [|b t]; [reflexivity|].
  change (List.last (a :: b :: t) d) with (List.last (b :: t) d).
  rewrite IH. cbn [length]. rewrite !Nat.sub_succ, !Nat.sub_0_r. reflexivity.
Qed.

(** No turn of the loop writes the first point. *)
Lemma SmoothPath_loop_first (E : Externals) (s : PathSearch) (fuel : nat) :
  forall ns n1 ni path ns' path',
    SmoothPath_loop E s fuel ns n1 ni path = Some (ns', path') ->
    Z.of_nat (length (points path)) + 2 <= UINT_MOD ->
    points path' !! 0%nat = points path !! 0%nat.
Proof.
  induction fuel as [|fuel IH]; intros ns n1 ni path ns' path' H Hlen;
    cbn [SmoothPath_loop] in H; [discriminate|].
  destruct (Nat.eqb n1 (srcNode s)); [injection H as <- <-; reflexivity|].
  destruct (prevNode (ns n1)) as [n1'|]; [|discriminate].
  match type of H with
  | match ?st with _ => _ end = _ => destruct st as [path1|] eqn:Hs; [|discriminate]
  end.
  apply SmoothPath_step_spec in Hs; [|apply uint_wrap_range|exact Hlen].
  destruct Hs as (p0 & p1 & p2 & Hr & _ & _ & _ & Hpts).
  apply IH in H; [|rewrite Hpts, length_insert; exact Hlen].
  rewrite H, Hpts. apply list_lookup_insert_ne. lia.
Qed.

(** X2. [SmoothPath] keeps the number of waypoints and moves neither
    the first nor the last of them. *)
Theorem SmoothPath_keeps_ends (E : Externals) (s : PathSearch) (fuel : nat)
    (ns ns' : NodeStore) (path path' : IPath) :
  SmoothPath E s fuel ns path = Some (ns', path') ->
  Z.of_nat (length (points path)) + 2 <= UINT_MOD ->
  length (points path') = length (points path)
  /\ points path' !! 0%nat = points path !! 0%nat
  /\ GetTargetPoint path' = GetTargetPoint path.
Proof.
  unfold SmoothPath. intros H Hlen.
  destruct (NumPoints path =? 2); [injection H as <- <-; auto|].
  assert (HN : NumPoints path = Z.of_nat (length (points path)))
    by (apply uint_wrap_small; lia).
  pose proof (SmoothPath_loop_first _ _ _ _ _ _ _ _ _ H Hlen) as H0.
  apply SmoothPath_loop_frame in H; [|apply uint_wrap_range|exact Hlen].
  destruct H as [Hl Hi]. split; [exact Hl|]. split; [exact H0|].
  unfold GetTargetPoint. rewrite !last_lookup_default, Hl, Hi; [reflexivity|].
  rewrite HN. lia.
Qed.

Lemma SmoothPath_keeps_ends_witness :
  exists (w : World) (p : IPath) (ns' : NodeStore) (path' : IPath),
    Demo.traced (Demo.env true true) Demo.world_step = Some (w, p)
    /\ SmoothPath (Demo.env true true) (PS w) 16 (nodes w) p = Some (ns', path')
    /\ length (points path') = 3%nat
    /\ points path' !! 0%nat = Some (Demo.pt 4 0 4)
    /\ GetTargetPoint path' = Demo.pt 20 0 76.
Proof.
  destruct (Demo.traced (Demo.env true true) Demo.world_step) as [[w p]|] eqn:He;
    [|returns He].
  observe He (fun x : World * IPath => points (snd x))
          [Demo.pt 4 0 4; Demo.pt 16 0 24; Demo.pt 20 0 76] Hp.
  observe He (fun x : World * IPath =>
                match SmoothPath (Demo.env true true) (PS (fst x)) 16 (nodes (fst x)) (snd x)
                with Some _ => true | None => false end) true Hr.
  cbn [fst snd] in *.
  destruct (SmoothPath (Demo.env true true) (PS w) 16 (nodes w) p)
    as [[ns' path']|] eqn:Hsm; [|discriminate Hr].
  exists w, p, ns', path'. split; [reflexivity|]. split; [exact Hsm|].
  assert (Hl : Z.of_nat (length (points p)) + 2 <= UINT_MOD)
    by (rewrite Hp; vm_compute; congruence).
  destruct (SmoothPath_keeps_ends (Demo.env true true) (PS w) 16 (nodes w) ns' p path' Hsm Hl)
    as (K1 & K2 & K3).
  unfold GetTargetPoint in K3. rewrite Hp in K1, K2, K3.
  split; [exact K1|]. split; [exact K2|exact K3].
Defined.

Lemma lor_1_ge (a : Z) : a <= Z.lor a 1.
Proof.
  pose proof (Z.add_lor_land a 1) as H.
  assert (Hl : Z.land a 1 < 2).
  { change 1 with (Z.ones 1) at 1. rewrite Z.land_ones by lia.
    apply Z.mod_pos_bound. reflexivity. }
  lia.
Qed.

(** *** An invariant of the worlds of the loop *)

Section WorldInvariant.

Variable E : Externals.
Variable WP : World -> Prop.

Hypothesis WP_pop :
  forall cur w, WP w -> heap_top (nodes w) (openNodes w) = Some cur ->
                WP (Iterate_pop E cur w).
Hypothesis WP_curPoint :
  forall cp w, WP w -> WP (with_PS (set_curPoint cp (PS w)) w).
Hypothesis WP_minNode :
  forall cur w, WP w -> QTPFS_SUPPORT_PARTIAL_SEARCHES E = true ->
                WP (with_PS (set_minNode cur (PS w)) w).
Hypothesis WP_body :
  forall hWeight cur i nxt w, WP w -> WP (Iterate_body E hWeight cur i nxt w).
Hypothesis WP_have :
  forall w, WP w ->
    WP (with_PS (set_have (curNode_is (tgtNode (PS w)) (PS w))
                          (negb (Nat.eqb (minNode (PS w)) (srcNode (PS w)))) (PS w)) w).
Hypothesis WP_reset :
  forall w, WP w -> WP (with_openNodes heap_reset w).

Lemma Iterate_expand_world_inv (cur : NodeId) (w : World) :
  WP w -> WP (Iterate_expand E cur w).
Proof using WP_minNode WP_body.
  intros Hw. unfold Iterate_expand.
  destruct (QTPFS_SUPPORT_PARTIAL_SEARCHES E) eqn:Hp; cbn [andb].
  - match goal with |- context [if ?c then _ else _] => destruct c end;
      apply Iterate_loop_inv; auto.
  - apply Iterate_loop_inv; auto.
Qed.

Lemma Iterate_world_inv (w w' : World) :
  WP w -> Iterate E w = Some w' -> WP w'.
Proof using WP_pop WP_curPoint WP_minNode WP_body.
  intros Hw H.
  destruct (Iterate_cases E w w' H) as (cur & Ht & [->|(cp & [->|[_ ->]])]).
  - auto.
  - auto.
  - apply Iterate_expand_world_inv. auto.
Qed.

Lemma Execute_step_world_inv (w w' : World) :
  WP w -> Execute_step E w = Some w' -> WP w'.
Proof using WP_pop WP_curPoint WP_minNode WP_body WP_have WP_reset.
  unfold Execute_step. intros Hw H.
  destruct (Iterate E w) as [w1|] eqn:HI; [|discriminate].
  pose proof (Iterate_world_inv w w1 Hw HI) as H1.
  injection H as <-. apply WP_have in H1.
  match goal with |- context [if ?c then _ else _] => destruct c end;
    [apply WP_reset|]; exact H1.
Qed.

Lemma Execute_steps_world_inv (n : nat) (w w' : World) :
  WP w -> Execute_steps E n w = Some w' -> WP w'.
Proof using WP_pop WP_curPoint WP_minNode WP_body WP_have WP_reset.
  intros Hw H. eapply (Execute_steps_inv WP E); [|exact Hw|exact H].
  intros w1 w2 H1 Hs. eapply Execute_step_world_inv; eassumption.
Qed.

End WorldInvariant.

(** ** Execute: what the search leaves alone *)

Lemma same_layout_refl (n : INode) : same_layout n n.
Proof. unfold same_layout. auto 10. Qed.

Lemma same_layout_trans (a b c : INode) :
  same_layout a b -> same_layout b c -> same_layout a c.
Proof. unfold same_layout. intuition congruence. Qed.

Lemma update_layout (p : NodeId) (f : INode -> INode) (ns : NodeStore) :
  (forall n, same_layout (f n) n) -> forall q, same_layout (update p f ns q) (ns q).
Proof.
  intros Hf q. unfold update. destruct (Nat.eqb q p); [apply Hf|apply same_layout_refl].
Qed.

Lemma UpdateNode_layout (E : Externals) (s : PathSearch) (nxt : NodeId)
    (cur : option NodeId) (g h m : float) (ns : NodeStore) (p : NodeId) :
  same_layout (UpdateNode E s nxt cur g h m ns p) (ns p)
  /\ magicNumber (UpdateNode E s nxt cur g h m ns p) = magicNumber (ns p)
  /\ (QTPFS_WEIGHTED_HEURISTIC_COST E = false ->
      numPrevNodes (UpdateNode E s nxt cur g h m ns p) = numPrevNodes (ns p)).
Proof.
  unfold UpdateNode, same_layout, update.
  destruct (QTPFS_WEIGHTED_HEURISTIC_COST E); destruct (Nat.eqb p nxt); simpl;
    repeat split; intros; congruence.
Qed.

Lemma Iterate_stamp_layout (E : Externals) (s : PathSearch) (n : INode) :
  same_layout (Iterate_stamp E s n) n
  /\ numPrevNodes (Iterate_stamp E s n) = numPrevNodes n
  /\ (QTPFS_CONSERVATIVE_NEIGHBOR_CACHE_UPDATES E = false ->
      magicNumber (Iterate_stamp E s n) = magicNumber n).
Proof.
  unfold Iterate_stamp, same_layout.
  destruct (QTPFS_CONSERVATIVE_NEIGHBOR_CACHE_UPDATES E); simpl;
    repeat split; intros; congruence.
Qed.

Lemma layer_kept_step (E : Externals) (ns0 ns ns' : NodeStore) :
  (forall p, same_layout (ns' p) (ns p)
             /\ (QTPFS_CONSERVATIVE_NEIGHBOR_CACHE_UPDATES E = false ->
                 magicNumber (ns' p) = magicNumber (ns p))
             /\ (QTPFS_WEIGHTED_HEURISTIC_COST E = false ->
                 numPrevNodes (ns' p) = numPrevNodes (ns p))) ->
  layer_kept E ns0 ns -> layer_kept E ns0 ns'.
Proof.
  intros H HK p. destruct (H p) as (A & B & C). destruct (HK p) as (A0 & B0 & C0).
  split; [eapply same_layout_trans; eassumption|].
  split; intros F; [rewrite B, B0|rewrite C, C0]; auto.
Qed.

Lemma layer_kept_stamp (E : Externals) (ns0 : NodeStore) (cur : NodeId) (s : PathSearch)
    (ns : NodeStore) :
  layer_kept E ns0 ns -> layer_kept E ns0 (update cur (Iterate_stamp E s) ns).
Proof.
  apply layer_kept_step. intros p. unfold update.
  destruct (Nat.eqb p cur).
  - destruct (Iterate_stamp_layout E s (ns p)) as (A & B & C). auto.
  - split; [apply same_layout_refl|]. auto.
Qed.

Lemma layer_kept_body (E : Externals) (ns0 : NodeStore) (hWeight : float)
    (cur : NodeId) (i : nat) (nxt : NodeId) (w : World) :
  layer_kept E ns0 (nodes w) -> layer_kept E ns0 (nodes (Iterate_body E hWeight cur i nxt w)).
Proof.
  intros HK.
  destruct (Iterate_body_effect E hWeight cur i nxt w) as [_ [[Hn _]|(_ & Hn & _)]];
    rewrite Hn; [exact HK|].
  revert HK. apply layer_kept_step. intros p.
  match goal with |- context [UpdateNode E ?s ?n ?c ?g ?h ?m ?ns p] =>
    destruct (UpdateNode_layout E s n c g h m ns p) as (A & B & C) end.
  auto.
Qed.

Lemma layer_kept_move (E : Externals) (ns0 ns : NodeStore) (p : NodeId) (v : float) :
  layer_kept E ns0 ns -> layer_kept E ns0 (update p (SetMoveCost v) ns).
Proof.
  apply layer_kept_step. intros q. unfold update, same_layout.
  destruct (Nat.eqb q p); simpl; auto 10.
Qed.

(** X3. Whatever the search does, [Execute] leaves the data of the node
    layer as they are: node numbers, rectangles and neighbour lists; so
    also the magic numbers unless neighbour caches are updated
    conservatively, and the back-link counts unless the heuristic is
    weighted. *)
Theorem Execute_keeps_node_layer (E : Externals) (fuel : nat) (off mg : Z)
    (w w' : World) (r : bool) :
  Execute E fuel off mg w = Some (w', r) ->
  forall p,
    nodeNumber (nodes w' p) = nodeNumber (nodes w p)
    /\ xmin (nodes w' p) = xmin (nodes w p) /\ zmin (nodes w' p) = zmin (nodes w p)
    /\ xmax (nodes w' p) = xmax (nodes w p) /\ zmax (nodes w' p) = zmax (nodes w p)
    /\ neighbors (nodes w' p) = neighbors (nodes w p)
    /\ (QTPFS_CONSERVATIVE_NEIGHBOR_CACHE_UPDATES E = false ->
        magicNumber (nodes w' p) = magicNumber (nodes w p))
    /\ (QTPFS_WEIGHTED_HEURISTIC_COST E = false ->
        numPrevNodes (nodes w' p) = numPrevNodes (nodes w p)).
Proof.
  intros He.
  assert (HK : layer_kept E (nodes w) (nodes w')).
  { destruct (Execute_cases E fuel off mg w w' r He) as [(_ & -> & _)|(_ & wl & Hl & Hf)].
    - intros p. split; [apply same_layout_refl|]. auto.
    - set (w0 := Execute_enter off mg w) in *.
      destruct (Execute_loop_steps E fuel _ wl Hl) as (n & Hn & _).
      assert (H0 : layer_kept E (nodes w) (nodes (Execute_init E (srcBlocked w0) w0))).
      { unfold Execute_init. cbn [nodes].
        match goal with |- layer_kept E _ (UpdateNode E ?s ?n ?c ?g ?h ?m ?ns) =>
          apply (layer_kept_step E (nodes w) ns);
            [intros p; destruct (UpdateNode_layout E s n c g h m ns p) as (A & B & C); auto|]
        end.
        destruct (srcBlocked w0); [apply layer_kept_move|];
          intros p; (split; [apply same_layout_refl|]); auto. }
      assert (Hl' : layer_kept E (nodes w) (nodes wl)).
      { apply (Execute_steps_nodes_inv E (PS (Execute_init E (srcBlocked w0) w0))
                 (layer_kept E (nodes w))) with (n := n) (w := Execute_init E (srcBlocked w0) w0).
        - intros. apply layer_kept_stamp. assumption.
        - intros. apply layer_kept_body. assumption.
        - apply same_search_refl.
        - exact Hn.
        - exact H0. }
      assert (Hw' : w' = fst (Execute_finish E (srcBlocked w0) wl)) by (rewrite Hf; reflexivity).
      rewrite Hw'. unfold Execute_finish. cbn [fst nodes].
      destruct (srcBlocked w0); [apply layer_kept_move|]; exact Hl'. }
  intros p. destruct (HK p) as ((A1 & A2 & A3 & A4 & A5 & A6) & B & C).
  repeat split; assumption.
Qed.

(** ** Execute: the stamps *)

Lemma Iterate_stamp_state (E : Externals) (s : PathSearch) (n : INode) :
  nodeSearchState (Iterate_stamp E s n) = Z.lor (searchState s) NODE_STATE_CLOSED.
Proof.
  unfold Iterate_stamp. destruct (QTPFS_CONSERVATIVE_NEIGHBOR_CACHE_UPDATES E); reflexivity.
Qed.

Lemma stamped_move (off : Z) (ns0 ns : NodeStore) (p : NodeId) (v : float) :
  (ns p = ns0 p -> moveCost (ns p) = v) ->
  stamped_or_same off ns0 ns -> stamped_or_same off ns0 (update p (SetMoveCost v) ns).
Proof.
  intros Hv H q. unfold update. destruct (Nat.eqb_spec q p) as [->|]; [|apply H].
  destruct (H p) as [Hs|Hs]; [|right; exact Hs].
  left. rewrite <- Hs. specialize (Hv Hs). destruct (ns p); simpl in *. subst. reflexivity.
Qed.

Lemma stamped_UpdateNode (E : Externals) (off : Z) (ns0 ns : NodeStore) (s : PathSearch)
    (nxt : NodeId) (cur : option NodeId) (g h m : float) :
  searchState s = off ->
  stamped_or_same off ns0 ns -> stamped_or_same off ns0 (UpdateNode E s nxt cur g h m ns).
Proof.
  intros Hs H q. destruct (Nat.eq_dec q nxt) as [->|Hne].
  - right. left. destruct (UpdateNode_at E s nxt cur g h m ns) as (_ & _ & _ & _ & _ & U).
    rewrite U, Hs. reflexivity.
  - rewrite UpdateNode_other by exact Hne. apply H.
Qed.

Lemma Execute_steps_stamped (E : Externals) (off : Z) (ns0 : NodeStore) (n : nat)
    (w w' : World) :
  searchState (PS w) = off -> stamped_or_same off ns0 (nodes w) ->
  Execute_steps E n w = Some w' ->
  stamped_or_same off ns0 (nodes w').
Proof.
  intros Hs H0 Hn.
  apply (Execute_steps_world_inv E
           (fun w => searchState (PS w) = off /\ stamped_or_same off ns0 (nodes w)))
    with (n := n) (w := w); [..|split; assumption|exact Hn].
  - intros cur w1 [A B] _. split; [exact A|].
    unfold Iterate_pop. cbn [nodes]. intros q. unfold update.
    destruct (Nat.eqb q cur); [|apply B].
    right. right. rewrite Iterate_stamp_state. cbn [searchState set_curNode]. rewrite A.
    reflexivity.
  - intros cp w1 H. exact H.
  - intros cur w1 H _. exact H.
  - intros hW cur i nxt w1 [A B].
    destruct (Iterate_body_effect E hW cur i nxt w1) as [HPS Hn'].
    split; [rewrite HPS; exact A|].
    destruct Hn' as [[Hn' _]|(_ & Hn' & _)]; rewrite Hn'; [exact B|].
    apply stamped_UpdateNode; [exact A|exact B].
  - intros w1 H. exact H.
  - intros w1 H. exact H.
Qed.

(** X4. Every node is, after [Execute], either exactly as it was before
    or stamped with the search state of this search, OPEN or CLOSED: a
    node whose search state is neither has not been written. *)
Theorem Execute_writes_only_stamped (E : Externals) (fuel : nat) (off mg : Z)
    (w w' : World) (r : bool) :
  Execute E fuel off mg w = Some (w', r) ->
  forall p,
    nodes w' p = nodes w p
    \/ nodeSearchState (nodes w' p) = Z.lor off NODE_STATE_OPEN
    \/ nodeSearchState (nodes w' p) = Z.lor off NODE_STATE_CLOSED.
Proof.
  intros He.
  destruct (Execute_cases E fuel off mg w w' r He) as [(_ & -> & _)|(_ & wl & Hl & Hf)].
  - intros p. left. reflexivity.
  - set (w0 := Execute_enter off mg w) in *.
    destruct (Execute_loop_steps E fuel _ wl Hl) as (n & Hn & _).
    assert (Hl' : stamped_or_same off (nodes w) (nodes wl)).
    { apply (Execute_steps_stamped E off (nodes w) n (Execute_init E (srcBlocked w0) w0));
        [reflexivity| |exact Hn].
      unfold Execute_init. cbn [nodes]. intros p.
      match goal with |- context [UpdateNode E ?s ?x ?c ?g ?h ?m ?ns p] =>
        destruct (Nat.eq_dec p x) as [->|Hne];
          [right; left;
           destruct (UpdateNode_at E s x c g h m ns) as (_ & _ & _ & _ & _ & U);
           rewrite U; reflexivity
          |rewrite (UpdateNode_other E s x c g h m ns p Hne)]
      end.
      left. destruct (srcBlocked w0); [|reflexivity].
      apply update_ne. exact Hne. }
    assert (Hw' : w' = fst (Execute_finish E (srcBlocked w0) wl)) by (rewrite Hf; reflexivity).
    rewrite Hw'. unfold Execute_finish. cbn [fst nodes].
    destruct (srcBlocked w0) eqn:Hb; [|exact Hl'].
    apply stamped_move; [|exact Hl'].
    intros Hsame. rewrite Hsame.
    pose proof (Execute_steps_frame E n _ wl Hn) as [_ Hss].
    destruct Hss as (Hsrc & _). rewrite Hsrc.
    apply feq_inf. exact Hb.
Qed.

(** ** Execute: the open heap *)

Lemma Iterate_pop_parts (E : Externals) (cur : NodeId) (w : World) :
  PS (Iterate_pop E cur w) = set_curNode cur (PS w)
  /\ nodes (Iterate_pop E cur w)
     = update cur (Iterate_stamp E (set_curNode cur (PS w))) (nodes w)
  /\ openNodes (Iterate_pop E cur w)
     = heap_pop (update cur (Iterate_stamp E (set_curNode cur (PS w))) (nodes w)) (openNodes w).
Proof. repeat split. Qed.

Lemma open_passable_step (E : Externals) (n : nat) (w w' : World) :
  open_passable w -> Execute_steps E n w = Some w' -> open_passable w'.
Proof.
  intros H0 Hn.
  apply (Execute_steps_world_inv E open_passable) with (n := n) (w := w);
    [..|exact H0|exact Hn].
  - intros cur w1 H _ p Hp.
    destruct (Iterate_pop_parts E cur w1) as (_ & Hns & Hop).
    rewrite Hop in Hp. apply heap_pop_In in Hp.
    rewrite Hns, (update_field moveCost) by (intros; apply Iterate_stamp_moveCost).
    apply H. exact Hp.
  - intros cp w1 H. exact H.
  - intros cur w1 H _. exact H.
  - intros hW cur i nxt w1 H p Hp.
    destruct (Iterate_body_frame E hW cur i nxt w1) as (Hmc & _).
    rewrite Hmc.
    destruct (Iterate_body_effect E hW cur i nxt w1) as [_ [[_ Ho]|(Hpass & _ & [Ho|Ho])]];
      rewrite Ho in Hp; try (apply H; exact Hp).
    apply heap_push_In in Hp. destruct Hp as [->|Hp]; [exact Hpass|apply H; exact Hp].
  - intros w1 H. exact H.
  - intros w1 H p Hp. destruct Hp.
Qed.

Lemma Execute_init_open (E : Externals) (b : bool) (w : World) :
  openNodes (Execute_init E b w) = [srcNode (PS w)].
Proof. reflexivity. Qed.

Lemma Execute_init_passable (E : Externals) (off mg : Z) (w : World) :
  open_passable (Execute_init E (srcBlocked w) (Execute_enter off mg w)).
Proof.
  intros p Hp. rewrite Execute_init_open in Hp. destruct Hp as [<-|[]].
  rewrite Execute_init_moveCost. unfold search_moveCost.
  change (srcNode (PS (Execute_enter off mg w))) with (srcNode (PS w)).
  rewrite Nat.eqb_refl, andb_true_r.
  destruct (srcBlocked w) eqn:Hb; [reflexivity|exact Hb].
Qed.

(** X5. At the head of every iteration of the search loop no node on
    the open heap has move cost +infinity: an impassable node is never
    opened (a blocked source is, with the move cost [0.0f] it is given
    for the search). *)
Theorem Execute_opens_no_blocked_node (E : Externals) (off mg : Z) (w wn : World)
    (n : nat) (p : NodeId) :
  Execute_steps E n (Execute_init E (srcBlocked w) (Execute_enter off mg w)) = Some wn ->
  In p (openNodes wn) ->
  feq (moveCost (nodes wn p)) QTPFS_POSITIVE_INFINITY = false.
Proof.
  intros Hn Hp.
  exact (open_passable_step E n _ wn (Execute_init_passable E off mg w) Hn p Hp).
Qed.

Lemma open_linked_step (E : Externals) (src : NodeId) (n : nat) (w w' : World) :
  open_linked src w -> Execute_steps E n w = Some w' -> open_linked src w'.
Proof.
  intros H0 Hn.
  apply (Execute_steps_world_inv E (open_linked src)) with (n := n) (w := w);
    [..|exact H0|exact Hn].
  - intros cur w1 [A B] _. split; [exact A|]. intros p Hp.
    destruct (Iterate_pop_parts E cur w1) as (_ & Hns & Hop).
    rewrite Hop in Hp. apply heap_pop_In in Hp.
    rewrite Hns, (update_field prevNode) by (intros; apply Iterate_stamp_scratch).
    apply B. exact Hp.
  - intros cp w1 H. exact H.
  - intros cur w1 H _. exact H.
  - intros hW cur i nxt w1 [A B].
    destruct (Iterate_body_effect E hW cur i nxt w1) as [HPS Hn'].
    split; [rewrite HPS; exact A|]. intros p Hp.
    destruct Hn' as [[Hns Ho]|(_ & Hns & Ho)].
    + rewrite Hns. rewrite Ho in Hp. apply B. exact Hp.
    + rewrite Hns. destruct (Nat.eq_dec p nxt) as [->|Hne].
      * right.
        match goal with |- context [UpdateNode E ?s ?x ?c ?g ?h ?m ?ns] =>
          destruct (UpdateNode_at E s x c g h m ns) as (_ & _ & _ & _ & U & _) end.
        rewrite U. discriminate.
      * rewrite UpdateNode_other by exact Hne. apply B.
        destruct Ho as [Ho|Ho]; rewrite Ho in Hp; [exact Hp|].
        apply heap_push_In in Hp. destruct Hp as [->|Hp]; [contradiction|exact Hp].
  - intros w1 H. exact H.
  - intros w1 [A B]. split; [exact A|]. intros p Hp. destruct Hp.
Qed.

Lemma Execute_init_linked (E : Externals) (off mg : Z) (w : World) :
  open_linked (srcNode (PS w)) (Execute_init E (srcBlocked w) (Execute_enter off mg w)).
Proof.
  split; [reflexivity|]. intros p Hp. rewrite Execute_init_open in Hp.
  destruct Hp as [<-|[]]. left. reflexivity.
Qed.

Lemma heap_top_some (ns : NodeStore) (h : list NodeId) :
  heap_empty h = false -> exists cur, heap_top ns h = Some cur.
Proof. destruct h as [|n t]; [discriminate|]. intros _. simpl. eauto. Qed.

Lemma open_linked_progress (E : Externals) (src : NodeId) (w : World) :
  open_linked src w -> heap_empty (openNodes w) = false ->
  exists w', Execute_step E w = Some w'.
Proof.
  intros [A B] Hne. destruct (heap_top_some (nodes w) _ Hne) as (cur & Ht).
  assert (HI : exists w1, Iterate E w = Some w1).
  { unfold Iterate. rewrite Ht.
    destruct (Nat.eqb cur (tgtNode (PS (Iterate_pop E cur w)))); [eauto|].
    assert (Hc : exists cp, Iterate_curPoint E cur (Iterate_pop E cur w) = Some cp).
    { unfold Iterate_curPoint.
      destruct (Nat.eqb_spec cur (srcNode (PS (Iterate_pop E cur w)))) as [He|Hd];
        cbn [negb]; [eauto|].
      destruct (Iterate_pop_parts E cur w) as (_ & Hns & _).
      assert (Hprev : prevNode (nodes (Iterate_pop E cur w) cur) = prevNode (nodes w cur)).
      { rewrite Hns. apply (update_field prevNode). intros; apply Iterate_stamp_scratch. }
      rewrite Hprev.
      destruct (B cur (heap_top_In _ _ _ Ht)) as [Hs|Hs].
      - exfalso. apply Hd. rewrite Hs. symmetry. exact A.
      - destruct (prevNode (nodes w cur)); [simpl; eauto|contradiction]. }
    destruct Hc as (cp & ->).
    repeat match goal with |- context [if ?c then _ else _] => destruct c end; eauto. }
  destruct HI as (w1 & HI). unfold Execute_step. rewrite HI. eauto.
Qed.

(** X6. The search loop of [Execute] never meets one of the undefined
    cases of [Iterate]: as long as the open heap is not empty, its top is
    the source or a node with a back-link, so the transition point from
    the predecessor is defined and the iteration completes. *)
Theorem Execute_loop_progress (E : Externals) (off mg : Z) (w wn : World) (n : nat) :
  Execute_steps E n (Execute_init E (srcBlocked w) (Execute_enter off mg w)) = Some wn ->
  heap_empty (openNodes wn) = false ->
  exists (cur : NodeId) (w' : World),
    heap_top (nodes wn) (openNodes wn) = Some cur
    /\ (cur = srcNode (PS w) \/ prevNode (nodes wn cur) <> None)
    /\ Execute_step E wn = Some w'.
Proof.
  intros Hn Hne.
  pose proof (open_linked_step E _ n _ wn (Execute_init_linked E off mg w) Hn) as HL.
  destruct (heap_top_some (nodes wn) _ Hne) as (cur & Ht).
  destruct (open_linked_progress E _ wn HL Hne) as (w' & Hs).
  exists cur, w'. split; [exact Ht|]. split; [|exact Hs].
  destruct HL as [_ B]. apply B. eapply heap_top_In. exact Ht.
Qed.

(** ** Execute: the last iteration *)

Lemma Execute_steps_last (E : Externals) (n : nat) :
  forall w w',
    Execute_steps E (S n) w = Some w' ->
    exists wm, Execute_steps E n w = Some wm
               /\ heap_empty (openNodes wm) = false
               /\ Execute_step E wm = Some w'.
Proof.
  induction n as [|n IH]; intros w w' H.
  - cbn [Execute_steps] in H. exists w.
    destruct (heap_empty (openNodes w)); [discriminate|].
    destruct (Execute_step E w) as [w1|]; [|discriminate].
    injection H as <-. repeat split.
  - change (Execute_steps E (S (S n)) w)
      with (if heap_empty (openNodes w) then None
            else match Execute_step E w with
                 | None => None
                 | Some w1 => Execute_steps E (S n) w1
                 end) in H.
    destruct (heap_empty (openNodes w)) eqn:Hh; [discriminate|].
    destruct (Execute_step E w) as [w1|] eqn:Hs; [|discriminate].
    destruct (IH w1 w' H) as (wm & Hm & Hne & Hst).
    exists wm. split; [|split; assumption].
    cbn [Execute_steps]. rewrite Hh, Hs. exact Hm.
Qed.

(** The two flags are set anew by every iteration (lines 99-100). *)
Lemma Execute_step_flags (E : Externals) (w w' : World) :
  Execute_step E w = Some w' ->
  haveFullPath (PS w') = curNode_is (tgtNode (PS w')) (PS w')
  /\ havePartPath (PS w') = negb (Nat.eqb (minNode (PS w')) (srcNode (PS w'))).
Proof.
  unfold Execute_step. intros H.
  destruct (Iterate E w) as [w1|]; [|discriminate].
  injection H as <-.
  match goal with |- context [if ?c then ?a else ?b] =>
    assert (HP : PS (if c then a else b) = PS b) by (destruct c; reflexivity)
  end.
  rewrite HP. split; reflexivity.
Qed.

(** An iteration that finds the full path has popped the target, closed
    it and emptied the heap, and has done nothing else. *)
Lemma Execute_step_full (E : Externals) (w w' : World) :
  Execute_step E w = Some w' -> haveFullPath (PS w') = true ->
  heap_top (nodes w) (openNodes w) = Some (tgtNode (PS w))
  /\ nodes w' = nodes (Iterate_pop E (tgtNode (PS w)) w)
  /\ openNodes w' = []
  /\ curNode (PS w') = Some (tgtNode (PS w))
  /\ tgtNode (PS w') = tgtNode (PS w).
Proof.
  intros Hs Hfull.
  destruct (Execute_step_flags E w w' Hs) as [Hf _].
  rewrite Hfull in Hf. symmetry in Hf. apply curNode_is_true in Hf.
  pose proof (Execute_step_frame E w w' Hs) as [_ (_ & Htgt & _)].
  rewrite Htgt in Hf.
  revert Hs. unfold Execute_step.
  destruct (Iterate E w) as [w1|] eqn:HI; [|discriminate].
  intros Hs.
  assert (Hcur : curNode (PS w1) = Some (tgtNode (PS w))).
  { injection Hs as <-. revert Hf.
    match goal with |- context [if ?c then _ else _] => destruct c end; intros Hf; exact Hf. }
  pose proof (Iterate_curNode E w w1 HI) as Ht. rewrite Hcur in Ht. symmetry in Ht.
  assert (Hw1 : w1 = Iterate_pop E (tgtNode (PS w)) w).
  { revert HI. unfold Iterate. rewrite Ht.
    change (tgtNode (PS (Iterate_pop E (tgtNode (PS w)) w))) with (tgtNode (PS w)).
    rewrite Nat.eqb_refl. congruence. }
  injection Hs as <-.
  assert (Hfl : curNode_is (tgtNode (PS w1)) (PS w1) = true).
  { unfold curNode_is. rewrite Hcur, Hw1.
    change (tgtNode (PS (Iterate_pop E (tgtNode (PS w)) w))) with (tgtNode (PS w)).
    apply Nat.eqb_refl. }
  rewrite Hfl. cbn [nodes openNodes PS with_openNodes with_PS curNode tgtNode set_have].
  rewrite <- Hw1.
  split; [exact Ht|]. split; [reflexivity|]. split; [reflexivity|].
  split; [exact Hcur|]. rewrite Hw1. reflexivity.
Qed.

(** The loop of [Execute] runs at least once: it starts with the source
    on the heap. *)
Lemma Execute_loop_last (E : Externals) (fuel : nat) (off mg : Z) (w wl : World) :
  Execute_loop E fuel (Execute_init E (srcBlocked w) (Execute_enter off mg w)) = Some wl ->
  exists n wm,
    Execute_steps E n (Execute_init E (srcBlocked w) (Execute_enter off mg w)) = Some wm
    /\ heap_empty (openNodes wm) = false
    /\ Execute_step E wm = Some wl
    /\ heap_empty (openNodes wl) = true.
Proof.
  intros Hl. destruct (Execute_loop_steps E fuel _ wl Hl) as (n & Hn & He).
  destruct n as [|n].
  - cbn [Execute_steps] in Hn. injection Hn as <-.
    rewrite Execute_init_open in He. discriminate.
  - destruct (Execute_steps_last E n _ wl Hn) as (wm & Hm & Hne & Hs).
    exists n, wm. auto.
Qed.

(** X7. When [Execute] returns from a search between two different
    nodes with the full path found, the last node popped is [tgtNode];
    it is stamped CLOSED with the search state of this search and it has
    a back-link; the open heap is empty and the result is true. *)
Theorem Execute_full_path_result (E : Externals) (fuel : nat) (off mg : Z)
    (w w' : World) (r : bool) :
  srcNode (PS w) <> tgtNode (PS w) ->
  Execute E fuel off mg w = Some (w', r) ->
  haveFullPath (PS w') = true ->
  r = true
  /\ tgtNode (PS w') = tgtNode (PS w)
  /\ curNode (PS w') = Some (tgtNode (PS w))
  /\ nodeSearchState (nodes w' (tgtNode (PS w))) = Z.lor off NODE_STATE_CLOSED
  /\ prevNode (nodes w' (tgtNode (PS w))) <> None
  /\ openNodes w' = [].
Proof.
  intros Hne He Hfull.
  destruct (Execute_cases E fuel off mg w w' r He) as [(Hsame & _)|(_ & wl & Hl & Hf)].
  { exfalso. apply Hne. apply Nat.eqb_eq. exact Hsame. }
  change (srcBlocked (Execute_enter off mg w)) with (srcBlocked w) in Hl, Hf.
  destruct (Execute_loop_last E fuel off mg w wl Hl) as (n & wm & Hm & Hnem & Hs & _).
  assert (Hw' : w' = fst (Execute_finish E (srcBlocked w) wl)) by (rewrite Hf; reflexivity).
  assert (Hr : r = snd (Execute_finish E (srcBlocked w) wl)) by (rewrite Hf; reflexivity).
  destruct (Execute_finish_flags E (srcBlocked w) wl) as (Ff & _ & _ & _ & Fr).
  rewrite <- Hw' in Ff. rewrite Hfull in Ff. symmetry in Ff.
  destruct (Execute_step_full E wm wl Hs Ff) as (Ht & Hns & Ho & Hc & Htg).
  pose proof (Execute_steps_frame E n _ wm Hm) as [_ (Hsrc & Htgt & _ & _ & Hst & _)].
  change (tgtNode (PS (Execute_init E (srcBlocked w) (Execute_enter off mg w))))
    with (tgtNode (PS w)) in Htgt.
  change (srcNode (PS (Execute_init E (srcBlocked w) (Execute_enter off mg w))))
    with (srcNode (PS w)) in Hsrc.
  change (searchState (PS (Execute_init E (srcBlocked w) (Execute_enter off mg w))))
    with off in Hst.
  rewrite Htgt in Ht, Hns, Hc, Htg.
  assert (Hfin : PS w' = PS wl /\ openNodes w' = openNodes wl
                 /\ forall p, nodeSearchState (nodes w' p) = nodeSearchState (nodes wl p)
                              /\ prevNode (nodes w' p) = prevNode (nodes wl p)).
  { rewrite Hw'. unfold Execute_finish. cbn [fst PS openNodes nodes].
    rewrite Ff. cbn [negb andb]. rewrite andb_false_r.
    split; [reflexivity|]. split; [reflexivity|]. intros p.
    destruct (srcBlocked w); [|split; reflexivity].
    split; apply (update_field _); reflexivity. }
  destruct Hfin as (HPS & Hop & Hnd).
  split; [rewrite Hr, Fr, Ff; reflexivity|].
  split; [rewrite HPS; exact Htg|].
  split; [rewrite HPS; exact Hc|].
  destruct (Hnd (tgtNode (PS w))) as [Hs1 Hs2].
  destruct (Iterate_pop_parts E (tgtNode (PS w)) wm) as (_ & Hpn & _).
  split; [|split].
  - rewrite Hs1, Hns, Hpn, update_eq, Iterate_stamp_state.
    cbn [searchState set_curNode]. rewrite Hst. reflexivity.
  - rewrite Hs2, Hns, Hpn, update_eq.
    destruct (Iterate_stamp_scratch E (set_curNode (tgtNode (PS w)) (PS wm))
                (nodes wm (tgtNode (PS w)))) as (_ & _ & _ & Hp).
    rewrite Hp.
    pose proof (open_linked_step E _ n _ wm (Execute_init_linked E off mg w) Hm) as [_ B].
    destruct (B _ (heap_top_In _ _ _ Ht)) as [Hx|Hx]; [|exact Hx].
    exfalso. apply Hne. symmetry. exact Hx.
  - rewrite Hop. exact Ho.
Qed.

(** ** Execute without support for partial searches *)

Lemma Execute_steps_minNode (E : Externals) (m0 : NodeId) (n : nat) (w w' : World) :
  QTPFS_SUPPORT_PARTIAL_SEARCHES E = false ->
  minNode (PS w) = m0 -> Execute_steps E n w = Some w' -> minNode (PS w') = m0.
Proof.
  intros Hflag H0 Hn.
  apply (Execute_steps_world_inv E (fun w => minNode (PS w) = m0)) with (n := n) (w := w);
    [..|exact H0|exact Hn].
  - intros cur w1 H _. exact H.
  - intros cp w1 H. exact H.
  - intros cur w1 _ Ht. congruence.
  - intros hW cur i nxt w1 H.
    destruct (Iterate_body_frame E hW cur i nxt w1) as (_ & _ & Hm & _). congruence.
  - intros w1 H. exact H.
  - intros w1 H. exact H.
Qed.

(** X8. Compiled without [QTPFS_SUPPORT_PARTIAL_SEARCHES], [Execute]
    never moves [minNode], [tgtNode] or [tgtPoint]; started with
    [minNode = srcNode], as [Initialize] leaves it, it ends with
    [havePartPath] false and returns [haveFullPath]. *)
Theorem Execute_without_partial_searches (E : Externals) (fuel : nat) (off mg : Z)
    (w w' : World) (r : bool) :
  QTPFS_SUPPORT_PARTIAL_SEARCHES E = false ->
  Execute E fuel off mg w = Some (w', r) ->
  minNode (PS w') = minNode (PS w)
  /\ tgtNode (PS w') = tgtNode (PS w)
  /\ tgtPoint (PS w') = tgtPoint (PS w)
  /\ (minNode (PS w) = srcNode (PS w) ->
      havePartPath (PS w') = false /\ r = haveFullPath (PS w')).
Proof.
  intros Hflag He.
  destruct (Execute_cases E fuel off mg w w' r He) as [(Hsame & -> & ->)|(_ & wl & Hl & Hf)].
  { repeat split; try reflexivity. symmetry. exact Hsame. }
  change (srcBlocked (Execute_enter off mg w)) with (srcBlocked w) in Hl, Hf.
  destruct (Execute_loop_last E fuel off mg w wl Hl) as (n & wm & _ & _ & Hs & _).
  destruct (Execute_loop_steps E fuel _ wl Hl) as (k & Hk & _).
  pose proof (Execute_steps_minNode E (minNode (PS w)) k
                (Execute_init E (srcBlocked w) (Execute_enter off mg w)) wl Hflag eq_refl Hk)
    as Hmin.
  pose proof (Execute_steps_frame E k _ wl Hk) as [_ (Hsrc & Htgt & _ & Htp & _)].
  change (srcNode (PS (Execute_init E (srcBlocked w) (Execute_enter off mg w))))
    with (srcNode (PS w)) in Hsrc.
  change (tgtNode (PS (Execute_init E (srcBlocked w) (Execute_enter off mg w))))
    with (tgtNode (PS w)) in Htgt.
  change (tgtPoint (PS (Execute_init E (srcBlocked w) (Execute_enter off mg w))))
    with (tgtPoint (PS w)) in Htp.
  destruct (Execute_step_flags E wm wl Hs) as [_ Hpart].
  assert (Hw' : PS w' = PS wl /\ r = haveFullPath (PS wl) || havePartPath (PS wl)).
  { pose proof (f_equal fst Hf) as H1. pose proof (f_equal snd Hf) as H2.
    cbn [fst snd] in H1, H2. rewrite <- H1, <- H2.
    unfold Execute_finish. cbn [fst snd PS]. rewrite Hflag. cbn [andb].
    split; reflexivity. }
  destruct Hw' as [HPS Hr]. rewrite HPS.
  split; [exact Hmin|]. split; [exact Htgt|]. split; [exact Htp|].
  intros H0. rewrite Hr, Hpart, Hmin, Hsrc, H0, Nat.eqb_refl. cbn [negb].
  split; [reflexivity|]. apply orb_false_r.
Qed.

(** ** TracePath and SmoothPath: the back-links *)

Lemma In_removelast {A : Type} (x : A) (l : list A) : In x (removelast l) -> In x l.
Proof.
  induction l as [|a [|b t] IH]; cbn [removelast]; [intros []|intros []|].
  intros [->|H]; [left; reflexivity|right; apply IH; exact H].
Qed.

Lemma links_cleared_nil (ns : NodeStore) : links_cleared ns ns [].
Proof. split; [intros p []|reflexivity]. Qed.

Lemma links_cleared_cons (ns ns' : NodeStore) (n : NodeId) (c : list NodeId) :
  ~ In n c ->
  links_cleared (update n (SetPrevNode None) ns) ns' c ->
  links_cleared ns ns' (n :: c).
Proof.
  intros Hn [A B]. split.
  - intros p [<-|Hp].
    + rewrite (B n Hn). apply update_eq.
    + rewrite (A p Hp). rewrite update_ne; [reflexivity|]. intros ->. exact (Hn Hp).
  - intros p Hp. rewrite B by (intros H; apply Hp; right; exact H).
    apply update_ne. intros ->. apply Hp. left. reflexivity.
Qed.

Lemma back_chain_update (s : PathSearch) (ns : NodeStore) (n q : NodeId) (l : list NodeId) :
  ~ In n (q :: l) -> back_chain s ns q l ->
  back_chain s (update n (SetPrevNode None) ns) q l.
Proof.
  intros Hn. apply back_chain_ext. intros p Hp.
  rewrite update_ne; [reflexivity|]. intros ->. exact (Hn Hp).
Qed.

(** With smoothing compiled in, the walk leaves the nodes alone. *)
Lemma TracePath_walk_smooth (E : Externals) (s : PathSearch) (fuel : nat) :
  QTPFS_SMOOTH_PATHS E = true ->
  forall ns tmpNode prvNode prvPoint pts ns' pts',
    TracePath_walk E s fuel ns tmpNode prvNode prvPoint pts = Some (ns', pts') ->
    ns' = ns.
Proof.
  intros Hf. induction fuel as [|fuel IH];
    intros ns tmpNode prvNode prvPoint pts ns' pts'; cbn [TracePath_walk]; [discriminate|].
  destruct prvNode as [prv|]; [|congruence].
  destruct (Nat.eqb tmpNode (srcNode s)); [congruence|].
  rewrite Hf. apply IH.
Qed.

Lemma TracePath_walk_S (E : Externals) (s : PathSearch) (fuel : nat) (ns : NodeStore)
    (tmpNode : NodeId) (prvNode : option NodeId) (prvPoint : point) (pts : list point) :
  TracePath_walk E s (S fuel) ns tmpNode prvNode prvPoint pts
  = match prvNode with
    | None => Some (ns, pts)
    | Some prv =>
      if Nat.eqb tmpNode (srcNode s) then Some (ns, pts)
      else
        TracePath_walk E s fuel
          (if QTPFS_SMOOTH_PATHS E then ns else update tmpNode (SetPrevNode None) ns)
          prv
          (prevNode ((if QTPFS_SMOOTH_PATHS E then ns
                      else update tmpNode (SetPrevNode None) ns) prv))
          (GetNeighborEdgeTransitionPoint E (ns tmpNode) (ns prv) prvPoint)
          (if float3.neb (GetNeighborEdgeTransitionPoint E (ns tmpNode) (ns prv) prvPoint)
                         prvPoint
           then GetNeighborEdgeTransitionPoint E (ns tmpNode) (ns prv) prvPoint :: pts
           else pts)
    end.
Proof. reflexivity. Qed.

(** Without it, the walk clears the back-link of every node it leaves. *)
Lemma TracePath_walk_clears (E : Externals) (s : PathSearch) (l : list NodeId) :
  QTPFS_SMOOTH_PATHS E = false ->
  forall ns tmpNode prvPoint pts ns' pts',
    back_chain s ns tmpNode l ->
    TracePath_walk E s (S (length l)) ns tmpNode (prevNode (ns tmpNode)) prvPoint pts
    = Some (ns', pts') ->
    links_cleared ns ns' (removelast (tmpNode :: l)).
Proof.
  intros Hf. induction l as [|q l IH]; intros ns tmpNode prvPoint pts ns' pts' Hc.
  - cbn [back_chain] in Hc. cbn [length TracePath_walk removelast].
    destruct (prevNode (ns tmpNode)) as [prv|].
    + destruct Hc as [Hc|Hc]; [|discriminate]. rewrite Hc, Nat.eqb_refl.
      intros H. injection H as <- _. apply links_cleared_nil.
    + intros H. injection H as <- _. apply links_cleared_nil.
  - cbn [back_chain] in Hc. destruct Hc as (Hn & Hq & Hnot & Hl).
    change (removelast (tmpNode :: q :: l)) with (tmpNode :: removelast (q :: l)).
    intros H.
    apply links_cleared_cons; [intros Hin; apply Hnot; apply In_removelast; exact Hin|].
    revert H. cbn [length]. rewrite (TracePath_walk_S E s (S (length l))), Hq.
    apply Nat.eqb_neq in Hn. rewrite Hn, Hf.
    apply IH. apply back_chain_update; assumption.
Qed.

(** X9. Along a chain of back-links from [tgtNode], [TracePath]
    returns; compiled with [QTPFS_SMOOTH_PATHS] it leaves every node as
    it is (the back-links are still needed), and compiled without it sets
    to NULL the back-link of every node of the chain but the last, and
    changes nothing else. *)
Theorem TracePath_back_links (E : Externals) (s : PathSearch) (ns : NodeStore)
    (path : IPath) (l : list NodeId) :
  back_chain s ns (tgtNode s) l ->
  exists (ns' : NodeStore) (path' : IPath),
    TracePath E s (S (length l)) ns path = Some (ns', path')
    /\ (QTPFS_SMOOTH_PATHS E = true -> forall p, ns' p = ns p)
    /\ (QTPFS_SMOOTH_PATHS E = false ->
        links_cleared ns ns' (removelast (tgtNode s :: l))).
Proof.
  intros Hc. unfold TracePath.
  destruct (Nat.eqb_spec (srcNode s) (tgtNode s)) as [He|Hne]; cbn [negb].
  - exists ns, (TracePath_emit s [] path). split; [reflexivity|].
    split; [reflexivity|]. intros _.
    destruct l as [|q l]; [apply links_cleared_nil|].
    cbn [back_chain] in Hc. destruct Hc as (Hn & _). congruence.
  - destruct (TracePath_walk_returns E s l ns (tgtNode s) (tgtPoint s) [] Hc)
      as (ns' & pts & Hw).
    rewrite Hw. exists ns', (TracePath_emit s pts path). split; [reflexivity|]. split.
    + intros Hf p. rewrite (TracePath_walk_smooth E s _ Hf _ _ _ _ _ _ _ Hw). reflexivity.
    + intros Hf. eapply TracePath_walk_clears; eassumption.
Qed.

Lemma source_chain_back_chain (s : PathSearch) (ns : NodeStore) (l : list NodeId) :
  forall n, source_chain s ns n l -> back_chain s ns n l.
Proof.
  induction l as [|q l IH]; intros n; cbn [source_chain back_chain]; [tauto|].
  intros (A & B & C & D). auto.
Qed.

Lemma source_chain_update (s : PathSearch) (ns : NodeStore) (n : NodeId) (l : list NodeId) :
  forall q, ~ In n (q :: l) -> source_chain s ns q l ->
            source_chain s (update n (SetPrevNode None) ns) q l.
Proof.
  induction l as [|x l IH]; intros q Hn; cbn [source_chain]; [tauto|].
  intros (A & B & C & D). split; [exact A|]. split.
  - rewrite update_ne; [exact B|]. intros ->. apply Hn. left. reflexivity.
  - split; [exact C|]. apply IH; [|exact D]. intros H. apply Hn. right. exact H.
Qed.

Lemma SmoothPath_loop_S (E : Externals) (s : PathSearch) (fuel : nat) (ns : NodeStore)
    (n1 : NodeId) (ni : Z) (path : IPath) :
  SmoothPath_loop E s (S fuel) ns n1 ni path
  = if Nat.eqb n1 (srcNode s) then Some (ns, path)
    else match prevNode (ns n1) with
         | None => None
         | Some q =>
           match SmoothPath_step E (update n1 (SetPrevNode None) ns n1)
                   (update n1 (SetPrevNode None) ns q) (uint_sub ni 1) path with
           | None => None
           | Some path1 =>
             SmoothPath_loop E s fuel (update n1 (SetPrevNode None) ns) q (uint_sub ni 1) path1
           end
         end.
Proof. reflexivity. Qed.

(** A turn whose three indices lie inside the path completes. *)
Lemma SmoothPath_step_returns (E : Externals) (n0 n1 : INode) (ni : Z) (path : IPath) :
  2 <= ni < Z.of_nat (length (points path)) ->
  Z.of_nat (length (points path)) <= UINT_MOD ->
  exists path', SmoothPath_step E n0 n1 ni path = Some path'.
Proof.
  intros Hr Hlen. unfold SmoothPath_step, GetPoint, uint_sub.
  rewrite !uint_wrap_small by lia.
  destruct (lookup_lt_is_Some_2 (points path) (Z.to_nat ni) ltac:(lia)) as (p0 & ->).
  destruct (lookup_lt_is_Some_2 (points path) (Z.to_nat (ni - 1)) ltac:(lia)) as (p1 & ->).
  destruct (lookup_lt_is_Some_2 (points path) (Z.to_nat (ni - 2)) ltac:(lia)) as (p2 & ->).
  eauto.
Qed.

Lemma SmoothPath_step_length (E : Externals) (n0 n1 : INode) (ni : Z) (path path' : IPath) :
  SmoothPath_step E n0 n1 ni path = Some path' ->
  length (points path') = length (points path) /\ pathID path' = pathID path.
Proof.
  unfold SmoothPath_step. intros H.
  destruct (GetPoint ni path) as [p0|]; [|discriminate].
  destruct (GetPoint (uint_sub ni 1) path) as [p1|]; [|discriminate].
  destruct (GetPoint (uint_sub ni 2) path) as [p2|]; [|discriminate].
  injection H as <-.
  destruct (SmoothPath_move E n0 n1 p0 p1 p2); cbn [SetPoint points with_points pathID];
    rewrite ?length_insert; split; reflexivity.
Qed.

(** Along a chain of [k] back-links to the source the loop completes
    when it starts at an index [ni >= k + 2] inside the path. *)
Lemma SmoothPath_loop_returns (E : Externals) (s : PathSearch) (l : list NodeId) :
  forall fuel ns n ni path,
    source_chain s ns n l ->
    (length l < fuel)%nat ->
    Z.of_nat (length (points path)) + 2 <= UINT_MOD ->
    ni <= Z.of_nat (length (points path)) ->
    l = [] \/ Z.of_nat (length l) + 2 <= ni ->
    exists ns' path', SmoothPath_loop E s fuel ns n ni path = Some (ns', path').
Proof.
  induction l as [|q l IH]; intros fuel ns n ni path Hc Hfuel Hlen Hni Hk;
    (destruct fuel as [|fuel]; [cbn [length] in Hfuel; lia|]);
    rewrite SmoothPath_loop_S; cbn [source_chain] in Hc.
  - rewrite Hc, Nat.eqb_refl. eauto.
  - destruct Hc as (Hn & Hq & Hnot & Hl). destruct Hk as [Hk|Hk]; [discriminate|].
    cbn [length] in Hk, Hfuel.
    apply Nat.eqb_neq in Hn. rewrite Hn, Hq.
    assert (E1 : uint_sub ni 1 = ni - 1) by (apply uint_wrap_small; lia).
    rewrite E1.
    destruct (SmoothPath_step_returns E (update n (SetPrevNode None) ns n)
                (update n (SetPrevNode None) ns q) (ni - 1) path) as (path1 & Hs); [lia|lia|].
    rewrite Hs. apply SmoothPath_step_length in Hs. destruct Hs as [Hs _].
    apply IH.
    + apply source_chain_update; assumption.
    + lia.
    + rewrite Hs. exact Hlen.
    + rewrite Hs. lia.
    + destruct l; [left; reflexivity|right; cbn [length] in *; lia].
Qed.

(** Started at a smaller index, it reads a point outside the path. *)
Lemma SmoothPath_loop_reads_outside (E : Externals) (s : PathSearch) (l : list NodeId) :
  forall fuel ns n ni path,
    source_chain s ns n l ->
    l <> [] ->
    is_uint ni ->
    Z.of_nat (length (points path)) + 2 <= UINT_MOD ->
    ni < Z.of_nat (length l) + 2 ->
    SmoothPath_loop E s fuel ns n ni path = None.
Proof.
  induction l as [|q l IH]; intros fuel ns n ni path Hc Hne Hu Hlen Hk; [congruence|].
  destruct fuel as [|fuel]; [reflexivity|].
  rewrite SmoothPath_loop_S. cbn [source_chain] in Hc.
  destruct Hc as (Hn & Hq & Hnot & Hl).
  apply Nat.eqb_neq in Hn. rewrite Hn, Hq.
  destruct (SmoothPath_step E _ _ (uint_sub ni 1) path) as [path1|] eqn:Hs; [|reflexivity].
  pose proof (SmoothPath_step_length _ _ _ _ _ _ Hs) as [Hl1 _].
  apply SmoothPath_step_spec in Hs; [|apply uint_wrap_range|exact Hlen].
  destruct Hs as (p0 & p1 & p2 & Hr & _).
  destruct (uint_sub_in_range ni 1 (Z.of_nat (length (points path))) Hu
              ltac:(lia) ltac:(lia) ltac:(lia) (proj2 Hr)) as [H1 E1].
  rewrite E1 in *. cbn [length] in Hk.
  apply IH.
  - apply source_chain_update; assumption.
  - destruct l; [cbn [length] in Hk; lia|discriminate].
  - unfold is_uint in *. lia.
  - rewrite Hl1. exact Hlen.
  - lia.
Qed.

(** Every turn clears the back-link of the node it leaves. *)
Lemma SmoothPath_loop_clears (E : Externals) (s : PathSearch) (l : list NodeId) :
  forall fuel ns n ni path ns' path',
    source_chain s ns n l ->
    SmoothPath_loop E s fuel ns n ni path = Some (ns', path') ->
    links_cleared ns ns' (removelast (n :: l)).
Proof.
  induction l as [|q l IH]; intros fuel ns n ni path ns' path' Hc;
    (destruct fuel as [|fuel]; [discriminate|]);
    rewrite SmoothPath_loop_S; cbn [source_chain] in Hc.
  - rewrite Hc, Nat.eqb_refl. intros H. injection H as <- _. apply links_cleared_nil.
  - destruct Hc as (Hn & Hq & Hnot & Hl).
    apply Nat.eqb_neq in Hn. rewrite Hn, Hq.
    destruct (SmoothPath_step E _ _ (uint_sub ni 1) path) as [path1|]; [|discriminate].
    intros H.
    change (removelast (n :: q :: l)) with (n :: removelast (q :: l)).
    apply links_cleared_cons; [intros Hin; apply Hnot; apply In_removelast; exact Hin|].
    eapply IH; [|exact H]. apply source_chain_update; assumption.
Qed.

(** X10. Along a chain of [k] back-links from [tgtNode] to [srcNode],
    [SmoothPath] completes exactly when the path has two points (nothing
    to smooth), or [k = 0], or at least [k + 2] points; on a path with
    fewer points, which [TracePath] builds when it drops a transition
    point, the loop reads a point outside the path. *)
Theorem SmoothPath_completes_iff (E : Externals) (s : PathSearch) (fuel : nat)
    (ns : NodeStore) (path : IPath) (l : list NodeId) :
  source_chain s ns (tgtNode s) l ->
  (length l < fuel)%nat ->
  Z.of_nat (length (points path)) + 2 <= UINT_MOD ->
  (is_Some (SmoothPath E s fuel ns path)
   <-> length (points path) = 2%nat \/ l = []
       \/ (length l + 2 <= length (points path))%nat).
Proof.
  intros Hc Hfuel Hlen. unfold SmoothPath.
  assert (HN : NumPoints path = Z.of_nat (length (points path)))
    by (apply uint_wrap_small; lia).
  rewrite HN.
  destruct (Z.eqb_spec (Z.of_nat (length (points path))) 2) as [H2|H2].
  - split; [intros _; left; lia|intros _; eauto].
  - split.
    + intros [[ns' path'] H].
      destruct l as [|q l]; [right; left; reflexivity|].
      right. right.
      destruct (Z_lt_le_dec (Z.of_nat (length (points path))) (Z.of_nat (length (q :: l)) + 2))
        as [Hlt|Hle]; [|lia].
      rewrite (SmoothPath_loop_reads_outside E s (q :: l) fuel ns (tgtNode s) _ path Hc)
        in H; [discriminate|discriminate|split; lia|exact Hlen|exact Hlt].
    + intros [H|H]; [lia|].
      destruct (SmoothPath_loop_returns E s l fuel ns (tgtNode s)
                  (Z.of_nat (length (points path))) path Hc Hfuel Hlen ltac:(lia))
        as (ns' & path' & ->); [|eauto].
      destruct H as [H|H]; [left; exact H|right; lia].
Qed.

(** X11. When [SmoothPath] returns, it has left every node as it was
    if the path has two points; otherwise it has set to NULL the back-link
    of every node of the chain from [tgtNode] but the last, the source,
    and changed nothing else in the nodes. *)
Theorem SmoothPath_back_links (E : Externals) (s : PathSearch) (fuel : nat)
    (ns ns' : NodeStore) (path path' : IPath) (l : list NodeId) :
  source_chain s ns (tgtNode s) l ->
  SmoothPath E s fuel ns path = Some (ns', path') ->
  (NumPoints path = 2 -> forall p, ns' p = ns p)
  /\ (NumPoints path <> 2 -> links_cleared ns ns' (removelast (tgtNode s :: l))).
Proof.
  intros Hc. unfold SmoothPath.
  destruct (Z.eqb_spec (NumPoints path) 2) as [H2|H2]; intros H.
  - injection H as <- _. split; [reflexivity|contradiction].
  - split; [contradiction|]. intros _. eapply SmoothPath_loop_clears; eassumption.
Qed.

(** ** Finalize *)

Lemma TracePath_fill_id (pts : list point) :
  forall path, pathID (TracePath_fill pts path) = pathID path.
Proof.
  induction pts as [|p rest IH]; intros path; cbn [TracePath_fill]; [reflexivity|].
  rewrite IH. reflexivity.
Qed.

Lemma TracePath_emit_id (s : PathSearch) (pts : list point) (path : IPath) :
  pathID (TracePath_emit s pts path) = pathID path.
Proof.
  unfold TracePath_emit, SetTargetPoint, SetSourcePoint. cbn [pathID with_points].
  rewrite TracePath_fill_id. destruct pts; reflexivity.
Qed.

(** A run of [TracePath] that returns has built the source point, at
    most one point per round of the walk, and the target point. *)
Lemma TracePath_points (E : Externals) (s : PathSearch) (fuel : nat) (ns ns' : NodeStore)
    (path path' : IPath) :
  TracePath E s fuel ns path = Some (ns', path') ->
  length (points path) = 2%nat ->
  Z.of_nat fuel + 2 < UINT_MOD ->
  pathID path' = pathID path
  /\ exists pts, points path' = srcPoint s :: pts ++ [tgtPoint s]
                 /\ (length pts <= fuel)%nat.
Proof.
  unfold TracePath. intros H H2 Hlen.
  assert (Hpts : exists pts, path' = TracePath_emit s pts path /\ (length pts <= fuel)%nat).
  { destruct (negb (Nat.eqb (srcNode s) (tgtNode s))).
    - destruct (TracePath_walk E s fuel ns (tgtNode s) (prevNode (ns (tgtNode s)))
                  (tgtPoint s) []) as [[ns1 pts]|] eqn:Hw; [|discriminate].
      injection H as _ <-. exists pts. split; [reflexivity|].
      apply TracePath_walk_kept in Hw. rewrite app_nil_r in Hw.
      rewrite Hw, length_rev. apply TracePath_kept_length.
    - injection H as _ <-. exists []. split; [reflexivity|]. cbn [length]. lia. }
  destruct Hpts as (pts & -> & Hk). split; [apply TracePath_emit_id|].
  exists pts. split; [|exact Hk]. apply TracePath_emit_points; [exact H2|lia].
Qed.

Lemma SmoothPath_loop_id (E : Externals) (s : PathSearch) (fuel : nat) :
  forall ns n1 ni path ns' path',
    SmoothPath_loop E s fuel ns n1 ni path = Some (ns', path') ->
    pathID path' = pathID path.
Proof.
  induction fuel as [|fuel IH]; intros ns n1 ni path ns' path'; [discriminate|].
  rewrite SmoothPath_loop_S.
  destruct (Nat.eqb n1 (srcNode s)); [intros H; injection H as _ <-; reflexivity|].
  destruct (prevNode (ns n1)) as [q|]; [|discriminate].
  destruct (SmoothPath_step E _ _ (uint_sub ni 1) path) as [path1|] eqn:Hs; [|discriminate].
  intros H. apply IH in H. apply SmoothPath_step_length in Hs. destruct Hs as [_ Hs].
  congruence.
Qed.

(** X12. The path that [Finalize] hands to the cache keeps its ID,
    starts at [srcPoint] and ends at [tgtPoint], with or without
    smoothing; it has at least two points, its bounding box is the one
    computed from its points, and it is entered in the cache under its ID
    when that ID is free. *)
Theorem Finalize_path (E : Externals) (s : PathSearch) (fuel : nat)
    (ns ns' : NodeStore) (cache cache' : gmap Z IPath) (path path' : IPath) :
  Finalize E s fuel ns cache path = Some (ns', cache', path') ->
  length (points path) = 2%nat ->
  Z.of_nat fuel + 4 <= UINT_MOD ->
  pathID path' = pathID path
  /\ points path' !! 0%nat = Some (srcPoint s)
  /\ GetTargetPoint path' = tgtPoint s
  /\ (2 <= length (points path') <= fuel + 2)%nat
  /\ boundingBoxMins path' = bbox_mins (points path')
  /\ boundingBoxMaxs path' = bbox_maxs (points path')
  /\ cache' = AddLivePath path' cache
  /\ (cache !! pathID path = None -> cache' !! pathID path = Some path').
Proof.
  unfold Finalize. intros H H2 Hlen.
  destruct (TracePath E s fuel ns path) as [[ns1 p1]|] eqn:Ht; [|discriminate].
  destruct (TracePath_points E s fuel ns ns1 path p1 Ht H2 ltac:(lia))
    as (Hid1 & pts & Hp1 & Hk).
  assert (Hl1 : length (points p1) = (length pts + 2)%nat).
  { rewrite Hp1. cbn [length]. rewrite length_app. cbn [length]. lia. }
  assert (Hs : exists ns2 p2,
             (if QTPFS_SMOOTH_PATHS E then SmoothPath E s fuel ns1 p1 else Some (ns1, p1))
             = Some (ns2, p2)
             /\ pathID p2 = pathID p1
             /\ length (points p2) = length (points p1)
             /\ points p2 !! 0%nat = points p1 !! 0%nat
             /\ GetTargetPoint p2 = GetTargetPoint p1).
  { destruct (QTPFS_SMOOTH_PATHS E); [|exists ns1, p1; repeat split].
    destruct (SmoothPath E s fuel ns1 p1) as [[ns2 p2]|] eqn:Hsm; [|discriminate].
    exists ns2, p2. split; [reflexivity|].
    revert Hsm. unfold SmoothPath.
    destruct (NumPoints p1 =? 2); [intros Hsm; injection Hsm as _ <-; repeat split|].
    intros Hsm.
    assert (HN : NumPoints p1 = Z.of_nat (length (points p1)))
      by (apply uint_wrap_small; lia).
    split; [eapply SmoothPath_loop_id; exact Hsm|].
    pose proof (SmoothPath_loop_first _ _ _ _ _ _ _ _ _ Hsm ltac:(lia)) as H0.
    apply SmoothPath_loop_frame in Hsm; [|apply uint_wrap_range|lia].
    destruct Hsm as [Hl Hi]. split; [exact Hl|]. split; [exact H0|].
    unfold GetTargetPoint. rewrite !last_lookup_default, Hl, Hi; [reflexivity|].
    rewrite HN. lia. }
  destruct Hs as (ns2 & p2 & Hs & Hid2 & Hl2 & H0 & Hlast). rewrite Hs in H.
  injection H as _ <- <-.
  cbn [pathID points boundingBoxMins boundingBoxMaxs SetBoundingBox].
  assert (Hid : pathID p2 = pathID path) by congruence.
  split; [exact Hid|].
  split; [rewrite H0, Hp1; reflexivity|].
  split.
  { change (GetTargetPoint (SetBoundingBox p2)) with (GetTargetPoint p2).
    rewrite Hlast. unfold GetTargetPoint. rewrite Hp1.
    change (srcPoint s :: pts ++ [tgtPoint s]) with ((srcPoint s :: pts) ++ [tgtPoint s]).
    apply last_last. }
  split; [lia|].
  split; [reflexivity|]. split; [reflexivity|]. split; [reflexivity|].
  intros Hfree. rewrite <- Hid.
  exact (AddLivePath_fresh (SetBoundingBox p2) cache
           ltac:(cbn [pathID SetBoundingBox]; rewrite Hid; exact Hfree)).
Qed.

(** X13. A search whose source and target are one node is over at
    once: [Execute] returns true for every fuel, writes no node and does
    not touch the open heap, and [Finalize] then gives the path of the two
    points [srcPoint], [tgtPoint] and leaves the nodes alone, with or
    without smoothing. *)
Theorem same_node_search (E : Externals) (fuel fuel' : nat) (off mg : Z) (w : World)
    (cache : gmap Z IPath) (path : IPath) :
  srcNode (PS w) = tgtNode (PS w) ->
  length (points path) = 2%nat ->
  exists (w' : World) (path' : IPath),
    Execute E fuel off mg w = Some (w', true)
    /\ nodes w' = nodes w /\ openNodes w' = openNodes w
    /\ haveFullPath (PS w') = true
    /\ Finalize E (PS w') fuel' (nodes w') cache path
       = Some (nodes w, AddLivePath path' cache, path')
    /\ points path' = [srcPoint (PS w); tgtPoint (PS w)].
Proof.
  intros Hst H2.
  exists (Execute_enter off mg w).
  exists (SetBoundingBox (TracePath_emit (PS (Execute_enter off mg w)) [] path)).
  assert (Hfull : haveFullPath (PS (Execute_enter off mg w)) = true).
  { unfold Execute_enter. cbn [haveFullPath PS with_PS set_have srcNode tgtNode set_stamps].
    rewrite Hst. apply Nat.eqb_refl. }
  split; [unfold Execute; cbv zeta; rewrite Hfull; reflexivity|].
  split; [reflexivity|]. split; [reflexivity|]. split; [exact Hfull|].
  assert (Hpts : points (TracePath_emit (PS (Execute_enter off mg w)) [] path)
                 = [srcPoint (PS w); tgtPoint (PS w)]).
  { rewrite TracePath_emit_points; [reflexivity|exact H2|cbn [length]; reflexivity]. }
  split; [|exact Hpts].
  unfold Finalize, TracePath.
  change (srcNode (PS (Execute_enter off mg w))) with (srcNode (PS w)).
  change (tgtNode (PS (Execute_enter off mg w))) with (tgtNode (PS w)).
  rewrite Hst, Nat.eqb_refl. cbn [negb].
  destruct (QTPFS_SMOOTH_PATHS E); [|reflexivity].
  unfold SmoothPath, NumPoints. rewrite Hpts. reflexivity.
Qed.

Lemma Execute_keeps_node_layer_witness :
  exists (w' : World) (r : bool),
    Execute (Demo.env true true) 16 2 0 (Demo.world3 PATH_SEARCH_ASTAR f1_0) = Some (w', r)
    /\ neighbors (nodes w' 1%nat) = [0%nat; 2%nat]
    /\ xmin (nodes w' 1%nat) = 2 /\ xmax (nodes w' 1%nat) = 4.
Proof.
  destruct (Execute (Demo.env true true) 16 2 0 (Demo.world3 PATH_SEARCH_ASTAR f1_0))
    as [[w' r]|] eqn:He; [|returns He].
  destruct (Execute_keeps_node_layer (Demo.env true true) 16 2 0
              (Demo.world3 PATH_SEARCH_ASTAR f1_0) w' r He 1%nat)
    as (_ & A & _ & B & _ & C & _).
  exists w', r. split; [reflexivity|]. split; [exact C|]. split; [exact A|exact B].
Defined.

Lemma Execute_writes_only_stamped_witness :
  exists (w' : World) (r : bool),
    Execute (Demo.env true true) 16 2 0 (Demo.world3 PATH_SEARCH_ASTAR f1_0) = Some (w', r)
    /\ nodeSearchState (nodes w' 2%nat) = 3
    /\ (nodes w' 2%nat = nodes (Demo.world3 PATH_SEARCH_ASTAR f1_0) 2%nat
        \/ nodeSearchState (nodes w' 2%nat) = Z.lor 2 NODE_STATE_OPEN
        \/ nodeSearchState (nodes w' 2%nat) = Z.lor 2 NODE_STATE_CLOSED).
Proof.
  destruct (Execute (Demo.env true true) 16 2 0 (Demo.world3 PATH_SEARCH_ASTAR f1_0))
    as [[w' r]|] eqn:He; [|returns He].
  observe He (fun x : World * bool => nodeSearchState (nodes (fst x) 2%nat)) 3 Hs.
  exists w', r. split; [reflexivity|]. split; [exact Hs|].
  exact (Execute_writes_only_stamped (Demo.env true true) 16 2 0
           (Demo.world3 PATH_SEARCH_ASTAR f1_0) w' r He 2%nat).
Defined.

Lemma Execute_opens_no_blocked_node_witness :
  exists wn : World,
    Execute_steps (Demo.env true true) 1
      (Execute_init (Demo.env true true) (srcBlocked (Demo.world4 PATH_SEARCH_ASTAR))
         (Execute_enter 2 0 (Demo.world4 PATH_SEARCH_ASTAR))) = Some wn
    /\ In 1%nat (openNodes wn)
    /\ feq (moveCost (nodes wn 1%nat)) QTPFS_POSITIVE_INFINITY = false.
Proof.
  destruct (Execute_steps (Demo.env true true) 1
              (Execute_init (Demo.env true true) (srcBlocked (Demo.world4 PATH_SEARCH_ASTAR))
                 (Execute_enter 2 0 (Demo.world4 PATH_SEARCH_ASTAR)))) as [wn|] eqn:He;
    [|returns He].
  observe He (fun x : World => openNodes x) [1%nat] Ho.
  assert (Hin : In 1%nat (openNodes wn)) by (rewrite Ho; left; reflexivity).
  exists wn. split; [reflexivity|]. split; [exact Hin|].
  exact (Execute_opens_no_blocked_node (Demo.env true true) 2 0
           (Demo.world4 PATH_SEARCH_ASTAR) wn 1 1%nat He Hin).
Defined.

Lemma Execute_loop_progress_witness :
  exists wn : World,
    Execute_steps (Demo.env true true) 1
      (Execute_init (Demo.env true true) (srcBlocked (Demo.world4 PATH_SEARCH_ASTAR))
         (Execute_enter 2 0 (Demo.world4 PATH_SEARCH_ASTAR))) = Some wn
    /\ heap_empty (openNodes wn) = false
    /\ exists (cur : NodeId) (w' : World),
         heap_top (nodes wn) (openNodes wn) = Some cur
         /\ (cur = 0%nat \/ prevNode (nodes wn cur) <> None)
         /\ Execute_step (Demo.env true true) wn = Some w'.
Proof.
  destruct (Execute_steps (Demo.env true true) 1
              (Execute_init (Demo.env true true) (srcBlocked (Demo.world4 PATH_SEARCH_ASTAR))
                 (Execute_enter 2 0 (Demo.world4 PATH_SEARCH_ASTAR)))) as [wn|] eqn:He;
    [|returns He].
  observe He (fun x : World => heap_empty (openNodes x)) false Ho.
  exists wn. split; [reflexivity|]. split; [exact Ho|].
  exact (Execute_loop_progress (Demo.env true true) 2 0
           (Demo.world4 PATH_SEARCH_ASTAR) wn 1 He Ho).
Defined.

Lemma Execute_full_path_result_witness :
  exists (w' : World) (r : bool),
    Execute (Demo.env true true) 16 2 0 (Demo.world3 PATH_SEARCH_ASTAR f1_0) = Some (w', r)
    /\ haveFullPath (PS w') = true
    /\ r = true
    /\ curNode (PS w') = Some 2%nat
    /\ nodeSearchState (nodes w' 2%nat) = 3
    /\ prevNode (nodes w' 2%nat) <> None
    /\ openNodes w' = [].
Proof.
  destruct (Execute (Demo.env true true) 16 2 0 (Demo.world3 PATH_SEARCH_ASTAR f1_0))
    as [[w' r]|] eqn:He; [|returns He].
  observe He (fun x : World * bool => haveFullPath (PS (fst x))) true Hf.
  cbn [fst] in Hf.
  assert (Hne : srcNode (PS (Demo.world3 PATH_SEARCH_ASTAR f1_0))
                <> tgtNode (PS (Demo.world3 PATH_SEARCH_ASTAR f1_0)))
    by (cbn; lia).
  destruct (Execute_full_path_result (Demo.env true true) 16 2 0
              (Demo.world3 PATH_SEARCH_ASTAR f1_0) w' r Hne He Hf)
    as (A & _ & B & C & D & F).
  exists w', r. split; [reflexivity|]. split; [exact Hf|].
  split; [exact A|]. split; [exact B|]. split; [exact C|]. split; [exact D|exact F].
Defined.

Lemma Execute_without_partial_searches_witness :
  exists (w' : World) (r : bool),
    Execute (Demo.env false true) 16 2 0 (Demo.world4 PATH_SEARCH_ASTAR) = Some (w', r)
    /\ tgtNode (PS w') = 3%nat
    /\ tgtPoint (PS w') = Demo.pt 116 0 8
    /\ havePartPath (PS w') = false
    /\ r = haveFullPath (PS w').
Proof.
  destruct (Execute (Demo.env false true) 16 2 0 (Demo.world4 PATH_SEARCH_ASTAR))
    as [[w' r]|] eqn:He; [|returns He].
  destruct (Execute_without_partial_searches (Demo.env false true) 16 2 0
              (Demo.world4 PATH_SEARCH_ASTAR) w' r eq_refl He)
    as (_ & A & B & C).
  destruct (C eq_refl) as [C1 C2].
  exists w', r. split; [reflexivity|]. split; [exact A|]. split; [exact B|].
  split; [exact C1|exact C2].
Defined.

Lemma TracePath_back_links_witness :
  exists (w : World) (r : bool) (ns' : NodeStore) (path' : IPath),
    Execute (Demo.env true false) 16 2 0 (Demo.world3 PATH_SEARCH_ASTAR f1_0) = Some (w, r)
    /\ back_chain (PS w) (nodes w) (tgtNode (PS w)) [1%nat; 0%nat]
    /\ TracePath (Demo.env true false) (PS w) 3 (nodes w) Demo.path2 = Some (ns', path')
    /\ prevNode (nodes w 2%nat) = Some 1%nat /\ prevNode (ns' 2%nat) = None
    /\ prevNode (nodes w 1%nat) = Some 0%nat /\ prevNode (ns' 1%nat) = None
    /\ ns' 0%nat = nodes w 0%nat.
Proof.
  destruct (Execute (Demo.env true false) 16 2 0 (Demo.world3 PATH_SEARCH_ASTAR f1_0))
    as [[w r]|] eqn:He; [|returns He].
  observe He (fun x : World * bool => srcNode (PS (fst x))) 0%nat Hs.
  observe He (fun x : World * bool => tgtNode (PS (fst x))) 2%nat Ht.
  observe He (fun x : World * bool => prevNode (nodes (fst x) 2%nat)) (Some 1%nat) H2.
  observe He (fun x : World * bool => prevNode (nodes (fst x) 1%nat)) (Some 0%nat) H1.
  cbn [fst] in *.
  assert (Hc : back_chain (PS w) (nodes w) (tgtNode (PS w)) [1%nat; 0%nat]).
  { rewrite Ht. cbn [back_chain]. rewrite Hs, H2, H1.
    repeat split; try lia; try reflexivity.
    - intros [H|[H|[]]]; lia.
    - intros [H|[]]; lia. }
  destruct (TracePath_back_links (Demo.env true false) (PS w) (nodes w) Demo.path2
              [1%nat; 0%nat] Hc)
    as (ns' & path' & Hrun & _ & Hclr).
  destruct (Hclr eq_refl) as [Hin Hout]. rewrite Ht in Hin, Hout.
  exists w, r, ns', path'.
  split; [reflexivity|]. split; [exact Hc|]. split; [exact Hrun|].
  split; [exact H2|]. split; [rewrite (Hin 2%nat) by (left; reflexivity); reflexivity|].
  split; [exact H1|].
  split; [rewrite (Hin 1%nat) by (right; left; reflexivity); reflexivity|].
  apply Hout. intros [H|[H|[]]]; lia.
Defined.

Lemma SmoothPath_completes_iff_witness :
  exists (w : World) (p : IPath),
    Demo.traced (Demo.env true true) Demo.world_on_edge = Some (w, p)
    /\ source_chain (PS w) (nodes w) (tgtNode (PS w)) [1%nat; 0%nat]
    /\ length (points p) = 3%nat
    /\ SmoothPath (Demo.env true true) (PS w) 3 (nodes w) p = None.
Proof.
  destruct (Demo.traced (Demo.env true true) Demo.world_on_edge) as [[w p]|] eqn:He;
    [|returns He].
  observe He (fun x : World * IPath => srcNode (PS (fst x))) 0%nat Hs.
  observe He (fun x : World * IPath => tgtNode (PS (fst x))) 2%nat Ht.
  observe He (fun x : World * IPath => prevNode (nodes (fst x) 2%nat)) (Some 1%nat) H2.
  observe He (fun x : World * IPath => prevNode (nodes (fst x) 1%nat)) (Some 0%nat) H1.
  observe He (fun x : World * IPath => length (points (snd x))) 3%nat Hp.
  cbn [fst snd] in *.
  assert (Hc : source_chain (PS w) (nodes w) (tgtNode (PS w)) [1%nat; 0%nat]).
  { rewrite Ht. cbn [source_chain]. rewrite Hs, H2, H1.
    repeat split; try lia; try reflexivity.
    - intros [H|[H|[]]]; lia.
    - intros [H|[]]; lia. }
  assert (Hl : Z.of_nat (length (points p)) + 2 <= UINT_MOD)
    by (rewrite Hp; vm_compute; congruence).
  pose proof (SmoothPath_completes_iff (Demo.env true true) (PS w) 3 (nodes w) p
                [1%nat; 0%nat] Hc ltac:(cbn [length]; lia) Hl) as [Hiff _].
  exists w, p. split; [reflexivity|]. split; [exact Hc|]. split; [exact Hp|].
  destruct (SmoothPath (Demo.env true true) (PS w) 3 (nodes w) p) as [x|]; [|reflexivity].
  exfalso. destruct (Hiff (ex_intro _ x eq_refl)) as [H|[H|H]].
  - rewrite Hp in H. discriminate H.
  - discriminate H.
  - rewrite Hp in H. cbn [length] in H. lia.
Defined.

Lemma SmoothPath_back_links_witness :
  exists (w : World) (p : IPath) (ns' : NodeStore) (path' : IPath),
    Demo.traced (Demo.env true true) Demo.world_tall = Some (w, p)
    /\ source_chain (PS w) (nodes w) (tgtNode (PS w)) [1%nat; 0%nat]
    /\ SmoothPath (Demo.env true true) (PS w) 16 (nodes w) p = Some (ns', path')
    /\ prevNode (nodes w 2%nat) = Some 1%nat /\ prevNode (ns' 2%nat) = None
    /\ prevNode (nodes w 1%nat) = Some 0%nat /\ prevNode (ns' 1%nat) = None.
Proof.
  destruct (Demo.traced (Demo.env true true) Demo.world_tall) as [[w p]|] eqn:He;
    [|returns He].
  observe He (fun x : World * IPath => srcNode (PS (fst x))) 0%nat Hs.
  observe He (fun x : World * IPath => tgtNode (PS (fst x))) 2%nat Ht.
  observe He (fun x : World * IPath => prevNode (nodes (fst x) 2%nat)) (Some 1%nat) H2.
  observe He (fun x : World * IPath => prevNode (nodes (fst x) 1%nat)) (Some 0%nat) H1.
  observe He (fun x : World * IPath => NumPoints (snd x)) 4 Hp.
  observe He (fun x : World * IPath =>
                match SmoothPath (Demo.env true true) (PS (fst x)) 16 (nodes (fst x)) (snd x)
                with Some _ => true | None => false end) true Hr.
  cbn [fst snd] in *.
  destruct (SmoothPath (Demo.env true true) (PS w) 16 (nodes w) p)
    as [[ns' path']|] eqn:Hsm; [|discriminate Hr].
  assert (Hc : source_chain (PS w) (nodes w) (tgtNode (PS w)) [1%nat; 0%nat]).
  { rewrite Ht. cbn [source_chain]. rewrite Hs, H2, H1.
    repeat split; try lia; try reflexivity.
    - intros [H|[H|[]]]; lia.
    - intros [H|[]]; lia. }
  destruct (SmoothPath_back_links (Demo.env true true) (PS w) 16 (nodes w) ns' p path'
              [1%nat; 0%nat] Hc Hsm) as [_ Hclr].
  destruct (Hclr ltac:(rewrite Hp; discriminate)) as [Hin _]. rewrite Ht in Hin.
  exists w, p, ns', path'.
  split; [reflexivity|]. split; [exact Hc|]. split; [exact Hsm|].
  split; [exact H2|]. split; [rewrite (Hin 2%nat) by (left; reflexivity); reflexivity|].
  split; [exact H1|].
  rewrite (Hin 1%nat) by (right; left; reflexivity). reflexivity.
Defined.

Lemma Finalize_path_witness :
  exists (w : World) (r : bool) (ns' : NodeStore) (cache' : gmap Z IPath) (path' : IPath),
    Execute (Demo.env true true) 16 2 0 (Demo.world3 PATH_SEARCH_ASTAR f1_0) = Some (w, r)
    /\ Finalize (Demo.env true true) (PS w) 16 (nodes w) ∅ Demo.path2
       = Some (ns', cache', path')
    /\ points path' !! 0%nat = Some (Demo.pt 4 0 8)
    /\ GetTargetPoint path' = Demo.pt 44 0 8
    /\ cache' !! 7 = Some path'.
Proof.
  destruct (Execute (Demo.env true true) 16 2 0 (Demo.world3 PATH_SEARCH_ASTAR f1_0))
    as [[w r]|] eqn:He; [|returns He].
  observe He (fun x : World * bool => srcPoint (PS (fst x))) (Demo.pt 4 0 8) Hsp.
  observe He (fun x : World * bool => tgtPoint (PS (fst x))) (Demo.pt 44 0 8) Htp.
  observe He (fun x : World * bool =>
                match Finalize (Demo.env true true) (PS (fst x)) 16 (nodes (fst x)) ∅ Demo.path2
                with Some _ => true | None => false end) true Hr.
  cbn [fst snd] in *.
  destruct (Finalize (Demo.env true true) (PS w) 16 (nodes w) ∅ Demo.path2)
    as [[[ns' cache'] path']|] eqn:Hf; [|discriminate Hr].
  destruct (Finalize_path (Demo.env true true) (PS w) 16 (nodes w) ns' ∅ cache'
              Demo.path2 path' Hf eq_refl ltac:(vm_compute; congruence))
    as (_ & A & B & _ & _ & _ & _ & C).
  exists w, r, ns', cache', path'.
  split; [reflexivity|]. split; [exact Hf|].
  split; [rewrite A, Hsp; reflexivity|]. split; [rewrite B, Htp; reflexivity|].
  apply C. reflexivity.
Defined.

Lemma same_node_search_witness :
  exists (w' : World) (path' : IPath),
    Execute (Demo.env true true) 16 2 0 Demo.world_same = Some (w', true)
    /\ nodes w' = nodes Demo.world_same
    /\ Finalize (Demo.env true true) (PS w') 16 (nodes w') ∅ Demo.path2
       = Some (nodes Demo.world_same, AddLivePath path' ∅, path')
    /\ points path' = [Demo.pt 100 0 100; Demo.pt 100 0 100].
Proof.
  destruct (same_node_search (Demo.env true true) 16 16 2 0 Demo.world_same ∅ Demo.path2
              eq_refl eq_refl) as (w' & path' & A & B & _ & _ & C & D).
  exists w', path'. split; [exact A|]. split; [exact B|]. split; [exact C|exact D].
Defined.

(** ** Execute: the open heap as a set *)

Lemma remove_first_NoDup (n : NodeId) (h : list NodeId) :
  List.NoDup h -> List.NoDup (remove_first n h) /\ ~ In n (remove_first n h).
Proof.
  induction h as [|m t IH]; cbn [remove_first]; intros Hd.
  - split; [constructor|intros []].
  - apply List.NoDup_cons_iff in Hd. destruct Hd as [Hm Ht].
    destruct (Nat.eqb_spec m n) as [->|Hne]; [split; assumption|].
    destruct (IH Ht) as [A B]. split.
    + constructor; [|exact A]. intros Hin. apply Hm. eapply remove_first_In. exact Hin.
    + intros [H|H]; [contradiction|exact (B H)].
Qed.

Lemma heap_top_costs (ns ns' : NodeStore) (h : list NodeId) :
  (forall p, fCost (ns' p) = fCost (ns p)) -> heap_top ns' h = heap_top ns h.
Proof.
  intros Hf. destruct h as [|n t]; [reflexivity|]. cbn [heap_top]. f_equal.
  revert n. induction t as [|m t IH]; intros n; [reflexivity|].
  cbn [fold_left]. rewrite IH. unfold heap_better. rewrite !Hf. reflexivity.
Qed.

Lemma heap_pop_NoDup (ns : NodeStore) (h : list NodeId) (cur : NodeId) :
  heap_top ns h = Some cur -> List.NoDup h ->
  List.NoDup (heap_pop ns h) /\ ~ In cur (heap_pop ns h).
Proof.
  intros Ht Hd. unfold heap_pop. rewrite Ht. apply remove_first_NoDup. exact Hd.
Qed.

Lemma heap_push_NoDup (n : NodeId) (h : list NodeId) :
  List.NoDup h -> ~ In n h -> List.NoDup (heap_push n h).
Proof.
  intros Hd Hn. unfold heap_push.
  apply List.NoDup_app; [exact Hd|constructor; [intros []|constructor]|].
  intros x Hx [<-|[]]. exact (Hn Hx).
Qed.

Lemma open_set_body (E : Externals) (off : Z) (hW : float) (cur : NodeId)
    (i : nat) (nxt : NodeId) (w : World) :
  Z.land off 1 = 0 -> open_set off w -> open_set off (Iterate_body E hW cur i nxt w).
Proof.
  intros Hev (Hs & Hd & Ho). unfold Iterate_body. cbv zeta.
  set (w1 := with_PS _ w).
  assert (H1 : open_set off w1) by (repeat split; assumption).
  destruct (feq (moveCost (nodes w1 nxt)) QTPFS_POSITIVE_INFINITY); [exact H1|].
  assert (Hst : forall g h m p, In p (openNodes w1) \/ p = nxt ->
            nodeSearchState (UpdateNode E (PS w1) nxt (Some cur) g h m (nodes w1) p)
            = Z.lor off NODE_STATE_OPEN).
  { intros g h m p Hp. destruct (Nat.eq_dec p nxt) as [->|Hne].
    - destruct (UpdateNode_at E (PS w1) nxt (Some cur) g h m (nodes w1))
        as (_ & _ & _ & _ & _ & U).
      rewrite U. change (searchState (PS w1)) with (searchState (PS w)).
      rewrite Hs. reflexivity.
    - rewrite UpdateNode_other by exact Hne.
      destruct Hp as [Hp|Hp]; [apply Ho; exact Hp|contradiction]. }
  assert (Hpush : ~ In nxt (openNodes w1) ->
            forall g h m, open_set off
              (with_openNodes (heap_push nxt (openNodes w1))
                 (with_nodes (UpdateNode E (PS w1) nxt (Some cur) g h m (nodes w1)) w1))).
  { intros Hn g h m. split; [exact Hs|]. split.
    - apply heap_push_NoDup; [exact Hd|exact Hn].
    - intros p Hp. apply heap_push_In in Hp. apply Hst.
      destruct Hp as [->|Hp]; [right; reflexivity|left; exact Hp]. }
  destruct (searchState (PS w1) <=? nodeSearchState (nodes w1 nxt)) eqn:Hcur; cbn [negb].
  - destruct (fge _ _); [exact H1|].
    destruct (Z.land (nodeSearchState (nodes w1 nxt)) 1 =? NODE_STATE_CLOSED) eqn:Hcl.
    + apply Hpush. intros Hin. apply Z.eqb_eq in Hcl.
      change (nodes w1 nxt) with (nodes w nxt) in Hcl.
      rewrite (Ho nxt Hin) in Hcl.
      change (Z.lor off NODE_STATE_OPEN) with (Z.lor off 0) in Hcl.
      rewrite Z.lor_0_r, Hev in Hcl. discriminate Hcl.
    + split; [exact Hs|]. split; [exact Hd|].
      intros p Hp. apply Hst. left. exact Hp.
  - apply Hpush. intros Hin. apply Z.leb_gt in Hcur.
    change (nodes w1 nxt) with (nodes w nxt) in Hcur.
    change (searchState (PS w1)) with (searchState (PS w)) in Hcur.
    rewrite (Ho nxt Hin), Hs in Hcur.
    change (Z.lor off NODE_STATE_OPEN) with (Z.lor off 0) in Hcur.
    rewrite Z.lor_0_r in Hcur. lia.
Qed.

Lemma open_set_step (E : Externals) (off : Z) (n : nat) (w w' : World) :
  Z.land off 1 = 0 -> open_set off w -> Execute_steps E n w = Some w' -> open_set off w'.
Proof.
  intros Hev H0 Hn.
  apply (Execute_steps_world_inv E (open_set off)) with (n := n) (w := w);
    [..|exact H0|exact Hn].
  - intros cur w1 (Hs & Hd & Ho) Ht.
    destruct (Iterate_pop_parts E cur w1) as (HPS & Hns & Hop).
    assert (Htop : heap_top (update cur (Iterate_stamp E (set_curNode cur (PS w1))) (nodes w1))
                            (openNodes w1) = Some cur).
    { rewrite <- Ht. apply heap_top_costs. intros p.
      apply (update_field fCost). intros; apply Iterate_stamp_scratch. }
    destruct (heap_pop_NoDup _ _ _ Htop Hd) as [A B].
    split; [rewrite HPS; exact Hs|]. rewrite Hop. split; [exact A|].
    intros p Hp. rewrite Hns. rewrite update_ne.
    + apply Ho. eapply heap_pop_In. exact Hp.
    + intros ->. exact (B Hp).
  - intros cp w1 H. exact H.
  - intros cur w1 H _. exact H.
  - intros hW cur i nxt w1 H. apply open_set_body; assumption.
  - intros w1 H. exact H.
  - intros w1 (Hs & _ & _). split; [exact Hs|]. split; [constructor|intros p []].
Qed.

Lemma Execute_init_open_set (E : Externals) (off mg : Z) (w : World) :
  open_set off (Execute_init E (srcBlocked w) (Execute_enter off mg w)).
Proof.
  split; [reflexivity|]. rewrite Execute_init_open. split.
  - constructor; [intros []|constructor].
  - intros p [<-|[]]. unfold Execute_init. cbv zeta. cbn [nodes].
    match goal with |- context [UpdateNode E ?s ?x ?c ?g ?h ?m ?ns] =>
      destruct (UpdateNode_at E s x c g h m ns) as (_ & _ & _ & _ & _ & U) end.
    exact U.
Qed.

(** X22. While the search loop runs, the open heap holds no node twice,
    and every node on it carries the OPEN stamp of this search, provided
    the search state offset is even (so that the low bit tells OPEN from
    CLOSED). *)
Theorem Execute_open_heap_is_a_set (E : Externals) (off mg : Z) (n : nat)
    (w wn : World) :
  Z.land off 1 = 0 ->
  Execute_steps E n (Execute_init E (srcBlocked w) (Execute_enter off mg w)) = Some wn ->
  List.NoDup (openNodes wn)
  /\ forall p, In p (openNodes wn) ->
               nodeSearchState (nodes wn p) = Z.lor off NODE_STATE_OPEN.
Proof.
  intros Hev Hn.
  destruct (open_set_step E off n _ wn Hev (Execute_init_open_set E off mg w) Hn)
    as (_ & A & B).
  split; assumption.
Qed.

Lemma Execute_open_heap_is_a_set_witness :
  exists wn : World,
    Z.land 2 1 = 0
    /\ Execute_steps (Demo.env true true) 1
         (Execute_init (Demo.env true true) (srcBlocked (Demo.world4 PATH_SEARCH_ASTAR))
            (Execute_enter 2 0 (Demo.world4 PATH_SEARCH_ASTAR))) = Some wn
    /\ List.NoDup (openNodes wn)
    /\ forall p, In p (openNodes wn) ->
                 nodeSearchState (nodes wn p) = Z.lor 2 NODE_STATE_OPEN.
Proof.
  destruct (Execute_steps (Demo.env true true) 1
              (Execute_init (Demo.env true true) (srcBlocked (Demo.world4 PATH_SEARCH_ASTAR))
                 (Execute_enter 2 0 (Demo.world4 PATH_SEARCH_ASTAR)))) as [wn|] eqn:He;
    [|returns He].
  exists wn. split; [reflexivity|]. split; [reflexivity|].
  exact (Execute_open_heap_is_a_set (Demo.env true true) 2 0 1
           (Demo.world4 PATH_SEARCH_ASTAR) wn eq_refl He).
Defined.

(** ** Execute: the G cost of the path *)

(** Within the bounds, every term of such a sum is a number. *)
Lemma G_terms_finite (mc : NodeId -> float) (P : point -> Prop) (src tgt : NodeId)
    (tgtP : point) (ka kb : Z) (p : NodeId) (pq : option NodeId) (ts : list float) :
  terms_bounded ka kb mc P -> P tgtP ->
  G_terms mc P src tgt tgtP p pq ts ->
  Forall (fun t => is_finite t = true) ts.
Proof.
  intros (Hk & Hmc & Hd) Ht H.
  assert (Hs : forall q, feq (mc q) QTPFS_POSITIVE_INFINITY = false -> small ka (mc q) = true).
  { intros q Hq. destruct (Hmc q) as [Hi|Hi]; [congruence|exact Hi]. }
  induction H as [|q p pq ts a n H IH Hq Hp Ha Hn]; [constructor|].
  apply Forall_app. split; [exact IH|].
  constructor; [|constructor; [|constructor]].
  - apply (fmul_small ka kb); auto.
  - apply fmul_bool_finite.
    + apply fmul_binary32; [apply (small_binary32 ka) | apply (small_binary32 kb)]; auto.
    + apply (fmul_small ka kb); auto.
Qed.

(** The ways in which [Iterate] returns, with the point at which the
    popped node is entered. *)
Lemma Iterate_cases_curPoint (E : Externals) (w w' : World) :
  Iterate E w = Some w' ->
  exists cur, heap_top (nodes w) (openNodes w) = Some cur
    /\ (w' = Iterate_pop E cur w
        \/ exists cp,
             Iterate_curPoint E cur (Iterate_pop E cur w) = Some cp
             /\ (w' = with_PS (set_curPoint cp (PS (Iterate_pop E cur w))) (Iterate_pop E cur w)
                 \/ (feq (moveCost (nodes (Iterate_pop E cur w) cur)) QTPFS_POSITIVE_INFINITY
                      = false
                     /\ w' = Iterate_expand E cur
                               (with_PS (set_curPoint cp (PS (Iterate_pop E cur w)))
                                        (Iterate_pop E cur w))))).
Proof.
  unfold Iterate. destruct (heap_top (nodes w) (openNodes w)) as [cur|]; [|discriminate].
  intros H. exists cur. split; [reflexivity|].
  destruct (Nat.eqb cur (tgtNode (PS (Iterate_pop E cur w)))).
  - left. congruence.
  - right. destruct (Iterate_curPoint E cur (Iterate_pop E cur w)) as [cp|]; [|discriminate].
    exists cp. split; [reflexivity|]. cbn [nodes with_PS] in H.
    destruct (feq (moveCost (nodes (Iterate_pop E cur w) cur)) QTPFS_POSITIVE_INFINITY).
    + left. congruence.
    + match type of H with (if ?c then _ else _) = _ => destruct c end.
      * left. congruence.
      * right. split; [reflexivity | congruence].
Qed.

Section PathCost.

Variable E : Externals.
Variable mc : NodeId -> float.
Variable P : point -> Prop.
Variable ns0 : NodeStore.
Variable s0 : PathSearch.

Hypothesis P_closed : points_closed E ns0 P.

Local Abbreviation good := (G_sum mc P (srcNode s0) (tgtNode s0) (tgtPoint s0)).

Lemma G_sum_ext (ns ns' : NodeStore) (p : NodeId) :
  gCost (ns' p) = gCost (ns p) -> prevNode (ns' p) = prevNode (ns p) ->
  good ns p -> good ns' p.
Proof.
  intros Hg Hp (ts & Ht & Hs). exists ts. rewrite Hg, Hp. split; assumption.
Qed.

Lemma G_sum_stamp (cur : NodeId) (s : PathSearch) (ns : NodeStore) (p : NodeId) :
  good ns p -> good (update cur (Iterate_stamp E s) ns) p.
Proof.
  apply G_sum_ext.
  - apply (update_field gCost). intros n. apply Iterate_stamp_scratch.
  - apply (update_field prevNode). intros n. apply Iterate_stamp_scratch.
Qed.

Lemma layer_node_of (ns : NodeStore) (p : NodeId) :
  (forall q, same_layout (ns q) (ns0 q)) -> layer_node ns0 (ns p).
Proof. intros H. exists p. apply H. Qed.

Lemma Iterate_nxtPoint_closed (w : World) (cur : NodeId) (i : nat) (nxt : NodeId) :
  (forall q, same_layout (nodes w q) (ns0 q)) -> P (curPoint (PS w)) ->
  P (Iterate_nxtPoint E w cur i nxt).
Proof using P_closed.
  intros HL Hc. destruct P_closed as [C1 C2]. unfold Iterate_nxtPoint.
  destruct (QTPFS_CACHED_EDGE_TRANSITION_POINTS E).
  - apply C2. apply layer_node_of. exact HL.
  - apply C1; [apply layer_node_of; exact HL | apply layer_node_of; exact HL | exact Hc].
Qed.

Lemma Iterate_curPoint_closed (cur : NodeId) (w : World) (cp : point) :
  (forall q, same_layout (nodes w q) (ns0 q)) -> P (curPoint (PS w)) ->
  Iterate_curPoint E cur w = Some cp -> P cp.
Proof using P_closed.
  intros HL Hc. destruct P_closed as [C1 _]. unfold Iterate_curPoint.
  destruct (negb (Nat.eqb cur (srcNode (PS w)))).
  - destruct (prevNode (nodes w cur)) as [pv|]; [|discriminate].
    simpl. intros H. injection H as <-.
    apply C1; [apply layer_node_of; exact HL | apply layer_node_of; exact HL | exact Hc].
  - intros H. injection H as <-. exact Hc.
Qed.

(** One turn of the neighbour loop at a node [cur] whose G cost is a sum
    of terms: G costs that are sums of terms stay so, and the neighbour,
    if it is pushed, has got one. *)
Lemma Iterate_body_G (hWeight : float) (cur : NodeId) (i : nat) (nxt : NodeId) (w : World) :
  same_search s0 (PS w) ->
  (forall p, moveCost (nodes w p) = mc p) ->
  (forall p, same_layout (nodes w p) (ns0 p)) ->
  P (curPoint (PS w)) ->
  feq (mc cur) QTPFS_POSITIVE_INFINITY = false ->
  good (nodes w) cur ->
  (forall n, good (nodes w) n -> good (nodes (Iterate_body E hWeight cur i nxt w)) n)
  /\ (forall n, In n (openNodes (Iterate_body E hWeight cur i nxt w)) ->
                In n (openNodes w) \/ good (nodes (Iterate_body E hWeight cur i nxt w)) n).
Proof using P_closed.
  intros Hs Hmc HL Hc Hcur Hg.
  destruct (Iterate_body_effect E hWeight cur i nxt w) as [_ [[Hn Ho]|(Hx & Hn & Ho)]].
  - rewrite Hn, Ho. split; [auto|]. intros n Hin. left. exact Hin.
  - set (p := Iterate_nxtPoint E w cur i nxt) in *.
    assert (Hnxt : good (nodes (Iterate_body E hWeight cur i nxt w)) nxt).
    { rewrite Hn.
      destruct (UpdateNode_at E (set_nxt nxt p (PS w)) nxt (Some cur)
                  (Iterate_gCost w cur nxt p) (Iterate_hCost w hWeight nxt p)
                  (Iterate_mCost w cur nxt) (nodes w)) as (Ug & _ & _ & _ & Up & _).
      destruct Hg as (ts & Ht & Hsum).
      destruct Hs as (_ & Htn & _ & Htp & _).
      exists (ts ++ [fmul (mc cur) (float3.distance (curPoint (PS w)) p);
                     fmul (fmul (mc nxt) (float3.distance p (tgtPoint s0)))
                          (float_of_bool (Nat.eqb nxt (tgtNode s0)))]).
      split.
      - rewrite Up. apply (G_terms_step mc P _ _ _ cur nxt (prevNode (nodes w cur)));
          [exact Ht | exact Hcur | rewrite <- Hmc; exact Hx | exact Hc |].
        apply Iterate_nxtPoint_closed; assumption.
      - rewrite Ug, fold_left_app. cbn [fold_left]. rewrite <- Hsum.
        unfold Iterate_gCost. cbn [GetPathCost]. rewrite !Hmc, Htn, Htp. reflexivity. }
    split.
    + intros n Hgn. destruct (Nat.eq_dec n nxt) as [->|Hne]; [exact Hnxt|].
      revert Hgn. apply G_sum_ext; rewrite Hn, UpdateNode_other by exact Hne; reflexivity.
    + intros n Hin. destruct Ho as [Ho|Ho]; rewrite Ho in Hin; [left; exact Hin|].
      apply heap_push_In in Hin. destruct Hin as [->|Hin]; [right; exact Hnxt | left; exact Hin].
Qed.

Lemma Iterate_loop_G (hWeight : float) (cur : NodeId) (ngbs : list NodeId) (i : nat)
    (w : World) :
  G_inv E mc P ns0 s0 w ->
  feq (mc cur) QTPFS_POSITIVE_INFINITY = false ->
  good (nodes w) cur ->
  G_inv E mc P ns0 s0 (Iterate_loop E hWeight cur i ngbs w)
  /\ forall n, good (nodes w) n -> good (nodes (Iterate_loop E hWeight cur i ngbs w)) n.
Proof using P_closed.
  intros HI Hcur Hg.
  set (Q := fun w' : World =>
              G_inv E mc P ns0 s0 w' /\ forall n, good (nodes w) n -> good (nodes w') n).
  apply (Iterate_loop_inv Q E hWeight cur); [|split; [exact HI | auto]].
  clear i. intros i nxt w1 [(Hs & Hmc & HL & Hc & Hopen & Hmin) Hkeep].
  destruct (Iterate_body_G hWeight cur i nxt w1 Hs Hmc HL Hc Hcur (Hkeep cur Hg))
    as [Hstay Hnew].
  destruct (Iterate_body_frame E hWeight cur i nxt w1) as (F1 & F2 & F3 & _ & F5).
  split; [|intros n Hn; apply Hstay, Hkeep, Hn].
  split; [eapply same_search_trans; eassumption|].
  split; [intros p; rewrite F1; apply Hmc|].
  split; [intros p; eapply same_layout_trans; [|apply HL];
          apply (layer_kept_body E (nodes w1)); intros q; repeat split;
          apply same_layout_refl|].
  split; [rewrite F5; exact Hc|].
  split.
  - intros n Hin. destruct (Hnew n Hin) as [H|H]; [apply Hstay, Hopen, H | exact H].
  - rewrite F3. destruct Hmin as [Hm|[Hp Hm]]; [left; exact Hm | right].
    split; [exact Hp | apply Hstay, Hm].
Qed.

Lemma Iterate_expand_G (cur : NodeId) (w : World) :
  G_inv E mc P ns0 s0 w ->
  feq (mc cur) QTPFS_POSITIVE_INFINITY = false ->
  good (nodes w) cur ->
  G_inv E mc P ns0 s0 (Iterate_expand E cur w)
  /\ forall n, good (nodes w) n -> good (nodes (Iterate_expand E cur w)) n.
Proof using P_closed.
  intros HI Hcur Hg. unfold Iterate_expand.
  destruct (QTPFS_SUPPORT_PARTIAL_SEARCHES E) eqn:Hp; cbn [andb];
    [|apply Iterate_loop_G; assumption].
  match goal with |- context [if ?c then _ else _] => destruct c end;
    [|apply Iterate_loop_G; assumption].
  apply (Iterate_loop_G _ cur _ 0%nat (with_PS (set_minNode cur (PS w)) w));
    [|exact Hcur|exact Hg].
  destruct HI as (Hs & Hmc & HL & Hc & Hopen & _).
  split; [revert Hs; unfold same_search; simpl; auto 10|].
  repeat (split; [assumption|]).
  right. split; [exact Hp | exact Hg].
Qed.

(** One call of [Iterate]: the invariant is kept, G costs that are sums of
    terms stay so, and the node popped has one. *)
Lemma Iterate_G (w w' : World) :
  G_inv E mc P ns0 s0 w -> Iterate E w = Some w' ->
  G_inv E mc P ns0 s0 w'
  /\ exists cur, curNode (PS w') = Some cur /\ good (nodes w') cur.
Proof using P_closed.
  intros HI H.
  pose proof (Iterate_curNode E w w' H) as Hcn.
  destruct (Iterate_cases_curPoint E w w' H) as (cur & Htop & Hcases).
  rewrite Htop in Hcn.
  destruct HI as (Hs & Hmc & HL & Hc & Hopen & Hmin).
  set (w1 := Iterate_pop E cur w) in *.
  destruct (Iterate_pop_parts E cur w) as (Hps & Hns & Hop). fold w1 in Hps, Hns, Hop.
  assert (Hkeep : forall n, good (nodes w) n -> good (nodes w1) n).
  { intros n Hn. rewrite Hns. apply G_sum_stamp. exact Hn. }
  assert (Hcur : good (nodes w1) cur) by (apply Hkeep, Hopen, (heap_top_In (nodes w)), Htop).
  assert (Hmc1 : forall p, moveCost (nodes w1 p) = mc p).
  { intros p. rewrite Hns, (update_field moveCost) by (intros; apply Iterate_stamp_moveCost).
    apply Hmc. }
  assert (HL1 : forall p, same_layout (nodes w1 p) (ns0 p)).
  { intros p. eapply same_layout_trans; [|apply HL]. rewrite Hns.
    apply update_layout. intros n. apply Iterate_stamp_layout. }
  assert (H1 : G_inv E mc P ns0 s0 w1).
  { split; [rewrite Hps; revert Hs; unfold same_search; simpl; auto 10|].
    split; [exact Hmc1|]. split; [exact HL1|].
    split; [rewrite Hps; exact Hc|].
    split.
    - intros n Hin. rewrite Hop in Hin. apply heap_pop_In in Hin. apply Hkeep, Hopen, Hin.
    - rewrite Hps. cbn [minNode set_curNode].
      destruct Hmin as [Hm|[Hp Hm]]; [left; exact Hm | right; split; [exact Hp|apply Hkeep, Hm]]. }
  assert (H2 : forall cp, Iterate_curPoint E cur w1 = Some cp ->
                          G_inv E mc P ns0 s0 (with_PS (set_curPoint cp (PS w1)) w1)).
  { intros cp Hcp. destruct H1 as (A & B & C & D & F & G).
    split; [revert A; unfold same_search; simpl; auto 10|].
    split; [exact B|]. split; [exact C|].
    split; [cbn [PS with_PS curPoint set_curPoint];
            apply (Iterate_curPoint_closed cur w1); assumption|].
    split; [exact F | exact G]. }
  destruct Hcases as [->|(cp & Hcp & [->|[Hfin ->]])].
  - split; [exact H1|]. exists cur. split; [exact Hcn | exact Hcur].
  - split; [apply H2; exact Hcp|]. exists cur. split; [exact Hcn | exact Hcur].
  - destruct (Iterate_expand_G cur (with_PS (set_curPoint cp (PS w1)) w1)) as [A B].
    + apply H2. exact Hcp.
    + rewrite <- Hmc1. exact Hfin.
    + exact Hcur.
    + split; [exact A|]. exists cur. split; [exact Hcn | apply B; exact Hcur].
Qed.

Lemma Execute_step_G (w w' : World) :
  G_path_inv E mc P ns0 s0 w -> Execute_step E w = Some w' ->
  G_path_inv E mc P ns0 s0 w'.
Proof using P_closed.
  intros [HI _]. unfold Execute_step.
  destruct (Iterate E w) as [w1|] eqn:Hit; [|discriminate].
  destruct (Iterate_G w w1 HI Hit) as [(Hs & Hmc & HL & Hc & Hopen & Hmin) (cur & Hcn & Hcur)].
  intros H. injection H as <-.
  set (s1 := set_have (curNode_is (tgtNode (PS w1)) (PS w1))
                      (negb (Nat.eqb (minNode (PS w1)) (srcNode (PS w1)))) (PS w1)).
  assert (Hfull : haveFullPath s1 = true -> good (nodes w1) (tgtNode s0)).
  { subst s1. cbn [haveFullPath set_have]. unfold curNode_is. rewrite Hcn.
    intros Heq. apply Nat.eqb_eq in Heq. destruct Hs as (_ & Ht & _).
    rewrite Ht in Heq. subst cur. exact Hcur. }
  assert (Hpart : havePartPath s1 = true -> minNode s1 <> srcNode s0).
  { subst s1. cbn [havePartPath minNode set_have]. destruct Hs as (Hsrc & _).
    rewrite Hsrc. intros Hne. apply negb_true_iff, Nat.eqb_neq in Hne. exact Hne. }
  assert (Hss : same_search s0 s1) by (revert Hs; unfold same_search; simpl; auto 10).
  assert (Hres : forall w2, PS w2 = s1 -> nodes w2 = nodes w1 ->
                            (forall n, In n (openNodes w2) -> In n (openNodes w1)) ->
                            G_path_inv E mc P ns0 s0 w2).
  { intros w2 Hps Hns Hop. unfold G_path_inv, G_inv. rewrite Hps, Hns.
    split; [|split; [exact Hfull | exact Hpart]].
    split; [exact Hss|]. split; [exact Hmc|]. split; [exact HL|]. split; [exact Hc|].
    split; [intros n Hin; apply Hopen, Hop, Hin | exact Hmin]. }
  match goal with |- context [if ?c then _ else _] => destruct c end;
    apply Hres; try reflexivity; [intros n [] | auto].
Qed.

Lemma Execute_steps_G (n : nat) (w w' : World) :
  G_path_inv E mc P ns0 s0 w -> Execute_steps E n w = Some w' ->
  G_path_inv E mc P ns0 s0 w'.
Proof using P_closed.
  apply (Execute_steps_inv (G_path_inv E mc P ns0 s0) E).
  intros w1 w2 H1 Hs. eapply Execute_step_G; eassumption.
Qed.

End PathCost.

(** The invariant holds when the loop of [Execute] is entered. *)
Lemma Execute_init_G (E : Externals) (P : point -> Prop) (b : bool) (w : World) :
  P (curPoint (PS w)) ->
  minNode (PS w) = srcNode (PS w) ->
  haveFullPath (PS w) = false -> havePartPath (PS w) = false ->
  G_path_inv E (search_moveCost b (srcNode (PS w)) (nodes w)) P (nodes w)
    (PS (Execute_init E b w)) (Execute_init E b w).
Proof.
  intros Hc Hmin Hfull Hpart.
  split; [|split; rewrite Execute_init_search; simpl; congruence].
  split; [apply same_search_refl|].
  split; [intros p; apply Execute_init_moveCost|].
  split.
  { intros p. unfold Execute_init. cbn [nodes].
    eapply same_layout_trans; [apply UpdateNode_layout|].
    destruct b; [|apply same_layout_refl].
    apply update_layout. intros n. unfold same_layout. simpl. auto 10. }
  split; [exact Hc|].
  split; [|left; rewrite Execute_init_search; exact Hmin].
  intros n Hin. rewrite Execute_init_open in Hin. destruct Hin as [<-|[]].
  rewrite Execute_init_search. cbn [srcNode tgtNode tgtPoint set_hCostMult].
  unfold Execute_init. cbn [nodes srcNode set_hCostMult].
  match goal with
  | |- context [UpdateNode E ?s ?n ?c ?g ?h ?m ?ns] =>
    destruct (UpdateNode_at E s n c g h m ns) as (Ug & _ & _ & _ & Up & _)
  end.
  exists []. rewrite Up, Ug. split; [constructor | reflexivity].
Qed.

(** The node at which the path ends (lines 117-121). *)
Lemma Execute_finish_tgtNode (E : Externals) (b : bool) (w : World) :
  tgtNode (PS (fst (Execute_finish E b w)))
  = if QTPFS_SUPPORT_PARTIAL_SEARCHES E && (negb (haveFullPath (PS w)) && havePartPath (PS w))
    then minNode (PS w) else tgtNode (PS w).
Proof.
  unfold Execute_finish. cbn [fst PS].
  match goal with |- context [if ?c then _ else _] => destruct c end; reflexivity.
Qed.


(** The edge-transition points of the row of three nodes. *)
Lemma row3_points_closed (mc0 : float) :
  points_closed (Demo.env true true) (Demo.row3 mc0) (fun a => In a Demo.row3_points).
Proof.
  split.
  - intros n1 n2 pos (p1 & _ & X1 & Z1 & X1' & Z1' & _) (p2 & _ & X2 & Z2 & X2' & Z2' & _) _.
    change (GetNeighborEdgeTransitionPoint (Demo.env true true) n1 n2 pos)
      with (Demo.mid_transition 8 n1 n2 pos).
    unfold Demo.mid_transition. rewrite X1, Z1, X1', Z1', X2, Z2, X2', Z2'.
    destruct p1 as [|[|[|p1]]]; destruct p2 as [|[|[|p2]]]; vm_compute;
      repeat first [left; reflexivity | right].
  - intros n i _. vm_compute. repeat first [left; reflexivity | right].
Qed.

(** With a blocked first node, the move costs of the row are below [2]
    and the distances between its points below [2^11]. *)
Lemma row3_terms_bounded :
  terms_bounded 1 11 (search_moveCost true 0%nat (Demo.row3 QTPFS_POSITIVE_INFINITY))
    (fun a => In a Demo.row3_points).
Proof.
  split; [lia|]. split.
  - intros p. right. destruct p as [|[|[|p]]]; reflexivity.
  - intros a b Ha Hb.
    assert (H : forallb (fun a => forallb (fun b => small 11 (float3.distance a b))
                                          Demo.row3_points)
                  Demo.row3_points = true) by (vm_compute; reflexivity).
    rewrite forallb_forall in H. specialize (H a Ha).
    rewrite forallb_forall in H. exact (H b Hb).
Qed.


(** * CFileHandler: reading from the buffer *)

Lemma int_add_in_range (a b : Z) :
  FileHandler.INT_MIN <= a + b <= FileHandler.INT_MAX -> FileHandler.int_add a b = Some (a + b).
Proof.
  intros H. unfold FileHandler.int_add.
  destruct (Z.leb_spec FileHandler.INT_MIN (a + b)); [|lia].
  destruct (Z.leb_spec (a + b) FileHandler.INT_MAX); [reflexivity|lia].
Qed.

Lemma int_sub_in_range (a b : Z) :
  FileHandler.INT_MIN <= a - b <= FileHandler.INT_MAX -> FileHandler.int_sub a b = Some (a - b).
Proof.
  intros H. unfold FileHandler.int_sub.
  destruct (Z.leb_spec FileHandler.INT_MIN (a - b)); [|lia].
  destruct (Z.leb_spec (a - b) FileHandler.INT_MAX); [reflexivity|lia].
Qed.

Lemma INT_MIN_neg : FileHandler.INT_MIN < 0.
Proof. reflexivity. Qed.

Lemma memcpy_in_range (dst src : list Byte.byte) (off n : Z) :
  0 <= off -> 0 <= n -> off + n <= Z.of_nat (length src) -> n <= Z.of_nat (length dst) ->
  FileHandler.memcpy dst src off n
  = Some (take (Z.to_nat n) (drop (Z.to_nat off) src) ++ drop (Z.to_nat n) dst).
Proof.
  intros H1 H2 H3 H4. unfold FileHandler.memcpy.
  destruct (Z.leb_spec 0 off); [|lia]. destruct (Z.leb_spec 0 n); [|lia].
  destruct (Z.leb_spec (off + n) (Z.of_nat (length src))); [|lia].
  destruct (Z.leb_spec n (Z.of_nat (length dst))); [reflexivity|lia].
Qed.

Lemma with_filePos_same {S : FileHandler.Stream} (h : FileHandler.CFileHandler S) (p : Z) :
  p = FileHandler.filePos h -> FileHandler.with_filePos p h = h.
Proof. intros ->. destruct h. reflexivity. Qed.

(** Inside the file, [Read] delivers the bytes at the position, as many
    as asked for or as are left, and moves the position past them. *)
Lemma Read_buffered {S : FileHandler.Stream} (h : FileHandler.CFileHandler S)
    (buf : list Byte.byte) (n : Z) :
  FileHandler.buffered h ->
  0 <= FileHandler.filePos h <= FileHandler.fileSize h ->
  0 <= n -> n + FileHandler.filePos h <= FileHandler.INT_MAX ->
  n <= Z.of_nat (length buf) ->
  FileHandler.Read h buf n
  = Some (FileHandler.with_filePos
            (FileHandler.filePos h + Z.min n (FileHandler.fileSize h - FileHandler.filePos h)) h,
          take (Z.to_nat (Z.min n (FileHandler.fileSize h - FileHandler.filePos h)))
               (drop (Z.to_nat (FileHandler.filePos h)) (FileHandler.fileBuffer h))
          ++ drop (Z.to_nat (Z.min n (FileHandler.fileSize h - FileHandler.filePos h))) buf,
          Z.min n (FileHandler.fileSize h - FileHandler.filePos h)).
Proof.
  intros (Hifs & Hsize & Hmax) Hpos Hn Hsum Hbuf. unfold FileHandler.Read. rewrite Hifs.
  pose proof INT_MIN_neg as Hmin.
  set (r := Z.min n (FileHandler.fileSize h - FileHandler.filePos h)).
  assert (Hr : 0 <= r <= n /\ r <= FileHandler.fileSize h - FileHandler.filePos h)
    by (unfold r; lia).
  assert (Hzero : r = 0 ->
            Some (h, buf, r)
            = Some (FileHandler.with_filePos (FileHandler.filePos h + r) h,
                    take (Z.to_nat r) (drop (Z.to_nat (FileHandler.filePos h))
                                            (FileHandler.fileBuffer h))
                    ++ drop (Z.to_nat r) buf, r)).
  { intros ->. rewrite with_filePos_same by lia. reflexivity. }
  destruct (FileHandler.vector_empty (FileHandler.fileBuffer h)) eqn:Hemp; cbn [negb].
  - assert (r = 0) as H0.
    { destruct (FileHandler.fileBuffer h); [|discriminate]. cbn [length] in Hsize. lia. }
    rewrite <- (Hzero H0). rewrite H0. reflexivity.
  - 
    rewrite int_add_in_range by lia.
    assert (Hlen : (if FileHandler.fileSize h <? n + FileHandler.filePos h
                    then FileHandler.int_sub (FileHandler.fileSize h) (FileHandler.filePos h)
                    else Some n) = Some r).
    { destruct (Z.ltb_spec (FileHandler.fileSize h) (n + FileHandler.filePos h)).
      - rewrite int_sub_in_range by lia. f_equal. unfold r. lia.
      - f_equal. unfold r. lia. }
    rewrite Hlen.
    destruct (Z.ltb_spec 0 r) as [Hp|Hp].
    + rewrite memcpy_in_range by lia. rewrite int_add_in_range by lia. reflexivity.
    + apply Hzero. lia.
Qed.

(** X14. A handler that reads from its buffer, at a position inside
    the file, delivers to [Read(buf, n)] the [min(n, fileSize - filePos)]
    bytes that follow the position, returns their number, leaves the rest
    of [buf] as it was, and moves the position by the same number, never
    past the end. *)
Theorem Read_delivers_file_bytes {S : FileHandler.Stream} (h : FileHandler.CFileHandler S)
    (buf : list Byte.byte) (n : Z) :
  FileHandler.buffered h ->
  0 <= FileHandler.filePos h <= FileHandler.fileSize h ->
  0 <= n -> n + FileHandler.filePos h <= FileHandler.INT_MAX ->
  n <= Z.of_nat (length buf) ->
  exists (h' : FileHandler.CFileHandler S) (buf' : list Byte.byte) (r : Z),
    FileHandler.Read h buf n = Some (h', buf', r)
    /\ r = Z.min n (FileHandler.fileSize h - FileHandler.filePos h)
    /\ take (Z.to_nat r) buf'
       = take (Z.to_nat r) (drop (Z.to_nat (FileHandler.filePos h)) (FileHandler.fileBuffer h))
    /\ length (take (Z.to_nat r) buf') = Z.to_nat r
    /\ drop (Z.to_nat r) buf' = drop (Z.to_nat r) buf
    /\ length buf' = length buf
    /\ FileHandler.filePos h' = FileHandler.filePos h + r
    /\ FileHandler.filePos h' <= FileHandler.fileSize h'
    /\ FileHandler.fileBuffer h' = FileHandler.fileBuffer h
    /\ FileHandler.buffered h'.
Proof.
  intros Hb Hpos Hn Hsum Hbuf.
  rewrite (Read_buffered h buf n Hb Hpos Hn Hsum Hbuf).
  destruct Hb as (Hifs & Hsize & Hmax).
  set (r := Z.min n (FileHandler.fileSize h - FileHandler.filePos h)).
  assert (Hr : 0 <= r <= n /\ r <= FileHandler.fileSize h - FileHandler.filePos h)
    by (unfold r; lia).
  assert (Hl : length (take (Z.to_nat r) (drop (Z.to_nat (FileHandler.filePos h))
                                               (FileHandler.fileBuffer h))) = Z.to_nat r).
  { rewrite length_take_le; [reflexivity|]. rewrite length_drop. lia. }
  eexists _, _, _. split; [reflexivity|]. split; [reflexivity|].
  split; [apply take_app_length'; symmetry; exact Hl|].
  split; [rewrite take_app_length' by (symmetry; exact Hl); exact Hl|].
  split; [apply drop_app_length'; symmetry; exact Hl|].
  split; [rewrite length_app, Hl, length_drop; lia|].
  cbn [FileHandler.filePos FileHandler.fileSize FileHandler.fileBuffer FileHandler.with_filePos].
  split; [reflexivity|]. split; [lia|]. split; [reflexivity|].
  repeat split; assumption.
Qed.

(** X15. Reading [a] bytes and then [b] bytes into the place behind
    them is reading [a + b] bytes at once: the same bytes arrive, the
    counts add up and the handler ends in the same state. *)
Theorem Read_in_two_parts {S : FileHandler.Stream} (h : FileHandler.CFileHandler S)
    (buf : list Byte.byte) (a b : Z) :
  FileHandler.buffered h ->
  0 <= FileHandler.filePos h <= FileHandler.fileSize h ->
  0 <= a -> 0 <= b -> a + b + FileHandler.filePos h <= FileHandler.INT_MAX ->
  a + b <= Z.of_nat (length buf) ->
  exists (h1 h2 : FileHandler.CFileHandler S) (buf1 buf2 : list Byte.byte) (r1 r2 : Z),
    FileHandler.Read h buf a = Some (h1, buf1, r1)
    /\ FileHandler.Read h1 (drop (Z.to_nat r1) buf1) b = Some (h2, buf2, r2)
    /\ FileHandler.Read h buf (a + b)
       = Some (h2, take (Z.to_nat r1) buf1 ++ buf2, r1 + r2).
Proof.
  intros Hb Hpos Ha Hbb Hsum Hbuf.
  pose proof Hb as (Hifs & Hsize & Hmax).
  set (pos := FileHandler.filePos h) in *. set (size := FileHandler.fileSize h) in *.
  set (r1 := Z.min a (size - pos)).
  set (h1 := FileHandler.with_filePos (pos + r1) h).
  assert (Hr1 : 0 <= r1 <= a /\ r1 <= size - pos) by (unfold r1; lia).
  assert (Hb1 : FileHandler.buffered h1) by (repeat split; assumption).
  set (A := take (Z.to_nat r1) (drop (Z.to_nat pos) (FileHandler.fileBuffer h))).
  assert (HA : length A = Z.to_nat r1).
  { unfold A. rewrite length_take_le; [reflexivity|]. rewrite length_drop. lia. }
  set (r2 := Z.min b (size - (pos + r1))).
  assert (Hr2 : 0 <= r2 <= b /\ r2 <= size - (pos + r1)) by (unfold r2; lia).
  assert (Hsum12 : Z.min (a + b) (size - pos) = r1 + r2) by (unfold r1, r2; lia).
  exists h1, (FileHandler.with_filePos (pos + r1 + r2) h1),
         (A ++ drop (Z.to_nat r1) buf),
         (take (Z.to_nat r2) (drop (Z.to_nat (pos + r1)) (FileHandler.fileBuffer h))
          ++ drop (Z.to_nat r2) (drop (Z.to_nat r1) buf)),
         r1, r2.
  split; [apply (Read_buffered h buf a Hb); unfold pos in *; lia|].
  rewrite (drop_app_length' A) by (symmetry; exact HA).
  rewrite (take_app_length' A) by (symmetry; exact HA).
  split.
  - assert (P1 : FileHandler.filePos h1 = pos + r1) by reflexivity.
    assert (S1 : FileHandler.fileSize h1 = size) by reflexivity.
    rewrite (Read_buffered h1 (drop (Z.to_nat r1) buf) b Hb1);
      rewrite ?P1, ?S1, ?length_drop; try lia.
    reflexivity.
  - rewrite (Read_buffered h buf (a + b) Hb) by (unfold pos in *; lia).
    fold pos size. rewrite Hsum12.
    assert (E1 : FileHandler.with_filePos (pos + (r1 + r2)) h
                 = FileHandler.with_filePos (pos + r1 + r2) h1).
    { unfold h1, FileHandler.with_filePos.
      cbn [FileHandler.fileName FileHandler.ifs FileHandler.fileBuffer FileHandler.fileSize].
      f_equal. lia. }
    assert (E2 : take (Z.to_nat (r1 + r2)) (drop (Z.to_nat pos) (FileHandler.fileBuffer h))
                 ++ drop (Z.to_nat (r1 + r2)) buf
                 = A ++ take (Z.to_nat r2) (drop (Z.to_nat (pos + r1)) (FileHandler.fileBuffer h))
                     ++ drop (Z.to_nat r2) (drop (Z.to_nat r1) buf)).
    { unfold A.
      replace (Z.to_nat (r1 + r2)) with (Z.to_nat r1 + Z.to_nat r2)%nat by lia.
      rewrite <- take_take_drop, !drop_drop, <- app_assoc.
      replace (Z.to_nat (pos + r1)) with (Z.to_nat pos + Z.to_nat r1)%nat by lia.
      reflexivity. }
    rewrite E1, E2. reflexivity.
Qed.

(** X16. With the position beyond the end of a buffered file, which
    [Seek] does not prevent, [Read] copies nothing, leaves the handler as
    it is and returns [fileSize - filePos], a negative number, not 0. *)
Theorem Read_beyond_end_is_negative {S : FileHandler.Stream}
    (h : FileHandler.CFileHandler S) (buf : list Byte.byte) (n : Z) :
  FileHandler.ifs h = None ->
  FileHandler.vector_empty (FileHandler.fileBuffer h) = false ->
  FileHandler.fileSize h < FileHandler.filePos h ->
  0 <= n -> n + FileHandler.filePos h <= FileHandler.INT_MAX ->
  0 <= FileHandler.fileSize h ->
  FileHandler.Read h buf n = Some (h, buf, FileHandler.fileSize h - FileHandler.filePos h)
  /\ FileHandler.fileSize h - FileHandler.filePos h < 0.
Proof.
  intros Hifs Hne Hlt Hn Hsum Hsize. split; [|lia].
  pose proof INT_MIN_neg as Hmin.
  unfold FileHandler.Read. rewrite Hifs, Hne. cbn [negb].
  rewrite int_add_in_range by lia.
  destruct (Z.ltb_spec (FileHandler.fileSize h) (n + FileHandler.filePos h)); [|lia].
  rewrite int_sub_in_range
    by (unfold FileHandler.INT_MIN, FileHandler.INT_MAX in *; lia).
  destruct (Z.ltb_spec 0 (FileHandler.fileSize h - FileHandler.filePos h)); [lia|].
  reflexivity.
Qed.

(** X17. At a position inside a buffered file, [Eof()] is true exactly
    at the end of the file; there every [Read] returns 0 and changes
    nothing, and everywhere else a [Read] of at least one byte delivers
    at least one. *)
Theorem Eof_iff_nothing_to_read {S : FileHandler.Stream} (h : FileHandler.CFileHandler S)
    (buf : list Byte.byte) (n : Z) :
  FileHandler.buffered h ->
  0 <= FileHandler.filePos h <= FileHandler.fileSize h ->
  1 <= n -> n + FileHandler.filePos h <= FileHandler.INT_MAX ->
  n <= Z.of_nat (length buf) ->
  (FileHandler.Eof h = true <-> FileHandler.filePos h = FileHandler.fileSize h)
  /\ (FileHandler.Eof h = true -> FileHandler.Read h buf n = Some (h, buf, 0))
  /\ (FileHandler.Eof h = false ->
      exists (h' : FileHandler.CFileHandler S) (buf' : list Byte.byte) (r : Z),
        FileHandler.Read h buf n = Some (h', buf', r) /\ 1 <= r).
Proof.
  intros Hb Hpos Hn Hsum Hbuf.
  assert (He : FileHandler.Eof h = true <-> FileHandler.filePos h = FileHandler.fileSize h).
  { destruct Hb as (Hifs & Hsize & _). unfold FileHandler.Eof. rewrite Hifs.
    destruct (FileHandler.fileBuffer h) as [|b0 t]; cbn [FileHandler.vector_empty negb].
    - cbn [length] in Hsize. split; [lia|reflexivity].
    - rewrite Z.leb_le. lia. }
  split; [exact He|]. split.
  - intros H. apply He in H.
    rewrite (Read_buffered h buf n Hb Hpos ltac:(lia) Hsum Hbuf).
    replace (Z.min n (FileHandler.fileSize h - FileHandler.filePos h)) with 0 by lia.
    rewrite with_filePos_same by lia. reflexivity.
  - intros H. assert (Hne : FileHandler.filePos h <> FileHandler.fileSize h).
    { intros Heq. apply He in Heq. congruence. }
    rewrite (Read_buffered h buf n Hb Hpos ltac:(lia) Hsum Hbuf).
    eexists _, _, _. split; [reflexivity|]. lia.
Qed.

Lemma Seek_buffer {S : FileHandler.Stream} (h : FileHandler.CFileHandler S) (k : Z)
    (w : FileHandler.seekdir) :
  FileHandler.ifs h = None ->
  FileHandler.vector_empty (FileHandler.fileBuffer h) = false ->
  FileHandler.Seek h k w
  = match w with
    | FileHandler.ios_beg => Some (FileHandler.with_filePos k h)
    | FileHandler.ios_cur =>
      option_map (fun p => FileHandler.with_filePos p h)
                 (FileHandler.int_add (FileHandler.filePos h) k)
    | FileHandler.ios_end =>
      option_map (fun p => FileHandler.with_filePos p h)
                 (FileHandler.int_add (FileHandler.fileSize h) k)
    end.
Proof. intros Hifs Hne. unfold FileHandler.Seek. rewrite Hifs, Hne. reflexivity. Qed.

(** X18. In a buffered file that is not empty, seeking [k] bytes back
    from the end and reading [k] bytes delivers the last [k] bytes of the
    file and leaves the handler at the end of the file; seeking to [k]
    from the beginning sets the position that [GetPos] reports to [k]. *)
Theorem Seek_from_end_then_Read {S : FileHandler.Stream} (h : FileHandler.CFileHandler S)
    (buf : list Byte.byte) (k : Z) :
  FileHandler.buffered h ->
  FileHandler.vector_empty (FileHandler.fileBuffer h) = false ->
  0 <= k <= FileHandler.fileSize h ->
  k <= Z.of_nat (length buf) ->
  exists (h1 h2 h3 : FileHandler.CFileHandler S) (buf' : list Byte.byte),
    FileHandler.Seek h (- k) FileHandler.ios_end = Some h1
    /\ FileHandler.GetPos h1 = FileHandler.fileSize h - k
    /\ FileHandler.Read h1 buf k = Some (h2, buf', k)
    /\ take (Z.to_nat k) buf'
       = drop (Z.to_nat (FileHandler.fileSize h - k)) (FileHandler.fileBuffer h)
    /\ FileHandler.Eof h2 = true
    /\ FileHandler.Seek h2 k FileHandler.ios_beg = Some h3
    /\ FileHandler.GetPos h3 = k.
Proof.
  intros Hb Hne Hk Hbuf. pose proof Hb as (Hifs & Hsize & Hmax).
  pose proof INT_MIN_neg as Hmin.
  set (size := FileHandler.fileSize h) in *.
  set (h1 := FileHandler.with_filePos (size - k) h).
  assert (Hb1 : FileHandler.buffered h1) by (repeat split; assumption).
  assert (HR : FileHandler.Read h1 buf k
               = Some (FileHandler.with_filePos size h1,
                       take (Z.to_nat k) (drop (Z.to_nat (size - k)) (FileHandler.fileBuffer h))
                       ++ drop (Z.to_nat k) buf, k)).
  { rewrite (Read_buffered h1 buf k Hb1);
      cbn [FileHandler.filePos FileHandler.fileSize FileHandler.fileBuffer
           FileHandler.with_filePos h1]; fold size; try lia.
    replace (Z.min k (size - (size - k))) with k by lia.
    replace (size - k + k) with size by lia. reflexivity. }
  exists h1, (FileHandler.with_filePos size h1),
         (FileHandler.with_filePos k (FileHandler.with_filePos size h1)),
         (take (Z.to_nat k) (drop (Z.to_nat (size - k)) (FileHandler.fileBuffer h))
          ++ drop (Z.to_nat k) buf).
  split.
  { rewrite (Seek_buffer h (- k) FileHandler.ios_end Hifs Hne). fold size.
    rewrite int_add_in_range by lia. reflexivity. }
  split; [unfold FileHandler.GetPos; cbn [FileHandler.ifs h1 FileHandler.with_filePos];
          rewrite Hifs; reflexivity|].
  split; [exact HR|].
  split.
  { assert (Hl : length (drop (Z.to_nat (size - k)) (FileHandler.fileBuffer h)) = Z.to_nat k)
      by (rewrite length_drop; lia).
    rewrite take_app_le by (rewrite length_take, Hl; lia).
    rewrite take_idemp. apply take_ge. lia. }
  split.
  { unfold FileHandler.Eof.
    cbn [FileHandler.ifs FileHandler.with_filePos h1 FileHandler.fileBuffer
         FileHandler.fileSize FileHandler.filePos].
    rewrite Hifs, Hne. cbn [negb]. fold size. apply Z.leb_refl. }
  split.
  { rewrite (Seek_buffer (FileHandler.with_filePos size h1) k FileHandler.ios_beg Hifs Hne).
    reflexivity. }
  unfold FileHandler.GetPos. cbn [FileHandler.ifs FileHandler.with_filePos h1].
  rewrite Hifs. reflexivity.
Qed.

(** X19. On a buffered file [LoadStringData] returns true and appends
    [fileSize] characters whatever the position: the bytes from the
    position to the end of the file, and then, in place of the bytes
    before the position, what the fresh array happened to hold. At
    position 0 that is the content of the file. *)
Theorem LoadStringData_appends {S : FileHandler.Stream} (h : FileHandler.CFileHandler S)
    (data fresh : list Byte.byte) :
  FileHandler.buffered h ->
  0 <= FileHandler.filePos h <= FileHandler.fileSize h ->
  FileHandler.fileSize h + FileHandler.filePos h <= FileHandler.INT_MAX ->
  Z.of_nat (length fresh) = FileHandler.fileSize h ->
  FileHandler.LoadStringData h data fresh
  = Some (FileHandler.with_filePos (FileHandler.fileSize h) h,
          data ++ drop (Z.to_nat (FileHandler.filePos h)) (FileHandler.fileBuffer h)
               ++ drop (Z.to_nat (FileHandler.fileSize h - FileHandler.filePos h)) fresh,
          true)
  /\ (FileHandler.filePos h = 0 ->
      FileHandler.LoadStringData h data fresh
      = Some (FileHandler.with_filePos (FileHandler.fileSize h) h,
              data ++ FileHandler.fileBuffer h, true)).
Proof.
  intros Hb Hpos Hsum Hfresh. pose proof Hb as (Hifs & Hsize & Hmax).
  assert (HL : FileHandler.LoadStringData h data fresh
               = Some (FileHandler.with_filePos (FileHandler.fileSize h) h,
                       data ++ drop (Z.to_nat (FileHandler.filePos h)) (FileHandler.fileBuffer h)
                            ++ drop (Z.to_nat (FileHandler.fileSize h - FileHandler.filePos h))
                                    fresh,
                       true)).
  { unfold FileHandler.LoadStringData, FileHandler.FileExists.
    destruct (Z.leb_spec 0 (FileHandler.fileSize h)); [|lia]. cbn [negb].
    rewrite (Read_buffered h fresh (FileHandler.fileSize h) Hb Hpos ltac:(lia) Hsum ltac:(lia)).
    replace (Z.min (FileHandler.fileSize h) (FileHandler.fileSize h - FileHandler.filePos h))
      with (FileHandler.fileSize h - FileHandler.filePos h) by lia.
    replace (FileHandler.filePos h + (FileHandler.fileSize h - FileHandler.filePos h))
      with (FileHandler.fileSize h) by lia.
    rewrite (take_ge (drop _ (FileHandler.fileBuffer h))) by (rewrite length_drop; lia).
    rewrite (take_ge (_ ++ _)) by (rewrite length_app, !length_drop; lia).
    reflexivity. }
  split; [exact HL|].
  intros H0. rewrite HL, H0, Z.sub_0_r. cbn [Z.to_nat drop].
  rewrite (drop_ge fresh) by lia. rewrite app_nil_r. reflexivity.
Qed.

(** X20. A handler whose file was not found, as the constructor leaves
    it (no stream, an empty buffer, [fileSize = -1]), reports
    [FileExists()] false and [Eof()] true; [Read] returns 0 and leaves
    the caller's array alone, [Seek] does nothing, and
    [LoadStringData] returns false and appends nothing. *)
Theorem missing_file_reads_nothing {S : FileHandler.Stream} (h : FileHandler.CFileHandler S)
    (buf data fresh : list Byte.byte) (n k : Z) (w : FileHandler.seekdir) :
  FileHandler.ifs h = None ->
  FileHandler.fileBuffer h = [] ->
  FileHandler.fileSize h = -1 ->
  FileHandler.FileExists h = false
  /\ FileHandler.Eof h = true
  /\ FileHandler.Read h buf n = Some (h, buf, 0)
  /\ FileHandler.Seek h k w = Some h
  /\ FileHandler.LoadStringData h data fresh = Some (h, data, false).
Proof.
  intros Hifs Hfb Hsize.
  unfold FileHandler.LoadStringData, FileHandler.FileExists, FileHandler.Eof,
    FileHandler.Read, FileHandler.Seek.
  rewrite Hifs, Hfb, Hsize. repeat split.
Qed.

(** * CFileHandler: the filters of mode strings *)

Lemma string_find_None (c : Byte.byte) (s : list Byte.byte) :
  forall i, FileHandler.string_find c s i = None <-> ~ In c s.
Proof.
  induction s as [|d t IH]; intros i; cbn [FileHandler.string_find In]; [tauto|].
  destruct (Byte.eqb d c) eqn:He.
  - apply Byte.byte_dec_bl in He. split; [discriminate|]. intros H. exfalso. auto.
  - apply Byte.eqb_false in He. rewrite IH. tauto.
Qed.

Lemma AllowModes_acc (allowed modes : list Byte.byte) :
  forall acc,
    fold_left (fun newModes c =>
                 match FileHandler.string_find c allowed 0 with
                 | Some _ => newModes ++ [c]
                 | None => newModes
                 end) modes acc
    = acc ++ List.filter (fun c => match FileHandler.string_find c allowed 0 with
                                   | Some _ => true
                                   | None => false
                                   end) modes.
Proof.
  induction modes as [|c t IH]; intros acc; cbn [fold_left List.filter].
  - rewrite app_nil_r. reflexivity.
  - rewrite IH. destruct (FileHandler.string_find c allowed 0);
      [rewrite <- app_assoc|]; reflexivity.
Qed.

Lemma ForbidModes_acc (forbidden modes : list Byte.byte) :
  forall acc,
    fold_left (fun newModes c =>
                 match FileHandler.string_find c forbidden 0 with
                 | None => newModes ++ [c]
                 | Some _ => newModes
                 end) modes acc
    = acc ++ List.filter (fun c => match FileHandler.string_find c forbidden 0 with
                                   | Some _ => false
                                   | None => true
                                   end) modes.
Proof.
  induction modes as [|c t IH]; intros acc; cbn [fold_left List.filter].
  - rewrite app_nil_r. reflexivity.
  - rewrite IH. destruct (FileHandler.string_find c forbidden 0);
      [|rewrite <- app_assoc]; reflexivity.
Qed.

Lemma AllowModes_filter (modes allowed : list Byte.byte) :
  FileHandler.AllowModes modes allowed
  = List.filter (fun c => match FileHandler.string_find c allowed 0 with
                          | Some _ => true
                          | None => false
                          end) modes.
Proof. unfold FileHandler.AllowModes. rewrite AllowModes_acc. reflexivity. Qed.

Lemma ForbidModes_filter (modes forbidden : list Byte.byte) :
  FileHandler.ForbidModes modes forbidden
  = List.filter (fun c => match FileHandler.string_find c forbidden 0 with
                          | Some _ => false
                          | None => true
                          end) modes.
Proof. unfold FileHandler.ForbidModes. rewrite ForbidModes_acc. reflexivity. Qed.

(** X21. [AllowModes(modes, set)] and [ForbidModes(modes, set)] split
    the letters of [modes] between them: a letter is in the first when it
    occurs in [set] and in the second when it does not, the two lengths
    add up to the length of [modes], filtering twice with the same set
    changes nothing more, and forbidding what was just allowed leaves the
    empty string. *)
Theorem AllowModes_ForbidModes_split (modes set : list Byte.byte) :
  (forall c, In c (FileHandler.AllowModes modes set) <-> In c modes /\ In c set)
  /\ (forall c, In c (FileHandler.ForbidModes modes set) <-> In c modes /\ ~ In c set)
  /\ (length (FileHandler.AllowModes modes set) + length (FileHandler.ForbidModes modes set)
      = length modes)%nat
  /\ FileHandler.AllowModes (FileHandler.AllowModes modes set) set
     = FileHandler.AllowModes modes set
  /\ FileHandler.ForbidModes (FileHandler.ForbidModes modes set) set
     = FileHandler.ForbidModes modes set
  /\ FileHandler.ForbidModes (FileHandler.AllowModes modes set) set = []
  /\ FileHandler.AllowModes (FileHandler.ForbidModes modes set) set = [].
Proof.
  repeat (rewrite AllowModes_filter || rewrite ForbidModes_filter).
  assert (Hfind : forall c, (match FileHandler.string_find c set 0 with
                             | Some _ => true | None => false end) = true <-> In c set).
  { intros c. pose proof (string_find_None c set 0%nat) as H.
    destruct (FileHandler.string_find c set 0).
    - split; [intros _|reflexivity].
      destruct (in_dec (fun a b => Byte.byte_eq_dec a b) c set) as [Hi|Hn]; [exact Hi|].
      apply H in Hn. discriminate.
    - split; [discriminate|]. intros Hi. exfalso. apply (proj1 H); [reflexivity|exact Hi]. }
  split; [intros c; rewrite filter_In, Hfind; reflexivity|].
  split.
  { intros c. rewrite filter_In. pose proof (Hfind c) as H.
    destruct (FileHandler.string_find c set 0); split; intros [A B];
      try discriminate; (split; [exact A|]); try reflexivity.
    - exfalso. apply B. apply H. reflexivity.
    - intros Hi. apply H in Hi. discriminate. }
  induction modes as [|c t IH]; cbn [List.filter length]; [repeat split|].
  destruct IH as (L & A & F & FA & AF).
  destruct (FileHandler.string_find c set 0) eqn:Hc; cbn [List.filter length];
    rewrite ?Hc; cbn [length]; repeat split; try congruence; lia.
Qed.

Lemma abc_buffered (p : Z) : FileHandler.buffered (FileHandler.abc_at p).
Proof. repeat split. vm_compute. congruence. Qed.

Lemma Read_delivers_file_bytes_witness :
  exists (h' : FileHandler.CFileHandler FileHandler.no_stream) (buf' : list Byte.byte),
    FileHandler.Read (FileHandler.abc_at 1) [Byte.x00; Byte.x00; Byte.x00; Byte.x00] 4
    = Some (h', buf', 2)
    /\ take 2 buf' = [Byte.x62; Byte.x63]
    /\ drop 2 buf' = [Byte.x00; Byte.x00]
    /\ FileHandler.filePos h' = 3.
Proof.
  destruct (Read_delivers_file_bytes (FileHandler.abc_at 1)
              [Byte.x00; Byte.x00; Byte.x00; Byte.x00] 4 (abc_buffered 1)
              ltac:(cbn; lia) ltac:(lia) ltac:(vm_compute; congruence) ltac:(cbn; lia))
    as (h' & buf' & r & HR & Hr & Ht & _ & Hd & _ & Hp & _).
  cbn in Hr. subst r. exists h', buf'.
  split; [exact HR|]. split; [exact Ht|]. split; [exact Hd|exact Hp].
Defined.

Lemma Read_in_two_parts_witness :
  exists (h2 : FileHandler.CFileHandler FileHandler.no_stream) (buf' : list Byte.byte) (r : Z),
    FileHandler.Read (FileHandler.abc_at 0) [Byte.x00; Byte.x00; Byte.x00; Byte.x00] (1 + 3)
    = Some (h2, buf', r)
    /\ exists (h1 : FileHandler.CFileHandler FileHandler.no_stream)
              (buf1 buf2 : list Byte.byte) (r1 r2 : Z),
         FileHandler.Read (FileHandler.abc_at 0) [Byte.x00; Byte.x00; Byte.x00; Byte.x00] 1
         = Some (h1, buf1, r1)
         /\ FileHandler.Read h1 (drop (Z.to_nat r1) buf1) 3 = Some (h2, buf2, r2)
         /\ buf' = take (Z.to_nat r1) buf1 ++ buf2 /\ r = r1 + r2.
Proof.
  destruct (Read_in_two_parts (FileHandler.abc_at 0)
              [Byte.x00; Byte.x00; Byte.x00; Byte.x00] 1 3 (abc_buffered 0)
              ltac:(cbn; lia) ltac:(lia) ltac:(lia) ltac:(vm_compute; congruence)
              ltac:(cbn; lia))
    as (h1 & h2 & buf1 & buf2 & r1 & r2 & H1 & H2 & H3).
  exists h2, (take (Z.to_nat r1) buf1 ++ buf2), (r1 + r2).
  split; [exact H3|]. exists h1, buf1, buf2, r1, r2. auto.
Defined.

Lemma Read_beyond_end_is_negative_witness :
  FileHandler.Read (FileHandler.abc_at 5) [Byte.x00; Byte.x00] 2
  = Some (FileHandler.abc_at 5, [Byte.x00; Byte.x00], -2)
  /\ 3 - 5 < 0.
Proof.
  exact (Read_beyond_end_is_negative (FileHandler.abc_at 5) [Byte.x00; Byte.x00] 2
           eq_refl eq_refl ltac:(cbn; lia) ltac:(lia) ltac:(vm_compute; congruence)
           ltac:(cbn; lia)).
Defined.

Lemma Eof_iff_nothing_to_read_witness :
  FileHandler.Eof (FileHandler.abc_at 3) = true
  /\ FileHandler.Read (FileHandler.abc_at 3) [Byte.x00] 1
     = Some (FileHandler.abc_at 3, [Byte.x00], 0).
Proof.
  destruct (Eof_iff_nothing_to_read (FileHandler.abc_at 3) [Byte.x00] 1 (abc_buffered 3)
              ltac:(cbn; lia) ltac:(lia) ltac:(vm_compute; congruence) ltac:(cbn; lia))
    as (He & Hr & _).
  assert (H : FileHandler.Eof (FileHandler.abc_at 3) = true) by (apply He; reflexivity).
  split; [exact H|exact (Hr H)].
Defined.

Lemma Seek_from_end_then_Read_witness :
  exists (h1 h2 : FileHandler.CFileHandler FileHandler.no_stream) (buf' : list Byte.byte),
    FileHandler.Seek (FileHandler.abc_at 0) (- 2) FileHandler.ios_end = Some h1
    /\ FileHandler.Read h1 [Byte.x00; Byte.x00] 2 = Some (h2, buf', 2)
    /\ take 2 buf' = [Byte.x62; Byte.x63]
    /\ FileHandler.Eof h2 = true.
Proof.
  destruct (Seek_from_end_then_Read (FileHandler.abc_at 0) [Byte.x00; Byte.x00] 2
              (abc_buffered 0) eq_refl ltac:(cbn; lia) ltac:(cbn; lia))
    as (h1 & h2 & h3 & buf' & A & _ & B & C & D & _).
  exists h1, h2, buf'. split; [exact A|]. split; [exact B|]. split; [exact C|exact D].
Defined.

Lemma LoadStringData_appends_witness :
  FileHandler.LoadStringData (FileHandler.abc_at 1) [Byte.x7a]
    [Byte.x2a; Byte.x2a; Byte.x2a]
  = Some (FileHandler.abc_at 3, [Byte.x7a; Byte.x62; Byte.x63; Byte.x2a], true).
Proof.
  exact (proj1 (LoadStringData_appends (FileHandler.abc_at 1) [Byte.x7a]
                  [Byte.x2a; Byte.x2a; Byte.x2a] (abc_buffered 1)
                  ltac:(cbn; lia) ltac:(vm_compute; congruence) eq_refl)).
Defined.

Lemma missing_file_reads_nothing_witness :
  FileHandler.FileExists FileHandler.not_found = false
  /\ FileHandler.Eof FileHandler.not_found = true
  /\ FileHandler.Read FileHandler.not_found [Byte.x00] 1
     = Some (FileHandler.not_found, [Byte.x00], 0)
  /\ FileHandler.Seek FileHandler.not_found 7 FileHandler.ios_beg
     = Some FileHandler.not_found
  /\ FileHandler.LoadStringData FileHandler.not_found [Byte.x7a] []
     = Some (FileHandler.not_found, [Byte.x7a], false).
Proof.
  exact (missing_file_reads_nothing FileHandler.not_found [Byte.x00] [Byte.x7a] [] 1 7
           FileHandler.ios_beg eq_refl eq_refl eq_refl).
Defined.

(** * Model pieces *)

(** Induction over a piece tree. *)
Lemma piece_ind {E} (P : S3DModelPiece.t E -> Prop) :
  (forall p, Forall P (S3DModelPiece.children p) -> P p) -> forall p, P p.
Proof.
  intros H. fix IH 1. intros [e d o c n v cs]. apply H. cbn.
  induction cs as [|x cs IHcs]; constructor; [apply IH|exact IHcs].
Qed.

Lemma piece_count_eq {E} (p : S3DModelPiece.t E) :
  piece_count p = S (list_sum (map piece_count (S3DModelPiece.children p))).
Proof. destruct p; reflexivity. Qed.

Lemma piece_height_eq {E} (p : S3DModelPiece.t E) :
  piece_height p = S (list_max (map piece_height (S3DModelPiece.children p))).
Proof. destruct p; reflexivity. Qed.

Lemma piece_preorder_eq {E} (p : S3DModelPiece.t E) :
  piece_preorder p = p :: flat_map piece_preorder (S3DModelPiece.children p).
Proof. destruct p; reflexivity. Qed.

Lemma DrawStatic_eq {E} (p : S3DModelPiece.t E) :
  S3DModelPiece.DrawStatic p
  = (if fne (float3.SqLength (S3DModelPiece.offset p)) f0_0
     then [glPushMatrix;
           glTranslatef (float3.x (S3DModelPiece.offset p))
                        (float3.y (S3DModelPiece.offset p))
                        (float3.z (S3DModelPiece.offset p))]
     else [])
    ++ (if negb (S3DModelPiece.isEmpty p)
        then [glCallList (S3DModelPiece.dispListID p)] else [])
    ++ flat_map S3DModelPiece.DrawStatic (S3DModelPiece.children p)
    ++ (if fne (float3.SqLength (S3DModelPiece.offset p)) f0_0
        then [glPopMatrix] else []).
Proof. destruct p; reflexivity. Qed.

(** ** DrawStatic and the matrix stack *)

Lemma gl_depth_app {E} (a b : list (GLcall E)) (d d' : nat) :
  gl_depth a d = Some d' -> gl_depth (a ++ b) d = gl_depth b d'.
Proof.
  revert d. induction a as [|c a IH]; intros d H; cbn in *.
  - injection H as <-. reflexivity.
  - destruct c; try (apply IH; exact H).
    destruct d as [|d]; [discriminate|apply IH; exact H].
Qed.

Lemma gl_peak_ge {E} (a : list (GLcall E)) (d : nat) : (d <= gl_peak a d)%nat.
Proof.
  revert d. induction a as [|c a IH]; intros d; cbn; [lia|].
  destruct c; try apply IH; lia.
Qed.

Lemma gl_peak_app {E} (a b : list (GLcall E)) (d d' : nat) :
  gl_depth a d = Some d' ->
  gl_peak (a ++ b) d = Nat.max (gl_peak a d) (gl_peak b d').
Proof.
  revert d. induction a as [|c a IH]; intros d H; cbn in *.
  - injection H as <-. pose proof (gl_peak_ge b d). lia.
  - destruct c; try (apply IH; exact H).
    + rewrite (IH _ H). lia.
    + destruct d as [|d]; [discriminate|]. cbn. rewrite (IH _ H). lia.
Qed.

Lemma DrawStatic_children_stack {E} (cs : list (S3DModelPiece.t E)) (d : nat) :
  Forall (fun p => forall d,
            gl_depth (S3DModelPiece.DrawStatic p) d = Some d
            /\ (gl_peak (S3DModelPiece.DrawStatic p) d <= d + piece_height p)%nat) cs ->
  gl_depth (flat_map S3DModelPiece.DrawStatic cs) d = Some d
  /\ (gl_peak (flat_map S3DModelPiece.DrawStatic cs) d
      <= d + list_max (map piece_height cs))%nat.
Proof.
  induction 1 as [|c cs Hc _ IH]; cbn [flat_map map list_max].
  - cbn. split; [reflexivity|lia].
  - destruct (Hc d) as [A B]. destruct IH as [A' B'].
    rewrite (gl_depth_app _ _ _ _ A), (gl_peak_app _ _ _ _ A).
    split; [exact A'|].
    change (list_max (piece_height c :: map piece_height cs))
      with (Nat.max (piece_height c) (list_max (map piece_height cs))).
    lia.
Qed.

(** X23. [DrawStatic] leaves the matrix stack as deep as it found it,
    never pops a matrix that it has not pushed, and never has more
    matrices of its own on the stack than the piece tree is high. *)
Theorem DrawStatic_matrix_stack {E} (p : S3DModelPiece.t E) (d : nat) :
  gl_depth (S3DModelPiece.DrawStatic p) d = Some d
  /\ gl_depth (S3DModelPiece.DrawStatic p) 0 = Some 0%nat
  /\ (gl_peak (S3DModelPiece.DrawStatic p) d <= d + piece_height p)%nat.
Proof.
  assert (H : forall (p : S3DModelPiece.t E) d,
             gl_depth (S3DModelPiece.DrawStatic p) d = Some d
             /\ (gl_peak (S3DModelPiece.DrawStatic p) d <= d + piece_height p)%nat).
  { clear p d. intros p. induction p as [p IH] using piece_ind. intros d.
    rewrite DrawStatic_eq, piece_height_eq.
    set (call := if negb (S3DModelPiece.isEmpty p)
                 then [glCallList (S3DModelPiece.dispListID p)] else []).
    assert (Hcall : forall d, gl_depth call d = Some d /\ gl_peak call d = d).
    { intros d0. unfold call. destruct (negb _); split; reflexivity. }
    destruct (fne _ _).
    - cbn [app gl_depth gl_peak].
      destruct (Hcall (S d)) as [C1 C2].
      destruct (DrawStatic_children_stack _ (S d) IH) as [K1 K2].
      rewrite (gl_depth_app _ _ _ _ C1), (gl_peak_app _ _ _ _ C1), C2.
      rewrite (gl_depth_app _ _ _ _ K1), (gl_peak_app _ _ _ _ K1).
      cbn [gl_depth gl_peak Nat.pred]. split; [reflexivity|lia].
    - cbn [app]. rewrite app_nil_r.
      destruct (Hcall d) as [C1 C2].
      destruct (DrawStatic_children_stack _ d IH) as [K1 K2].
      rewrite (gl_depth_app _ _ _ _ C1), (gl_peak_app _ _ _ _ C1), C2.
      split; [exact K1|lia]. }
  destruct (H p d) as [A B]. destruct (H p 0%nat) as [A0 _].
  split; [exact A|]. split; [exact A0|exact B].
Qed.

(** ** CreateLocalModelPieces *)

Lemma CreateLocalModelPieces_eq {E} (mp : S3DModelPiece.t E) (n : Z)
    (h : LocalModelPiece.Heap E) (m : LocalModel.t) :
  LocalModel.CreateLocalModelPieces mp n h m
  = let '(h', m') :=
      LocalModel.CreateLocalModelPieces_loop (length h) (S3DModelPiece.children mp) n
        (h ++ [LocalModelPiece.new_ mp])
        (LocalModel.with_pieces (LocalModel.pieces m ++ [length h]) m) in
    (length h, h', m').
Proof.
  destruct mp as [e d o c k v cs]. cbn [LocalModel.CreateLocalModelPieces S3DModelPiece.children].
  set (h0 := h ++ [LocalModelPiece.new_ _]).
  set (m0 := LocalModel.with_pieces _ m).
  generalize h0 m0 n. clear h0 m0 n.
  induction cs as [|x cs IH]; intros h0 m0 n; [reflexivity|].
  cbn [LocalModel.CreateLocalModelPieces_loop].
  destruct (LocalModel.CreateLocalModelPieces x (size_t_wrap (n + 1)) h0 m0) as [[a h1] m1].
  apply IH.
Qed.

Lemma UpdateMatrix_writes {E} (p : LocalModelPiece.t E) :
  exists m, fst (LocalModelPiece.UpdateMatrix p) = LocalModelPiece.with_pieceSpaceMat m p.
Proof.
  unfold LocalModelPiece.UpdateMatrix.
  destruct (fne (float3.SqLength _) _), (fne (float3.y _) _),
           (fne (float3.x _) _), (fne (float3.z _) _); eexists; reflexivity.
Qed.

(** What the constructor leaves in the members that the statements
    below read. *)
Lemma new_members {E} (mp : S3DModelPiece.t E) :
  LocalModelPiece.original (LocalModelPiece.new_ mp) = mp
  /\ LocalModelPiece.parent (LocalModelPiece.new_ mp) = None
  /\ LocalModelPiece.children (LocalModelPiece.new_ mp) = []
  /\ LocalModelPiece.dispListID (LocalModelPiece.new_ mp) = S3DModelPiece.dispListID mp
  /\ LocalModelPiece.scriptSetVisible (LocalModelPiece.new_ mp)
     = negb (S3DModelPiece.isEmpty mp)
  /\ LocalModelPiece.lodDispLists (LocalModelPiece.new_ mp) = []
  /\ LocalModelPiece.numUpdatesSynced (LocalModelPiece.new_ mp) = 1
  /\ LocalModelPiece.lastMatrixUpdate (LocalModelPiece.new_ mp) = 0.
Proof.
  unfold LocalModelPiece.new_. cbv zeta.
  match goal with |- context [LocalModelPiece.UpdateMatrix ?p] =>
    destruct (UpdateMatrix_writes p) as (mt & Hm);
    destruct (LocalModelPiece.UpdateMatrix p) as [p' r] end.
  cbn [fst] in Hm. subst p'. cbn. repeat split.
Qed.

Lemma local_pieces_eq {E} (a : nat) (par : option nat) (mp : S3DModelPiece.t E) :
  local_pieces a par mp
  = LocalModelPiece.with_children (child_addrs (S a) (S3DModelPiece.children mp))
      (LocalModelPiece.with_parent par (LocalModelPiece.new_ mp))
    :: concat_children (fun q c => local_pieces q (Some a) c) (S a)
         (S3DModelPiece.children mp).
Proof. destruct mp; reflexivity. Qed.

Lemma local_pieces_length {E} (mp : S3DModelPiece.t E) :
  forall a par, length (local_pieces a par mp) = piece_count mp.
Proof.
  induction mp as [mp IH] using piece_ind. intros a par.
  rewrite local_pieces_eq, piece_count_eq. cbn [length]. f_equal.
  generalize (S a). induction IH as [|c cs Hc _ IHcs]; intros q; [reflexivity|].
  cbn [concat_children map list_sum]. rewrite length_app, Hc, IHcs.
  reflexivity.
Qed.

Lemma local_pieces_parent {E} (a : nat) (par par' : option nat) (mp : S3DModelPiece.t E) :
  alter (LocalModelPiece.SetParent par') 0%nat (local_pieces a par mp)
  = local_pieces a par' mp.
Proof. rewrite !local_pieces_eq. reflexivity. Qed.

Lemma CreateLocalModelPieces_loop_spec {E} (a : nat) (cs : list (S3DModelPiece.t E)) :
  Forall (fun mp => forall n h m,
            LocalModel.CreateLocalModelPieces mp n h m
            = (length h, h ++ local_pieces (length h) None mp,
               LocalModel.with_pieces
                 (LocalModel.pieces m ++ seq (length h) (piece_count mp)) m)) cs ->
  forall n h1 root done m,
    length h1 = a ->
    LocalModel.CreateLocalModelPieces_loop a cs n (h1 ++ root :: done) m
    = (h1 ++ LocalModelPiece.with_children
               (LocalModelPiece.children root ++ child_addrs (S a + length done)%nat cs) root
          :: done
          ++ concat_children (fun q c => local_pieces q (Some a) c)
               (S a + length done)%nat cs,
       LocalModel.with_pieces
         (LocalModel.pieces m
          ++ seq (S a + length done)%nat (list_sum (map piece_count cs))) m).
Proof.
  induction 1 as [|c cs Hc _ IH]; intros n h1 root done m Ha.
  - cbn [LocalModel.CreateLocalModelPieces_loop child_addrs concat_children map list_sum seq].
    rewrite !app_nil_r. destruct root, m; reflexivity.
  - cbn [LocalModel.CreateLocalModelPieces_loop].
    rewrite Hc.
    assert (Hlen : length (h1 ++ root :: done) = (S a + length done)%nat).
    { rewrite length_app. cbn [length]. lia. }
    rewrite Hlen. set (q := (S a + length done)%nat).
    (* SetParent on the child *)
    assert (E1 : alter (LocalModelPiece.SetParent (Some a)) q
                   ((h1 ++ root :: done) ++ local_pieces q None c)
                 = (h1 ++ root :: done) ++ local_pieces q (Some a) c).
    { replace q with (length (h1 ++ root :: done) + 0)%nat at 1
        by (rewrite Hlen; unfold q; lia).
      rewrite alter_app_r, local_pieces_parent. reflexivity. }
    rewrite E1.
    assert (E2 : alter (LocalModelPiece.AddChild q) a
                   ((h1 ++ root :: done) ++ local_pieces q (Some a) c)
                 = h1 ++ LocalModelPiece.AddChild q root
                      :: (done ++ local_pieces q (Some a) c)).
    { rewrite <- app_assoc. cbn [app].
      replace a with (length h1 + 0)%nat at 1 by lia.
      rewrite alter_app_r. reflexivity. }
    rewrite E2.
    rewrite (IH (size_t_wrap (n + 1)) h1 (LocalModelPiece.AddChild q root)
                (done ++ local_pieces q (Some a) c)
                (LocalModel.with_pieces (LocalModel.pieces m ++ seq q (piece_count c)) m) Ha).
    rewrite length_app, local_pieces_length.
    replace (S a + (length done + piece_count c))%nat with (q + piece_count c)%nat
      by (unfold q; lia).
    cbn [child_addrs concat_children map list_sum].
    f_equal.
    + f_equal. f_equal.
      * unfold LocalModelPiece.AddChild, LocalModelPiece.with_children. cbn.
        rewrite <- app_assoc. reflexivity.
      * rewrite <- app_assoc. reflexivity.
    + unfold LocalModel.with_pieces. cbn. rewrite <- app_assoc, <- seq_app. reflexivity.
Qed.

Lemma CreateLocalModelPieces_spec {E} (mp : S3DModelPiece.t E) :
  forall n h m,
    LocalModel.CreateLocalModelPieces mp n h m
    = (length h, h ++ local_pieces (length h) None mp,
       LocalModel.with_pieces
         (LocalModel.pieces m ++ seq (length h) (piece_count mp)) m).
Proof.
  induction mp as [mp IH] using piece_ind. intros n h m.
  rewrite CreateLocalModelPieces_eq.
  rewrite (CreateLocalModelPieces_loop_spec (length h) _ IH n h
              (LocalModelPiece.new_ mp) []
              (LocalModel.with_pieces (LocalModel.pieces m ++ [length h]) m) eq_refl).
  cbn [length app]. rewrite Nat.add_0_r.
  rewrite local_pieces_eq, piece_count_eq.
  destruct (new_members mp) as (_ & Hp & Hc & _).
  f_equal; [f_equal; f_equal; f_equal|].
  - rewrite Hc. unfold LocalModelPiece.with_children, LocalModelPiece.with_parent.
    cbn. rewrite Hp. reflexivity.
  - unfold LocalModel.with_pieces. cbn. rewrite <- app_assoc. reflexivity.
Qed.

Lemma local_pieces_original {E} (mp : S3DModelPiece.t E) :
  forall a par, map LocalModelPiece.original (local_pieces a par mp) = piece_preorder mp.
Proof.
  induction mp as [mp IH] using piece_ind. intros a par.
  rewrite local_pieces_eq, piece_preorder_eq. cbn [map].
  destruct (new_members mp) as (Ho & _). f_equal; [exact Ho|].
  generalize (S a). induction IH as [|c cs Hc _ IHcs]; intros q; [reflexivity|].
  cbn [concat_children flat_map]. rewrite map_app, Hc, IHcs. reflexivity.
Qed.

(** X24. [CreateLocalModelPieces] returns the address of a new piece,
    writes to no piece that existed before, and makes one new piece for
    every piece of the tree: their originals are the pieces of the tree,
    parent first, and [pieces] is extended by their addresses in that
    order. *)
Theorem CreateLocalModelPieces_order {E} (mp : S3DModelPiece.t E) (n : Z)
    (h : LocalModelPiece.Heap E) (m : LocalModel.t) :
  let '(a, h', m') := LocalModel.CreateLocalModelPieces mp n h m in
  a = length h
  /\ take (length h) h' = h
  /\ length h' = (length h + piece_count mp)%nat
  /\ map LocalModelPiece.original (drop (length h) h') = piece_preorder mp
  /\ LocalModel.pieces m' = LocalModel.pieces m ++ seq (length h) (piece_count mp)
  /\ LocalModel.lodCount m' = LocalModel.lodCount m.
Proof.
  rewrite CreateLocalModelPieces_spec.
  split; [reflexivity|]. split; [apply take_app_length|].
  split; [rewrite length_app, local_pieces_length; reflexivity|].
  split; [rewrite drop_app_length; apply local_pieces_original|].
  split; reflexivity.
Qed.

Lemma laid_out_eq {E} (h : LocalModelPiece.Heap E) (a : nat) (par : option nat)
    (mp : S3DModelPiece.t E) :
  laid_out h a par mp
  = ((exists p, h !! a = Some p
                /\ LocalModelPiece.original p = mp
                /\ LocalModelPiece.parent p = par
                /\ LocalModelPiece.children p
                   = child_addrs (S a) (S3DModelPiece.children mp))
     /\ each_child (fun q c => laid_out h q (Some a) c) (S a) (S3DModelPiece.children mp)).
Proof. destruct mp; reflexivity. Qed.

Lemma local_pieces_laid_out {E} (mp : S3DModelPiece.t E) :
  forall (par : option nat) (h1 h2 : LocalModelPiece.Heap E),
    laid_out (h1 ++ local_pieces (length h1) par mp ++ h2) (length h1) par mp.
Proof.
  induction mp as [mp IH] using piece_ind. intros par h1 h2.
  rewrite laid_out_eq. set (a := length h1).
  split.
  - rewrite local_pieces_eq. eexists. split.
    + rewrite lookup_app_r by (unfold a; lia).
      replace (a - length h1)%nat with 0%nat by (unfold a; lia). reflexivity.
    + destruct (new_members mp) as (Ho & _). repeat split. exact Ho.
  - rewrite local_pieces_eq.
    set (root := LocalModelPiece.with_children _ _).
    set (f := fun q c => local_pieces q (Some a) c).
    assert (G : forall (cs : list (S3DModelPiece.t E)),
               Forall (fun mp => forall par (h1 h2 : LocalModelPiece.Heap E),
                         laid_out (h1 ++ local_pieces (length h1) par mp ++ h2)
                                  (length h1) par mp) cs ->
               forall (H pre post : LocalModelPiece.Heap E) q,
                 H = pre ++ concat_children f q cs ++ post -> q = length pre ->
                 each_child (fun q c => laid_out H q (Some a) c) q cs).
    { clear. induction 1 as [|c cs Hc _ IHcs]; intros H pre post q HH Hq; [exact I|].
      cbn [each_child concat_children] in *. split.
      - subst H q. unfold f. rewrite <- app_assoc. apply Hc.
      - apply (IHcs H (pre ++ f q c) post).
        + subst H. rewrite <- !app_assoc. reflexivity.
        + rewrite length_app. unfold f. rewrite local_pieces_length. lia. }
    apply (G _ IH _ (h1 ++ [root]) h2).
    + rewrite <- !app_assoc. reflexivity.
    + rewrite length_app. cbn [length]. unfold a. lia.
Qed.

(** X25. The new pieces mirror the tree: the piece returned has no
    parent and points to the root as its original, and every new piece
    holds the addresses of the pieces made for the children of its
    original, in their order, each of which names it as its parent. *)
Theorem CreateLocalModelPieces_links {E} (mp : S3DModelPiece.t E) (n : Z)
    (h : LocalModelPiece.Heap E) (m : LocalModel.t) :
  let '(a, h', _) := LocalModel.CreateLocalModelPieces mp n h m in
  laid_out h' a None mp.
Proof.
  rewrite CreateLocalModelPieces_spec.
  pose proof (local_pieces_laid_out mp None h []) as H.
  rewrite app_nil_r in H. exact H.
Qed.

(** ** DrawPieces *)

Lemma gl_lists_app {E} (a b : list (GLcall E)) :
  gl_lists (a ++ b) = gl_lists a ++ gl_lists b.
Proof.
  induction a as [|c a IH]; [reflexivity|].
  destruct c; cbn; rewrite ?IH; reflexivity.
Qed.

(** The display lists of [DrawStatic] are those of the pieces that are
    not empty, parent first. *)
Lemma DrawStatic_lists {E} (p : S3DModelPiece.t E) :
  gl_lists (S3DModelPiece.DrawStatic p)
  = flat_map (fun q => if negb (S3DModelPiece.isEmpty q)
                       then [S3DModelPiece.dispListID q] else [])
             (piece_preorder p).
Proof.
  induction p as [p IH] using piece_ind.
  rewrite DrawStatic_eq, piece_preorder_eq. cbn [flat_map].
  rewrite !gl_lists_app.
  destruct (fne _ _); cbn [gl_lists app]; rewrite ?app_nil_r; f_equal.
  - destruct (negb _); reflexivity.
  - induction IH as [|c cs Hc _ IHcs]; [reflexivity|].
    cbn [flat_map]. rewrite gl_lists_app, flat_map_app, Hc, IHcs. reflexivity.
  - destruct (negb _); reflexivity.
  - induction IH as [|c cs Hc _ IHcs]; [reflexivity|].
    cbn [flat_map]. rewrite gl_lists_app, flat_map_app, Hc, IHcs. reflexivity.
Qed.

Lemma DrawPieces_loop_block {E} (h1 l h2 : LocalModelPiece.Heap E) :
  forall k : nat, (k <= length l)%nat ->
  LocalModel.DrawPieces_loop (h1 ++ l ++ h2) (seq (length h1 + k) (length l - k))
  = Some (flat_map LocalModelPiece.Draw (drop k l)).
Proof.
  intros k Hk. remember (length l - k)%nat as r eqn:Hr.
  revert k Hk Hr. induction r as [|r IH]; intros k Hk Hr.
  - cbn. rewrite drop_ge by lia. reflexivity.
  - cbn [seq LocalModel.DrawPieces_loop].
    destruct (lookup_lt_is_Some_2 l k ltac:(lia)) as (p & Hp).
    rewrite lookup_app_r by lia.
    replace (length h1 + k - length h1)%nat with k by lia.
    rewrite (lookup_app_l_Some _ _ _ _ Hp).
    replace (S (length h1 + k)) with (length h1 + S k)%nat by lia.
    rewrite (IH (S k)) by lia.
    rewrite (drop_S _ _ _ Hp). reflexivity.
Qed.

Lemma local_pieces_drawn {E} (mp : S3DModelPiece.t E) :
  forall a par,
    gl_lists (flat_map LocalModelPiece.Draw (local_pieces a par mp))
    = flat_map (fun q => if negb (S3DModelPiece.isEmpty q)
                         then [S3DModelPiece.dispListID q] else [])
               (piece_preorder mp).
Proof.
  induction mp as [mp IH] using piece_ind. intros a par.
  rewrite local_pieces_eq, piece_preorder_eq. cbn [flat_map]. rewrite gl_lists_app.
  f_equal.
  - destruct (new_members mp) as (_ & _ & _ & Hd & Hv & _).
    unfold LocalModelPiece.Draw.
    change (LocalModelPiece.scriptSetVisible (LocalModelPiece.with_children _ (LocalModelPiece.with_parent par (LocalModelPiece.new_ mp))))
      with (LocalModelPiece.scriptSetVisible (LocalModelPiece.new_ mp)).
    change (LocalModelPiece.dispListID (LocalModelPiece.with_children _ (LocalModelPiece.with_parent par (LocalModelPiece.new_ mp))))
      with (LocalModelPiece.dispListID (LocalModelPiece.new_ mp)).
    rewrite Hv, Hd. destruct (S3DModelPiece.isEmpty mp); reflexivity.
  - generalize (S a). induction IH as [|c cs Hc _ IHcs]; intros q; [reflexivity|].
    cbn [concat_children flat_map]. rewrite !flat_map_app, gl_lists_app, Hc, IHcs.
    reflexivity.
Qed.

(** X26. A local model made by [CreateLocalModelPieces] from no pieces
    draws, with [DrawPieces], the display lists that [DrawStatic] draws
    for the tree, in the same order. *)
Theorem DrawPieces_draws_the_model {E} (mp : S3DModelPiece.t E) (n : Z)
    (h : LocalModelPiece.Heap E) (m : LocalModel.t) :
  LocalModel.pieces m = [] ->
  let '(_, h', m') := LocalModel.CreateLocalModelPieces mp n h m in
  exists tr, LocalModel.DrawPieces h' m' = Some tr
             /\ gl_lists tr = gl_lists (S3DModelPiece.DrawStatic mp).
Proof.
  intros Hm. rewrite CreateLocalModelPieces_spec.
  unfold LocalModel.DrawPieces. cbn [LocalModel.pieces LocalModel.with_pieces].
  rewrite Hm. cbn [app].
  pose proof (DrawPieces_loop_block h (local_pieces (length h) None mp) [] 0%nat
                ltac:(lia)) as H.
  rewrite app_nil_r, Nat.add_0_r, Nat.sub_0_r, local_pieces_length in H.
  rewrite drop_0 in H. eexists. split; [exact H|].
  rewrite local_pieces_drawn, DrawStatic_lists. reflexivity.
Qed.

(** ** Trees in the heap *)

Lemma each_child_impl {E} (P Q : nat -> S3DModelPiece.t E -> Prop)
    (cs : list (S3DModelPiece.t E)) :
  Forall (fun c => forall q, P q c -> Q q c) cs ->
  forall q, each_child P q cs -> each_child Q q cs.
Proof.
  induction 1 as [|c cs Hc _ IH]; intros q H; [exact I|].
  destruct H as [H1 H2]. split; [apply Hc; exact H1|apply IH; exact H2].
Qed.

(** A piece in the range of the children lies in the range of one child. *)
Lemma each_child_find {E} (P : nat -> S3DModelPiece.t E -> Prop)
    (cs : list (S3DModelPiece.t E)) :
  forall q i, each_child P q cs ->
    (q <= i < q + list_sum (map piece_count cs))%nat ->
    exists c qc, In c cs /\ P qc c /\ (q <= qc)%nat /\ (qc <= i < qc + piece_count c)%nat.
Proof.
  induction cs as [|c cs IH]; intros q i H Hi.
  { change (list_sum (map piece_count [])) with 0%nat in Hi. lia. }
  change (list_sum (map piece_count (c :: cs)))
    with (piece_count c + list_sum (map piece_count cs))%nat in Hi.
  destruct H as [H1 H2].
  destruct (Nat.lt_ge_cases i (q + piece_count c)) as [Hlt|Hge].
  - exists c, q. split; [left; reflexivity|]. split; [exact H1|]. lia.
  - destruct (IH (q + piece_count c)%nat i H2 ltac:(lia)) as (c' & qc & Hin & HP & Hq & Hr).
    exists c', qc. split; [right; exact Hin|]. split; [exact HP|]. lia.
Qed.

(** [laid_out] reads the pointers of a piece only. *)
Lemma laid_out_ext {E} (h h' : LocalModelPiece.Heap E) (mp : S3DModelPiece.t E) :
  (forall i p, h !! i = Some p ->
     exists p', h' !! i = Some p'
                /\ LocalModelPiece.original p' = LocalModelPiece.original p
                /\ LocalModelPiece.parent p' = LocalModelPiece.parent p
                /\ LocalModelPiece.children p' = LocalModelPiece.children p) ->
  forall a par, laid_out h a par mp -> laid_out h' a par mp.
Proof.
  intros Hh. induction mp as [mp IH] using piece_ind. intros a par.
  rewrite !laid_out_eq. intros [(p & Hp & Ho & Hpar & Hc) Hcs]. split.
  - destruct (Hh a p Hp) as (p' & Hp' & Ho' & Hpar' & Hc').
    exists p'. rewrite Ho', Hpar', Hc'. auto.
  - revert Hcs. apply each_child_impl.
    eapply Forall_impl; [exact IH|]. intros c Hcc q. apply Hcc.
Qed.

(** Every address of the range holds a piece, and the parent of a piece
    other than the first lies before it in the range. *)
Lemma laid_out_block {E} (h : LocalModelPiece.Heap E) (mp : S3DModelPiece.t E) :
  forall a par, laid_out h a par mp ->
  forall i, (a <= i < a + piece_count mp)%nat ->
  exists p, h !! i = Some p
            /\ ((i = a /\ LocalModelPiece.parent p = par)
                \/ exists q, LocalModelPiece.parent p = Some q /\ (a <= q < i)%nat).
Proof.
  induction mp as [mp IH] using piece_ind. intros a par.
  rewrite laid_out_eq, piece_count_eq. intros [(p & Hp & _ & Hpar & _) Hcs] i Hi.
  destruct (Nat.eq_dec i a) as [->|Hne].
  - exists p. split; [exact Hp|]. left. split; [reflexivity|exact Hpar].
  - destruct (each_child_find _ _ (S a) i Hcs ltac:(lia)) as (c & qc & Hin & Hl & Hq & Hr).
    rewrite List.Forall_forall in IH.
    destruct (IH c Hin qc (Some a) Hl i Hr) as (pi & Hpi & [[-> Hpp]|(q & Hpp & Hqr)]).
    + exists pi. split; [exact Hpi|]. right. exists a. split; [exact Hpp|lia].
    + exists pi. split; [exact Hpi|]. right. exists q. split; [exact Hpp|lia].
Qed.

Lemma alter_range_lookup {E} (g : LocalModelPiece.t E -> LocalModelPiece.t E)
    (k : nat) :
  forall a (h : LocalModelPiece.Heap E) i,
    alter_range g a k h !! i
    = if decide (a <= i < a + k)%nat then g <$> h !! i else h !! i.
Proof.
  induction k as [|k IH]; intros a h i; cbn [alter_range].
  - destruct (decide _); [lia|reflexivity].
  - rewrite IH, list_lookup_alter.
    destruct (decide (S a <= i < S a + k)%nat), (decide (a = i)),
             (decide (a <= i < a + S k)%nat); try lia; try reflexivity.
    subst i. reflexivity.
Qed.

Lemma alter_range_length {E} (g : LocalModelPiece.t E -> LocalModelPiece.t E)
    (k : nat) :
  forall a (h : LocalModelPiece.Heap E), length (alter_range g a k h) = length h.
Proof.
  induction k as [|k IH]; intros a h; cbn [alter_range]; [reflexivity|].
  rewrite IH, length_alter. reflexivity.
Qed.

Lemma alter_range_add {E} (g : LocalModelPiece.t E -> LocalModelPiece.t E)
    (k1 k2 : nat) :
  forall a (h : LocalModelPiece.Heap E),
    alter_range g (a + k1) k2 (alter_range g a k1 h) = alter_range g a (k1 + k2) h.
Proof.
  induction k1 as [|k1 IH]; intros a h; cbn [alter_range Nat.add].
  - rewrite Nat.add_0_r. reflexivity.
  - rewrite <- IH. f_equal. lia.
Qed.

Lemma insert_as_alter {E} (g : LocalModelPiece.t E -> LocalModelPiece.t E)
    (h : LocalModelPiece.Heap E) (a : nat) (p : LocalModelPiece.t E) :
  h !! a = Some p -> <[a := g p]> h = alter g a h.
Proof.
  intros Hp. apply list_eq. intros i.
  rewrite list_lookup_insert, list_lookup_alter.
  pose proof (lookup_lt_Some _ _ _ Hp).
  destruct (decide (a = i)) as [<-|]; destruct (decide _) as [[]|]; try lia; try reflexivity;
    try contradiction.
  rewrite Hp. reflexivity.
Qed.

(** ** SetLODCount *)

Lemma SetLODCount_eq {E} (fuel : nat) (this : nat) (count : Z)
    (h : LocalModelPiece.Heap E) :
  LocalModelPiece.SetLODCount (S fuel) this count h
  = match h !! this with
    | None => None
    | Some p =>
      LocalModelPiece.SetLODCount_loop fuel count (LocalModelPiece.children p)
        (<[this := LocalModelPiece.with_lodDispLists
                     (LocalModelPiece.SetLODCount_lists count
                        (LocalModelPiece.lodDispLists p)) p]> h)
    end.
Proof.
  cbn [LocalModelPiece.SetLODCount]. destruct (h !! this) as [p|]; [|reflexivity].
  generalize (<[this := LocalModelPiece.with_lodDispLists
                          (LocalModelPiece.SetLODCount_lists count
                             (LocalModelPiece.lodDispLists p)) p]> h).
  induction (LocalModelPiece.children p) as [|c cs IH]; intros h0; [reflexivity|].
  cbn [LocalModelPiece.SetLODCount_loop].
  destruct (LocalModelPiece.SetLODCount fuel c count h0); [apply IH|reflexivity].
Qed.

(** New entries of [resize] are zero already; the loop leaves the
    lists as [resize] made them. *)
Lemma SetLODCount_lists_resize (count : Z) (l : list Z) :
  Z.of_nat (length l) < UINT_MOD ->
  LocalModelPiece.SetLODCount_lists count l = resize (Z.to_nat count) 0 l.
Proof.
  intros Hl. unfold LocalModelPiece.SetLODCount_lists.
  unfold uint_wrap. rewrite Z.mod_small by lia. rewrite Nat2Z.id.
  set (n := Z.to_nat count).
  replace (Z.to_nat (count - Z.of_nat (length l))) with (n - length l)%nat by lia.
  assert (G : forall (idx : list nat) (r : list Z),
             Forall (fun i => r !! i = Some 0) idx ->
             fold_left (fun l i => <[i := 0]> l) idx r = r).
  { induction idx as [|i idx IH]; intros r Hr; [reflexivity|].
    cbn [fold_left]. apply Forall_cons in Hr. destruct Hr as [Hi Hr].
    rewrite (list_insert_id _ _ _ Hi). apply IH. exact Hr. }
  apply G. apply List.Forall_forall. intros i Hi. apply in_seq in Hi.
  apply lookup_resize_new; lia.
Qed.

Lemma list_max_le (l : list nat) (n x : nat) :
  (list_max l <= n)%nat -> In x l -> (x <= n)%nat.
Proof.
  induction l as [|y l IH]; intros H [].
  - subst. change (list_max (x :: l)) with (Nat.max x (list_max l)) in H. lia.
  - change (list_max (y :: l)) with (Nat.max y (list_max l)) in H. apply IH; [lia|assumption].
Qed.

Lemma SetLODCount_block {E} (count : Z) (mp : S3DModelPiece.t E) :
  forall fuel a par (h : LocalModelPiece.Heap E),
    laid_out h a par mp -> (piece_height mp <= fuel)%nat ->
    LocalModelPiece.SetLODCount fuel a count h
    = Some (alter_range (SetLODCount_piece count) a (piece_count mp) h).
Proof.
  induction mp as [mp IH] using piece_ind. intros fuel a par h.
  rewrite laid_out_eq, piece_height_eq, piece_count_eq.
  intros [(p & Hp & _ & _ & Hc) Hcs] Hf.
  destruct fuel as [|fuel]; [lia|]. apply le_S_n in Hf.
  rewrite SetLODCount_eq, Hp, Hc.
  change (LocalModelPiece.with_lodDispLists _ p) with (SetLODCount_piece count p).
  rewrite (insert_as_alter _ _ _ _ Hp). cbn [alter_range].
  assert (Hext : forall h0 : LocalModelPiece.Heap E, forall k q i p0,
             h0 !! i = Some p0 ->
             exists p', alter_range (SetLODCount_piece count) q k h0 !! i = Some p'
                        /\ LocalModelPiece.original p' = LocalModelPiece.original p0
                        /\ LocalModelPiece.parent p' = LocalModelPiece.parent p0
                        /\ LocalModelPiece.children p' = LocalModelPiece.children p0).
  { intros h0 k q i p0 H0. rewrite alter_range_lookup, H0.
    destruct (decide _); eexists; (split; [reflexivity|]); repeat split. }
  assert (Hcs1 : each_child (fun q c => laid_out (alter (SetLODCount_piece count) a h)
                                                 q (Some a) c)
                            (S a) (S3DModelPiece.children mp)).
  { revert Hcs. apply each_child_impl. apply List.Forall_forall. intros c _ q.
    apply laid_out_ext. intros i p0 H0.
    destruct (Hext h 1%nat a i p0 H0) as (p' & Hp' & R). exists p'. split; [|exact R].
    exact Hp'. }
  revert Hcs1. generalize (alter (SetLODCount_piece count) a h).
  assert (Hh : Forall (fun c => (piece_height c <= fuel)%nat) (S3DModelPiece.children mp)).
  { apply List.Forall_forall. intros c Hin. apply (list_max_le _ _ _ Hf).
    apply in_map. exact Hin. }
  clear Hcs Hp Hc Hf p h. generalize (S a) as q.
  induction IH as [|c cs Hc _ IHcs]; intros q h Hcs.
  - reflexivity.
  - apply Forall_cons in Hh. destruct Hh as [Hh1 Hh2]. destruct Hcs as [H1 H2].
    cbn [child_addrs LocalModelPiece.SetLODCount_loop map list_sum].
    rewrite (Hc fuel q (Some a) h H1 Hh1).
    rewrite (IHcs Hh2 (q + piece_count c)%nat).
    + rewrite alter_range_add. reflexivity.
    + revert H2. apply each_child_impl. apply List.Forall_forall. intros c' _ q'.
      apply laid_out_ext. intros i p0 H0. apply Hext. exact H0.
Qed.

(** X27. On a tree of local pieces [SetLODCount] returns (given fuel for
    the height of the tree), gives every piece of the tree [count] LOD
    display lists, of which the first are the ones the piece had and
    the new ones are zero, and writes nothing else. *)
Theorem SetLODCount_whole_tree {E} (h : LocalModelPiece.Heap E) (a : nat)
    (par : option nat) (mp : S3DModelPiece.t E) (fuel : nat) (count : Z) :
  laid_out h a par mp -> (piece_height mp <= fuel)%nat ->
  exists h',
    LocalModelPiece.SetLODCount fuel a count h = Some h'
    /\ length h' = length h
    /\ (forall i, (i < a \/ a + piece_count mp <= i)%nat -> h' !! i = h !! i)
    /\ (forall i, (a <= i < a + piece_count mp)%nat ->
          exists p l,
            h !! i = Some p
            /\ h' !! i = Some (LocalModelPiece.with_lodDispLists l p)
            /\ (Z.of_nat (length (LocalModelPiece.lodDispLists p)) < UINT_MOD ->
                l = resize (Z.to_nat count) 0 (LocalModelPiece.lodDispLists p))).
Proof.
  intros Hl Hf. eexists. split; [apply (SetLODCount_block count mp fuel a par h Hl Hf)|].
  split; [apply alter_range_length|]. split.
  - intros i Hi. rewrite alter_range_lookup. destruct (decide _); [lia|reflexivity].
  - intros i Hi. destruct (laid_out_block h mp a par Hl i Hi) as (p & Hp & _).
    exists p, (LocalModelPiece.SetLODCount_lists count (LocalModelPiece.lodDispLists p)).
    split; [exact Hp|]. split.
    + rewrite alter_range_lookup, Hp. destruct (decide _); [reflexivity|lia].
    + apply SetLODCount_lists_resize.
Qed.

(** ** UpdateMatricesRec *)

Lemma UpdateMatricesRec_eq {E} (fuel : nat) (this : nat) (flag : bool)
    (h : LocalModelPiece.Heap E) :
  LocalModelPiece.UpdateMatricesRec (S fuel) this flag h
  = match h !! this with
    | None => None
    | Some p =>
      let p1 := fst (LocalModelPiece.UpdateMatricesRec_own p flag) in
      let flag1 := snd (LocalModelPiece.UpdateMatricesRec_own p flag) in
      match LocalModelPiece.UpdateMatricesRec_model (<[this := p1]> h) p1 flag1 with
      | None => None
      | Some p2 =>
        LocalModelPiece.UpdateMatricesRec_loop fuel flag1 (LocalModelPiece.children p2)
          (<[this := p2]> (<[this := p1]> h))
      end
    end.
Proof.
  cbn [LocalModelPiece.UpdateMatricesRec]. destruct (h !! this) as [p|]; [|reflexivity].
  destruct (LocalModelPiece.UpdateMatricesRec_own p flag) as [p1 flag1]. cbn [fst snd].
  destruct (LocalModelPiece.UpdateMatricesRec_model _ p1 flag1) as [p2|]; [|reflexivity].
  generalize (<[this := p2]> (<[this := p1]> h)).
  induction (LocalModelPiece.children p2) as [|c cs IH]; intros h0; [reflexivity|].
  cbn [LocalModelPiece.UpdateMatricesRec_loop].
  destruct (LocalModelPiece.UpdateMatricesRec fuel c flag1 h0); [apply IH|reflexivity].
Qed.

(** Lines 169-173 write the update counter, the piece-space matrix and
    [identityTransform], and leave a piece that is up to date alone. *)
Lemma UpdateMatricesRec_own_spec {E} (p : LocalModelPiece.t E) (flag : bool) :
  fst (LocalModelPiece.UpdateMatricesRec_own p flag)
  = fst (LocalModelPiece.UpdateMatricesRec_own p false)
  /\ snd (LocalModelPiece.UpdateMatricesRec_own p flag)
     = negb (LocalModelPiece.lastMatrixUpdate p =? LocalModelPiece.numUpdatesSynced p)
       || flag
  /\ matrices_clean (fst (LocalModelPiece.UpdateMatricesRec_own p flag))
  /\ LocalModelPiece.original (fst (LocalModelPiece.UpdateMatricesRec_own p flag))
     = LocalModelPiece.original p
  /\ LocalModelPiece.parent (fst (LocalModelPiece.UpdateMatricesRec_own p flag))
     = LocalModelPiece.parent p
  /\ LocalModelPiece.children (fst (LocalModelPiece.UpdateMatricesRec_own p flag))
     = LocalModelPiece.children p
  /\ LocalModelPiece.modelSpaceMat (fst (LocalModelPiece.UpdateMatricesRec_own p flag))
     = LocalModelPiece.modelSpaceMat p
  /\ (matrices_clean p -> fst (LocalModelPiece.UpdateMatricesRec_own p flag) = p).
Proof.
  unfold LocalModelPiece.UpdateMatricesRec_own, matrices_clean.
  destruct (LocalModelPiece.lastMatrixUpdate p =? LocalModelPiece.numUpdatesSynced p) eqn:Hc;
    cbn [negb orb].
  - apply Z.eqb_eq in Hc. cbn [fst snd]. repeat split; auto.
  - match goal with |- context [LocalModelPiece.UpdateMatrix ?x] =>
      destruct (UpdateMatrix_writes x) as (mt & Hm);
      destruct (LocalModelPiece.UpdateMatrix x) as [p' r] end.
    cbn [fst snd] in *. subst p'. cbn. repeat split.
    intros H. apply Z.eqb_neq in Hc. contradiction.
Qed.

Lemma model_matrix_ok_ext {E} (h h' : LocalModelPiece.Heap E) (p : LocalModelPiece.t E) :
  (forall q, LocalModelPiece.parent p = Some q -> h' !! q = h !! q) ->
  model_matrix_ok h p -> model_matrix_ok h' p.
Proof.
  unfold model_matrix_ok. intros Hq.
  destruct (LocalModelPiece.parent p) as [q|]; [|auto].
  rewrite (Hq q eq_refl). auto.
Qed.

(** Lines 175-181. *)
Lemma UpdateMatricesRec_model_spec {E} (h : LocalModelPiece.Heap E)
    (p : LocalModelPiece.t E) (flag : bool) :
  match LocalModelPiece.parent p with
  | Some q => is_Some (h !! q)
  | None => True
  end ->
  exists p2,
    LocalModelPiece.UpdateMatricesRec_model h p flag = Some p2
    /\ p2 = LocalModelPiece.with_modelSpaceMat (LocalModelPiece.modelSpaceMat p2) p
    /\ (flag = true -> model_matrix_ok h p2)
    /\ (flag = false -> p2 = p).
Proof.
  unfold LocalModelPiece.UpdateMatricesRec_model, model_matrix_ok. intros Hq.
  destruct flag.
  - destruct (LocalModelPiece.parent p) as [q|] eqn:Hp.
    + destruct Hq as (pq & Hpq). rewrite Hpq. eexists. split; [reflexivity|].
      split; [reflexivity|]. split; [|discriminate]. intros _.
      cbn [LocalModelPiece.parent LocalModelPiece.with_modelSpaceMat]. rewrite Hp.
      exists pq. split; [exact Hpq|reflexivity].
    + eexists. split; [reflexivity|]. split; [reflexivity|]. split; [|discriminate].
      intros _. cbn [LocalModelPiece.parent LocalModelPiece.with_modelSpaceMat].
      rewrite Hp. reflexivity.
  - exists p. split; [reflexivity|]. split; [destruct p; reflexivity|].
    split; [discriminate|reflexivity].
Qed.

(** The parents of the pieces made for the children of the piece at
    [a]. *)
Lemma children_parents {E} (h : LocalModelPiece.Heap E) (a : nat)
    (cs : list (S3DModelPiece.t E)) (q i : nat) :
  each_child (fun q c => laid_out h q (Some a) c) q cs ->
  (q <= i < q + list_sum (map piece_count cs))%nat ->
  exists p t, h !! i = Some p /\ LocalModelPiece.parent p = Some t
              /\ (t = a \/ (q <= t < i)%nat).
Proof.
  intros Hcs Hi.
  destruct (each_child_find _ _ q i Hcs Hi) as (c & qc & _ & Hl & Hq & Hr).
  destruct (laid_out_block h c qc (Some a) Hl i Hr) as (p & Hp & [[-> Hpar]|(t & Hpar & Ht)]).
  - exists p, a. auto.
  - exists p, t. split; [exact Hp|]. split; [exact Hpar|]. right. lia.
Qed.

Lemma matrices_updated_structure {E} (h h' : LocalModelPiece.Heap E) (a k : nat) :
  matrices_updated h h' a k ->
  forall i p, h !! i = Some p ->
    exists p', h' !! i = Some p'
               /\ LocalModelPiece.original p' = LocalModelPiece.original p
               /\ LocalModelPiece.parent p' = LocalModelPiece.parent p
               /\ LocalModelPiece.children p' = LocalModelPiece.children p.
Proof.
  intros (_ & Hout & Hin) i p Hp.
  destruct (decide (a <= i < a + k)%nat) as [Hi|Hi].
  - destruct (Hin i Hi) as (p0 & p' & H0 & H' & Heq & _).
    rewrite Hp in H0. injection H0 as <-. exists p'. split; [exact H'|].
    destruct (UpdateMatricesRec_own_spec p false) as (_ & _ & _ & Ho & Hpa & Hc & _).
    rewrite Heq. cbn. auto.
  - exists p. rewrite Hout by lia. auto.
Qed.

(** Two ranges that follow each other. *)
Lemma matrices_updated_add {E} (h h1 h2 : LocalModelPiece.Heap E) (q k1 k2 : nat) :
  matrices_updated h h1 q k1 -> matrices_updated h1 h2 (q + k1) k2 ->
  (forall i p t, (q <= i < q + k1)%nat -> h !! i = Some p ->
                 LocalModelPiece.parent p = Some t -> (t < q + k1)%nat) ->
  matrices_updated h h2 q (k1 + k2).
Proof.
  intros (L1 & O1 & I1) (L2 & O2 & I2) Hpar. split; [congruence|]. split.
  - intros i Hi. rewrite O2, O1 by lia. reflexivity.
  - intros i Hi. destruct (Nat.lt_ge_cases i (q + k1)) as [Hlt|Hge].
    + destruct (I1 i ltac:(lia)) as (p & p' & Hp & Hp' & Heq & Hcl & Hok).
      exists p, p'. split; [exact Hp|]. split; [rewrite O2 by lia; exact Hp'|].
      split; [exact Heq|]. split; [exact Hcl|].
      revert Hok. apply model_matrix_ok_ext. intros t Ht. apply O2. left.
      apply (Hpar i p t ltac:(lia) Hp).
      destruct (UpdateMatricesRec_own_spec p false) as (_ & _ & _ & _ & Hpa & _).
      rewrite <- Hpa. rewrite Heq in Ht. exact Ht.
    + destruct (I2 i ltac:(lia)) as (p & p' & Hp & Hp' & R).
      exists p, p'. split; [rewrite <- O1 by lia; exact Hp|]. split; [exact Hp'|exact R].
Qed.

Lemma matrices_updated_nil {E} (h : LocalModelPiece.Heap E) (q : nat) :
  matrices_updated h h q 0.
Proof. split; [reflexivity|]. split; [reflexivity|]. intros i Hi. lia. Qed.

Lemma UpdateMatricesRec_loop_block {E} (fuel a : nat) (flag : bool)
    (cs : list (S3DModelPiece.t E)) :
  Forall (fun mp => forall fuel a par flag (h : LocalModelPiece.Heap E),
            laid_out h a par mp ->
            match par with
            | Some q => (q < a)%nat /\ is_Some (h !! q)
            | None => True
            end ->
            (piece_height mp <= fuel)%nat ->
            (flag = false ->
             forall i p, (a <= i < a + piece_count mp)%nat -> h !! i = Some p ->
                         matrices_clean p -> model_matrix_ok h p) ->
            exists h', LocalModelPiece.UpdateMatricesRec fuel a flag h = Some h'
                       /\ matrices_updated h h' a (piece_count mp)) cs ->
  Forall (fun c => (piece_height c <= fuel)%nat) cs ->
  forall q (h : LocalModelPiece.Heap E),
    each_child (fun q c => laid_out h q (Some a) c) q cs ->
    (a < q)%nat -> is_Some (h !! a) ->
    (flag = false ->
     forall i p, (q <= i < q + list_sum (map piece_count cs))%nat -> h !! i = Some p ->
                 matrices_clean p -> model_matrix_ok h p) ->
    exists h', LocalModelPiece.UpdateMatricesRec_loop fuel flag (child_addrs q cs) h = Some h'
               /\ matrices_updated h h' q (list_sum (map piece_count cs)).
Proof.
  induction 1 as [|c cs Hc _ IH]; intros Hh q h Hcs Haq Ha Hpre.
  - exists h. split; [reflexivity|apply matrices_updated_nil].
  - apply Forall_cons in Hh. destruct Hh as [Hh1 Hh2].
    pose proof Hcs as [Hl1 Hl2].
    change (list_sum (map piece_count (c :: cs)))
      with (piece_count c + list_sum (map piece_count cs))%nat in *.
    cbn [child_addrs LocalModelPiece.UpdateMatricesRec_loop].
    destruct (Hc fuel q (Some a) flag h Hl1 (conj Haq Ha) Hh1) as (h1 & -> & U1).
    { intros Hf i p Hi. apply (Hpre Hf). lia. }
    pose proof (matrices_updated_structure _ _ _ _ U1) as Hst.
    destruct U1 as (L1 & O1 & I1).
    destruct (IH Hh2 (q + piece_count c)%nat h1) as (h2 & -> & U2).
    + revert Hl2. apply each_child_impl. apply List.Forall_forall. intros c' _ q'.
      apply laid_out_ext. exact Hst.
    + lia.
    + rewrite O1 by lia. exact Ha.
    + intros Hf i p Hi Hp Hcl.
      rewrite O1 in Hp by lia.
      pose proof (Hpre Hf i p ltac:(lia) Hp Hcl) as Hok.
      revert Hok. apply model_matrix_ok_ext. intros t Ht. apply O1.
      destruct (children_parents h a cs (q + piece_count c) i Hl2 Hi)
        as (p0 & t0 & Hp0 & Hpar0 & Ht0).
      rewrite Hp in Hp0. injection Hp0 as <-. rewrite Ht in Hpar0. injection Hpar0 as <-.
      lia.
    + exists h2. split; [reflexivity|].
      apply (matrices_updated_add h h1 h2 q); [exact (conj L1 (conj O1 I1))|exact U2|].
      intros i p t Hi Hp Ht.
      destruct (laid_out_block h c q (Some a) Hl1 i Hi)
        as (p0 & Hp0 & [[-> Hpar0]|(t0 & Hpar0 & Ht0)]);
        rewrite Hp in Hp0; injection Hp0 as <-; rewrite Ht in Hpar0;
        injection Hpar0 as ->; lia.
Qed.

Lemma UpdateMatricesRec_block {E} (mp : S3DModelPiece.t E) :
  forall fuel a par flag (h : LocalModelPiece.Heap E),
    laid_out h a par mp ->
    match par with
    | Some q => (q < a)%nat /\ is_Some (h !! q)
    | None => True
    end ->
    (piece_height mp <= fuel)%nat ->
    (flag = false ->
     forall i p, (a <= i < a + piece_count mp)%nat -> h !! i = Some p ->
                 matrices_clean p -> model_matrix_ok h p) ->
    exists h', LocalModelPiece.UpdateMatricesRec fuel a flag h = Some h'
               /\ matrices_updated h h' a (piece_count mp).
Proof.
  induction mp as [mp IH] using piece_ind. intros fuel a par flag h Hl Hpar Hf Hpre.
  rewrite laid_out_eq in Hl. destruct Hl as [(p & Hp & Ho & Hpp & Hc) Hcs].
  rewrite piece_height_eq in Hf. rewrite piece_count_eq in Hpre |- *.
  destruct fuel as [|fuel]; [lia|]. apply le_S_n in Hf.
  assert (Hh : Forall (fun c => (piece_height c <= fuel)%nat) (S3DModelPiece.children mp)).
  { apply List.Forall_forall. intros c Hin. apply (list_max_le _ _ _ Hf).
    apply in_map. exact Hin. }
  rewrite UpdateMatricesRec_eq, Hp. cbv zeta.
  destruct (UpdateMatricesRec_own_spec p flag)
    as (Hfst & Hsnd & Hcl1 & Ho1 & Hpa1 & Hch1 & Hm1 & Hid).
  set (p1 := fst (LocalModelPiece.UpdateMatricesRec_own p flag)) in *.
  set (flag1 := snd (LocalModelPiece.UpdateMatricesRec_own p flag)) in *.
  pose proof (lookup_lt_Some _ _ _ Hp) as Ha.
  destruct (UpdateMatricesRec_model_spec (<[a := p1]> h) p1 flag1)
    as (p2 & -> & Heq2 & Hok2 & Hsame2).
  { rewrite Hpa1, Hpp. destruct par as [q|]; [|exact I]. destruct Hpar as [Hq Hsome].
    rewrite list_lookup_insert_ne by lia. exact Hsome. }
  set (h2 := <[a := p2]> (<[a := p1]> h)).
  assert (H2a : h2 !! a = Some p2).
  { unfold h2. apply list_lookup_insert_eq. rewrite length_insert. exact Ha. }
  assert (H2o : forall i, i <> a -> h2 !! i = h !! i).
  { intros i Hi. unfold h2. rewrite !list_lookup_insert_ne by auto. reflexivity. }
  assert (L2 : length h2 = length h).
  { unfold h2. rewrite !length_insert. reflexivity. }
  assert (Hst2 : LocalModelPiece.original p2 = LocalModelPiece.original p
                 /\ LocalModelPiece.parent p2 = LocalModelPiece.parent p
                 /\ LocalModelPiece.children p2 = LocalModelPiece.children p
                 /\ matrices_clean p2).
  { rewrite Heq2. cbn. unfold matrices_clean in *. cbn. auto. }
  destruct Hst2 as (Ho2 & Hpa2 & Hch2 & Hcl2).
  assert (Hclean : flag1 = false -> flag = false /\ p2 = p /\ matrices_clean p).
  { intros H1. rewrite H1 in *. symmetry in Hsnd. apply orb_false_elim in Hsnd.
    destruct Hsnd as [Hd ->]. apply negb_false_iff, Z.eqb_eq in Hd.
    split; [reflexivity|]. split; [|exact Hd].
    rewrite (Hsame2 eq_refl). apply Hid. exact Hd. }
  rewrite Hch2, Hc.
  destruct (UpdateMatricesRec_loop_block fuel a flag1 _ IH Hh (S a) h2) as (h' & -> & U).
  - revert Hcs. apply each_child_impl. apply List.Forall_forall. intros c _ q.
    apply laid_out_ext. intros i p0 H0.
    destruct (Nat.eq_dec i a) as [->|Hne].
    + rewrite Hp in H0. injection H0 as <-. exists p2. auto.
    + exists p0. rewrite H2o by exact Hne. auto.
  - lia.
  - exists p2. exact H2a.
  - intros H1 i p0 Hi H0 Hcl0. destruct (Hclean H1) as (Hflag & Hp2 & _).
    assert (Hall : forall t, h2 !! t = h !! t).
    { intros t. destruct (Nat.eq_dec t a) as [->|Hne]; [|apply H2o; exact Hne].
      rewrite H2a, Hp, Hp2. reflexivity. }
    rewrite Hall in H0.
    pose proof (Hpre Hflag i p0 ltac:(lia) H0 Hcl0) as Hok.
    revert Hok. apply model_matrix_ok_ext. intros t _. apply Hall.
  - exists h'. split; [reflexivity|].
    destruct U as (LU & OU & IU). split; [congruence|]. split.
    + intros i Hi. rewrite OU by lia. apply H2o. lia.
    + intros i Hi. destruct (Nat.eq_dec i a) as [->|Hne].
      * exists p, p2. split; [exact Hp|]. split; [rewrite OU by lia; exact H2a|].
        split; [rewrite <- Hfst; exact Heq2|]. split; [exact Hcl2|].
        assert (Hpt : forall t, LocalModelPiece.parent p2 = Some t ->
                        (t < a)%nat /\ h' !! t = h !! t).
        { intros t Ht. rewrite Hpa2, Hpp in Ht. rewrite Ht in Hpar. destruct Hpar as [Hq _].
          split; [exact Hq|]. rewrite OU by lia. apply H2o. lia. }
        destruct flag1 eqn:H1.
        -- pose proof (Hok2 eq_refl) as Hok. revert Hok. apply model_matrix_ok_ext.
           intros t Ht. destruct (Hpt t Ht) as [Hq ->].
           rewrite list_lookup_insert_ne by lia. reflexivity.
        -- destruct (Hclean eq_refl) as (Hflag & Hp2 & Hclp).
           pose proof (Hpre Hflag a p ltac:(lia) Hp Hclp) as Hok.
           rewrite Hp2 in *. revert Hok. apply model_matrix_ok_ext.
           intros t Ht. destruct (Hpt t Ht) as [_ Hq]. exact Hq.
      * destruct (IU i ltac:(lia)) as (p0 & p' & H0 & H' & R).
        exists p0, p'. split; [rewrite <- H2o by exact Hne; exact H0|].
        split; [exact H'|exact R].
Qed.

(** X28. On a tree of local pieces [UpdateMatricesRec] returns (given
    fuel for the height of the tree; the parent of the root, if any,
    lies before the tree) and leaves every piece of the tree up to
    date: its update counter seen, its model-space matrix the product
    of its piece-space matrix and the model-space matrix of its parent.
    Called with [false] this needs the pieces that were up to date to
    have a model-space matrix that fits their parent's. Nothing but
    the update counter, [identityTransform] and the two matrices of
    pieces of the tree is written. *)
Theorem UpdateMatricesRec_brings_up_to_date {E} (h : LocalModelPiece.Heap E) (a : nat)
    (par : option nat) (mp : S3DModelPiece.t E) (fuel : nat) (flag : bool) :
  laid_out h a par mp ->
  match par with
  | Some q => (q < a)%nat /\ is_Some (h !! q)
  | None => True
  end ->
  (piece_height mp <= fuel)%nat ->
  (flag = false ->
   forall i p, (a <= i < a + piece_count mp)%nat -> h !! i = Some p ->
               matrices_clean p -> model_matrix_ok h p) ->
  exists h',
    LocalModelPiece.UpdateMatricesRec fuel a flag h = Some h'
    /\ length h' = length h
    /\ (forall i, (i < a \/ a + piece_count mp <= i)%nat -> h' !! i = h !! i)
    /\ (forall i, (a <= i < a + piece_count mp)%nat ->
          exists p p',
            h !! i = Some p /\ h' !! i = Some p'
            /\ p' = LocalModelPiece.with_modelSpaceMat (LocalModelPiece.modelSpaceMat p')
                      (fst (LocalModelPiece.UpdateMatricesRec_own p false))
            /\ LocalModelPiece.lastMatrixUpdate p' = LocalModelPiece.numUpdatesSynced p'
            /\ match LocalModelPiece.parent p' with
               | None => LocalModelPiece.modelSpaceMat p' = LocalModelPiece.pieceSpaceMat p'
               | Some q =>
                 exists pq, h' !! q = Some pq
                            /\ LocalModelPiece.modelSpaceMat p'
                               = Mul E (LocalModelPiece.pieceSpaceMat p')
                                       (LocalModelPiece.modelSpaceMat pq)
               end).
Proof.
  intros Hl Hpar Hf Hpre.
  destruct (UpdateMatricesRec_block mp fuel a par flag h Hl Hpar Hf Hpre) as (h' & He & U).
  exists h'. split; [exact He|]. exact U.
Qed.

(** ** A new local model *)

(** The pieces that the constructor has made: no LOD display lists, and
    an update counter that has not been seen. *)
Lemma local_pieces_new {E} (mp : S3DModelPiece.t E) :
  forall a par,
    Forall (fun p => LocalModelPiece.lodDispLists p = []
                     /\ LocalModelPiece.lastMatrixUpdate p = 0
                     /\ LocalModelPiece.numUpdatesSynced p = 1)
           (local_pieces a par mp).
Proof.
  induction mp as [mp IH] using piece_ind. intros a par.
  rewrite local_pieces_eq. constructor.
  - destruct (new_members mp) as (_ & _ & _ & _ & _ & Hl & Hn & Hu). cbn. auto.
  - generalize (S a). induction IH as [|c cs Hc _ IHcs]; intros q; [constructor|].
    cbn [concat_children]. apply Forall_app. split; [apply Hc|apply IHcs].
Qed.

Lemma new_model_lookup {E} (mp : S3DModelPiece.t E) (h : LocalModelPiece.Heap E)
    (par : option nat) (i : nat) :
  (length h <= i < length h + piece_count mp)%nat ->
  exists p, (h ++ local_pieces (length h) par mp) !! i = Some p
            /\ LocalModelPiece.lodDispLists p = []
            /\ LocalModelPiece.lastMatrixUpdate p = 0
            /\ LocalModelPiece.numUpdatesSynced p = 1.
Proof.
  intros Hi. rewrite lookup_app_r by lia.
  destruct (lookup_lt_is_Some_2 (local_pieces (length h) par mp) (i - length h))
    as (p & Hp); [rewrite local_pieces_length; lia|].
  exists p. split; [exact Hp|].
  exact (Forall_lookup_1 _ _ _ _ (local_pieces_new mp (length h) par) Hp).
Qed.

(** X29. After [CreateLocalModelPieces] has made a model from no
    pieces, [LocalModel::SetLODCount] returns, stores the count, and
    leaves every piece of the model with [count] LOD display lists, all
    of them zero. *)
Theorem new_model_SetLODCount {E} (mp : S3DModelPiece.t E) (n count : Z)
    (h : LocalModelPiece.Heap E) (m : LocalModel.t) :
  LocalModel.pieces m = [] ->
  let '(a, h', m') := LocalModel.CreateLocalModelPieces mp n h m in
  exists h'',
    LocalModel.SetLODCount (piece_height mp) count h' m'
    = Some (h'', LocalModel.with_lodCount count m')
    /\ (forall i, (i < length h)%nat -> h'' !! i = h !! i)
    /\ forall i, (a <= i < a + piece_count mp)%nat ->
         exists p, h'' !! i = Some p
                   /\ LocalModelPiece.lodDispLists p = replicate (Z.to_nat count) 0.
Proof.
  intros Hm. rewrite CreateLocalModelPieces_spec.
  pose proof (local_pieces_laid_out mp None h []) as Hl. rewrite app_nil_r in Hl.
  pose proof (SetLODCount_block count mp (piece_height mp) (length h) None _ Hl (le_n _))
    as Hs.
  eexists. split; [|split].
  - unfold LocalModel.SetLODCount.
    cbn [LocalModel.pieces LocalModel.with_pieces LocalModel.with_lodCount].
    rewrite Hm, piece_count_eq. cbn [app seq lookup list_lookup].
    rewrite piece_count_eq in Hs. rewrite Hs. reflexivity.
  - intros i Hi. rewrite alter_range_lookup.
    destruct (decide _); [lia|]. apply lookup_app_l. exact Hi.
  - intros i Hi. destruct (new_model_lookup mp h None i Hi) as (p & Hp & Hlod & _).
    rewrite piece_count_eq in Hi.
    rewrite alter_range_lookup, Hp. destruct (decide _); [|lia].
    eexists. split; [reflexivity|]. unfold SetLODCount_piece. cbn.
    rewrite Hlod, SetLODCount_lists_resize by (cbn; unfold UINT_MOD; lia).
    apply resize_nil.
Qed.

(** X30. After [CreateLocalModelPieces] a single [UpdateMatricesRec] on
    the piece returned, with either value of the flag, returns and
    brings the matrices of all pieces of the model up to date; it
    writes to no piece that existed before. *)
Theorem new_model_UpdateMatricesRec {E} (mp : S3DModelPiece.t E) (n : Z) (flag : bool)
    (h : LocalModelPiece.Heap E) (m : LocalModel.t) :
  let '(a, h', _) := LocalModel.CreateLocalModelPieces mp n h m in
  exists h'',
    LocalModelPiece.UpdateMatricesRec (piece_height mp) a flag h' = Some h''
    /\ (forall i, (i < length h)%nat -> h'' !! i = h !! i)
    /\ forall i, (a <= i < a + piece_count mp)%nat ->
         exists p, h'' !! i = Some p /\ matrices_clean p /\ model_matrix_ok h'' p.
Proof.
  rewrite CreateLocalModelPieces_spec.
  pose proof (local_pieces_laid_out mp None h []) as Hl. rewrite app_nil_r in Hl.
  destruct (UpdateMatricesRec_block mp (piece_height mp) (length h) None flag _ Hl I
              (le_n _)) as (h'' & He & (_ & Ho & Hi)).
  { intros _ i p Hi Hp Hcl. exfalso.
    destruct (new_model_lookup mp h None i Hi) as (p0 & Hp0 & _ & Hu & Hn).
    rewrite Hp in Hp0. injection Hp0 as <-. unfold matrices_clean in Hcl.
    rewrite Hu, Hn in Hcl. discriminate Hcl. }
  exists h''. split; [exact He|]. split.
  - intros i Hlt. rewrite Ho by lia. apply lookup_app_l. exact Hlt.
  - intros i Hr. destruct (Hi i Hr) as (p & p' & _ & Hp' & _ & Hcl & Hok).
    exists p'. auto.
Qed.

Lemma Demo3D_heap_laid_out : laid_out Demo3D.heap 0 None Demo3D.base.
Proof.
  unfold Demo3D.heap. rewrite CreateLocalModelPieces_spec. cbn [fst snd length app].
  pose proof (local_pieces_laid_out Demo3D.base None [] []) as H.
  rewrite app_nil_r in H. exact H.
Qed.

Lemma Demo3D_heap_new (i : nat) (p : LocalModelPiece.t Demo3D.env) :
  Demo3D.heap !! i = Some p ->
  LocalModelPiece.lastMatrixUpdate p = 0 /\ LocalModelPiece.numUpdatesSynced p = 1.
Proof.
  unfold Demo3D.heap. rewrite CreateLocalModelPieces_spec. cbn [fst snd length app].
  intros Hp.
  pose proof (Forall_lookup_1 _ _ _ _ (local_pieces_new Demo3D.base 0 None) Hp) as (_ & A & B).
  split; assumption.
Qed.

Lemma DrawPieces_draws_the_model_witness :
  LocalModel.pieces Demo3D.no_pieces = []
  /\ let '(_, h', m') :=
       LocalModel.CreateLocalModelPieces Demo3D.base 0 [] Demo3D.no_pieces in
     exists tr, LocalModel.DrawPieces h' m' = Some tr
                /\ gl_lists tr = gl_lists (S3DModelPiece.DrawStatic Demo3D.base).
Proof.
  split; [reflexivity|].
  exact (DrawPieces_draws_the_model Demo3D.base 0 [] Demo3D.no_pieces eq_refl).
Defined.

Lemma SetLODCount_whole_tree_witness :
  laid_out Demo3D.heap 0 None Demo3D.base
  /\ (piece_height Demo3D.base <= 3)%nat
  /\ exists h',
       LocalModelPiece.SetLODCount 3 0 2 Demo3D.heap = Some h'
       /\ length h' = length Demo3D.heap
       /\ (forall i, (i < 0 \/ 0 + piece_count Demo3D.base <= i)%nat ->
             h' !! i = Demo3D.heap !! i)
       /\ (forall i, (0 <= i < 0 + piece_count Demo3D.base)%nat ->
             exists p l,
               Demo3D.heap !! i = Some p
               /\ h' !! i = Some (LocalModelPiece.with_lodDispLists l p)
               /\ (Z.of_nat (length (LocalModelPiece.lodDispLists p)) < UINT_MOD ->
                   l = resize (Z.to_nat 2) 0 (LocalModelPiece.lodDispLists p))).
Proof.
  assert (Hh : (piece_height Demo3D.base <= 3)%nat) by (vm_compute; lia).
  split; [exact Demo3D_heap_laid_out|]. split; [exact Hh|].
  exact (SetLODCount_whole_tree Demo3D.heap 0 None Demo3D.base 3 2
           Demo3D_heap_laid_out Hh).
Defined.

Lemma UpdateMatricesRec_brings_up_to_date_witness :
  laid_out Demo3D.heap 0 None Demo3D.base
  /\ (piece_height Demo3D.base <= 3)%nat
  /\ (forall i p, (0 <= i < 0 + piece_count Demo3D.base)%nat ->
        Demo3D.heap !! i = Some p -> matrices_clean p -> model_matrix_ok Demo3D.heap p)
  /\ exists h',
       LocalModelPiece.UpdateMatricesRec 3 0 false Demo3D.heap = Some h'
       /\ length h' = length Demo3D.heap
       /\ (forall i, (i < 0 \/ 0 + piece_count Demo3D.base <= i)%nat ->
             h' !! i = Demo3D.heap !! i)
       /\ (forall i, (0 <= i < 0 + piece_count Demo3D.base)%nat ->
             exists p p',
               Demo3D.heap !! i = Some p /\ h' !! i = Some p'
               /\ p' = LocalModelPiece.with_modelSpaceMat (LocalModelPiece.modelSpaceMat p')
                         (fst (LocalModelPiece.UpdateMatricesRec_own p false))
               /\ LocalModelPiece.lastMatrixUpdate p' = LocalModelPiece.numUpdatesSynced p'
               /\ match LocalModelPiece.parent p' with
                  | None => LocalModelPiece.modelSpaceMat p' = LocalModelPiece.pieceSpaceMat p'
                  | Some q =>
                    exists pq, h' !! q = Some pq
                               /\ LocalModelPiece.modelSpaceMat p'
                                  = Mul Demo3D.env (LocalModelPiece.pieceSpaceMat p')
                                        (LocalModelPiece.modelSpaceMat pq)
                  end).
Proof.
  assert (Hh : (piece_height Demo3D.base <= 3)%nat) by (vm_compute; lia).
  assert (Hpre : forall i p, (0 <= i < 0 + piece_count Demo3D.base)%nat ->
            Demo3D.heap !! i = Some p -> matrices_clean p ->
            model_matrix_ok Demo3D.heap p).
  { intros i p _ Hp Hcl. destruct (Demo3D_heap_new i p Hp) as [A B].
    unfold matrices_clean in Hcl. rewrite A, B in Hcl. discriminate Hcl. }
  split; [exact Demo3D_heap_laid_out|]. split; [exact Hh|]. split; [exact Hpre|].
  exact (UpdateMatricesRec_brings_up_to_date Demo3D.heap 0 None Demo3D.base 3 false
           Demo3D_heap_laid_out I Hh (fun _ => Hpre)).
Defined.

Lemma new_model_SetLODCount_witness :
  LocalModel.pieces Demo3D.no_pieces = []
  /\ let '(a, h', m') :=
       LocalModel.CreateLocalModelPieces Demo3D.base 0 [] Demo3D.no_pieces in
     exists h'',
       LocalModel.SetLODCount (piece_height Demo3D.base) 2 h' m'
       = Some (h'', LocalModel.with_lodCount 2 m')
       /\ (forall i, (i < length (@nil (LocalModelPiece.t Demo3D.env)))%nat ->
             h'' !! i = @nil (LocalModelPiece.t Demo3D.env) !! i)
       /\ forall i, (a <= i < a + piece_count Demo3D.base)%nat ->
            exists p, h'' !! i = Some p
                      /\ LocalModelPiece.lodDispLists p = replicate (Z.to_nat 2) 0.
Proof.
  split; [reflexivity|].
  exact (new_model_SetLODCount Demo3D.base 0 2 [] Demo3D.no_pieces eq_refl).
Defined.
